(** * Whimsy: polygon geometry and pathfinding

    A shallow embedding of the computational-geometry core of the Whimsy
    adventure engine: the desktop port (Point.cpp, Edge.cpp, Ring.cpp,
    Polygon.cpp, Paths.cpp) and the web port (polygon.js, heap.js, paths.js).

    Conventions.
    - Coordinates are integers (spec, data model).  A C++ [int] and a
      JavaScript number holding an integer are both modelled by [Z]; signed
      overflow is undefined behaviour in C++ and is outside the model.
    - Quotients that the web port forms with [/] on numbers, and the halved
      shoelace sum returned by [Area], are modelled by exact rationals [Q].
    - Path lengths ([float] on the desktop, doubles on the web) are elements
      of an abstract ordered group, see [Weight] below. *)

From Stdlib Require Import ZArith QArith List Bool Lia Lra Psatz Permutation Arith Sorted.
Import ListNotations.
Open Scope Z_scope.

(** ** Point.cpp / point.js *)

Record Point : Set := mkPoint { X : Z; Y : Z }.

Declare Scope point_scope.
Delimit Scope point_scope with pt.

Module Pt.

Definition add (p q : Point) : Point := mkPoint (X p + X q) (Y p + Y q).
Definition sub (p q : Point) : Point := mkPoint (X p - X q) (Y p - Y q).
Definition neg (p : Point) : Point := mkPoint (- X p) (- Y p).
Definition mul (p : Point) (s : Z) : Point := mkPoint (X p * s) (Y p * s).
(* C++ integer division truncates toward zero. *)
Definition div (p : Point) (s : Z) : Point := mkPoint (X p ÷ s) (Y p ÷ s).

Definition Dot (p q : Point) : Z := X p * X q + Y p * Y q.
Definition Cross (p q : Point) : Z := X p * Y q - Y p * X q.
Definition LengthSquared (p : Point) : Z := Dot p p.
Definition DistanceSquared (p q : Point) : Z := LengthSquared (sub q p).

Definition eqb (p q : Point) : bool := (X p =? X q) && (Y p =? Y q).

Lemma eqb_eq p q : eqb p q = true <-> p = q.
Proof.
  destruct p as [a b], q as [c d]; unfold eqb; cbn.
  rewrite andb_true_iff, !Z.eqb_eq. split.
  - intros [-> ->]; reflexivity.
  - intros H; injection H; auto.
Qed.

Lemma eqb_refl p : eqb p p = true.
Proof. apply eqb_eq; reflexivity. Qed.

End Pt.

Notation "p +p q" := (Pt.add p q) (at level 50, left associativity) : point_scope.
Notation "p -p q" := (Pt.sub p q) (at level 50, left associativity) : point_scope.
Open Scope point_scope.

(** Boolean comparisons on rationals, as the web port's [<], [<=], [===]. *)
Definition Qleb (a b : Q) : bool := Qle_bool a b.
Definition Qltb (a b : Q) : bool := negb (Qle_bool b a).
Definition Qeqb (a b : Q) : bool := Qeq_bool a b.

Lemma Qleb_le a b : Qleb a b = true <-> (a <= b)%Q.
Proof. apply Qle_bool_iff. Qed.

Lemma Qltb_lt a b : Qltb a b = true <-> (a < b)%Q.
Proof.
  unfold Qltb. rewrite negb_true_iff. split; intros H.
  - apply Qnot_le_lt. intros Hle. apply Qle_bool_iff in Hle. congruence.
  - destruct (Qle_bool b a) eqn:E; [|reflexivity].
    apply Qle_bool_iff in E. exfalso. apply (Qlt_not_le _ _ H E).
Qed.

Lemma Qeqb_eq a b : Qeqb a b = true <-> (a == b)%Q.
Proof. apply Qeq_bool_iff. Qed.

(** ** The desktop port: Edge.cpp, Ring.cpp *)

Module Desktop.

(** A Ring is a [vector<Point>]; the closing edge is implicit. *)
Definition Ring := list Point.
Definition Polygon := list Ring.

(** One position of the [Edge] iterator. *)
Record Edge : Set := mkEdge {
  Start : Point;
  End : Point;
  Vector : Point;
  Order : Z
}.

(** [Edge::operator++], unrolled: the iterator starts on the edge from
    [ring.back()] to [ring.front()] with order 0, and every increment adds
    the squared length of the edge it leaves. *)
Fixpoint edges_from (start : Point) (order : Z) (pts : list Point) : list Edge :=
  match pts with
  | [] => []
  | p :: rest =>
      let v := p -p start in
      mkEdge start p v order :: edges_from p (order + Pt.Dot v v) rest
  end.

Fixpoint order_after (start : Point) (order : Z) (pts : list Point) : Z :=
  match pts with
  | [] => order
  | p :: rest => let v := p -p start in order_after p (order + Pt.Dot v v) rest
  end.

(** "Make sure the ring is not empty before calling this constructor": the
    iterator over an empty ring is given no edges. *)
Definition back (ring : Ring) : Point := last ring (mkPoint 0 0).
Definition front (ring : Ring) : Point := hd (mkPoint 0 0) ring.

Definition edges (ring : Ring) : list Edge := edges_from (back ring) 0 ring.

(** [MaxOrder] in Polygon.cpp. *)
Definition MaxOrder (ring : Ring) : Z := order_after (back ring) 0 ring.

(** [Ring::Area]: the [int64_t] shoelace sum, halved. *)
Definition Area2 (ring : Ring) : Z :=
  fold_left (fun acc e => acc + Pt.Cross (Start e) (End e)) (edges ring) 0.

Definition Area (ring : Ring) : Q := (1 # 2) * inject_Z (Area2 ring).

Definition IsHole (ring : Ring) : bool := Qltb (Area ring) 0.

Definition Reverse (ring : Ring) : Ring := rev ring.

(** [Ring::Winding]: the pair (winding, border). *)
Definition Winding_step (point : Point) (acc : Z * Z) (e : Edge) : Z * Z :=
  let '(winding, border) := acc in
  let startsBelow := Y (Start e) <=? Y point in
  let endsBelow := Y (End e) <=? Y point in
  if Bool.eqb startsBelow endsBelow then acc
  else
    let cross := Pt.Cross (Vector e) (point -p Start e) in
    let winding := winding + Z.b2z (negb endsBelow && (0 <? cross)) in
    let winding := winding - Z.b2z (endsBelow && (cross <=? 0)) in
    (winding, border + Z.b2z (cross =? 0)).

Definition Winding (ring : Ring) (point : Point) : Z * Z :=
  fold_left (Winding_step point) (edges ring) (0, 0).

(** [Ring::Contains(Point)] returns the winding number converted to bool. *)
Definition Contains (ring : Ring) (point : Point) : bool :=
  negb (fst (Winding ring point) =? 0).

(** [Ring::Contains(const Ring &)]. *)
Definition ContainsRing (this ring : Ring) : bool :=
  let result := Winding this (front ring) in
  negb (fst result =? 0) &&
  ((snd result =? 0) || Qltb (Area ring) (Area this)).

(** [Ring::ConcavePoints]. *)
Fixpoint ConcavePoints_loop (prev here : Point) (pts : list Point) : list Point :=
  match pts with
  | [] => []
  | next :: rest =>
      (if Pt.Cross (here -p prev) (next -p prev) <? 0 then [here] else [])
      ++ ConcavePoints_loop here next rest
  end.

Definition ConcavePoints (ring : Ring) : list Point :=
  if (length ring <? 3)%nat then ring
  else ConcavePoints_loop (nth (length ring - 2) ring (mkPoint 0 0)) (back ring) ring.

(** *** Polygon.cpp *)

(** [Polygon::Contains]. *)
Fixpoint Polygon_Contains_loop (parts : Polygon) (point : Point) (winding : Z) : bool :=
  match parts with
  | [] => negb (winding =? 0)
  | part :: rest =>
      let result := Winding part point in
      if negb (snd result =? 0) then true
      else Polygon_Contains_loop rest point (winding + fst result)
  end.

Definition Polygon_Contains (this : Polygon) (point : Point) : bool :=
  Polygon_Contains_loop this point 0.

(** The body of the edge loop of [Polygon::Intersects]. *)
Definition Intersects_edge (start qV : Point) (p : Edge) : bool :=
  let cross := Pt.Cross (Vector p) qV in
  if cross =? 0 then false
  else
    let d := start -p Start p in
    let pT := Pt.Cross d qV in
    let qT := Pt.Cross d (Vector p) in
    let '(cross, pT, qT) :=
      if cross <? 0 then (- cross, - pT, - qT) else (cross, pT, qT) in
    (0 <? qT) && (qT <? cross) && (0 <=? pT) && (pT <=? cross).

Definition Intersects (this : Polygon) (start end_ : Point) : bool :=
  let qV := end_ -p start in
  existsb (fun part => existsb (Intersects_edge start qV) (edges part)) this.

(** [Polygon::FloodFill]. *)
Definition FloodFill_smallest_step (areas : list Q) (this : Polygon) (point : Point)
    (acc : bool * nat) (i : nat) : bool * nat :=
  let '(keepCount, smallestI) := acc in
  if Qltb 0 (nth i areas 0%Q)
     && Contains (nth i this []) point
     && (negb keepCount || Qltb (nth i areas 0%Q) (nth smallestI areas 0%Q))
  then (true, i) else acc.

Definition FloodFill_nested (areas : list Q) (this : Polygon) (i : nat) : bool :=
  existsb (fun j => Qltb (nth j areas 0%Q) (nth i areas 0%Q)
                    && Contains (nth j this []) (front (nth i this [])))
          (seq 0 (length this)).

Definition FloodFill (this : Polygon) (point : Point) : Polygon :=
  let areas := map Area this in
  let '(keepCount, smallestI) :=
    fold_left (FloodFill_smallest_step areas this point) (seq 0 (length this)) (false, 0%nat) in
  if negb keepCount then []
  else
    let smallest := nth smallestI this [] in
    let keep i :=
      (i =? smallestI)%nat
      || (Qltb (nth i areas 0%Q) 0 && ContainsRing smallest (nth i this [])
          && negb (FloodFill_nested areas this i)) in
    map (fun i => nth i this []) (filter keep (seq 0 (length this))).

(** *** Polygon::Add *)

(** The [Intersection] class of Polygon.cpp. *)
Record Intersection : Set := mkIntersection {
  point : Point;
  order : Z;
  index : Z;
  entering : bool
}.

(** The [Vertex] class: a point with a link ([-1]: none, [-2]: consumed). *)
Record Vertex : Set := mkVertex { vpoint : Point; link : Z }.

(** [Sort]: [std::sort] with [operator<] comparing [order]; modelled by a
    stable insertion sort (the standard leaves the order of ties open). *)
Fixpoint insert_sorted (i : Intersection) (l : list Intersection) : list Intersection :=
  match l with
  | [] => [i]
  | h :: t => if order h <? order i then h :: insert_sorted i t else i :: l
  end.

Definition Sort (l : list Intersection) : list Intersection :=
  fold_right insert_sorted [] l.

(** [RemoveDoubles]: of every run of intersections with one order value the
    first is kept if the entering flags of the run all agree, and the whole
    run is dropped otherwise. *)
Definition RemoveDoubles_flush (cur : option (Intersection * Z * Z)) : list Intersection :=
  match cur with
  | None => []
  | Some (first, entering_, total) =>
      if (entering_ =? 0) || (entering_ =? total) then [first] else []
  end.

Fixpoint RemoveDoubles_loop (cur : option (Intersection * Z * Z))
    (l : list Intersection) : list Intersection :=
  match l with
  | [] => RemoveDoubles_flush cur
  | i :: rest =>
      match cur with
      | Some (first, entering_, total) =>
          if order i =? order first
          then RemoveDoubles_loop (Some (first, entering_ + Z.b2z (entering i), total + 1)) rest
          else RemoveDoubles_flush cur
               ++ RemoveDoubles_loop (Some (i, Z.b2z (entering i), 1)) rest
      | None => RemoveDoubles_loop (Some (i, Z.b2z (entering i), 1)) rest
      end
  end.

Definition RemoveDoubles (l : list Intersection) : list Intersection :=
  RemoveDoubles_loop None l.

(** Step 1, the test of one edge [p] of a part against one edge [q] of the
    added ring. *)
Definition intersect_edges (isHole : bool) (pMaxOrder qMaxOrder : Z) (p q : Edge)
    : list Intersection :=
  let cross := Pt.Cross (Vector p) (Vector q) in
  if cross =? 0 then []
  else
    let d := Start q -p Start p in
    let pT := Pt.Cross d (Vector q) in
    let qT := Pt.Cross d (Vector p) in
    let entering_ := xorb (0 <? cross) isHole in
    let '(cross, pT, qT) :=
      if cross <? 0 then (- cross, - pT, - qT) else (cross, pT, qT) in
    if (0 <=? qT) && (qT <=? cross) && (0 <=? pT) && (pT <=? cross) then
      let dP := mkPoint (pT * X (Vector p) ÷ cross) (pT * Y (Vector p) ÷ cross) in
      let dQ := mkPoint (qT * X (Vector q) ÷ cross) (qT * Y (Vector q) ÷ cross) in
      [mkIntersection (Start p +p dP)
         (Z.rem (Order p + Pt.Dot dP dP) pMaxOrder)
         (Z.rem (Order q + Pt.Dot dQ dQ) qMaxOrder)
         entering_]
    else [].

Definition find_intersections (part ring : Ring) : list Intersection :=
  let isHole := IsHole ring in
  let pMaxOrder := MaxOrder part in
  let qMaxOrder := MaxOrder ring in
  flat_map (fun p => flat_map (intersect_edges isHole pMaxOrder qMaxOrder p) (edges ring))
           (edges part).

(** The intersections of a part that survive sorting and [RemoveDoubles]. *)
Definition surviving (part ring : Ring) : list Intersection :=
  RemoveDoubles (Sort (find_intersections part ring)).

(** The state threaded through the loop over the parts of P. *)
Record AddState : Set := mkAddState {
  result : Polygon;
  qIntersections : list Intersection;
  amplified : list Vertex;
  smallestContainer : option Ring
}.

Definition it_order (sentinel : Z) (it : list Intersection) : Z :=
  match it with [] => sentinel | i :: _ => order i end.

(** The inner [for(++p; it->order < p.Order(); ++it)] of the amplification
    of a part; [nextOrder] is [p.Order()] after the increment. *)
Fixpoint amplify_part_inner (nextOrder : Z) (it : list Intersection) (wasEntering : bool)
    (qInts : list Intersection) (amp : list Vertex)
    : list Intersection * bool * list Intersection * list Vertex :=
  match it with
  | [] => (it, wasEntering, qInts, amp)
  | i :: rest =>
      if order i <? nextOrder then
        if Bool.eqb (entering i) wasEntering
        then amplify_part_inner nextOrder rest wasEntering qInts amp
        else amplify_part_inner nextOrder rest (entering i)
               (qInts ++ [mkIntersection (point i) (index i) (Z.of_nat (length amp)) (entering i)])
               (amp ++ [mkVertex (point i) (-1)])
      else (it, wasEntering, qInts, amp)
  end.

Fixpoint amplify_part_outer (maxOrder : Z) (es : list Edge) (it : list Intersection)
    (wasEntering : bool) (qInts : list Intersection) (amp : list Vertex)
    : list Intersection * list Vertex :=
  match es with
  | [] => (qInts, amp)
  | p :: es' =>
      let amp := if it_order maxOrder it =? Order p then amp
                 else amp ++ [mkVertex (Start p) (-1)] in
      let nextOrder := match es' with [] => maxOrder | p' :: _ => Order p' end in
      let '(it, wasEntering, qInts, amp) :=
        amplify_part_inner nextOrder it wasEntering qInts amp in
      amplify_part_outer maxOrder es' it wasEntering qInts amp
  end.

Definition vertex_at (amp : list Vertex) (i : Z) : option Vertex :=
  if i <? 0 then None else nth_error amp (Z.to_nat i).

Fixpoint set_link_nat (amp : list Vertex) (i : nat) (l : Z) : list Vertex :=
  match amp, i with
  | [], _ => []
  | v :: rest, O => mkVertex (vpoint v) l :: rest
  | v :: rest, S i' => v :: set_link_nat rest i' l
  end.

Definition set_link (amp : list Vertex) (i : Z) (l : Z) : list Vertex :=
  if i <? 0 then amp else set_link_nat amp (Z.to_nat i) l.

Definition close_amplified (amp : list Vertex) (start : nat) : list Vertex :=
  amp ++ [mkVertex (match nth_error amp start with
                    | Some v => vpoint v
                    | None => mkPoint 0 0
                    end) (Z.of_nat start)].

(** One iteration of the loop over the parts of P (step 1). *)
Definition Add_part (ring : Ring) (st : AddState) (part : Ring) : AddState :=
  let pIntersections := surviving part ring in
  match pIntersections with
  | [] =>
      if negb (ContainsRing ring part) then
        mkAddState (result st ++ [part]) (qIntersections st) (amplified st)
          (if ContainsRing part ring
              && match smallestContainer st with
                 | None => true
                 | Some c => ContainsRing c part
                 end
           then Some part else smallestContainer st)
      else st
  | i0 :: _ =>
      let pMaxOrder := MaxOrder part in
      let pIndex := length (amplified st) in
      let wasEntering := entering (last pIntersections i0) in
      let withSentinel := pIntersections ++ [mkIntersection (mkPoint 0 0) pMaxOrder 0 false] in
      let '(qInts, amp) :=
        amplify_part_outer pMaxOrder (edges part) withSentinel wasEntering
          (qIntersections st) (amplified st) in
      mkAddState (result st) qInts (close_amplified amp pIndex) (smallestContainer st)
  end.

(** Step 2, the amplification of Q. *)
Fixpoint amplify_ring_inner (nextOrder : Z) (it : list Intersection)
    (enteringIndices : list Z) (amp : list Vertex)
    : list Intersection * list Z * list Vertex :=
  match it with
  | [] => (it, enteringIndices, amp)
  | i :: rest =>
      if order i <? nextOrder then
        let size := Z.of_nat (length amp) in
        let enteringIndices :=
          if entering i then enteringIndices ++ [size] else enteringIndices in
        let amp := if negb (entering i) then set_link amp (index i) size else amp in
        let amp := amp ++ [mkVertex (point i) (if entering i then index i else -1)] in
        amplify_ring_inner nextOrder rest enteringIndices amp
      else (it, enteringIndices, amp)
  end.

Fixpoint amplify_ring_outer (maxOrder : Z) (es : list Edge) (it : list Intersection)
    (enteringIndices : list Z) (amp : list Vertex) : list Z * list Vertex :=
  match es with
  | [] => (enteringIndices, amp)
  | q :: es' =>
      let amp := if it_order maxOrder it =? Order q then amp
                 else amp ++ [mkVertex (Start q) (-1)] in
      let nextOrder := match es' with [] => maxOrder | q' :: _ => Order q' end in
      let '(it, enteringIndices, amp) :=
        amplify_ring_inner nextOrder it enteringIndices amp in
      amplify_ring_outer maxOrder es' it enteringIndices amp
  end.

(** Step 3, the [do ... while(j != index)] trace of one output ring.  An
    index outside [amplified] is undefined behaviour in the source and is
    [None] here, like a trace longer than the fuel. *)
Fixpoint trace (fuel : nat) (amp : list Vertex) (start j : Z) (out : Ring)
    : option (list Vertex * Ring) :=
  match fuel with
  | O => None
  | S fuel' =>
      match vertex_at amp j with
      | None => None
      | Some vertex =>
          let '(amp, j, out) :=
            if 0 <=? link vertex
            then (set_link amp j (-2), link vertex, out)
            else (amp, j + 1, out ++ [vpoint vertex]) in
          if j =? start then Some (amp, out) else trace fuel' amp start j out
      end
  end.

Fixpoint trace_all (fuel : nat) (enteringIndices : list Z) (amp : list Vertex)
    (res : Polygon) : option Polygon :=
  match enteringIndices with
  | [] => Some res
  | i :: rest =>
      match vertex_at amp i with
      | None => None
      | Some vertex =>
          if link vertex <? 0 then trace_all fuel rest amp res
          else
            match trace fuel amp i i [] with
            | None => None
            | Some (amp, out) =>
                trace_all fuel rest amp
                  (if (length out <? 3)%nat then res else res ++ [out])
            end
      end
  end.

(** [Polygon::Add]: the new value of [*this]. *)
Definition Add (this : Polygon) (ring : Ring) : option Polygon :=
  let st := fold_left (Add_part ring) this (mkAddState [] [] [] None) in
  match qIntersections st with
  | [] =>
      let containerIsHole :=
        match smallestContainer st with
        | None => true
        | Some c => IsHole c
        end in
      Some (if negb (Bool.eqb containerIsHole (IsHole ring))
            then result st ++ [ring] else result st)
  | _ :: _ =>
      let qInts := Sort (qIntersections st) in
      let qMaxOrder := MaxOrder ring in
      let qIndex := length (amplified st) in
      let withSentinel := qInts ++ [mkIntersection (mkPoint 0 0) qMaxOrder 0 false] in
      let '(enteringIndices, amp) :=
        amplify_ring_outer qMaxOrder (edges ring) withSentinel [] (amplified st) in
      let amp := close_amplified amp qIndex in
      trace_all (S (length amp) * S (length amp)) enteringIndices amp (result st)
  end.

End Desktop.

(** ** The web port: polygon.js *)

Module Web.

(** A ring is a flat array [x, y, dx, dy, x, y, dx, dy, ...]; each group of
    four numbers is one vertex with the vector of the edge leaving it. *)
Record Edge : Set := mkEdge { x : Z; y : Z; dx : Z; dy : Z }.
Definition Ring := list Edge.
Definition Polygon := list Ring.

(** [expand(points)]: callers only pass non-empty vertex lists. *)
Fixpoint expand_from (first start : Point) (pts : list Point) : Ring :=
  match pts with
  | [] => [mkEdge (X start) (Y start) (X first - X start) (Y first - Y start)]
  | e :: rest =>
      mkEdge (X start) (Y start) (X e - X start) (Y e - Y start)
      :: expand_from first e rest
  end.

Definition expand (points : list Point) : Ring :=
  match points with
  | [] => []
  | p :: rest => expand_from p p rest
  end.

(** [area(ring)]. *)
Definition area2 (ring : Ring) : Z :=
  fold_left (fun acc e => acc + (x e * dy e - y e * dx e)) ring 0.

Definition area (ring : Ring) : Q := (1 # 2) * inject_Z (area2 ring).

Definition isHole (ring : Ring) : bool := Qltb (area ring) 0.

(** [windingNumber(ring, px, py)]: the object {winding, border}. *)
Definition windingNumber_step (px py : Z) (acc : Z * Z) (e : Edge) : Z * Z :=
  let '(winding, border) := acc in
  if dy e =? 0 then
    if y e =? py then
      (winding,
       border + Z.b2z ((x e + Z.min 0 (dx e) <=? px) && (px <=? x e + Z.max 0 (dx e))))
    else acc
  else
    let startsBelow := y e <=? py in
    let endsBelow := y e + dy e <=? py in
    if Bool.eqb startsBelow endsBelow then acc
    else
      let cross := (px - x e) * dy e - (py - y e) * dx e in
      let winding := winding + Z.b2z (negb endsBelow && (cross <=? 0)) in
      let winding := winding - Z.b2z (endsBelow && (0 <? cross)) in
      (winding, border + Z.b2z (cross =? 0)).

Definition windingNumber (ring : Ring) (px py : Z) : Z * Z :=
  fold_left (windingNumber_step px py) ring (0, 0).

(** [contains(ring, point)]: [winding || border], read as a truth value. *)
Definition contains (ring : Ring) (point : Point) : bool :=
  let result := windingNumber ring (X point) (Y point) in
  negb (fst result =? 0) || negb (snd result =? 0).

(** [ringContainsRing(ring, other)]; [other[0]], [other[1]] is the first
    vertex of [other]. *)
Definition ringContainsRing (ring other : Ring) : bool :=
  match other with
  | [] => false
  | o :: _ =>
      let result := windingNumber ring (x o) (y o) in
      negb (fst result =? 0) &&
      ((snd result =? 0) || Qltb (area other) (area ring))
  end.

(** *** The Polygon class *)

(** [Polygon.contains(point)]. *)
Fixpoint Polygon_contains_loop (rings : Polygon) (point : Point) (winding : Z) : bool :=
  match rings with
  | [] => negb (winding =? 0)
  | ring :: rest =>
      let result := windingNumber ring (X point) (Y point) in
      if negb (snd result =? 0) then true
      else Polygon_contains_loop rest point (winding + fst result)
  end.

Definition Polygon_contains (rings : Polygon) (point : Point) : bool :=
  Polygon_contains_loop rings point 0.

(** The body of the edge loop of [Polygon.intersects], after [pCross] and
    [prev] have been updated: does this iteration return true? *)
Definition intersects_edge (start end_ vector : Point) (pCross : Z) (e : Edge) : bool :=
  let cross := dx e * Y vector - dy e * X vector in
  if (X start =? x e) && (Y start =? y e) then (pCross <? 0) && (cross <? 0)
  else if (X end_ =? x e) && (Y end_ =? y e) then (0 <? pCross) && (0 <? cross)
  else if cross =? 0 then false
  else
    let ddx := X start - x e in
    let ddy := Y start - y e in
    let segT := (inject_Z (ddx * dy e - ddy * dx e) / inject_Z cross)%Q in
    let edgeT := (inject_Z (ddx * Y vector - ddy * X vector) / inject_Z cross)%Q in
    if Qltb edgeT 0 || Qltb 1 edgeT || Qltb segT 0 || Qltb 1 segT then false
    else if Qltb 0 segT && Qltb segT 1 then true
    else negb (Qeqb edgeT 0) && negb (Qeqb edgeT 1)
         && Bool.eqb (Qeqb segT 0) (cross <? 0).

Fixpoint intersects_ring (start end_ vector : Point) (prev : Z) (ring : Ring) : bool :=
  match ring with
  | [] => false
  | e :: rest =>
      let cross := dx e * Y vector - dy e * X vector in
      intersects_edge start end_ vector prev e
      || intersects_ring start end_ vector cross rest
  end.

Definition first_prev (vector : Point) (ring : Ring) : Z :=
  match ring with
  | [] => 0
  | e0 :: _ =>
      let el := last ring e0 in
      (x e0 - x el) * Y vector - (y e0 - y el) * X vector
  end.

Definition intersects (rings : Polygon) (start end_ : Point) : bool :=
  let vector := end_ -p start in
  existsb (fun ring => intersects_ring start end_ vector (first_prev vector ring) ring) rings.

(** [Polygon.floodFill(point)]; [smallestI < 0] is [None]. *)
Definition floodFill_smallest_step (areas : list Q) (rings : Polygon) (point : Point)
    (smallestI : option nat) (i : nat) : option nat :=
  if Qltb 0 (nth i areas 0%Q)
     && contains (nth i rings []) point
     && match smallestI with
        | None => true
        | Some s => Qltb (nth i areas 0%Q) (nth s areas 0%Q)
        end
  then Some i else smallestI.

Definition floodFill_nested (areas : list Q) (rings : Polygon) (i : nat) : bool :=
  existsb (fun j => Qltb (nth j areas 0%Q) (nth i areas 0%Q)
                    && ringContainsRing (nth j rings []) (nth i rings []))
          (seq 0 (length areas)).

Definition floodFill (rings : Polygon) (point : Point) : Polygon :=
  let areas := map area rings in
  match fold_left (floodFill_smallest_step areas rings point) (seq 0 (length areas)) None with
  | None => []
  | Some smallestI =>
      let smallest := nth smallestI rings [] in
      let hole i :=
        Qltb (nth i areas 0%Q) 0 && ringContainsRing smallest (nth i rings [])
        && negb (floodFill_nested areas rings i) in
      smallest :: map (fun i => nth i rings []) (filter hole (seq 0 (length areas)))
  end.

(** *** Polygon._union *)

(** An entry of [pIntersections]: [{point, order, qOrder, entering}].  The
    coordinates of an intersection point and the order values are quotients. *)
Record PIntersection : Set := mkPIntersection {
  point : Q * Q;
  order : Q;
  qOrder : Q;
  entering : bool
}.

(** An entry of [qIntersections]: [{point, order, index, entering}]. *)
Record QIntersection : Set := mkQIntersection {
  qpoint : Q * Q;
  qorder : Q;
  qindex : nat;
  qentering : bool
}.

(** One group [link, x, y] of the flat array [amplified]; a link and the
    indices kept in [qIntersections] and [enteringIndices] count groups
    here, where the source counts numbers (three to a group). *)
Record Link : Set := mkLink { link : Z; lx : Q; ly : Q }.

(** The [%] of two numbers: the remainder has the sign of the dividend. *)
Definition Qrem (a b : Q) : Q :=
  let q := (a / b)%Q in
  (a - b * inject_Z (Qnum q ÷ Zpos (Qden q)))%Q.

(** The body of the two loops over [pi] and [qi]; [pk] and [qk] are
    [pi * 0.25] and [qi * 0.25], [pn] and [qn] are [part.length * 0.25] and
    [ring.length * 0.25]. *)
Definition intersect_edges (qIsHole : bool) (pn qn : Z) (pk : Z) (p : Edge)
    (qk : Z) (q : Edge) : list PIntersection :=
  let cross := dx p * dy q - dy p * dx q in
  if cross =? 0 then []
  else
    let ddx := x q - x p in
    let ddy := y q - y p in
    let pC := ddx * dy q - ddy * dx q in
    let pT := (inject_Z pC / inject_Z cross)%Q in
    if Qltb pT 0 || Qltb 1 pT then []
    else
      let qC := ddx * dy p - ddy * dx p in
      let qT := (inject_Z qC / inject_Z cross)%Q in
      if Qltb qT 0 || Qltb 1 qT then []
      else
        [mkPIntersection
           ((inject_Z (x p) + inject_Z (dx p * pC) / inject_Z cross)%Q,
            (inject_Z (y p) + inject_Z (dy p * pC) / inject_Z cross)%Q)
           (Qrem (inject_Z pk + pT) (inject_Z pn))
           (Qrem (inject_Z qk + qT) (inject_Z qn))
           (negb (Bool.eqb (0 <? cross) qIsHole))].

(** A ring with the position of each of its edges. *)
Definition indexed (ring : Ring) : list (Z * Edge) :=
  combine (map Z.of_nat (seq 0 (length ring))) ring.

Definition find_intersections (part ring : Ring) : list PIntersection :=
  let qIsHole := isHole ring in
  let pn := Z.of_nat (length part) in
  let qn := Z.of_nat (length ring) in
  flat_map (fun p =>
              flat_map (fun q => intersect_edges qIsHole pn qn (fst p) (snd p) (fst q) (snd q))
                       (indexed ring))
           (indexed part).

(** [Array.prototype.sort] with a comparator that subtracts the keys: a
    stable sort in ascending order of the key. *)
Section Sort.

Context {A : Type} (key : A -> Q).

Fixpoint insert_sorted (i : A) (l : list A) : list A :=
  match l with
  | [] => [i]
  | h :: t => if Qltb (key h) (key i) then h :: insert_sorted i t else i :: l
  end.

Definition sort (l : list A) : list A := fold_right insert_sorted [] l.

End Sort.

(** [removeDoubles], first loop: of every run of intersections with one
    order value the first is kept if the entering flags of the run all
    agree, and the whole run is dropped otherwise. *)
Definition removeDoubles_flush (cur : option (PIntersection * Z * Z)) : list PIntersection :=
  match cur with
  | None => []
  | Some (first, entering_, total) =>
      if (entering_ =? 0) || (entering_ =? total) then [first] else []
  end.

Fixpoint removeDoubles_runs (cur : option (PIntersection * Z * Z))
    (l : list PIntersection) : list PIntersection :=
  match l with
  | [] => removeDoubles_flush cur
  | i :: rest =>
      match cur with
      | Some (first, entering_, total) =>
          if Qeqb (order i) (order first)
          then removeDoubles_runs (Some (first, entering_ + Z.b2z (entering i), total + 1)) rest
          else removeDoubles_flush cur
               ++ removeDoubles_runs (Some (i, Z.b2z (entering i), 1)) rest
      | None => removeDoubles_runs (Some (i, Z.b2z (entering i), 1)) rest
      end
  end.

(** [removeDoubles], second loop: an intersection is kept when its entering
    flag differs from [wasEntering], which then flips. *)
Fixpoint removeDoubles_trim (wasEntering : bool) (l : list PIntersection)
    : list PIntersection :=
  match l with
  | [] => []
  | i :: rest =>
      if Bool.eqb (entering i) wasEntering then removeDoubles_trim wasEntering rest
      else i :: removeDoubles_trim (negb wasEntering) rest
  end.

Definition removeDoubles (l : list PIntersection) : list PIntersection :=
  match removeDoubles_runs None l with
  | [] => []
  | i0 :: rest => removeDoubles_trim (entering (last rest i0)) (i0 :: rest)
  end.

(** The intersections of a part that are left after the sort and
    [removeDoubles]. *)
Definition surviving (part ring : Ring) : list PIntersection :=
  removeDoubles (sort order (find_intersections part ring)).

(** [amplify(vertices, intersections, amplified, fun)]; [fun] changes
    [amplified] and the arrays that it captures, the state [X]. *)
Section Amplify.

Context {A X : Type} (ord : A -> Q) (callback : A -> X * list Link -> X * list Link).

(** The inner [for ( ; index * 0.25 <= it.order; index += 4)]; [k] is
    [index * 0.25] and [vs] are the vertices from [index] on.  An order is
    below the number of vertices, so the loop ends inside the array. *)
Fixpoint amplify_skip (ord_it : Q) (k : Z) (vs : Ring) (amp : list Link)
    : Z * Ring * list Link :=
  match vs with
  | [] => (k, vs, amp)
  | v :: rest =>
      if Qleb (inject_Z k) ord_it then
        amplify_skip ord_it (k + 1) rest
          (if Qeqb (inject_Z k) ord_it then amp
           else amp ++ [mkLink (-1) (inject_Z (x v)) (inject_Z (y v))])
      else (k, vs, amp)
  end.

Fixpoint amplify_loop (its : list A) (k : Z) (vs : Ring) (st : X * list Link)
    : X * list Link :=
  match its with
  | [] => (fst st, snd st ++ map (fun v => mkLink (-1) (inject_Z (x v)) (inject_Z (y v))) vs)
  | it :: rest =>
      let '(k, vs, amp) := amplify_skip (ord it) k vs (snd st) in
      amplify_loop rest k vs (callback it (fst st, amp))
  end.

Definition amplify (vertices : Ring) (its : list A) (st : X * list Link) : X * list Link :=
  let start := length (snd st) in
  let st := amplify_loop its 0 vertices st in
  (fst st, snd st ++ [mkLink (Z.of_nat start) 0 0]).

End Amplify.

(** The state threaded through the loop over the parts of P. *)
Record UnionState : Set := mkUnionState {
  result : Polygon;
  qIntersections : list QIntersection;
  amplified : list Link;
  smallestContainer : option Ring
}.

(** The callback of step 1. *)
Definition part_callback (it : PIntersection) (st : list QIntersection * list Link)
    : list QIntersection * list Link :=
  (fst st ++ [mkQIntersection (point it) (qOrder it) (length (snd st)) (entering it)],
   snd st ++ [mkLink (-1) (fst (point it)) (snd (point it))]).

(** One iteration of the loop over the parts of P (step 1). *)
Definition union_part (ring : Ring) (st : UnionState) (part : Ring) : UnionState :=
  let pIntersections := surviving part ring in
  match pIntersections with
  | [] =>
      if negb (ringContainsRing ring part) then
        mkUnionState (result st ++ [part]) (qIntersections st) (amplified st)
          (if ringContainsRing part ring
              && match smallestContainer st with
                 | None => true
                 | Some c => ringContainsRing c part
                 end
           then Some part else smallestContainer st)
      else st
  | _ :: _ =>
      let '(qInts, amp) :=
        amplify order part_callback part pIntersections
          (qIntersections st, amplified st) in
      mkUnionState (result st) qInts amp (smallestContainer st)
  end.

(** [amplified[i] = v] for an index inside the array. *)
Fixpoint set_link (amp : list Link) (i : nat) (v : Z) : list Link :=
  match amp, i with
  | [], _ => []
  | l :: rest, O => mkLink v (lx l) (ly l) :: rest
  | l :: rest, S i' => l :: set_link rest i' v
  end.

(** The callback of step 2. *)
Definition ring_callback (it : QIntersection) (st : list nat * list Link)
    : list nat * list Link :=
  let size := length (snd st) in
  let enteringIndices := if qentering it then fst st ++ [size] else fst st in
  let amp := if qentering it then snd st else set_link (snd st) (qindex it) (Z.of_nat size) in
  (enteringIndices,
   amp ++ [mkLink (if qentering it then Z.of_nat (qindex it) else -1)
                  (fst (qpoint it)) (snd (qpoint it))]).

(** [tracePolygon(amplified, index)].  A read past the end of the array
    yields [undefined], after which [j] only grows: the loop of the source
    does not end, like a trace longer than the fuel here. *)
Fixpoint tracePolygon (fuel : nat) (amp : list Link) (start j : nat) (out : list (Q * Q))
    : option (list Link * list (Q * Q)) :=
  match fuel with
  | O => None
  | S fuel' =>
      match nth_error amp j with
      | None => None
      | Some l =>
          let '(amp, j, out) :=
            if 0 <=? link l
            then (set_link amp j (-1), Z.to_nat (link l), out)
            else (amp, S j, out ++ [(lx l, ly l)]) in
          if (j =? start)%nat then Some (amp, out) else tracePolygon fuel' amp start j out
      end
  end.

(** Step 3: the vertex lists of the traced rings, before [expand]. *)
Fixpoint trace_all (fuel : nat) (enteringIndices : list nat) (amp : list Link)
    (traced : list (list (Q * Q))) : option (list (list (Q * Q))) :=
  match enteringIndices with
  | [] => Some traced
  | i :: rest =>
      match nth_error amp i with
      | None => None
      | Some l =>
          if link l <? 0 then trace_all fuel rest amp traced
          else
            match tracePolygon fuel amp i i [] with
            | None => None
            | Some (amp, out) =>
                trace_all fuel rest amp
                  (if (3 <=? length out)%nat then traced ++ [out] else traced)
            end
      end
  end.

(** What [_union] leaves in [this._rings]: the copied parts, followed by Q
    itself when nothing crosses, or else by the traced rings, whose vertices
    are intersection points with quotients for coordinates and are given
    here as the vertex lists handed to [expand]. *)
Inductive Union : Type :=
| Rings (rings : Polygon)
| Traced (copied : Polygon) (traced : list (list (Q * Q))).

(** [Polygon._union(ring)]; [None] when a trace does not end. *)
Definition _union (this : Polygon) (ring : Ring) : option Union :=
  let qIsHole := isHole ring in
  let st := fold_left (union_part ring) this (mkUnionState [] [] [] None) in
  match qIntersections st with
  | [] =>
      let containerIsHole :=
        match smallestContainer st with
        | None => true
        | Some c => isHole c
        end in
      Some (Rings (if negb (Bool.eqb containerIsHole qIsHole)
                   then result st ++ [ring] else result st))
  | _ :: _ =>
      let qInts := sort qorder (qIntersections st) in
      let '(enteringIndices, amp) :=
        amplify qorder ring_callback ring qInts ([], amplified st) in
      option_map (Traced (result st))
        (trace_all (S (length amp) * S (length amp)) enteringIndices amp [])
  end.

End Web.

(** ** Path lengths

    Distances are [float]s on the desktop and doubles on the web.  The model
    takes them from an ordered group with decidable comparisons, and takes the
    Euclidean distance function as a parameter [dist]. *)

Class Weight : Type := {
  W : Type;
  wzero : W;
  wadd : W -> W -> W;
  wsub : W -> W -> W;
  wleb : W -> W -> bool;
  wltb : W -> W -> bool
}.

(** A length or [Infinity]. *)
Inductive ext {Wt : Weight} : Type :=
| Fin (w : W)
| Infinity.

(** [a < b] and [a >= b] for a finite [a] and a possibly infinite [b]. *)
Definition lt_ext {Wt : Weight} (a : W) (b : ext) : bool :=
  match b with
  | Fin b => wltb a b
  | Infinity => true
  end.

Definition ge_ext {Wt : Weight} (a : W) (b : ext) : bool :=
  match b with
  | Fin b => wleb b a
  | Infinity => false
  end.

(** Integer lengths, used to run the definitions on examples: the taxicab
    length is a norm with integer values. *)
Definition ZWeight : Weight :=
  {| W := Z; wzero := 0; wadd := Z.add; wsub := Z.sub; wleb := Z.leb; wltb := Z.ltb |}.

Definition taxicab (p : Point) : Z := Z.abs (X p) + Z.abs (Y p).

(** Arrays: reading past the end is [None] ([undefined]); writing at the
    length appends, as a JavaScript array and [push_back] do. *)
Fixpoint array_set {A : Type} (l : list A) (i : nat) (v : A) : list A :=
  match l, i with
  | [], _ => [v]
  | _ :: rest, O => v :: rest
  | h :: rest, S i' => h :: array_set rest i' v
  end.

(** ** heap.js *)

Module Heap.
Section Heap.

Context {A : Type} (sort : A -> A -> bool).

(** [insert(element)]: the loop climbs from [index] towards the root. *)
Fixpoint insert_loop (fuel : nat) (elements : list A) (index : nat) (element : A)
    : list A :=
  match fuel with
  | O => array_set elements index element
  | S fuel' =>
      match index with
      | O => array_set elements index element
      | S _ =>
          let parent := Nat.div2 (index - 1) in
          match nth_error elements parent with
          | None => array_set elements index element
          | Some up =>
              if sort up element then array_set elements index element
              else insert_loop fuel' (array_set elements index up) parent element
          end
      end
  end.

Definition insert (elements : list A) (element : A) : list A :=
  insert_loop (length elements) elements (length elements) element.

(** [pop()]: the loop sinks the last element from the root. *)
Fixpoint pop_loop (fuel : nat) (elements : list A) (sinker : A) (index child : nat)
    : list A :=
  match fuel with
  | O => array_set elements index sinker
  | S fuel' =>
      if (child <? length elements)%nat then
        let child :=
          match nth_error elements (child + 1), nth_error elements child with
          | Some r, Some l => if sort r l then (child + 1)%nat else child
          | _, _ => child
          end in
        match nth_error elements child with
        | None => array_set elements index sinker
        | Some c =>
            if sort sinker c then array_set elements index sinker
            else pop_loop fuel' (array_set elements index c) sinker child (child * 2 + 1)
        end
      else array_set elements index sinker
  end.

(** [pop] on an empty heap returns [undefined]: [None]. *)
Definition pop (elements : list A) : option (A * list A) :=
  match elements with
  | [] => None
  | top :: _ =>
      let sinker := last elements top in
      let elements := removelast elements in
      match elements with
      | [] => Some (top, [])
      | _ :: _ => Some (top, pop_loop (length elements) elements sinker 0 1)
      end
  end.

Definition empty (elements : list A) : bool :=
  match elements with [] => true | _ :: _ => false end.

End Heap.
End Heap.

(** How a call ends: with a value, with a JavaScript [TypeError] (a property
    read on [undefined]), or without an answer within the given fuel. *)
Inductive outcome (A : Type) : Type :=
| Returned (a : A)
| TypeError
| OutOfFuel.
Arguments Returned {A} a.
Arguments TypeError {A}.
Arguments OutOfFuel {A}.

(** ** paths.js *)

Module WebPaths.
Section Paths.

Context {Wt : Weight}.
(** [Math.hypot(x, y)], the length of the vector [(x, y)]. *)
Variable hypot : Point -> W.

(** [a.distance(b)] in point.js. *)
Definition distance (a b : Point) : W := hypot (a -p b).

Record Sightline : Type := mkSightline { link : nat; sdistance : W }.

Record Waypoint : Type := mkWaypoint {
  point : Point;
  sightlines : list Sightline;
  targetDistance : W;
  visible : bool;
  backtrack : Z;
  shortest : ext
}.

Record Paths : Type := mkPaths {
  passable : Web.Polygon;
  waypoints : list Waypoint
}.

(** A queue entry [{length, index, previous}]. *)
Record Node : Type := mkNode { nlength : W; index : nat; previous : option nat }.

(** The comparison handed to the heap: [(a, b) => a.length < b.length]. *)
Definition node_sort (a b : Node) : bool := wltb (nlength a) (nlength b).

(** *** init: the scan for waypoints *)

Fixpoint init_ring_loop (beforeX beforeY : Z) (part : Web.Ring) : list Point :=
  match part with
  | [] => []
  | e :: rest =>
      let cross := beforeX * Web.dy e - beforeY * Web.dx e in
      (if cross <=? 0 then [mkPoint (Web.x e) (Web.y e)] else [])
      ++ init_ring_loop (Web.dx e) (Web.dy e) rest
  end.

Definition init_ring (part : Web.Ring) : list Point :=
  match part with
  | [] => []
  | e0 :: _ =>
      if (length part <? 3)%nat then []
      else let el := last part e0 in init_ring_loop (Web.dx el) (Web.dy el) part
  end.

(** [new Waypoint(vertex)]; the scratch fields are unset in the source and
    are assigned by [_calculateDistances] before [find] reads them. *)
Definition new_Waypoint (vertex : Point) : Waypoint :=
  mkWaypoint vertex [] wzero false (-1) Infinity.

(** [init], from the union of the sprite masks on: flood fill from the
    avatar's position, then the scan of every surviving ring. *)
Definition init (unioned : Web.Polygon) (point_ : Point) : Paths :=
  let passable := Web.floodFill unioned point_ in
  mkPaths passable (map new_Waypoint (flat_map init_ring passable)).

(** *** find *)

Definition closestVertex_step (target : Point) (acc : ext * option Point) (e : Web.Edge)
    : ext * option Point :=
  let d := hypot (mkPoint (X target - Web.x e) (Y target - Web.y e)) in
  if lt_ext d (fst acc) then (Fin d, Some (mkPoint (Web.x e) (Web.y e))) else acc.

(** [_closestVertex]: [undefined] when the rings have no vertex. *)
Definition closestVertex (rings : Web.Polygon) (target : Point) : option Point :=
  snd (fold_left (fun acc ring => fold_left (closestVertex_step target) ring acc)
                 rings (Infinity, None)).

Definition calculateDistances (rings : Web.Polygon) (target : Point)
    (wps : list Waypoint) : list Waypoint :=
  map (fun it => mkWaypoint (point it) (sightlines it)
                   (distance target (point it))
                   (negb (Web.intersects rings target (point it)))
                   (-1) Infinity) wps.

(** The loop that queues every waypoint in sight of [from]. *)
Definition seed_step (rings : Web.Polygon) (from : Point)
    (acc : list Waypoint * list Node) (index_ : nat) : list Waypoint * list Node :=
  let '(wps, queue) := acc in
  match nth_error wps index_ with
  | None => acc
  | Some it =>
      if negb (Web.intersects rings from (point it)) then
        let length_ := distance from (point it) in
        (array_set wps index_
           (mkWaypoint (point it) (sightlines it) (targetDistance it) (visible it)
              (-1) (Fin length_)),
         Heap.insert node_sort queue
           (mkNode (wadd length_ (targetDistance it)) index_ None))
      else acc
  end.

(** [_findSightlines(index)]: the lines pushed onto [here.sightlines]. *)
Definition findSightlines (rings : Web.Polygon) (wps : list Waypoint) (index_ : nat)
    : list Sightline :=
  match nth_error wps index_ with
  | None => []
  | Some here =>
      flat_map (fun i =>
        if (i =? index_)%nat then []
        else match nth_error wps i with
             | None => []
             | Some other =>
                 if negb (Web.intersects rings (point here) (point other))
                 then [mkSightline i (distance (point other) (point here))]
                 else []
             end) (seq 0 (length wps))
  end.

(** The loop over [waypoint.sightlines]; [None] is the [TypeError] of
    reading [next.shortest] when [line.link] is no waypoint. *)
Fixpoint relax (lines : list Sightline) (nodeLength : W) (nodeIndex : nat)
    (wps : list Waypoint) (queue : list Node) : option (list Waypoint * list Node) :=
  match lines with
  | [] => Some (wps, queue)
  | line :: rest =>
      match nth_error wps (link line) with
      | None => None
      | Some next =>
          let length_ := wadd nodeLength (sdistance line) in
          if ge_ext length_ (shortest next) then relax rest nodeLength nodeIndex wps queue
          else
            relax rest nodeLength nodeIndex
              (array_set wps (link line)
                 (mkWaypoint (point next) (sightlines next) (targetDistance next)
                    (visible next) (Z.of_nat nodeIndex) (Fin length_)))
              (Heap.insert node_sort queue
                 (mkNode (wadd length_ (targetDistance next)) (link line) (Some nodeIndex)))
      end
  end.

(** The [while (!queue.empty())] loop. *)
Fixpoint search (fuel : nat) (rings : Web.Polygon) (wps : list Waypoint)
    (queue : list Node) (bestDistance : ext) (best : option Node)
    : outcome (list Waypoint * option Node) :=
  match fuel with
  | O => OutOfFuel
  | S fuel' =>
      match Heap.pop node_sort queue with
      | None => Returned (wps, best)
      | Some (node, queue) =>
          if ge_ext (nlength node) bestDistance then Returned (wps, best)
          else
            match nth_error wps (index node) with
            | None => TypeError
            | Some waypoint =>
                if visible waypoint
                then search fuel' rings wps queue (Fin (nlength node)) (Some node)
                else
                  let nodeLength := wsub (nlength node) (targetDistance waypoint) in
                  let lines :=
                    match sightlines waypoint with
                    | [] => findSightlines rings wps (index node)
                    | _ :: _ => sightlines waypoint
                    end in
                  let wps :=
                    array_set wps (index node)
                      (mkWaypoint (point waypoint) lines (targetDistance waypoint)
                         (visible waypoint) (backtrack waypoint) (shortest waypoint)) in
                  match relax lines nodeLength (index node) wps queue with
                  | None => TypeError
                  | Some (wps, queue) => search fuel' rings wps queue bestDistance best
                  end
            end
      end
  end.

(** The backtracking [for (let i = best.index; i >= 0; i = ...backtrack)]. *)
Fixpoint backtrack_path (fuel : nat) (wps : list Waypoint) (i : Z)
    : outcome (list Point) :=
  if i <? 0 then Returned []
  else
    match fuel with
    | O => OutOfFuel
    | S fuel' =>
        match nth_error wps (Z.to_nat i) with
        | None => TypeError
        | Some w =>
            match backtrack_path fuel' wps (backtrack w) with
            | Returned path => Returned (point w :: path)
            | TypeError => TypeError
            | OutOfFuel => OutOfFuel
            end
        end
    end.

(** [find(from, to)]: the returned path and the state the call leaves.
    [fuel] bounds the iterations of the search loop; a backtrack chain of
    more links than there are waypoints has a cycle and never ends. *)
Definition find (fuel : nat) (this : Paths) (from to : Point)
    : outcome (list Point) * Paths :=
  match passable this with
  | [] => (Returned [], this)
  | _ :: _ =>
      let rings := passable this in
      let target := if Web.Polygon_contains rings to then Some to
                    else closestVertex rings to in
      match target with
      | None => (TypeError, this)
      | Some to =>
          if negb (Web.intersects rings from to) then (Returned [to], this)
          else
            let wps := calculateDistances rings to (waypoints this) in
            let '(wps, queue) :=
              fold_left (seed_step rings from) (seq 0 (length wps)) (wps, []) in
            match search fuel rings wps queue Infinity None with
            | Returned (wps, best) =>
                match best with
                | None => (Returned [], mkPaths rings wps)
                | Some b =>
                    match backtrack_path (S (length wps)) wps (Z.of_nat (index b)) with
                    | Returned path => (Returned (to :: path), mkPaths rings wps)
                    | TypeError => (TypeError, mkPaths rings wps)
                    | OutOfFuel => (OutOfFuel, mkPaths rings wps)
                    end
                end
            | TypeError => (TypeError, mkPaths rings wps)
            | OutOfFuel => (OutOfFuel, mkPaths rings wps)
            end
      end
  end.

End Paths.
End WebPaths.

(** ** Paths.cpp *)

Module DesktopPaths.
Section Paths.

Context {Wt : Weight}.
(** [sqrt(static_cast<float>(x * x + y * y))], i.e. [Point::Length]. *)
Variable Length : Point -> W.

Definition Distance (this p : Point) : W := Length (p -p this).

Definition INTERNAL_SCALE : Z := 4.
Definition INT_MAX : Z := 2147483647.

(** [Paths::Waypoint]: a Point with its sightlines and the mutable
    per-query fields. *)
Record Waypoint : Type := mkWaypoint {
  point : Point;
  sightlines : list (nat * W);
  distance : W;
  visible : bool;
  backtrack : Z;
  shortest : ext
}.

Record Paths : Type := mkPaths {
  passable : Desktop.Polygon;
  waypoints : list Waypoint
}.

(** The [Node] of the priority queue. *)
Record Node : Type := mkNode { nlength : W; index : Z; previous : Z }.

(** [std::priority_queue<Node>] with [operator<] inverted on [length]:
    modelled by a list kept in ascending order of [length], whose head is
    [top()]. *)
Fixpoint emplace (queue : list Node) (n : Node) : list Node :=
  match queue with
  | [] => [n]
  | h :: t => if wltb (nlength n) (nlength h) then n :: queue else h :: emplace t n
  end.

Definition push_sightline (w : Waypoint) (l : nat * W) : Waypoint :=
  mkWaypoint (point w) (sightlines w ++ [l]) (distance w) (visible w)
    (backtrack w) (shortest w).

(** [Paths::AddWaypoint]. *)
Definition AddWaypoint_step (rings : Desktop.Polygon) (vertex back forward : Point)
    (end_ : nat) (wps : list Waypoint) (i : nat) : list Waypoint :=
  match nth_error wps i, nth_error wps end_ with
  | Some wi, Some we =>
      let angle := point wi -p vertex in
      if ((Pt.Cross back angle <=? 0) || (Pt.Cross angle forward <=? 0))
         && negb (Desktop.Intersects rings (point wi) vertex)
      then
        let d := Length angle in
        array_set (array_set wps i (push_sightline wi (end_, d)))
                  end_ (push_sightline we (i, d))
      else wps
  | _, _ => wps
  end.

Definition AddWaypoint (rings : Desktop.Polygon) (wps : list Waypoint)
    (vertex back forward : Point) : list Waypoint :=
  let end_ := length wps in
  let wps := wps ++ [mkWaypoint vertex [] wzero false (-1) (Fin wzero)] in
  fold_left (AddWaypoint_step rings vertex back forward end_) (seq 0 end_) wps.

(** The scan of one ring in [Paths::Init]. *)
Fixpoint Init_ring_loop (rings : Desktop.Polygon) (prev here : Point)
    (part : list Point) (wps : list Waypoint) : list Waypoint :=
  match part with
  | [] => wps
  | next :: rest =>
      let back := prev -p here in
      let forward := next -p here in
      let wps := if 0 <=? Pt.Cross back forward
                 then AddWaypoint rings wps here back forward else wps in
      Init_ring_loop rings here next rest wps
  end.

Definition Init_ring (rings : Desktop.Polygon) (wps : list Waypoint)
    (part : Desktop.Ring) : list Waypoint :=
  if (length part <? 3)%nat then wps
  else Init_ring_loop rings (nth (length part - 2) part (mkPoint 0 0))
         (Desktop.back part) part wps.

(** [Paths::Init]; [masks] are the non-empty masks of the room's sprites.
    [None] when a union leaves the model of [Polygon::Add]. *)
Definition Init_passable (masks : list Desktop.Polygon) (point_ : Point)
    : option Desktop.Polygon :=
  let add acc ring :=
    match acc with
    | None => None
    | Some poly => Desktop.Add poly ring
    end in
  match fold_left (fun acc mask =>
          fold_left add (map (map (fun p => Pt.mul p INTERNAL_SCALE)) mask) acc)
          masks (Some []) with
  | None => None
  | Some poly => Some (Desktop.FloodFill poly (Pt.mul point_ INTERNAL_SCALE))
  end.

Definition Init (masks : list Desktop.Polygon) (point_ : Point) : option Paths :=
  match Init_passable masks point_ with
  | None => None
  | Some rings => Some (mkPaths rings (fold_left (Init_ring rings) rings []))
  end.

(** [Paths::Visible]. *)
Definition Visible (rings : Desktop.Polygon) (from to : Point) : bool :=
  negb (Desktop.Intersects rings from to)
  && Desktop.Polygon_Contains rings (Pt.div (from +p to) 2).

(** [Paths::ClosestVertex]. *)
Definition ClosestVertex (rings : Desktop.Polygon) (target : Point) : Point :=
  snd (fold_left (fun acc part =>
         fold_left (fun (acc : Z * Point) p =>
           let d := Pt.DistanceSquared target p in
           if d <? fst acc then (d, p) else acc) part acc)
         rings (INT_MAX, mkPoint 0 0)).

Definition CalculateDistances (rings : Desktop.Polygon) (target : Point)
    (wps : list Waypoint) : list Waypoint :=
  map (fun w => mkWaypoint (point w) (sightlines w) (Distance target (point w))
                  (Visible rings (point w) target) (-1) Infinity) wps.

Definition seed_step (rings : Desktop.Polygon) (from : Point)
    (acc : list Waypoint * list Node) (i : nat) : list Waypoint * list Node :=
  let '(wps, queue) := acc in
  match nth_error wps i with
  | None => acc
  | Some w =>
      if Visible rings from (point w) then
        let d := Distance from (point w) in
        (array_set wps i
           (mkWaypoint (point w) (sightlines w) (distance w) (visible w) (-1) (Fin d)),
         emplace queue (mkNode (wadd d (distance w)) (Z.of_nat i) (-1)))
      else acc
  end.

(** The loop over [waypoints[node.index].sightlines]; [None] when a link
    is not the index of a waypoint. *)
Fixpoint relax (lines : list (nat * W)) (nodeLength : W) (nodeIndex : Z)
    (wps : list Waypoint) (queue : list Node) : option (list Waypoint * list Node) :=
  match lines with
  | [] => Some (wps, queue)
  | it :: rest =>
      match nth_error wps (fst it) with
      | None => None
      | Some next =>
          let length_ := wadd nodeLength (snd it) in
          if ge_ext length_ (shortest next) then relax rest nodeLength nodeIndex wps queue
          else
            relax rest nodeLength nodeIndex
              (array_set wps (fst it)
                 (mkWaypoint (point next) (sightlines next) (distance next)
                    (visible next) nodeIndex (Fin length_)))
              (emplace queue
                 (mkNode (wadd length_ (distance next)) (Z.of_nat (fst it)) nodeIndex))
      end
  end.

(** The [while(!queue.empty() && queue.top().length < bestDistance)] loop;
    [None] is an index outside [waypoints] or the end of the fuel. *)
Fixpoint search (fuel : nat) (wps : list Waypoint) (queue : list Node)
    (bestDistance : ext) (best : Node) : option (list Waypoint * Node) :=
  match fuel with
  | O => None
  | S fuel' =>
      match queue with
      | [] => Some (wps, best)
      | node :: queue' =>
          if negb (lt_ext (nlength node) bestDistance) then Some (wps, best)
          else
            match nth_error wps (Z.to_nat (index node)) with
            | None => None
            | Some w =>
                if visible w
                then search fuel' wps queue' (Fin (nlength node)) node
                else
                  match relax (sightlines w) (wsub (nlength node) (distance w))
                          (index node) wps queue' with
                  | None => None
                  | Some (wps, queue) => search fuel' wps queue bestDistance best
                  end
            end
      end
  end.

Fixpoint backtrack_path (fuel : nat) (wps : list Waypoint) (i : Z)
    : option (list Point) :=
  if i =? -1 then Some []
  else
    match fuel with
    | O => None
    | S fuel' =>
        if i <? 0 then None
        else
          match nth_error wps (Z.to_nat i) with
          | None => None
          | Some w =>
              match backtrack_path fuel' wps (backtrack w) with
              | None => None
              | Some path => Some (Pt.div (point w) INTERNAL_SCALE :: path)
              end
          end
    end.

(** [Paths::Find]: the returned path, and the waypoints with the values
    their [mutable] fields are left with. *)
Definition Find (fuel : nat) (this : Paths) (from to : Point)
    : option (list Point * list Waypoint) :=
  match passable this with
  | [] => Some ([], waypoints this)
  | _ :: _ =>
      let rings := passable this in
      let from := Pt.mul from INTERNAL_SCALE in
      let to := Pt.mul to INTERNAL_SCALE in
      let to := if negb (Desktop.Polygon_Contains rings to)
                then ClosestVertex rings to else to in
      if Visible rings from to
      then Some ([Pt.div to INTERNAL_SCALE], waypoints this)
      else
        let wps := CalculateDistances rings to (waypoints this) in
        let '(wps, queue) :=
          fold_left (seed_step rings from) (seq 0 (length wps)) (wps, []) in
        match search fuel wps queue Infinity (mkNode wzero (-1) (-1)) with
        | None => None
        | Some (wps, best) =>
            if index best <? 0 then Some ([], wps)
            else
              match backtrack_path (S (length wps)) wps (index best) with
              | None => None
              | Some path => Some (Pt.div to INTERNAL_SCALE :: path, wps)
              end
        end
  end.

End Paths.
End DesktopPaths.

(** * Properties *)

(** ** Area *)

Definition square : list Point :=
  [mkPoint 0 0; mkPoint 10 0; mkPoint 10 10; mkPoint 0 10].

(** The sum of [a.Cross(b)] over the consecutive pairs of [start :: pts]. *)
Fixpoint chain_cross (start : Point) (pts : list Point) : Z :=
  match pts with
  | [] => 0
  | p :: rest => Pt.Cross start p + chain_cross p rest
  end.

Lemma last_cons_default {A : Type} (p : A) (rest : list A) (d : A) :
  last (p :: rest) d = last rest p.
Proof.
  revert p d. induction rest as [|q rest IH]; intros p d; [reflexivity|].
  change (last (p :: q :: rest) d) with (last (q :: rest) d).
  rewrite (IH q d), (IH q p). reflexivity.
Qed.

Lemma Desktop_edges_sum start order pts acc :
  fold_left (fun acc e => acc + Pt.Cross (Desktop.Start e) (Desktop.End e))
            (Desktop.edges_from start order pts) acc
  = acc + chain_cross start pts.
Proof.
  revert start order acc.
  induction pts as [|p rest IH]; intros start order acc; cbn.
  - lia.
  - rewrite IH. lia.
Qed.

Lemma Web_expand_sum first start pts acc :
  fold_left (fun acc e => acc + (Web.x e * Web.dy e - Web.y e * Web.dx e))
            (Web.expand_from first start pts) acc
  = acc + chain_cross start pts + Pt.Cross (last pts start) first.
Proof.
  revert start acc.
  induction pts as [|p rest IH]; intros start acc.
  - cbn. unfold Pt.Cross. lia.
  - cbn [Web.expand_from fold_left chain_cross].
    rewrite IH. cbn [Web.x Web.y Web.dx Web.dy].
    rewrite last_cons_default.
    unfold Pt.Cross. lia.
Qed.

(** Both ports compute the same shoelace sum: the web port's
    [x * dy - dx * y] over its expanded ring is the desktop port's
    [start.Cross(end)] over the edges of the vertex list. *)
Lemma area_ports_agree (pts : list Point) :
  Web.area (Web.expand pts) = Desktop.Area pts.
Proof.
  unfold Web.area, Desktop.Area. f_equal. f_equal.
  unfold Web.area2, Desktop.Area2, Desktop.edges, Desktop.back.
  destruct pts as [|p rest]; [reflexivity|].
  cbn [Web.expand]. rewrite Web_expand_sum, Desktop_edges_sum.
  cbn [chain_cross].
  rewrite last_cons_default.
  lia.
Qed.

(** C3, as stated, fails: the area of the 10-by-10 square is neither 50 nor
    -50, in either vertex order and in either port. *)
Lemma area_square_is_not_50 :
  ~ ((Web.area (Web.expand square) == 50 \/ Web.area (Web.expand square) == -50)
     \/ (Web.area (Web.expand (rev square)) == 50
         \/ Web.area (Web.expand (rev square)) == -50)
     \/ (Desktop.Area square == 50 \/ Desktop.Area square == -50))%Q.
Proof.
  intros [[H|H]|[[H|H]|[H|H]]]; vm_compute in H; discriminate H.
Qed.

(** C3, amended: [Area] is half the shoelace sum of [start.Cross(end)] over
    the edges; for the square (0,0),(10,0),(10,10),(0,10) it is 100, and -100
    for the reversed vertex order, in both ports. *)
Theorem area_square :
  (Desktop.Area square == 100 /\ Desktop.Area (Desktop.Reverse square) == -100
   /\ Web.area (Web.expand square) == 100
   /\ Web.area (Web.expand (rev square)) == -100)%Q
  /\ (forall ring : Desktop.Ring,
        Desktop.Area ring
        = ((1 # 2) * inject_Z
             (fold_left (fun acc e => (acc + Pt.Cross (Desktop.Start e) (Desktop.End e))%Z)
                        (Desktop.edges ring) 0%Z))%Q)
  /\ (forall pts : list Point, Web.area (Web.expand pts) = Desktop.Area pts).
Proof.
  split; [|split].
  - repeat split; vm_compute; reflexivity.
  - intros ring. reflexivity.
  - apply area_ports_agree.
Qed.

(** ** Containment in a ring *)

(** [p] lies on the closed segment from [a] to [b]. *)
Definition on_segment (p a b : Point) : Prop :=
  exists u : Q,
    (0 <= u /\ u <= 1
     /\ inject_Z (X p) == inject_Z (X a) + u * inject_Z (X b - X a)
     /\ inject_Z (Y p) == inject_Z (Y a) + u * inject_Z (Y b - Y a))%Q.

Definition Web_edge_start (e : Web.Edge) : Point := mkPoint (Web.x e) (Web.y e).
Definition Web_edge_end (e : Web.Edge) : Point :=
  mkPoint (Web.x e + Web.dx e) (Web.y e + Web.dy e).

(** [p] lies on an edge of the web port's ring. *)
Definition on_ring_edge (ring : Web.Ring) (p : Point) : Prop :=
  exists e, In e ring /\ on_segment p (Web_edge_start e) (Web_edge_end e).

Definition triangle : list Point := [mkPoint 0 0; mkPoint 10 0; mkPoint 5 10].

(** C4: the three stated queries on the square hold, but the equivalence
    does not hold for every ring and point.  The apex (5,10) of the triangle
    (0,0),(10,0),(5,10) is a vertex of the ring, so it lies on an edge, and
    [contains] returns false for it: both edges at the apex end at the
    query's own height, so neither counts as crossing the horizontal line
    and the border flag is never raised. *)
Theorem contains_misses_apex :
  Web.contains (Web.expand square) (mkPoint 5 5) = true
  /\ Web.contains (Web.expand square) (mkPoint 15 5) = false
  /\ Web.contains (Web.expand square) (mkPoint 0 5) = true
  /\ on_ring_edge (Web.expand triangle) (mkPoint 5 10)
  /\ Web.windingNumber (Web.expand triangle) 5 10 = (0, 0)
  /\ Web.contains (Web.expand triangle) (mkPoint 5 10) = false.
Proof.
  repeat split; try reflexivity.
  exists (Web.mkEdge 5 10 (-5) (-10)). split.
  - cbn. auto.
  - exists 0%Q. cbn. repeat split; try reflexivity; discriminate.
Qed.

(** ** Flood fill *)

Definition rect (x0 y0 x1 y1 : Z) : list Point :=
  [mkPoint x0 y0; mkPoint x1 y0; mkPoint x1 y1; mkPoint x0 y1].

(** A solid region with a lake, an island in the lake, and a pond on the
    island: every ring is properly nested in the one before it, and the
    orientations alternate, as repeated unions produce them. *)
Definition land : list Point := rect 0 0 100 100.
Definition lake : list Point := rev (rect 10 10 90 90).
Definition island : list Point := rect 20 20 80 80.
Definition pond : list Point := rev (rect 30 30 70 70).
Definition nested_rings : list (list Point) := [land; lake; island; pond].

(** This polygon is what [Polygon::Add] builds from the four rings. *)
Lemma nested_rings_by_union :
  match Desktop.Add [] land with
  | Some p1 =>
      match Desktop.Add p1 lake with
      | Some p2 =>
          match Desktop.Add p2 island with
          | Some p3 => Desktop.Add p3 pond
          | None => None
          end
      | None => None
      end
  | None => None
  end = Some nested_rings.
Proof. vm_compute. reflexivity. Qed.

(** C7: seeded on the island, outside the pond, the flood fill keeps the
    island alone.  The pond is a negative-area ring directly inside the
    island and inside no kept hole, so it belongs to the component; the code
    drops it because the lake, a more negative ring that is itself not
    inside the island, contains the pond's first vertex.  The two-squares
    scenario of the claim does hold. *)
Theorem floodFill_drops_hole_of_island :
  let rings := map Web.expand nested_rings in
  let seed := mkPoint 25 25 in
  Web.floodFill rings seed = [Web.expand island]
  /\ Desktop.FloodFill nested_rings seed = [island]
  /\ (Web.area (Web.expand pond) < 0)%Q
  /\ Web.ringContainsRing (Web.expand island) (Web.expand pond) = true
  /\ Web.ringContainsRing (Web.expand island) (Web.expand lake) = false
  /\ Web.contains (Web.expand pond) seed = false
  /\ Web.floodFill [Web.expand (rect 0 0 1 1); Web.expand (rect 50 50 51 51)]
       (mkPoint 0 0) = [Web.expand (rect 0 0 1 1)]
  /\ Desktop.FloodFill [rect 0 0 2 2; rect 50 50 52 52] (mkPoint 1 1) = [rect 0 0 2 2].
Proof. vm_compute. repeat split; reflexivity. Qed.

(** ** Waypoints *)

Definition origin : Point := mkPoint 0 0.

Definition prev_index (n i : nat) : nat := match i with O => n - 1 | S j => j end.
Definition next_index (n i : nat) : nat := if (S i =? n)%nat then O else S i.

(** The cross product of (vertex - previous) and (next - vertex) at vertex
    [i] of the closed vertex loop [pts]. *)
Definition turn (pts : list Point) (i : nat) : Z :=
  let n := length pts in
  let v k := nth k pts origin in
  Pt.Cross (v i -p v (prev_index n i)) (v (next_index n i) -p v i).

(** The scan of consecutive triples of a list. *)
Fixpoint scan (prev here : Point) (rest : list Point) : list Point :=
  match rest with
  | [] => []
  | next :: rest' =>
      (if Pt.Cross (here -p prev) (next -p here) <=? 0 then [here] else [])
      ++ scan here next rest'
  end.

Lemma skipn_nth_cons {A : Type} (L : list A) (d : A) :
  forall i, (i < length L)%nat -> skipn i L = nth i L d :: skipn (S i) L.
Proof.
  induction L as [|a L IH]; intros i Hi; [cbn in Hi; lia|].
  destruct i as [|i]; [reflexivity|].
  cbn in Hi. cbn [skipn nth]. apply IH. lia.
Qed.

Lemma scan_nth (L : list Point) :
  forall k, (k + 2 <= length L)%nat ->
  scan (nth k L origin) (nth (S k) L origin) (skipn (k + 2) L)
  = flat_map (fun j =>
      if Pt.Cross (nth j L origin -p nth (j - 1) L origin)
                  (nth (S j) L origin -p nth j L origin) <=? 0
      then [nth j L origin] else [])
      (seq (S k) (length L - k - 2)).
Proof.
  intros k Hk.
  remember (length L - k - 2)%nat as m eqn:Hm.
  revert k Hk Hm. induction m as [|m IH]; intros k Hk Hm.
  - rewrite skipn_all2 by lia. reflexivity.
  - assert (Hsk : skipn (k + 2) L = nth (k + 2) L origin :: skipn (S k + 2) L).
    { apply (skipn_nth_cons L origin (k + 2)). lia. }
    rewrite Hsk. cbn [scan seq flat_map].
    replace (S k - 1)%nat with k by lia.
    replace (S (S k)) with (k + 2)%nat by lia.
    f_equal.
    replace (k + 2)%nat with (S (S k)) at 1 by lia.
    rewrite (IH (S k)) by lia.
    replace (S (S k)) with (k + 2)%nat by lia. reflexivity.
Qed.

Lemma flat_map_if {A B : Type} (c : A -> bool) (f : A -> B) (l : list A) :
  flat_map (fun a => if c a then [f a] else []) l = map f (filter c l).
Proof.
  induction l as [|a l IH]; [reflexivity|].
  cbn. destruct (c a); cbn; rewrite IH; reflexivity.
Qed.

Lemma sub_sub_vector (start : Point) (bx by_ : Z) :
  start -p (start -p mkPoint bx by_) = mkPoint bx by_.
Proof. destruct start; unfold Pt.sub; cbn; f_equal; lia. Qed.

Lemma init_ring_loop_scan first start pts bx by_ :
  WebPaths.init_ring_loop bx by_ (Web.expand_from first start pts)
  = scan (start -p mkPoint bx by_) start (pts ++ [first]).
Proof.
  revert start bx by_. induction pts as [|p rest IH]; intros [sx sy] bx by_.
  - cbn [Web.expand_from WebPaths.init_ring_loop app scan].
    rewrite sub_sub_vector.
    unfold Pt.Cross; cbn. reflexivity.
  - cbn [Web.expand_from WebPaths.init_ring_loop app scan].
    cbn [Web.x Web.y Web.dx Web.dy].
    rewrite sub_sub_vector.
    rewrite IH. cbn [X Y].
    replace (p -p mkPoint (X p - sx) (Y p - sy)) with (mkPoint sx sy)
      by (destruct p; unfold Pt.sub; cbn; f_equal; lia).
    unfold Pt.Cross; cbn. reflexivity.
Qed.

Lemma expand_from_length first start pts :
  length (Web.expand_from first start pts) = S (length pts).
Proof.
  revert start. induction pts as [|p rest IH]; intros start; cbn; [|rewrite IH];
    reflexivity.
Qed.

Lemma expand_from_last first start pts d :
  last (Web.expand_from first start pts) d
  = let l := last pts start in
    Web.mkEdge (X l) (Y l) (X first - X l) (Y first - Y l).
Proof.
  revert start d. induction pts as [|p rest IH]; intros start d.
  - reflexivity.
  - cbn [Web.expand_from]. rewrite last_cons_default, IH.
    rewrite last_cons_default. reflexivity.
Qed.

Lemma last_nth {A : Type} (l : list A) (d : A) :
  last l d = nth (length l - 1) l d.
Proof.
  induction l as [|a l IH]; [reflexivity|].
  destruct l as [|b l]; [reflexivity|].
  change (last (a :: b :: l) d) with (last (b :: l) d). rewrite IH.
  cbn [length]. replace (S (S (length l)) - 1)%nat with (S (length l)) by lia.
  cbn [nth]. replace (S (length l) - 1)%nat with (length l) by lia. reflexivity.
Qed.

Lemma flat_map_ext_in {A B : Type} (f g : A -> list B) (l : list A) :
  (forall a, In a l -> f a = g a) -> flat_map f l = flat_map g l.
Proof.
  intros H. induction l as [|a l IH]; [reflexivity|].
  cbn. rewrite (H a) by (left; reflexivity).
  rewrite IH; [reflexivity|]. intros b Hb. apply H. right. exact Hb.
Qed.

Lemma flat_map_seq_shift {B : Type} (f : nat -> list B) (n : nat) :
  flat_map f (seq 1 n) = flat_map (fun i => f (S i)) (seq 0 n).
Proof.
  rewrite <- seq_shift. generalize (seq 0 n) as l.
  induction l as [|a l IH]; [reflexivity|]. cbn. rewrite IH. reflexivity.
Qed.

(** The web port records vertex [i] of a ring of at least three vertices
    exactly when the turn at [i] is negative or zero. *)
Lemma Web_init_ring_turns (pts : list Point) :
  (3 <= length pts)%nat ->
  WebPaths.init_ring (Web.expand pts)
  = map (fun i => nth i pts origin)
        (filter (fun i => turn pts i <=? 0) (seq 0 (length pts))).
Proof.
  intros Hn. destruct pts as [|p0 rest]; [cbn in Hn; lia|].
  unfold WebPaths.init_ring. cbn [Web.expand].
  destruct (Web.expand_from p0 p0 rest) as [|e0 er] eqn:He.
  { pose proof (expand_from_length p0 p0 rest) as Hl. rewrite He in Hl. discriminate. }
  rewrite <- He. rewrite expand_from_length.
  cbn [length] in Hn.
  destruct (S (length rest) <? 3)%nat eqn:Hlt; [apply Nat.ltb_lt in Hlt; lia|].
  rewrite expand_from_last. cbn [Web.dx Web.dy].
  rewrite init_ring_loop_scan.
  set (l := last rest p0).
  replace (p0 -p mkPoint (X p0 - X l) (Y p0 - Y l)) with l
    by (destruct p0, l; unfold Pt.sub; cbn; f_equal; lia).
  set (L := l :: p0 :: rest ++ [p0]).
  change (scan l p0 (rest ++ [p0]))
    with (scan (nth 0 L origin) (nth 1 L origin) (skipn (0 + 2) L)).
  rewrite scan_nth by (unfold L; cbn; lia).
  replace (length L - 0 - 2)%nat with (length (p0 :: rest))
    by (unfold L; cbn [length]; rewrite length_app; cbn; lia).
  rewrite flat_map_seq_shift, <- flat_map_if.
  apply flat_map_ext_in. intros i Hi. apply in_seq in Hi.
  cbn [length] in Hi.
  assert (Hhere : nth (S i) L origin = nth i (p0 :: rest) origin).
  { unfold L. change (nth (S i) (l :: p0 :: rest ++ [p0]) origin)
      with (nth i ((p0 :: rest) ++ [p0]) origin).
    apply app_nth1. cbn [length]. lia. }
  assert (Hprev : nth (S i - 1) L origin
                  = nth (prev_index (length (p0 :: rest)) i) (p0 :: rest) origin).
  { replace (S i - 1)%nat with i by lia. destruct i as [|i].
    - unfold L, l. cbn [nth prev_index]. rewrite <- last_cons_default with (d := origin).
      rewrite last_nth. reflexivity.
    - cbn [prev_index]. unfold L.
      change (nth (S i) (l :: p0 :: rest ++ [p0]) origin)
        with (nth i ((p0 :: rest) ++ [p0]) origin).
      apply app_nth1. cbn [length]. lia. }
  assert (Hnext : nth (S (S i)) L origin
                  = nth (next_index (length (p0 :: rest)) i) (p0 :: rest) origin).
  { unfold L, next_index. cbn [length].
    change (nth (S (S i)) (l :: p0 :: rest ++ [p0]) origin)
      with (nth i (rest ++ [p0]) origin).
    destruct (S i =? S (length rest))%nat eqn:E.
    - apply Nat.eqb_eq in E. injection E as E. subst i.
      rewrite app_nth2 by lia. rewrite Nat.sub_diag. reflexivity.
    - apply Nat.eqb_neq in E. rewrite app_nth1 by lia. reflexivity. }
  unfold turn. rewrite Hhere, Hprev, Hnext. reflexivity.
Qed.

(** Rings of fewer than three vertices are skipped. *)
Lemma Web_init_ring_degenerate (pts : list Point) :
  (length pts < 3)%nat -> WebPaths.init_ring (Web.expand pts) = [].
Proof.
  intros Hn. destruct pts as [|p0 rest]; [reflexivity|].
  unfold WebPaths.init_ring. cbn [Web.expand].
  destruct (Web.expand_from p0 p0 rest) as [|e0 er] eqn:He; [reflexivity|].
  rewrite <- He, expand_from_length. cbn [length] in Hn.
  destruct (S (length rest) <? 3)%nat eqn:Hlt; [reflexivity|].
  apply Nat.ltb_ge in Hlt. lia.
Qed.

Lemma map_array_set {A B : Type} (f : A -> B) (l : list A) :
  forall i v, nth_error (map f l) i = Some (f v) -> map f (array_set l i v) = map f l.
Proof.
  induction l as [|a l IH]; intros i v H.
  - destruct i; discriminate H.
  - destruct i as [|i]; cbn in *.
    + injection H as H. rewrite H. reflexivity.
    + rewrite IH by exact H. reflexivity.
Qed.

Section DesktopWaypoints.

Context {Wt : Weight} (Length : Point -> W).

Local Abbreviation point := (@DesktopPaths.point Wt).

Lemma AddWaypoint_step_points rings vertex back forward end_ wps i :
  map point (DesktopPaths.AddWaypoint_step Length rings vertex back forward end_ wps i)
  = map point wps.
Proof.
  unfold DesktopPaths.AddWaypoint_step.
  destruct (nth_error wps i) as [wi|] eqn:Ei; [|reflexivity].
  destruct (nth_error wps end_) as [we|] eqn:Ee; [|reflexivity].
  match goal with |- context [if ?c then _ else _] => destruct c end; [|reflexivity].
  assert (H1 : map point (array_set wps i
                 (DesktopPaths.push_sightline wi (end_, Length (point wi -p vertex))))
               = map point wps).
  { apply map_array_set. rewrite nth_error_map, Ei. reflexivity. }
  rewrite map_array_set; [exact H1|].
  rewrite H1, nth_error_map, Ee. reflexivity.
Qed.

Lemma AddWaypoint_points rings wps vertex back forward :
  map point (DesktopPaths.AddWaypoint Length rings wps vertex back forward)
  = map point wps ++ [vertex].
Proof.
  unfold DesktopPaths.AddWaypoint.
  set (start := wps ++ _).
  assert (Hs : map point start = map point wps ++ [vertex])
    by (unfold start; rewrite map_app; reflexivity).
  rewrite <- Hs. generalize (seq 0 (length wps)) as idx. generalize start as l.
  clear. intros l idx. revert l.
  induction idx as [|i idx IH]; intros l; [reflexivity|].
  cbn [fold_left]. rewrite IH. apply AddWaypoint_step_points.
Qed.

Lemma Init_ring_loop_points rings prev here part wps :
  map point (DesktopPaths.Init_ring_loop Length rings prev here part wps)
  = map point wps ++ scan prev here part.
Proof.
  revert prev here wps. induction part as [|next rest IH]; intros prev here wps.
  - cbn. rewrite app_nil_r. reflexivity.
  - cbn [DesktopPaths.Init_ring_loop scan]. rewrite IH.
    assert (Hc : (0 <=? Pt.Cross (prev -p here) (next -p here))
                 = (Pt.Cross (here -p prev) (next -p here) <=? 0)).
    { destruct prev as [a b], here as [c d], next as [e f].
      unfold Pt.Cross, Pt.sub. cbn.
      destruct (Z.leb_spec 0 ((a - c) * (f - d) - (b - d) * (e - c)));
        destruct (Z.leb_spec ((c - a) * (f - d) - (d - b) * (e - c)) 0);
        try reflexivity; lia. }
    rewrite Hc.
    destruct (Pt.Cross (here -p prev) (next -p here) <=? 0).
    + rewrite AddWaypoint_points, <- app_assoc. reflexivity.
    + reflexivity.
Qed.

(** The desktop port starts its scan at the last vertex, and records vertex
    [i] of a ring of at least three vertices exactly when the turn at [i]
    is negative or zero. *)
Lemma Desktop_Init_ring_turns rings wps (pts : list Point) :
  (3 <= length pts)%nat ->
  map point (DesktopPaths.Init_ring Length rings wps pts)
  = map point wps
    ++ map (fun i => nth i pts origin)
         (filter (fun i => turn pts i <=? 0)
                 ((length pts - 1)%nat :: seq 0 (length pts - 1))).
Proof.
  intros Hn. unfold DesktopPaths.Init_ring.
  destruct (length pts <? 3)%nat eqn:Hlt; [apply Nat.ltb_lt in Hlt; lia|].
  rewrite Init_ring_loop_points. f_equal.
  unfold Desktop.back. rewrite last_nth. change (mkPoint 0 0) with origin.
  set (n := length pts) in *.
  set (L := nth (n - 2) pts origin :: nth (n - 1) pts origin :: pts).
  change (scan (nth (n - 2) pts origin) (nth (n - 1) pts origin) pts)
    with (scan (nth 0 L origin) (nth 1 L origin) (skipn (0 + 2) L)).
  rewrite scan_nth by (unfold L; cbn; lia).
  replace (length L - 0 - 2)%nat with (S (n - 1)) by (unfold L; cbn [length]; lia).
  rewrite <- flat_map_if. cbn [seq flat_map]. f_equal.
  - unfold turn. fold n. cbn [nth Nat.sub].
    assert (Hp : prev_index n (n - 1) = (n - 2)%nat).
    { destruct n as [|[|m]]; try lia. cbn. lia. }
    assert (Hx : next_index n (n - 1) = O).
    { unfold next_index. replace (S (n - 1)) with n by lia.
      rewrite Nat.eqb_refl. reflexivity. }
    rewrite Hp, Hx. unfold L. cbn [nth]. destruct pts; reflexivity.
  - rewrite <- seq_shift, <- seq_shift.
    rewrite !flat_map_concat_map, !map_map. f_equal.
    apply map_ext_in. intros i Hi. apply in_seq in Hi.
    unfold turn. fold n. unfold L. cbn [nth Nat.sub].
    assert (Hx : next_index n i = S i).
    { unfold next_index. destruct (S i =? n)%nat eqn:E; [|reflexivity].
      apply Nat.eqb_eq in E. lia. }
    rewrite Hx. replace (i - 0)%nat with i by lia.
    destruct i as [|i]; cbn [prev_index nth]; reflexivity.
Qed.

End DesktopWaypoints.

(** A ring with the collinear vertex (5,0) on its bottom edge. *)
Definition flat_corner_ring : list Point :=
  [mkPoint 0 0; mkPoint 5 0; mkPoint 10 0; mkPoint 10 10; mkPoint 0 10].

(** C6, as stated, fails: the vertex (5,0) is recorded as a waypoint although
    the cross product there is zero, not negative. *)
Lemma waypoint_with_zero_cross :
  ~ (In (nth 1 flat_corner_ring origin) (WebPaths.init_ring (Web.expand flat_corner_ring))
     <-> turn flat_corner_ring 1 < 0).
Proof.
  intros [H _]. assert (Hin : In (nth 1 flat_corner_ring origin)
                                 (WebPaths.init_ring (Web.expand flat_corner_ring))).
  { vm_compute. left. reflexivity. }
  specialize (H Hin). vm_compute in H. discriminate H.
Qed.

(** C6, amended: in both ports the waypoints that the scan of a ring of at
    least three vertices records are exactly the vertices at which the cross
    product of (vertex - previous) and (next - vertex) is negative or zero;
    rings of fewer than three vertices give none. *)
Theorem waypoints_are_nonpositive_turns :
  forall (Wt : Weight) (Length : Point -> W) (pts : list Point),
    ((length pts < 3)%nat ->
       WebPaths.init_ring (Web.expand pts) = []
       /\ forall rings wps, DesktopPaths.Init_ring Length rings wps pts = wps)
    /\ ((3 <= length pts)%nat ->
          WebPaths.init_ring (Web.expand pts)
          = map (fun i => nth i pts origin)
                (filter (fun i => turn pts i <=? 0) (seq 0 (length pts)))
          /\ forall rings wps,
               map (@DesktopPaths.point Wt) (DesktopPaths.Init_ring Length rings wps pts)
               = map (@DesktopPaths.point Wt) wps
                 ++ map (fun i => nth i pts origin)
                      (filter (fun i => turn pts i <=? 0)
                              ((length pts - 1)%nat :: seq 0 (length pts - 1)))).
Proof.
  intros Wt Length pts. split; intros Hn.
  - split; [apply Web_init_ring_degenerate; exact Hn|].
    intros rings wps. unfold DesktopPaths.Init_ring.
    destruct (length pts <? 3)%nat eqn:E; [reflexivity|].
    apply Nat.ltb_ge in E. lia.
  - split; [apply Web_init_ring_turns; exact Hn|].
    intros rings wps. apply Desktop_Init_ring_turns. exact Hn.
Qed.

Lemma waypoints_are_nonpositive_turns_witness :
  (3 <= length flat_corner_ring)%nat
  /\ WebPaths.init_ring (Web.expand flat_corner_ring)
     = [mkPoint 5 0].
Proof.
  split; [cbn; lia|].
  rewrite (proj1 (proj2 (waypoints_are_nonpositive_turns ZWeight taxicab flat_corner_ring)
                    ltac:(cbn; lia))).
  vm_compute. reflexivity.
Defined.

(** ** Segment intersection *)

(** The open segment from [s] to [e] and the closed segment from [a] to
    [a + w] share a point. *)
Definition meets_open_vec (s e a w : Point) : Prop :=
  exists t u : Q,
    (0 < t /\ t < 1 /\ 0 <= u /\ u <= 1
     /\ inject_Z (X s) + t * inject_Z (X e - X s) == inject_Z (X a) + u * inject_Z (X w)
     /\ inject_Z (Y s) + t * inject_Z (Y e - Y s) == inject_Z (Y a) + u * inject_Z (Y w))%Q.

Definition meets_open (s e a b : Point) : Prop := meets_open_vec s e a (b -p a).

Lemma param_unique (sx sy vx vy ax ay wx wy t u : Q) :
  (sx + t * vx == ax + u * wx ->
   sy + t * vy == ay + u * wy ->
   t * (wx * vy - wy * vx) == (sx - ax) * wy - (sy - ay) * wx
   /\ u * (wx * vy - wy * vx) == (sx - ax) * vy - (sy - ay) * vx)%Q.
Proof.
  intros H1 H2.
  assert (Z1 : ((sx + t * vx) - (ax + u * wx) == 0)%Q) by (rewrite H1; ring).
  assert (Z2 : ((sy + t * vy) - (ay + u * wy) == 0)%Q) by (rewrite H2; ring).
  split.
  - assert (E : (t * (wx * vy - wy * vx) - ((sx - ax) * wy - (sy - ay) * wx)
                == wx * ((sy + t * vy) - (ay + u * wy))
                   - wy * ((sx + t * vx) - (ax + u * wx)))%Q)
      by ring.
    rewrite Z1, Z2 in E. lra.
  - assert (E : (u * (wx * vy - wy * vx) - ((sx - ax) * vy - (sy - ay) * vx)
                == vx * ((sy + t * vy) - (ay + u * wy))
                   - vy * ((sx + t * vx) - (ax + u * wx)))%Q)
      by ring.
    rewrite Z1, Z2 in E. lra.
Qed.

Lemma param_solution (sx sy vx vy ax ay wx wy : Q) :
  (~ wx * vy - wy * vx == 0 ->
   let t := ((sx - ax) * wy - (sy - ay) * wx) / (wx * vy - wy * vx) in
   let u := ((sx - ax) * vy - (sy - ay) * vx) / (wx * vy - wy * vx) in
   sx + t * vx == ax + u * wx /\ sy + t * vy == ay + u * wy)%Q.
Proof.
  intros Hc t u. unfold t, u. split; field; exact Hc.
Qed.

(** The three cross products of the intersection test. *)
Definition crossZ (s e a w : Point) : Z := Pt.Cross w (e -p s).
Definition segZ (s a w : Point) : Z := Pt.Cross (s -p a) w.
Definition edgeZ (s e a : Point) : Z := Pt.Cross (s -p a) (e -p s).

Ltac push_inj :=
  unfold crossZ, segZ, edgeZ, Pt.Cross, Pt.sub; cbn [X Y];
  repeat (rewrite <- ?Z.add_opp_r;
          rewrite ?inject_Z_plus, ?inject_Z_mult, ?inject_Z_opp).

Lemma inject_crossZ s e a w :
  (inject_Z (crossZ s e a w)
   == inject_Z (X w) * inject_Z (Y e - Y s) - inject_Z (Y w) * inject_Z (X e - X s))%Q.
Proof. push_inj. ring. Qed.

Lemma inject_segZ s a w :
  (inject_Z (segZ s a w)
   == (inject_Z (X s) - inject_Z (X a)) * inject_Z (Y w)
      - (inject_Z (Y s) - inject_Z (Y a)) * inject_Z (X w))%Q.
Proof. push_inj. ring. Qed.

Lemma inject_edgeZ s e a :
  (inject_Z (edgeZ s e a)
   == (inject_Z (X s) - inject_Z (X a)) * inject_Z (Y e - Y s)
      - (inject_Z (Y s) - inject_Z (Y a)) * inject_Z (X e - X s))%Q.
Proof. push_inj. ring. Qed.

(** For a non-parallel pair the parameters of the common point of the two
    lines are [segZ / crossZ] along the query segment and [edgeZ / crossZ]
    along the edge. *)
Lemma params_of_meeting s e a w (t u : Q) :
  (inject_Z (X s) + t * inject_Z (X e - X s) == inject_Z (X a) + u * inject_Z (X w) ->
   inject_Z (Y s) + t * inject_Z (Y e - Y s) == inject_Z (Y a) + u * inject_Z (Y w) ->
   t * inject_Z (crossZ s e a w) == inject_Z (segZ s a w)
   /\ u * inject_Z (crossZ s e a w) == inject_Z (edgeZ s e a))%Q.
Proof.
  intros H1 H2. rewrite inject_crossZ, inject_segZ, inject_edgeZ.
  apply (param_unique _ _ _ _ _ _ _ _ t u H1 H2).
Qed.

Lemma meeting_of_params s e a w :
  crossZ s e a w <> 0 ->
  let t := (inject_Z (segZ s a w) / inject_Z (crossZ s e a w))%Q in
  let u := (inject_Z (edgeZ s e a) / inject_Z (crossZ s e a w))%Q in
  (inject_Z (X s) + t * inject_Z (X e - X s) == inject_Z (X a) + u * inject_Z (X w)
   /\ inject_Z (Y s) + t * inject_Z (Y e - Y s) == inject_Z (Y a) + u * inject_Z (Y w))%Q.
Proof.
  intros Hc t u. unfold t, u.
  assert (Hq : ~ (inject_Z (crossZ s e a w) == 0)%Q).
  { intros H. apply Hc. apply inject_Z_injective. exact H. }
  rewrite inject_crossZ in Hq.
  rewrite inject_crossZ, inject_segZ, inject_edgeZ.
  apply (param_solution _ _ _ _ _ _ _ _ Hq).
Qed.

Lemma in_range_iff (q p c : Z) (t u : Q) :
  c <> 0 ->
  (t * inject_Z c == inject_Z q)%Q ->
  (u * inject_Z c == inject_Z p)%Q ->
  ((0 < t /\ t < 1 /\ 0 <= u /\ u <= 1)%Q
   <-> (0 < c /\ (0 < q /\ q < c) /\ (0 <= p /\ p <= c))
       \/ (c < 0 /\ (c < q /\ q < 0) /\ (c <= p /\ p <= 0))).
Proof.
  intros Hc Et Eu.
  rewrite !Zlt_Qlt, !Zle_Qle. change (inject_Z 0) with 0%Q.
  assert (HC : (inject_Z c < 0 \/ 0 < inject_Z c)%Q).
  { destruct (Z.lt_trichotomy c 0) as [H|[H|H]]; [left|contradiction|right].
    - rewrite Zlt_Qlt in H. exact H.
    - rewrite Zlt_Qlt in H. exact H. }
  revert Et Eu HC.
  generalize (inject_Z c) as C, (inject_Z q) as Q_, (inject_Z p) as P_.
  intros C Q_ P_ Et Eu HC.
  split.
  - intros (A & B & D & E). destruct HC as [HC|HC]; [right|left];
      repeat split; nra.
  - intros [(A & (B1 & B2) & (D1 & D2))|(A & (B1 & B2) & (D1 & D2))];
      repeat split; nra.
Qed.

Definition in_range (q p c : Z) : Prop :=
  (0 < c /\ (0 < q /\ q < c) /\ (0 <= p /\ p <= c))
  \/ (c < 0 /\ (c < q /\ q < 0) /\ (c <= p /\ p <= 0)).

Lemma ratio_mult (q c : Z) :
  c <> 0 -> (inject_Z q / inject_Z c * inject_Z c == inject_Z q)%Q.
Proof.
  intros Hc. field. intros H. apply Hc.
  apply inject_Z_injective. exact H.
Qed.

Lemma meets_open_vec_iff s e a w :
  crossZ s e a w <> 0 ->
  (meets_open_vec s e a w
   <-> in_range (segZ s a w) (edgeZ s e a) (crossZ s e a w)).
Proof.
  intros Hc. unfold in_range. split.
  - intros (t & u & Ht0 & Ht1 & Hu0 & Hu1 & Ex & Ey).
    destruct (params_of_meeting s e a w t u Ex Ey) as [Et Eu].
    apply (in_range_iff _ _ _ t u Hc Et Eu). auto.
  - intros H.
    exists (inject_Z (segZ s a w) / inject_Z (crossZ s e a w))%Q,
           (inject_Z (edgeZ s e a) / inject_Z (crossZ s e a w))%Q.
    apply (in_range_iff _ _ _ _ _ Hc (ratio_mult _ _ Hc) (ratio_mult _ _ Hc)) in H.
    destruct H as (A & B & C & D).
    destruct (meeting_of_params s e a w Hc) as [Ex Ey].
    repeat split; assumption.
Qed.

(** *** The desktop port *)

Lemma Intersects_edge_iff start end_ p :
  Desktop.Intersects_edge start (end_ -p start) p = true
  <-> crossZ start end_ (Desktop.Start p) (Desktop.Vector p) <> 0
      /\ meets_open_vec start end_ (Desktop.Start p) (Desktop.Vector p).
Proof.
  split.
  - intros H.
    assert (Hc : crossZ start end_ (Desktop.Start p) (Desktop.Vector p) <> 0).
    { intros Hc. unfold Desktop.Intersects_edge in H. fold (crossZ start end_ (Desktop.Start p) (Desktop.Vector p)) in H.
      rewrite Hc in H. discriminate H. }
    split; [exact Hc|]. apply meets_open_vec_iff; [exact Hc|].
    unfold Desktop.Intersects_edge in H. unfold in_range.
    change (Pt.Cross (Desktop.Vector p) (end_ -p start))
      with (crossZ start end_ (Desktop.Start p) (Desktop.Vector p)) in H.
    change (Pt.Cross (start -p Desktop.Start p) (end_ -p start))
      with (edgeZ start end_ (Desktop.Start p)) in H.
    change (Pt.Cross (start -p Desktop.Start p) (Desktop.Vector p))
      with (segZ start (Desktop.Start p) (Desktop.Vector p)) in H.
    revert H Hc.
    generalize (crossZ start end_ (Desktop.Start p) (Desktop.Vector p)) as c,
               (edgeZ start end_ (Desktop.Start p)) as pT,
               (segZ start (Desktop.Start p) (Desktop.Vector p)) as qT.
    intros c pT qT H Hc.
    destruct (c =? 0) eqn:E0; [discriminate H|].
    destruct (c <? 0) eqn:En;
      rewrite !andb_true_iff in H; destruct H as [[[H1 H2] H3] H4];
      apply Z.ltb_lt in H1, H2; apply Z.leb_le in H3, H4.
    + apply Z.ltb_lt in En. right. lia.
    + apply Z.ltb_ge in En. left. lia.
  - intros [Hc H]. apply meets_open_vec_iff in H; [|exact Hc].
    unfold Desktop.Intersects_edge. unfold in_range in H.
    change (Pt.Cross (Desktop.Vector p) (end_ -p start))
      with (crossZ start end_ (Desktop.Start p) (Desktop.Vector p)).
    change (Pt.Cross (start -p Desktop.Start p) (end_ -p start))
      with (edgeZ start end_ (Desktop.Start p)).
    change (Pt.Cross (start -p Desktop.Start p) (Desktop.Vector p))
      with (segZ start (Desktop.Start p) (Desktop.Vector p)).
    revert H Hc.
    generalize (crossZ start end_ (Desktop.Start p) (Desktop.Vector p)) as c,
               (edgeZ start end_ (Desktop.Start p)) as pT,
               (segZ start (Desktop.Start p) (Desktop.Vector p)) as qT.
    intros c pT qT H Hc.
    destruct (c =? 0) eqn:E0; [apply Z.eqb_eq in E0; contradiction|].
    destruct (c <? 0) eqn:En; rewrite !andb_true_iff;
      [apply Z.ltb_lt in En|apply Z.ltb_ge in En];
      repeat split; try apply Z.ltb_lt; try apply Z.leb_le; lia.
Qed.

Lemma edges_from_vector start order pts p :
  In p (Desktop.edges_from start order pts) ->
  Desktop.Vector p = Desktop.End p -p Desktop.Start p.
Proof.
  revert start order. induction pts as [|q rest IH]; intros start order H.
  - destruct H.
  - destruct H as [<-|H]; [reflexivity|]. eapply IH; exact H.
Qed.

Lemma Qltb_ge a b : Qltb a b = false <-> (b <= a)%Q.
Proof.
  unfold Qltb. rewrite negb_false_iff. apply Qle_bool_iff.
Qed.

(** *** The web port *)

Definition Web_edge_vector (e : Web.Edge) : Point := mkPoint (Web.dx e) (Web.dy e).

Lemma Web_edge_end_sub e : Web_edge_end e -p Web_edge_start e = Web_edge_vector e.
Proof.
  unfold Web_edge_end, Web_edge_start, Web_edge_vector, Pt.sub. cbn. f_equal; lia.
Qed.

Lemma on_segment_vec p a b (u : Q) :
  (0 <= u -> u <= 1 ->
   inject_Z (X p) == inject_Z (X a) + u * inject_Z (X (b -p a)) ->
   inject_Z (Y p) == inject_Z (Y a) + u * inject_Z (Y (b -p a)) ->
   on_segment p a b)%Q.
Proof.
  intros H0 H1 Hx Hy. exists u. repeat split; assumption.
Qed.

Lemma intersects_edge_iff start end_ pCross e :
  ~ on_segment start (Web_edge_start e) (Web_edge_end e) ->
  ~ on_segment end_ (Web_edge_start e) (Web_edge_end e) ->
  (Web.intersects_edge start end_ (end_ -p start) pCross e = true
   <-> crossZ start end_ (Web_edge_start e) (Web_edge_vector e) <> 0
       /\ meets_open_vec start end_ (Web_edge_start e) (Web_edge_vector e)).
Proof.
  intros Hs He.
  set (a := Web_edge_start e). set (w := Web_edge_vector e).
  unfold Web.intersects_edge.
  destruct ((X start =? Web.x e) && (Y start =? Web.y e)) eqn:E1.
  { exfalso. apply Hs. apply andb_true_iff in E1. destruct E1 as [Ex Ey].
    apply Z.eqb_eq in Ex, Ey.
    apply (on_segment_vec _ _ _ 0%Q); try lra; cbn [X Y Web_edge_start];
      rewrite ?Ex, ?Ey; lra. }
  destruct ((X end_ =? Web.x e) && (Y end_ =? Web.y e)) eqn:E2.
  { exfalso. apply He. apply andb_true_iff in E2. destruct E2 as [Ex Ey].
    apply Z.eqb_eq in Ex, Ey.
    apply (on_segment_vec _ _ _ 0%Q); try lra; cbn [X Y Web_edge_start];
      rewrite ?Ex, ?Ey; lra. }
  change (Web.dx e * Y (end_ -p start) - Web.dy e * X (end_ -p start))
    with (crossZ start end_ a w).
  change ((X start - Web.x e) * Web.dy e - (Y start - Web.y e) * Web.dx e)
    with (segZ start a w).
  change ((X start - Web.x e) * Y (end_ -p start) - (Y start - Web.y e) * X (end_ -p start))
    with (edgeZ start end_ a).
  destruct (crossZ start end_ a w =? 0) eqn:E0.
  { apply Z.eqb_eq in E0. split; [discriminate|]. intros [Hc _]. contradiction. }
  apply Z.eqb_neq in E0.
  set (t := (inject_Z (segZ start a w) / inject_Z (crossZ start end_ a w))%Q).
  set (u := (inject_Z (edgeZ start end_ a) / inject_Z (crossZ start end_ a w))%Q).
  pose proof (ratio_mult (segZ start a w) _ E0) as Et. fold t in Et.
  pose proof (ratio_mult (edgeZ start end_ a) _ E0) as Eu. fold u in Eu.
  pose proof (in_range_iff _ _ _ t u E0 Et Eu) as Hr. fold (in_range (segZ start a w) (edgeZ start end_ a) (crossZ start end_ a w)) in Hr.
  pose proof (meets_open_vec_iff start end_ a w E0) as Hm.
  destruct (meeting_of_params start end_ a w E0) as [Mx My]. fold t u in Mx, My.
  assert (Hvec : Web_edge_end e -p a = w) by apply Web_edge_end_sub.
  subst a w.
  destruct (Qltb u 0) eqn:U0; cbn [orb].
  { apply Qltb_lt in U0. split; [discriminate|]. intros [_ H].
    apply Hm, Hr in H. lra. }
  destruct (Qltb 1 u) eqn:U1; cbn [orb].
  { apply Qltb_lt in U1. split; [discriminate|]. intros [_ H].
    apply Hm, Hr in H. lra. }
  destruct (Qltb t 0) eqn:T0; cbn [orb].
  { apply Qltb_lt in T0. split; [discriminate|]. intros [_ H].
    apply Hm, Hr in H. lra. }
  destruct (Qltb 1 t) eqn:T1; cbn [orb].
  { apply Qltb_lt in T1. split; [discriminate|]. intros [_ H].
    apply Hm, Hr in H. lra. }
  apply Qltb_ge in U0, U1, T0, T1.
  destruct (Qltb 0 t) eqn:T2; cbn [andb].
  - apply Qltb_lt in T2. destruct (Qltb t 1) eqn:T3.
    + apply Qltb_lt in T3. split; [|reflexivity]. intros _. split; [exact E0|].
      apply Hm, Hr. repeat split; assumption.
    + apply Qltb_ge in T3. exfalso. apply He.
      assert (T : (t == 1)%Q) by lra.
      apply (on_segment_vec _ _ _ u U0 U1); rewrite Hvec.
      * rewrite <- Mx, T. push_inj. ring.
      * rewrite <- My, T. push_inj. ring.
  - apply Qltb_ge in T2. exfalso. apply Hs.
    assert (T : (t == 0)%Q) by lra.
    apply (on_segment_vec _ _ _ u U0 U1); rewrite Hvec.
    + rewrite <- Mx, T. ring.
    + rewrite <- My, T. ring.
Qed.

(** The open segment from [s] to [e] has a point on an edge of a ring. *)
Definition Desktop_crosses (poly : Desktop.Polygon) (s e : Point) : Prop :=
  exists part, In part poly /\
  exists p, In p (Desktop.edges part) /\ meets_open s e (Desktop.Start p) (Desktop.End p).

Definition Web_crosses (rings : Web.Polygon) (s e : Point) : Prop :=
  exists ring, In ring rings /\
  exists ed, In ed ring /\ meets_open s e (Web_edge_start ed) (Web_edge_end ed).

(** The same, on an edge that is not parallel to the segment. *)
Definition Desktop_crosses_transversal (poly : Desktop.Polygon) (s e : Point) : Prop :=
  exists part, In part poly /\
  exists p, In p (Desktop.edges part)
    /\ Pt.Cross (Desktop.End p -p Desktop.Start p) (e -p s) <> 0
    /\ meets_open s e (Desktop.Start p) (Desktop.End p).

Definition Web_crosses_transversal (rings : Web.Polygon) (s e : Point) : Prop :=
  exists ring, In ring rings /\
  exists ed, In ed ring
    /\ Pt.Cross (Web_edge_end ed -p Web_edge_start ed) (e -p s) <> 0
    /\ meets_open s e (Web_edge_start ed) (Web_edge_end ed).

(** [p] lies on no edge of the polygon. *)
Definition off_boundary (rings : Web.Polygon) (p : Point) : Prop :=
  forall ring, In ring rings -> forall ed, In ed ring ->
    ~ on_segment p (Web_edge_start ed) (Web_edge_end ed).

Lemma Desktop_Intersects_iff poly s e :
  Desktop.Intersects poly s e = true <-> Desktop_crosses_transversal poly s e.
Proof.
  unfold Desktop.Intersects, Desktop_crosses_transversal.
  rewrite existsb_exists. split.
  - intros (part & Hin & H). apply existsb_exists in H. destruct H as (p & Hp & H).
    apply Intersects_edge_iff in H. destruct H as [Hc Hm].
    exists part. split; [exact Hin|]. exists p. split; [exact Hp|].
    unfold meets_open. rewrite <- (edges_from_vector _ _ _ _ Hp). split; assumption.
  - intros (part & Hin & p & Hp & Hc & Hm).
    exists part. split; [exact Hin|]. apply existsb_exists. exists p. split; [exact Hp|].
    apply Intersects_edge_iff. unfold meets_open in Hm.
    rewrite <- (edges_from_vector _ _ _ _ Hp) in Hc, Hm. split; assumption.
Qed.

Lemma intersects_ring_iff s e prev ring :
  (forall ed, In ed ring ->
     ~ on_segment s (Web_edge_start ed) (Web_edge_end ed)
     /\ ~ on_segment e (Web_edge_start ed) (Web_edge_end ed)) ->
  (Web.intersects_ring s e (e -p s) prev ring = true
   <-> exists ed, In ed ring
         /\ Pt.Cross (Web_edge_end ed -p Web_edge_start ed) (e -p s) <> 0
         /\ meets_open s e (Web_edge_start ed) (Web_edge_end ed)).
Proof.
  revert prev. induction ring as [|ed rest IH]; intros prev Hoff.
  - cbn. split; [discriminate|]. intros (ed & [] & _).
  - cbn [Web.intersects_ring]. rewrite orb_true_iff.
    destruct (Hoff ed (or_introl eq_refl)) as [Hs He].
    rewrite (intersects_edge_iff s e prev ed Hs He).
    rewrite IH by (intros ed' Hin; apply Hoff; right; exact Hin).
    unfold meets_open. split.
    + intros [[Hc Hm]|(ed' & Hin & H)].
      * exists ed. rewrite Web_edge_end_sub. split; [left; reflexivity|]. split; assumption.
      * exists ed'. split; [right; exact Hin|exact H].
    + intros (ed' & [<-|Hin] & Hc & Hm).
      * left. rewrite Web_edge_end_sub in Hc, Hm. split; assumption.
      * right. exists ed'. split; [exact Hin|]. split; assumption.
Qed.

Lemma Web_intersects_iff rings s e :
  off_boundary rings s -> off_boundary rings e ->
  (Web.intersects rings s e = true <-> Web_crosses_transversal rings s e).
Proof.
  intros Hs He. unfold Web.intersects, Web_crosses_transversal.
  rewrite existsb_exists. split.
  - intros (ring & Hin & H). exists ring. split; [exact Hin|].
    apply intersects_ring_iff in H; [exact H|].
    intros ed Hed. split; [apply (Hs ring Hin ed Hed)|apply (He ring Hin ed Hed)].
  - intros (ring & Hin & H). exists ring. split; [exact Hin|].
    apply intersects_ring_iff; [|exact H].
    intros ed Hed. split; [apply (Hs ring Hin ed Hed)|apply (He ring Hin ed Hed)].
Qed.



Lemma square_off_boundary (p : Point) :
  (0 < X p < 10 \/ 10 < X p) -> 0 < Y p < 10 -> off_boundary [Web.expand square] p.
Proof.
  intros Hx Hy ring [<-|[]] ed Hed (u & Hu0 & Hu1 & Ex & Ey).
  cbn in Hed. destruct Hed as [<-|[<-|[<-|[<-|[]]]]]; cbn in Ex, Ey.
  all: revert Ex Ey; rewrite ?Zlt_Qlt in *; change (inject_Z 0) with 0%Q in *;
    change (inject_Z 10) with 10%Q in *; change (inject_Z (-10)) with (-10)%Q in *;
    generalize dependent (inject_Z (X p)); generalize dependent (inject_Z (Y p));
    intros; lra.
Qed.


(** ** Union without intersections *)

(** What [Polygon::Add] and [_union] do with a ring Q that crosses no part
    of P is the same in the two ports, up to the type of rings and the names
    of the containment and polarity tests. *)
Section SmallestContainer.

Context {R : Type} (ContainsRing : R -> R -> bool) (IsHole : R -> bool) (ring : R).

(** The parts of P that Q does not contain are copied to the result. *)
Definition kept (this : list R) : list R :=
  filter (fun part => negb (ContainsRing ring part)) this.

(** The copied parts that contain Q. *)
Definition containers (this : list R) : list R :=
  filter (fun part => negb (ContainsRing ring part)
                      && ContainsRing part ring) this.

(** The update of [smallestContainer] in the loop over the parts. *)
Definition container_step (c : option R) (part : R)
    : option R :=
  if negb (ContainsRing ring part)
     && (ContainsRing part ring
         && match c with
            | None => true
            | Some c' => ContainsRing c' part
            end)
  then Some part else c.

Definition smallest_container (this : list R) : option R :=
  fold_left container_step this None.

Definition container_is_hole (c : option R) : bool :=
  match c with
  | None => true
  | Some c' => IsHole c'
  end.

(** The rings of [l] are nested in one another. *)
Definition nested_chain (l : list R) : Prop :=
  (forall a b, In a l -> In b l ->
     a = b \/ ContainsRing a b = true \/ ContainsRing b a = true)
  /\ (forall a b c, In a l -> In b l -> In c l ->
        ContainsRing a b = true -> ContainsRing b c = true ->
        ContainsRing a c = true).

(** What the loop has found after the parts in [seen]. *)
Definition container_inv (c : option R) (seen : list R) : Prop :=
  match c with
  | None => seen = []
  | Some c' =>
      In c' seen
      /\ forall d, In d seen -> d = c' \/ ContainsRing d c' = true
  end.

Lemma container_fold_inv (all : list R) :
  nested_chain (containers all) ->
  forall this seen c,
    incl (seen ++ containers this) (containers all) ->
    container_inv c seen ->
    container_inv (fold_left container_step this c) (seen ++ containers this).
Proof.
  intros [Htot Htrans]. induction this as [|part rest IH]; intros seen c Hincl Hinv.
  - cbn. rewrite app_nil_r. exact Hinv.
  - cbn [fold_left]. unfold containers at 1. cbn [filter]. fold (containers rest).
    unfold container_step at 2.
    destruct (negb (ContainsRing ring part)
              && ContainsRing part ring) eqn:Ec.
    + assert (Hincl' : incl ((seen ++ [part]) ++ containers rest) (containers all)).
      { intros d Hd. apply Hincl. rewrite <- app_assoc in Hd. cbn in Hd.
        unfold containers at 1. cbn [filter]. rewrite Ec. exact Hd. }
      assert (Hpart : In part (containers all)).
      { apply Hincl'. apply in_or_app. left. apply in_or_app. right. left. reflexivity. }
      assert (Hseen : forall d, In d seen -> In d (containers all)).
      { intros d Hd. apply Hincl'. apply in_or_app. left. apply in_or_app. left. exact Hd. }
      replace (seen ++ part :: containers rest) with ((seen ++ [part]) ++ containers rest)
        by (rewrite <- app_assoc; reflexivity).
      apply andb_true_iff in Ec. destruct Ec as [Ec1 Ec2]. rewrite Ec1, Ec2. cbn [andb].
      apply IH; [exact Hincl'|].
      destruct c as [c'|]; cbn [container_inv] in Hinv.
      * destruct Hinv as [Hc' Hmin].
        destruct (ContainsRing c' part) eqn:Ecp; cbn [container_inv].
        -- split; [apply in_or_app; right; left; reflexivity|].
           intros d Hd. apply in_app_or in Hd. destruct Hd as [Hd|[<-|[]]].
           ++ right. destruct (Hmin d Hd) as [->|Hdc]; [exact Ecp|].
              apply (Htrans d c' part); auto.
           ++ left. reflexivity.
        -- split; [apply in_or_app; left; exact Hc'|].
           intros d Hd. apply in_app_or in Hd. destruct Hd as [Hd|[<-|[]]].
           ++ apply Hmin. exact Hd.
           ++ destruct (Htot c' part (Hseen c' Hc') Hpart) as [->|[H|H]].
              ** left. reflexivity.
              ** congruence.
              ** right. exact H.
      * subst seen. cbn [container_inv app]. split; [left; reflexivity|].
        intros d [<-|[]]. left. reflexivity.
    + cbn [andb]. replace (negb (ContainsRing ring part)
                           && (ContainsRing part ring
                               && match c with
                                  | Some c' => ContainsRing c' part
                                  | None => true
                                  end)) with false.
      * apply IH; [|exact Hinv]. intros d Hd. apply Hincl.
        unfold containers at 1. cbn [filter]. rewrite Ec. exact Hd.
      * rewrite andb_assoc, Ec. reflexivity.
Qed.

(** The container that the loop settles on is a copied part that contains Q;
    there is none exactly when no copied part contains Q; and when the
    containers are nested in one another, it is the innermost. *)
Lemma smallest_container_spec (this : list R) :
  (smallest_container this = None <-> containers this = [])
  /\ (forall c, smallest_container this = Some c -> In c (containers this))
  /\ (nested_chain (containers this) ->
      forall c, smallest_container this = Some c ->
      forall d, In d (containers this) -> d = c \/ ContainsRing d c = true).
Proof.
  assert (Hgen : forall l c,
            (fold_left container_step l c = c
             \/ exists p, fold_left container_step l c = Some p /\ In p (containers l))
            /\ (c <> None -> fold_left container_step l c <> None)
            /\ (containers l <> [] -> fold_left container_step l c <> None)).
  { induction l as [|part rest IH]; intros c.
    - cbn. split; [left; reflexivity|]. split; [auto|]. intros H; contradiction.
    - cbn [fold_left]. destruct (IH (container_step c part)) as (IH1 & IH2 & IH3).
      unfold containers. cbn [filter]. fold (containers rest).
      unfold container_step in *.
      destruct (negb (ContainsRing ring part)); cbn [andb] in *.
      + destruct (ContainsRing part ring); cbn [andb] in *.
        * destruct (match c with Some c' => ContainsRing c' part | None => true end)
            eqn:Em.
          -- split; [|split].
             ++ right. destruct IH1 as [->|(p & -> & Hp)].
                ** exists part. split; [reflexivity|left; reflexivity].
                ** exists p. split; [reflexivity|right; exact Hp].
             ++ intros _. apply IH2. discriminate.
             ++ intros _. apply IH2. discriminate.
          -- destruct c as [c'|]; [|discriminate Em].
             split; [|split].
             ++ destruct IH1 as [->|(p & -> & Hp)]; [left; reflexivity|].
                right. exists p. split; [reflexivity|right; exact Hp].
             ++ intros _. apply IH2. discriminate.
             ++ intros _. apply IH2. discriminate.
        * split; [|split]; [|exact IH2|exact IH3].
          destruct IH1 as [->|(p & -> & Hp)]; [left; reflexivity|].
          right. exists p. split; [reflexivity|exact Hp].
      + split; [|split]; [|exact IH2|exact IH3].
        destruct IH1 as [->|(p & -> & Hp)]; [left; reflexivity|].
        right. exists p. split; [reflexivity|exact Hp]. }
  unfold smallest_container. destruct (Hgen this None) as (H1 & _ & H3).
  split; [|split].
  - split.
    + intros Hn. destruct (containers this) eqn:E; [reflexivity|].
      exfalso. apply H3; [discriminate|exact Hn].
    + intros He. destruct H1 as [H|(p & _ & Hp)]; [exact H|].
      rewrite He in Hp. destruct Hp.
  - intros c Hc. destruct H1 as [H|(p & Hp & Hin)]; [congruence|].
    rewrite Hc in Hp. injection Hp as ->. exact Hin.
  - intros Hchain c Hc d Hd.
    pose proof (container_fold_inv this Hchain this [] None
                  (fun x Hx => Hx) eq_refl) as Hinv.
    cbn [app] in Hinv. rewrite Hc in Hinv. destruct Hinv as [_ Hmin].
    apply Hmin. exact Hd.
Qed.

(** The rings that are left when nothing crosses. *)
Lemma smallest_container_single (solid : R) :
  IsHole solid = false -> IsHole ring = true ->
  ContainsRing solid ring = true -> ContainsRing ring solid = false ->
  kept [solid]
  ++ (if negb (Bool.eqb (container_is_hole (smallest_container [solid])) (IsHole ring))
      then [ring] else [])
  = [solid; ring].
Proof.
  intros Hs Hq Hin Hout.
  unfold kept, smallest_container, container_step. cbn [filter fold_left].
  rewrite Hout, Hin. cbn [negb andb container_is_hole]. rewrite Hs, Hq. reflexivity.
Qed.

End SmallestContainer.

(** *** The desktop port *)

Section AddWithoutIntersections.

Variable ring : Desktop.Ring.

(** No part of P has an intersection with Q left after [RemoveDoubles]. *)
Definition Desktop_no_surviving (this : Desktop.Polygon) : Prop :=
  forall part, In part this -> Desktop.surviving part ring = [].

Lemma Add_part_no_surviving st part :
  Desktop.surviving part ring = [] ->
  Desktop.Add_part ring st part
  = Desktop.mkAddState
      (Desktop.result st ++ kept Desktop.ContainsRing ring [part])
      (Desktop.qIntersections st) (Desktop.amplified st)
      (container_step Desktop.ContainsRing ring (Desktop.smallestContainer st) part).
Proof.
  intros H. unfold Desktop.Add_part, kept, container_step. rewrite H. cbn [filter].
  destruct (Desktop.ContainsRing ring part); cbn [negb andb].
  - rewrite app_nil_r. destruct st; reflexivity.
  - reflexivity.
Qed.

Lemma Add_fold_no_surviving this :
  Desktop_no_surviving this ->
  forall st,
    fold_left (Desktop.Add_part ring) this st
    = Desktop.mkAddState
        (Desktop.result st ++ kept Desktop.ContainsRing ring this)
        (Desktop.qIntersections st) (Desktop.amplified st)
        (fold_left (container_step Desktop.ContainsRing ring) this
           (Desktop.smallestContainer st)).
Proof.
  induction this as [|part rest IH]; intros Hno st.
  - cbn. rewrite app_nil_r. destruct st; reflexivity.
  - cbn [fold_left]. rewrite Add_part_no_surviving by (apply Hno; left; reflexivity).
    rewrite IH by (intros p Hp; apply Hno; right; exact Hp).
    cbn [Desktop.result Desktop.qIntersections Desktop.amplified Desktop.smallestContainer].
    rewrite <- app_assoc. f_equal. unfold kept. cbn [filter].
    destruct (negb (Desktop.ContainsRing ring part)); reflexivity.
Qed.

Lemma Desktop_Add_no_surviving this :
  Desktop_no_surviving this ->
  Desktop.Add this ring
  = Some (kept Desktop.ContainsRing ring this
          ++ if negb (Bool.eqb (container_is_hole Desktop.IsHole
                                  (smallest_container Desktop.ContainsRing ring this))
                               (Desktop.IsHole ring))
             then [ring] else []).
Proof.
  intros Hno. unfold Desktop.Add. rewrite (Add_fold_no_surviving this Hno).
  cbn [Desktop.qIntersections Desktop.smallestContainer Desktop.result app].
  fold (smallest_container Desktop.ContainsRing ring this).
  fold (container_is_hole Desktop.IsHole (smallest_container Desktop.ContainsRing ring this)).
  destruct (negb (Bool.eqb (container_is_hole Desktop.IsHole
                              (smallest_container Desktop.ContainsRing ring this))
                           (Desktop.IsHole ring)));
    [reflexivity|rewrite app_nil_r; reflexivity].
Qed.

End AddWithoutIntersections.

(** *** The web port *)

Section UnionWithoutIntersections.

Variable ring : Web.Ring.

(** No part of P has an intersection with Q left after [removeDoubles]. *)
Definition Web_no_surviving (this : Web.Polygon) : Prop :=
  forall part, In part this -> Web.surviving part ring = [].

Lemma union_part_no_surviving st part :
  Web.surviving part ring = [] ->
  Web.union_part ring st part
  = Web.mkUnionState
      (Web.result st ++ kept Web.ringContainsRing ring [part])
      (Web.qIntersections st) (Web.amplified st)
      (container_step Web.ringContainsRing ring (Web.smallestContainer st) part).
Proof.
  intros H. unfold Web.union_part, kept, container_step. rewrite H. cbn [filter].
  destruct (Web.ringContainsRing ring part); cbn [negb andb].
  - rewrite app_nil_r. destruct st; reflexivity.
  - reflexivity.
Qed.

Lemma union_fold_no_surviving this :
  Web_no_surviving this ->
  forall st,
    fold_left (Web.union_part ring) this st
    = Web.mkUnionState
        (Web.result st ++ kept Web.ringContainsRing ring this)
        (Web.qIntersections st) (Web.amplified st)
        (fold_left (container_step Web.ringContainsRing ring) this
           (Web.smallestContainer st)).
Proof.
  induction this as [|part rest IH]; intros Hno st.
  - cbn. rewrite app_nil_r. destruct st; reflexivity.
  - cbn [fold_left]. rewrite union_part_no_surviving by (apply Hno; left; reflexivity).
    rewrite IH by (intros p Hp; apply Hno; right; exact Hp).
    cbn [Web.result Web.qIntersections Web.amplified Web.smallestContainer].
    rewrite <- app_assoc. f_equal. unfold kept. cbn [filter].
    destruct (negb (Web.ringContainsRing ring part)); reflexivity.
Qed.

Lemma Web_union_no_surviving this :
  Web_no_surviving this ->
  Web._union this ring
  = Some (Web.Rings
            (kept Web.ringContainsRing ring this
             ++ if negb (Bool.eqb (container_is_hole Web.isHole
                                     (smallest_container Web.ringContainsRing ring this))
                                  (Web.isHole ring))
                then [ring] else [])).
Proof.
  intros Hno. unfold Web._union. rewrite (union_fold_no_surviving this Hno).
  cbn [Web.qIntersections Web.smallestContainer Web.result app].
  fold (smallest_container Web.ringContainsRing ring this).
  fold (container_is_hole Web.isHole (smallest_container Web.ringContainsRing ring this)).
  destruct (negb (Bool.eqb (container_is_hole Web.isHole
                              (smallest_container Web.ringContainsRing ring this))
                           (Web.isHole ring)));
    [reflexivity|rewrite app_nil_r; reflexivity].
Qed.

(** Intersections that are left send [_union] to the trace. *)
Lemma Web_union_surviving this :
  Web.qIntersections (fold_left (Web.union_part ring) this (Web.mkUnionState [] [] [] None)) <> [] ->
  forall rings, Web._union this ring <> Some (Web.Rings rings).
Proof.
  intros Hq rings. unfold Web._union.
  destruct (Web.qIntersections _) as [|q qs]; [contradiction|].
  destruct (Web.amplify _ _ _ _ _) as [enteringIndices amp].
  destruct (Web.trace_all _ _ _ _); cbn; discriminate.
Qed.

End UnionWithoutIntersections.

(** C2: in both ports, when no intersection of Q with any part of P
    survives, the result is the parts of P that Q does not contain, followed
    by Q exactly when the polarity of Q differs from the polarity of the
    innermost part that contains Q (hole polarity when there is none); a
    hole inside one solid ring gives the solid ring and the hole. *)
Theorem Add_without_intersections :
  (forall (ring : Desktop.Ring) (this : Desktop.Polygon),
     Desktop_no_surviving ring this ->
     let container := smallest_container Desktop.ContainsRing ring this in
     let candidates := containers Desktop.ContainsRing ring this in
     Desktop.Add this ring
     = Some (kept Desktop.ContainsRing ring this
             ++ if negb (Bool.eqb (container_is_hole Desktop.IsHole container)
                                  (Desktop.IsHole ring))
                then [ring] else [])
     /\ (container = None <-> candidates = [])
     /\ (forall c, container = Some c ->
           In c candidates
           /\ (nested_chain Desktop.ContainsRing candidates ->
               forall d, In d candidates -> d = c \/ Desktop.ContainsRing d c = true))
     /\ (forall solid,
           this = [solid] ->
           Desktop.IsHole solid = false -> Desktop.IsHole ring = true ->
           Desktop.ContainsRing solid ring = true ->
           Desktop.ContainsRing ring solid = false ->
           Desktop.Add this ring = Some [solid; ring]))
  /\ (forall (ring : Web.Ring) (this : Web.Polygon),
        Web_no_surviving ring this ->
        let container := smallest_container Web.ringContainsRing ring this in
        let candidates := containers Web.ringContainsRing ring this in
        Web._union this ring
        = Some (Web.Rings
                  (kept Web.ringContainsRing ring this
                   ++ if negb (Bool.eqb (container_is_hole Web.isHole container)
                                        (Web.isHole ring))
                      then [ring] else []))
        /\ (container = None <-> candidates = [])
        /\ (forall c, container = Some c ->
              In c candidates
              /\ (nested_chain Web.ringContainsRing candidates ->
                  forall d, In d candidates -> d = c \/ Web.ringContainsRing d c = true))
        /\ (forall solid,
              this = [solid] ->
              Web.isHole solid = false -> Web.isHole ring = true ->
              Web.ringContainsRing solid ring = true ->
              Web.ringContainsRing ring solid = false ->
              Web._union this ring = Some (Web.Rings [solid; ring]))).
Proof.
  split.
  - intros ring this Hno container candidates. subst container candidates.
    pose proof (Desktop_Add_no_surviving ring this Hno) as HAdd.
    destruct (smallest_container_spec Desktop.ContainsRing ring this) as (S1 & S2 & S3).
    split; [exact HAdd|]. split; [exact S1|]. split.
    + intros c Hc. split; [apply S2; exact Hc|]. intros Hchain. apply S3; assumption.
    + intros solid E Hs Hq Hin Hout. rewrite HAdd. subst this. f_equal.
      apply smallest_container_single; assumption.
  - intros ring this Hno container candidates. subst container candidates.
    pose proof (Web_union_no_surviving ring this Hno) as HAdd.
    destruct (smallest_container_spec Web.ringContainsRing ring this) as (S1 & S2 & S3).
    split; [exact HAdd|]. split; [exact S1|]. split.
    + intros c Hc. split; [apply S2; exact Hc|]. intros Hchain. apply S3; assumption.
    + intros solid E Hs Hq Hin Hout. rewrite HAdd. subst this. do 2 f_equal.
      apply smallest_container_single; assumption.
Qed.

Definition inner_hole : list Point := rev (rect 2 2 8 8).

Lemma Add_without_intersections_witness :
  (Desktop_no_surviving inner_hole [square]
   /\ Desktop.Add [square] inner_hole = Some [square; inner_hole])
  /\ (Web_no_surviving (Web.expand inner_hole) [Web.expand square]
      /\ Web._union [Web.expand square] (Web.expand inner_hole)
         = Some (Web.Rings [Web.expand square; Web.expand inner_hole])).
Proof.
  assert (H : Desktop_no_surviving inner_hole [square]).
  { intros part [<-|[]]. vm_compute. reflexivity. }
  assert (W : Web_no_surviving (Web.expand inner_hole) [Web.expand square]).
  { intros part [<-|[]]. vm_compute. reflexivity. }
  split; (split; [assumption|]).
  - rewrite (proj1 (proj1 Add_without_intersections inner_hole [square] H)).
    vm_compute. reflexivity.
  - rewrite (proj1 (proj2 Add_without_intersections (Web.expand inner_hole)
                      [Web.expand square] W)).
    vm_compute. reflexivity.
Defined.

(** ** Direct lines of sight *)

Lemma Web_intersects_same (rings : Web.Polygon) (p : Point) :
  Web.intersects rings p p = false.
Proof.
  unfold Web.intersects.
  assert (Hv : p -p p = origin) by (destruct p; unfold Pt.sub, origin; cbn; f_equal; lia).
  rewrite Hv.
  assert (Hring : forall ring prev, Web.intersects_ring p p origin prev ring = false).
  { induction ring as [|e rest IH]; intros prev; [reflexivity|].
    cbn [Web.intersects_ring]. rewrite IH, orb_false_r.
    unfold Web.intersects_edge. cbn [origin X Y].
    replace (Web.dx e * 0 - Web.dy e * 0) with 0 by lia. cbn.
    rewrite andb_false_r.
    destruct ((X p =? Web.x e) && (Y p =? Web.y e)); reflexivity. }
  induction rings as [|ring rest IH]; [reflexivity|].
  cbn [existsb]. rewrite Hring, IH. reflexivity.
Qed.

Lemma Desktop_Intersects_same (poly : Desktop.Polygon) (p : Point) :
  Desktop.Intersects poly p p = false.
Proof.
  unfold Desktop.Intersects.
  assert (Hv : p -p p = origin) by (destruct p; unfold Pt.sub, origin; cbn; f_equal; lia).
  rewrite Hv.
  assert (Hedge : forall e, Desktop.Intersects_edge p origin e = false).
  { intros e. unfold Desktop.Intersects_edge, Pt.Cross. cbn [origin X Y].
    replace (X (Desktop.Vector e) * 0 - Y (Desktop.Vector e) * 0) with 0 by lia.
    reflexivity. }
  induction poly as [|part rest IH]; [reflexivity|].
  cbn [existsb]. rewrite IH, orb_false_r.
  induction (Desktop.edges part) as [|e es IHe]; [reflexivity|].
  cbn [existsb]. rewrite Hedge, IHe. reflexivity.
Qed.

Section DirectPaths.

Context {Wt : Weight} (hypot : Point -> W).

(** The target that [find] heads for: [to] itself when the region contains
    it, and the closest vertex otherwise. *)
Definition Web_target (rings : Web.Polygon) (to : Point) : option Point :=
  if Web.Polygon_contains rings to then Some to else WebPaths.closestVertex hypot rings to.

Definition Desktop_target (rings : Desktop.Polygon) (to : Point) : Point :=
  let to := Pt.mul to DesktopPaths.INTERNAL_SCALE in
  if negb (Desktop.Polygon_Contains rings to)
  then DesktopPaths.ClosestVertex rings to else to.

Lemma Web_find_direct fuel (this : WebPaths.Paths) (from to target : Point) :
  WebPaths.passable this <> [] ->
  Web_target (WebPaths.passable this) to = Some target ->
  Web.intersects (WebPaths.passable this) from target = false ->
  WebPaths.find hypot fuel this from to = (Returned [target], this).
Proof.
  intros Hne Ht Hvis. unfold WebPaths.find, Web_target in *.
  destruct (WebPaths.passable this) as [|r rest] eqn:Hp; [contradiction|].
  rewrite Ht, Hvis. reflexivity.
Qed.

Lemma Web_find_same fuel (this : WebPaths.Paths) (p : Point) :
  WebPaths.passable this <> [] ->
  Web.Polygon_contains (WebPaths.passable this) p = true ->
  WebPaths.find hypot fuel this p p = (Returned [p], this).
Proof.
  intros Hne Hc. apply Web_find_direct; [exact Hne| |apply Web_intersects_same].
  unfold Web_target. rewrite Hc. reflexivity.
Qed.

Lemma Desktop_Find_direct fuel (this : DesktopPaths.Paths) (from to : Point) :
  DesktopPaths.passable this <> [] ->
  DesktopPaths.Visible (DesktopPaths.passable this)
    (Pt.mul from DesktopPaths.INTERNAL_SCALE)
    (Desktop_target (DesktopPaths.passable this) to) = true ->
  DesktopPaths.Find hypot fuel this from to
  = Some ([Pt.div (Desktop_target (DesktopPaths.passable this) to)
             DesktopPaths.INTERNAL_SCALE],
          DesktopPaths.waypoints this).
Proof.
  intros Hne Hvis. unfold DesktopPaths.Find, Desktop_target in *.
  destruct (DesktopPaths.passable this) as [|r rest] eqn:Hp; [contradiction|].
  rewrite Hvis. reflexivity.
Qed.

Lemma Desktop_Find_same fuel (this : DesktopPaths.Paths) (p : Point) :
  DesktopPaths.passable this <> [] ->
  Desktop.Polygon_Contains (DesktopPaths.passable this)
    (Pt.mul p DesktopPaths.INTERNAL_SCALE) = true ->
  DesktopPaths.Find hypot fuel this p p = Some ([p], DesktopPaths.waypoints this).
Proof.
  intros Hne Hc.
  assert (Ht : Desktop_target (DesktopPaths.passable this) p
               = Pt.mul p DesktopPaths.INTERNAL_SCALE).
  { unfold Desktop_target. rewrite Hc. reflexivity. }
  rewrite Desktop_Find_direct; [|exact Hne|].
  - rewrite Ht. do 3 f_equal. destruct p as [a b].
    unfold Pt.div, Pt.mul, DesktopPaths.INTERNAL_SCALE. cbn [X Y].
    rewrite !Z.quot_mul by lia. reflexivity.
  - rewrite Ht. unfold DesktopPaths.Visible.
    rewrite Desktop_Intersects_same. cbn [negb andb].
    replace (Pt.div (Pt.mul p DesktopPaths.INTERNAL_SCALE
                     +p Pt.mul p DesktopPaths.INTERNAL_SCALE) 2)
      with (Pt.mul p DesktopPaths.INTERNAL_SCALE); [exact Hc|].
    destruct p as [a b]. unfold Pt.div, Pt.mul, Pt.add, DesktopPaths.INTERNAL_SCALE.
    cbn [X Y]. f_equal.
    + replace (a * 4 + a * 4) with (a * 4 * 2) by lia. rewrite Z.quot_mul by lia.
      reflexivity.
    + replace (b * 4 + b * 4) with (b * 4 * 2) by lia. rewrite Z.quot_mul by lia.
      reflexivity.
Qed.


End DirectPaths.



(** ** The binary heap *)

Lemma array_set_at_length {A : Type} (l : list A) (v : A) :
  array_set l (length l) v = l ++ [v].
Proof. induction l as [|a l IH]; cbn; [|rewrite IH]; reflexivity. Qed.

Lemma array_set_length {A : Type} (l : list A) (i : nat) (v : A) :
  (i < length l)%nat -> length (array_set l i v) = length l.
Proof.
  revert i. induction l as [|a l IH]; intros i Hi; [cbn in Hi; lia|].
  destruct i as [|i]; cbn; [reflexivity|]. rewrite IH by (cbn in Hi; lia). reflexivity.
Qed.

Lemma array_set_length_ge {A : Type} (l : list A) (i : nat) (v : A) :
  (length l <= length (array_set l i v))%nat.
Proof.
  revert i. induction l as [|a l IH]; intros i; [cbn; lia|].
  destruct i as [|i]; cbn; [lia|]. specialize (IH i). lia.
Qed.

Lemma nth_error_array_set_eq {A : Type} (l : list A) (i : nat) (v : A) :
  (i <= length l)%nat -> nth_error (array_set l i v) i = Some v.
Proof.
  revert i. induction l as [|a l IH]; intros i Hi.
  - cbn in Hi. replace i with O by lia. reflexivity.
  - destruct i as [|i]; cbn; [reflexivity|]. apply IH. cbn in Hi. lia.
Qed.

Lemma nth_error_array_set_neq {A : Type} (l : list A) (i j : nat) (v : A) :
  (i <= length l)%nat -> j <> i -> nth_error (array_set l i v) j = nth_error l j.
Proof.
  revert i j. induction l as [|a l IH]; intros i j Hi Hj.
  - cbn in Hi. assert (i = O) by lia. subst i. destruct j as [|j]; [lia|].
    cbn. destruct j; reflexivity.
  - destruct i as [|i]; destruct j as [|j]; cbn; try reflexivity; try lia.
    apply IH; [cbn in Hi; lia|lia].
Qed.

Lemma perm_array_set {A : Type} (l : list A) (i : nat) (v x : A) :
  nth_error l i = Some x -> Permutation (v :: l) (x :: array_set l i v).
Proof.
  revert i. induction l as [|a l IH]; intros i Hi.
  - destruct i; discriminate Hi.
  - destruct i as [|i]; cbn in *.
    + injection Hi as ->. apply perm_swap.
    + rewrite perm_swap. rewrite (IH i Hi). rewrite perm_swap. reflexivity.
Qed.

(** Moving the hole: writing the value of position [p] at the hole [i] and
    then filling position [p] gives the same elements as filling the hole. *)
Lemma perm_move_hole {A : Type} (l : list A) (i p : nat) (up v : A) :
  (i <= length l)%nat -> p <> i -> nth_error l p = Some up ->
  Permutation (array_set (array_set l i up) p v) (array_set l i v).
Proof.
  intros Hi Hp Hup.
  assert (Hup' : nth_error (array_set l i up) p = Some up).
  { rewrite nth_error_array_set_neq by assumption. exact Hup. }
  pose proof (perm_array_set _ p v up Hup') as P1.
  destruct (Nat.eq_dec i (length l)) as [->|Hlt].
  - rewrite !array_set_at_length in *.
    apply Permutation_cons_inv with (a := up).
    rewrite <- P1.
    transitivity (v :: up :: l).
    { apply perm_skip. apply (Permutation_app_comm l [up]). }
    rewrite perm_swap. apply perm_skip. apply Permutation_cons_append.
  - assert (Hx : exists x, nth_error l i = Some x).
    { destruct (nth_error l i) eqn:E; [eauto|]. apply nth_error_None in E. lia. }
    destruct Hx as [x Hx].
    pose proof (perm_array_set _ i up x Hx) as P2.
    pose proof (perm_array_set _ i v x Hx) as P3.
    apply Permutation_cons_inv with (a := up).
    apply Permutation_cons_inv with (a := x).
    transitivity (x :: v :: array_set l i up).
    { apply perm_skip. symmetry. exact P1. }
    transitivity (v :: x :: array_set l i up); [apply perm_swap|].
    transitivity (v :: up :: l).
    { apply perm_skip. symmetry. exact P2. }
    transitivity (up :: v :: l); [apply perm_swap|].
    transitivity (up :: x :: array_set l i v).
    { apply perm_skip. exact P3. }
    apply perm_swap.
Qed.

Section HeapOrder.

Context {A : Type} (sort : A -> A -> bool).

(** [a] is not after [b] in the heap's order. *)
Definition hle (a b : A) : Prop := sort b a = false.

Hypothesis sort_asym : forall a b, sort a b = true -> sort b a = false.
Hypothesis hle_trans : forall a b c, hle a b -> hle b c -> hle a c.

Lemma hle_refl a : hle a a.
Proof.
  unfold hle. destruct (sort a a) eqn:E; [|reflexivity].
  rewrite (sort_asym a a E) in E. discriminate E.
Qed.

Definition parent (i : nat) : nat := Nat.div2 (i - 1).

Lemma parent_lt i : (0 < i)%nat -> (parent i < i)%nat.
Proof.
  intros Hi. unfold parent. rewrite Nat.div2_div.
  apply Nat.le_lt_trans with (m := (i - 1)%nat); [|lia].
  apply Nat.Div0.div_le_upper_bound. lia.
Qed.

Lemma parent_children i c :
  (0 < c)%nat -> parent c = i -> c = (i * 2 + 1)%nat \/ c = (i * 2 + 2)%nat.
Proof.
  intros Hc. unfold parent. rewrite Nat.div2_div. intros H.
  pose proof (Nat.div_mod_eq (c - 1) 2) as E.
  pose proof (Nat.mod_upper_bound (c - 1) 2 ltac:(lia)) as B.
  rewrite H in E. lia.
Qed.

Lemma parent_of_child i : parent (i * 2 + 1) = i /\ parent (i * 2 + 1 + 1) = i.
Proof.
  unfold parent. rewrite !Nat.div2_div. split.
  - replace (i * 2 + 1 - 1)%nat with (i * 2)%nat by lia. apply Nat.div_mul. lia.
  - replace (i * 2 + 1 + 1 - 1)%nat with (1 + i * 2)%nat by lia.
    rewrite Nat.div_add by lia. reflexivity.
Qed.

(** The heap property: no element is before its parent. *)
Definition heap_ok (l : list A) : Prop :=
  forall i x y, (0 < i)%nat ->
    nth_error l i = Some x -> nth_error l (parent i) = Some y -> hle y x.

Lemma heap_top_min (l : list A) (top : A) :
  heap_ok l -> nth_error l 0 = Some top ->
  forall i x, nth_error l i = Some x -> hle top x.
Proof.
  intros Hok Htop i. induction i as [i IH] using lt_wf_ind. intros x Hx.
  destruct i as [|i].
  - rewrite Htop in Hx. injection Hx as <-. apply hle_refl.
  - pose proof (parent_lt (S i) ltac:(lia)) as Hp.
    destruct (nth_error l (parent (S i))) as [y|] eqn:Ey.
    + apply hle_trans with (b := y).
      * apply (IH _ Hp y Ey).
      * apply (Hok (S i) x y); [lia|exact Hx|exact Ey].
    + apply nth_error_None in Ey.
      assert (S i < length l)%nat by (apply nth_error_Some; congruence). lia.
Qed.

(** Filling the hole at [index] keeps the heap property when the new element
    is not before the parent of the hole and not after its children. *)
Lemma fill_ok (els : list A) (index : nat) (element : A) :
  heap_ok els -> (index <= length els)%nat ->
  ((0 < index)%nat -> forall y, nth_error els (parent index) = Some y -> hle y element) ->
  (forall c v, (0 < c)%nat -> parent c = index -> nth_error els c = Some v ->
     hle element v) ->
  heap_ok (array_set els index element).
Proof.
  intros Hok Hi Hpar Hch i x y Hpos Hx Hy.
  destruct (Nat.eq_dec i index) as [->|Hne].
  - rewrite nth_error_array_set_eq in Hx by exact Hi. injection Hx as <-.
    rewrite nth_error_array_set_neq in Hy
      by (try exact Hi; pose proof (parent_lt index Hpos); lia).
    apply (Hpar Hpos y Hy).
  - rewrite nth_error_array_set_neq in Hx by assumption.
    destruct (Nat.eq_dec (parent i) index) as [Hp|Hp].
    + rewrite Hp, nth_error_array_set_eq in Hy by exact Hi. injection Hy as <-.
      apply (Hch i x Hpos Hp Hx).
    + rewrite nth_error_array_set_neq in Hy by assumption.
      apply (Hok i x y Hpos Hx Hy).
Qed.

Lemma insert_loop_spec (orig : list A) (element : A) :
  forall fuel els index,
    (index <= fuel)%nat -> (index <= length els)%nat ->
    heap_ok els ->
    (forall v, nth_error els index = Some v -> hle element v) ->
    Permutation (array_set els index element) (element :: orig) ->
    heap_ok (Heap.insert_loop sort fuel els index element)
    /\ Permutation (Heap.insert_loop sort fuel els index element) (element :: orig).
Proof.
  induction fuel as [|fuel IH]; intros els index Hf Hi Hok Hhole Hperm.
  - cbn. split; [|exact Hperm]. assert (index = O) by lia. subst index.
    apply fill_ok; try assumption; [lia|].
    intros c v Hc Hp Hv. destruct (nth_error els 0) as [v0|] eqn:E0.
    + apply hle_trans with (b := v0); [apply Hhole; reflexivity|].
      apply (Hok c v v0 Hc Hv). rewrite Hp. exact E0.
    + apply nth_error_None in E0. assert (c < length els)%nat
        by (apply nth_error_Some; congruence). lia.
  - assert (Hchildren : forall c v, (0 < c)%nat -> parent c = index ->
              nth_error els c = Some v -> hle element v).
    { intros c v Hc Hp Hv. destruct (nth_error els index) as [v0|] eqn:E0.
      + apply hle_trans with (b := v0); [apply Hhole; reflexivity|].
        apply (Hok c v v0 Hc Hv). rewrite Hp. exact E0.
      + apply nth_error_None in E0. assert (c < length els)%nat
          by (apply nth_error_Some; congruence).
        pose proof (parent_lt c Hc). lia. }
    cbn [Heap.insert_loop]. destruct index as [|k].
    + split; [|exact Hperm]. apply fill_ok; try assumption. lia.
    + set (index := S k) in *. fold (parent index).
      pose proof (parent_lt index ltac:(lia)) as Hp.
      destruct (nth_error els (parent index)) as [up|] eqn:Eup.
      2:{ apply nth_error_None in Eup. lia. }
      destruct (sort up element) eqn:Es.
      * split; [|exact Hperm]. apply fill_ok; try assumption.
        intros _ y Hy. rewrite Eup in Hy. injection Hy as <-.
        apply sort_asym. exact Es.
      * apply IH.
        -- lia.
        -- pose proof (array_set_length_ge els index up). lia.
        -- apply fill_ok; try assumption.
           ++ intros _ y Hy. rewrite Eup in Hy. injection Hy as <-. apply hle_refl.
           ++ intros c v Hc Hpc Hv. destruct (nth_error els index) as [v0|] eqn:E0.
              ** apply hle_trans with (b := v0).
                 --- apply (Hok index v0 up); [lia|exact E0|exact Eup].
                 --- apply (Hok c v v0 Hc Hv). rewrite Hpc. exact E0.
              ** apply nth_error_None in E0. assert (c < length els)%nat
                   by (apply nth_error_Some; congruence).
                 pose proof (parent_lt c Hc). lia.
        -- intros v Hv. rewrite nth_error_array_set_neq in Hv by lia.
           rewrite Eup in Hv. injection Hv as <-. exact Es.
        -- rewrite perm_move_hole; [exact Hperm|exact Hi|lia|exact Eup].
Qed.

Lemma insert_spec (els : list A) (x : A) :
  heap_ok els ->
  heap_ok (Heap.insert sort els x) /\ Permutation (Heap.insert sort els x) (x :: els).
Proof.
  intros Hok. unfold Heap.insert. apply insert_loop_spec; try lia; try assumption.
  - intros v Hv. assert (length els < length els)%nat
      by (apply nth_error_Some; congruence). lia.
  - rewrite array_set_at_length. rewrite Permutation_app_comm. reflexivity.
Qed.


Lemma pop_loop_spec (target : list A) (sinker : A) :
  forall fuel els index child,
    child = (index * 2 + 1)%nat ->
    (index < length els)%nat -> (length els - index <= fuel)%nat ->
    heap_ok els ->
    ((0 < index)%nat -> forall y, nth_error els (parent index) = Some y -> hle y sinker) ->
    Permutation (array_set els index sinker) target ->
    heap_ok (Heap.pop_loop sort fuel els sinker index child)
    /\ Permutation (Heap.pop_loop sort fuel els sinker index child) target.
Proof.
  induction fuel as [|fuel IH]; intros els index child Hchild Hi Hf Hok Hpar Hperm; [lia|].
  cbn [Heap.pop_loop].
  destruct (child <? length els)%nat eqn:Hlt.
  2:{ apply Nat.ltb_ge in Hlt. split; [|exact Hperm].
      apply fill_ok; try assumption; [lia|].
      intros c v Hc Hp Hv. exfalso.
      assert (c < length els)%nat by (apply nth_error_Some; congruence).
      destruct (parent_children index c Hc Hp); lia. }
  apply Nat.ltb_lt in Hlt.
  destruct (nth_error els child) as [lv|] eqn:El.
  2:{ apply nth_error_None in El. lia. }
  destruct (parent_of_child index) as [Hp1 Hp2]. rewrite <- Hchild in Hp1, Hp2.
  set (c0 := match nth_error els (child + 1) with
             | Some r => if sort r lv then (child + 1)%nat else child
             | None => child
             end).
  assert (Hsel : exists cv, nth_error els c0 = Some cv /\ parent c0 = index
                            /\ (c0 = child \/ c0 = (child + 1)%nat)
                            /\ forall c2 v2, (0 < c2)%nat -> parent c2 = index ->
                                 nth_error els c2 = Some v2 -> hle cv v2).
  { unfold c0. destruct (nth_error els (child + 1)) as [rv|] eqn:Er.
    - destruct (sort rv lv) eqn:Es.
      + exists rv. repeat split; auto.
        intros c2 v2 Hc2 Hpc2 Hv2.
        destruct (parent_children index c2 Hc2 Hpc2) as [E|E].
        * replace c2 with child in Hv2 by lia. rewrite El in Hv2.
          injection Hv2 as <-. apply sort_asym. exact Es.
        * replace c2 with (child + 1)%nat in Hv2 by lia. rewrite Er in Hv2.
          injection Hv2 as <-. apply hle_refl.
      + exists lv. repeat split; auto.
        intros c2 v2 Hc2 Hpc2 Hv2.
        destruct (parent_children index c2 Hc2 Hpc2) as [E|E].
        * replace c2 with child in Hv2 by lia. rewrite El in Hv2.
          injection Hv2 as <-. apply hle_refl.
        * replace c2 with (child + 1)%nat in Hv2 by lia. rewrite Er in Hv2.
          injection Hv2 as <-. exact Es.
    - exists lv. repeat split; auto.
      intros c2 v2 Hc2 Hpc2 Hv2.
      destruct (parent_children index c2 Hc2 Hpc2) as [E|E].
      + replace c2 with child in Hv2 by lia. rewrite El in Hv2.
        injection Hv2 as <-. apply hle_refl.
      + replace c2 with (child + 1)%nat in Hv2 by lia. congruence. }
  destruct Hsel as (cv & Hcv & Hpc0 & Hc0 & Hmin).
  rewrite Hcv.
  destruct (sort sinker cv) eqn:Es.
  - split; [|exact Hperm]. apply fill_ok; try assumption; [lia|].
    intros c v Hc Hp Hv. apply hle_trans with (b := cv).
    + apply sort_asym. exact Es.
    + apply (Hmin c v Hc Hp Hv).
  - assert (Hc0i : c0 <> index) by lia.
    assert (Hc0pos : (0 < c0)%nat) by lia.
    apply IH.
    + reflexivity.
    + rewrite array_set_length by lia. apply nth_error_Some. congruence.
    + rewrite array_set_length by lia. lia.
    + apply fill_ok; try assumption; [lia|].
      intros Hpos y Hy. destruct (nth_error els index) as [iv|] eqn:Ei.
      2:{ apply nth_error_None in Ei. lia. }
      apply hle_trans with (b := iv).
      * apply (Hok index iv y Hpos Ei Hy).
      * apply (Hok c0 cv iv Hc0pos Hcv). rewrite Hpc0. exact Ei.
    + intros _ y Hy. rewrite Hpc0, nth_error_array_set_eq in Hy by lia.
      injection Hy as <-. exact Es.
    + rewrite perm_move_hole; [exact Hperm|lia|exact Hc0i|exact Hcv].
Qed.

Lemma heap_ok_prefix (l l' : list A) : heap_ok (l ++ l') -> heap_ok l.
Proof.
  intros Hok i x y Hpos Hx Hy. apply (Hok i x y Hpos).
  - rewrite nth_error_app1; [exact Hx|]. apply nth_error_Some. congruence.
  - rewrite nth_error_app1; [exact Hy|]. apply nth_error_Some. congruence.
Qed.

Lemma heap_ok_nil : heap_ok [].
Proof. intros i x y _ Hx. destruct i; discriminate Hx. Qed.

Lemma pop_spec (els rest : list A) (top : A) :
  heap_ok els -> Heap.pop sort els = Some (top, rest) ->
  heap_ok rest
  /\ Permutation els (top :: rest)
  /\ forall y, In y els -> hle top y.
Proof.
  intros Hok Hpop.
  destruct els as [|t els0]; [discriminate Hpop|].
  assert (Hmin : forall y, In y (t :: els0) -> hle t y).
  { intros y Hy. apply In_nth_error in Hy. destruct Hy as [i Hi].
    apply (heap_top_min (t :: els0) t Hok eq_refl i y Hi). }
  unfold Heap.pop in Hpop.
  pose proof (@app_removelast_last _ (t :: els0) t ltac:(discriminate)) as Hsplit.
  set (sinker := last (t :: els0) t) in *.
  destruct (removelast (t :: els0)) as [|t' m] eqn:Erm.
  - injection Hpop as <- <-.
    split; [apply heap_ok_nil|]. split; [|exact Hmin].
    assert (els0 = []) as ->.
    { destruct els0; [reflexivity|]. cbn in Erm. destruct els0; discriminate Erm. }
    reflexivity.
  - assert (t' = t) as -> by (cbn in Hsplit; injection Hsplit as ->; reflexivity).
    assert (Hrest : top = t
                    /\ rest = Heap.pop_loop sort (length (t :: m)) (t :: m) sinker 0 1).
    { injection Hpop as <- <-. split; reflexivity. }
    destruct Hrest as [-> ->]. clear Hpop.
    destruct (pop_loop_spec (sinker :: m) sinker (length (t :: m)) (t :: m) 0 1) as [H1 H2];
      try reflexivity; try (cbn [length]; lia).
    + apply heap_ok_prefix with (l' := [sinker]). rewrite <- Hsplit. exact Hok.
    + split; [exact H1|]. split; [|exact Hmin].
      rewrite Hsplit. cbn [app]. apply perm_skip. rewrite H2.
      symmetry. apply Permutation_cons_append.
Qed.

Lemma pop_none (els : list A) : Heap.pop sort els = None <-> els = [].
Proof.
  split; [|intros ->; reflexivity].
  destruct els as [|t els0]; [reflexivity|]. unfold Heap.pop.
  destruct (removelast (t :: els0)); discriminate.
Qed.

End HeapOrder.

(** ** The sightline cache *)

Lemma nth_error_array_set {A : Type} (l : list A) (i j : nat) (v : A) :
  (i < length l)%nat ->
  nth_error (array_set l i v) j = if (j =? i)%nat then Some v else nth_error l j.
Proof.
  intros Hi. destruct (j =? i)%nat eqn:E.
  - apply Nat.eqb_eq in E. subst j. apply nth_error_array_set_eq. lia.
  - apply Nat.eqb_neq in E. apply nth_error_array_set_neq; [lia|exact E].
Qed.

Lemma map_array_set_in {A B : Type} (f : A -> B) (l : list A) (i : nat) (v : A) :
  (i < length l)%nat -> map f (array_set l i v) = array_set (map f l) i (f v).
Proof.
  revert i. induction l as [|a l IH]; intros i Hi; [cbn in Hi; lia|].
  destruct i as [|i]; cbn; [reflexivity|]. rewrite IH by (cbn in Hi; lia). reflexivity.
Qed.

Section SightlineCache.

Context {Wt : Weight} (hypot : Point -> W).

Local Abbreviation Waypoint := (@WebPaths.Waypoint Wt).
Local Abbreviation point := (@WebPaths.point Wt).
Local Abbreviation sightlines := (@WebPaths.sightlines Wt).

Variable rings : Web.Polygon.

(** A waypoint without its cached sightlines. *)
Definition strip1 (w : Waypoint) : Waypoint :=
  WebPaths.mkWaypoint (point w) [] (WebPaths.targetDistance w) (WebPaths.visible w)
    (WebPaths.backtrack w) (WebPaths.shortest w).

Definition strip (wps : list Waypoint) : list Waypoint := map strip1 wps.

(** Every cached list is empty or is what [_findSightlines] computes. *)
Definition cache_valid (wps : list Waypoint) : Prop :=
  forall i w, nth_error wps i = Some w ->
    sightlines w = [] \/ sightlines w = WebPaths.findSightlines hypot rings wps i.

Lemma strip_points (a b : list Waypoint) : strip a = strip b -> map point a = map point b.
Proof.
  intros H. assert (E : map point (strip a) = map point (strip b)) by (rewrite H; reflexivity).
  unfold strip in E. rewrite !map_map in E. exact E.
Qed.

Lemma strip_length (a b : list Waypoint) : strip a = strip b -> length a = length b.
Proof.
  intros H. assert (E : length (strip a) = length (strip b)) by (rewrite H; reflexivity).
  unfold strip in E. rewrite !length_map in E. exact E.
Qed.

Lemma strip_nth (a b : list Waypoint) (i : nat) :
  strip a = strip b ->
  option_map strip1 (nth_error a i) = option_map strip1 (nth_error b i).
Proof.
  intros H. rewrite <- !nth_error_map. fold (strip a) (strip b). rewrite H. reflexivity.
Qed.

Lemma nth_point (wps : list Waypoint) (i : nat) :
  nth_error (map point wps) i = option_map point (nth_error wps i).
Proof. apply nth_error_map. Qed.

(** [_findSightlines] reads nothing but the points. *)
Lemma findSightlines_points (a b : list Waypoint) (i : nat) :
  map point a = map point b ->
  WebPaths.findSightlines hypot rings a i = WebPaths.findSightlines hypot rings b i.
Proof.
  intros H.
  assert (Hn : forall j, option_map point (nth_error a j) = option_map point (nth_error b j)).
  { intros j. rewrite <- !nth_point, H. reflexivity. }
  assert (Hl : length a = length b).
  { rewrite <- (length_map point a), <- (length_map point b), H. reflexivity. }
  unfold WebPaths.findSightlines.
  pose proof (Hn i) as Hi.
  destruct (nth_error a i) as [wa|], (nth_error b i) as [wb|]; try discriminate Hi;
    [|reflexivity].
  cbn in Hi. injection Hi as Hi. rewrite Hl.
  apply flat_map_ext_in. intros j _.
  destruct (j =? i)%nat; [reflexivity|].
  pose proof (Hn j) as Hj.
  destruct (nth_error a j) as [oa|], (nth_error b j) as [ob|]; try discriminate Hj;
    [|reflexivity].
  cbn in Hj. injection Hj as Hj. fold point. rewrite Hi, Hj. reflexivity.
Qed.

Lemma cache_valid_ext (a b : list Waypoint) :
  map point a = map point b -> map sightlines a = map sightlines b ->
  cache_valid a -> cache_valid b.
Proof.
  intros Hp Hs Hv i w Hw.
  assert (Hsi : nth_error (map sightlines a) i = Some (sightlines w)).
  { rewrite Hs, nth_error_map, Hw. reflexivity. }
  rewrite nth_error_map in Hsi. destruct (nth_error a i) as [wa|] eqn:Ea; [|discriminate].
  cbn in Hsi. injection Hsi as Hsi.
  rewrite <- (findSightlines_points a b i Hp), <- Hsi. apply (Hv i wa Ea).
Qed.

(** *** relax keeps the points and the cache *)

Lemma relax_fields lines g i :
  forall (wps : list Waypoint) queue wps' queue',
    WebPaths.relax lines g i wps queue = Some (wps', queue') ->
    map point wps' = map point wps /\ map sightlines wps' = map sightlines wps.
Proof.
  induction lines as [|line rest IH]; intros wps queue wps' queue' H.
  - cbn in H. injection H as <- <-. split; reflexivity.
  - cbn [WebPaths.relax] in H.
    destruct (nth_error wps (WebPaths.link line)) as [next|] eqn:En; [|discriminate H].
    destruct (ge_ext _ _).
    + apply (IH _ _ _ _ H).
    + apply IH in H. destruct H as [H1 H2].
      assert (Hlt : (WebPaths.link line < length wps)%nat)
        by (apply nth_error_Some; congruence).
      rewrite H1, H2. split; apply map_array_set; rewrite nth_error_map, En; reflexivity.
Qed.

Lemma relax_strip lines g i :
  forall (a b : list Waypoint) queue,
    strip a = strip b ->
    match WebPaths.relax lines g i a queue, WebPaths.relax lines g i b queue with
    | Some (a', qa), Some (b', qb) => strip a' = strip b' /\ qa = qb
    | None, None => True
    | _, _ => False
    end.
Proof.
  induction lines as [|line rest IH]; intros a b queue H.
  - cbn. split; [exact H|reflexivity].
  - cbn [WebPaths.relax].
    pose proof (strip_nth a b (WebPaths.link line) H) as Hn.
    destruct (nth_error a (WebPaths.link line)) as [na|] eqn:Ea,
             (nth_error b (WebPaths.link line)) as [nb|] eqn:Eb;
      try discriminate Hn; [|exact I].
    cbn in Hn. injection Hn as Hp Ht Hv Hb Hs.
    fold point in Hp. rewrite Hs, Ht.
    destruct (ge_ext _ _); [apply IH; exact H|].
    rewrite Hp, Hv.
    apply IH. unfold strip.
    rewrite !map_array_set_in by (apply nth_error_Some; congruence).
    fold (strip a) (strip b). rewrite H. reflexivity.
Qed.


(** The sightlines that the search uses for the waypoint it expands, and the
    waypoints with these lines cached. *)
Definition lines_of (wps : list Waypoint) (i : nat) (w : Waypoint) : list WebPaths.Sightline :=
  match sightlines w with
  | [] => WebPaths.findSightlines hypot rings wps i
  | _ :: _ => sightlines w
  end.

Definition cached (wps : list Waypoint) (i : nat) (w : Waypoint) : list Waypoint :=
  array_set wps i
    (WebPaths.mkWaypoint (point w) (lines_of wps i w) (WebPaths.targetDistance w)
       (WebPaths.visible w) (WebPaths.backtrack w) (WebPaths.shortest w)).

Lemma lines_of_valid (wps : list Waypoint) (i : nat) (w : Waypoint) :
  cache_valid wps -> nth_error wps i = Some w ->
  lines_of wps i w = WebPaths.findSightlines hypot rings wps i.
Proof.
  intros Hv Hw. unfold lines_of. destruct (Hv i w Hw) as [E|E].
  - rewrite E. reflexivity.
  - destruct (sightlines w); [reflexivity|exact E].
Qed.

Lemma cached_points (wps : list Waypoint) (i : nat) (w : Waypoint) :
  nth_error wps i = Some w -> map point (cached wps i w) = map point wps.
Proof.
  intros Hw. unfold cached. apply map_array_set. rewrite nth_error_map, Hw. reflexivity.
Qed.

Lemma cached_strip (wps : list Waypoint) (i : nat) (w : Waypoint) :
  nth_error wps i = Some w -> strip (cached wps i w) = strip wps.
Proof.
  intros Hw. unfold cached, strip. apply map_array_set.
  rewrite nth_error_map, Hw. reflexivity.
Qed.

Lemma cached_valid (wps : list Waypoint) (i : nat) (w : Waypoint) :
  cache_valid wps -> nth_error wps i = Some w -> cache_valid (cached wps i w).
Proof.
  intros Hv Hw j wj Hj.
  assert (Hlt : (i < length wps)%nat) by (apply nth_error_Some; congruence).
  rewrite (findSightlines_points _ wps j (cached_points wps i w Hw)).
  unfold cached in Hj. rewrite nth_error_array_set in Hj by exact Hlt.
  destruct (j =? i)%nat eqn:E.
  - apply Nat.eqb_eq in E. subst j. injection Hj as <-. right.
    cbn. apply lines_of_valid; assumption.
  - apply (Hv j wj Hj).
Qed.

Lemma search_unfold fuel (wps : list Waypoint) queue bd best :
  WebPaths.search hypot (S fuel) rings wps queue bd best
  = match Heap.pop WebPaths.node_sort queue with
    | None => Returned (wps, best)
    | Some (node, queue') =>
        if ge_ext (WebPaths.nlength node) bd then Returned (wps, best)
        else
          match nth_error wps (WebPaths.index node) with
          | None => TypeError
          | Some w =>
              if WebPaths.visible w
              then WebPaths.search hypot fuel rings wps queue'
                     (Fin (WebPaths.nlength node)) (Some node)
              else
                match WebPaths.relax (lines_of wps (WebPaths.index node) w)
                        (wsub (WebPaths.nlength node) (WebPaths.targetDistance w))
                        (WebPaths.index node)
                        (cached wps (WebPaths.index node) w) queue' with
                | None => TypeError
                | Some (wps', queue'') =>
                    WebPaths.search hypot fuel rings wps' queue'' bd best
                end
          end
    end.
Proof. reflexivity. Qed.

Definition search_rel (r1 r2 : outcome (list Waypoint * option WebPaths.Node)) : Prop :=
  match r1, r2 with
  | Returned (a, ba), Returned (b, bb) => strip a = strip b /\ ba = bb
  | TypeError, TypeError => True
  | OutOfFuel, OutOfFuel => True
  | _, _ => False
  end.

(** The search keeps the points, and keeps the cache valid. *)
Lemma search_valid fuel :
  forall (wps : list Waypoint) queue bd best wps' best',
    cache_valid wps ->
    WebPaths.search hypot fuel rings wps queue bd best = Returned (wps', best') ->
    cache_valid wps' /\ map point wps' = map point wps.
Proof.
  induction fuel as [|fuel IH]; intros wps queue bd best wps' best' Hv H;
    [discriminate H|].
  rewrite search_unfold in H.
  destruct (Heap.pop WebPaths.node_sort queue) as [[node queue']|].
  2:{ injection H as <- <-. split; [exact Hv|reflexivity]. }
  destruct (ge_ext _ _).
  { injection H as <- <-. split; [exact Hv|reflexivity]. }
  destruct (nth_error wps (WebPaths.index node)) as [w|] eqn:Ew; [|discriminate H].
  destruct (WebPaths.visible w).
  { apply (IH _ _ _ _ _ _ Hv H). }
  destruct (WebPaths.relax _ _ _ _ _) as [[wps1 queue1]|] eqn:Er; [|discriminate H].
  apply relax_fields in Er. destruct Er as [Ep Es].
  assert (Hv1 : cache_valid wps1).
  { apply (cache_valid_ext (cached wps (WebPaths.index node) w));
      [symmetry; exact Ep|symmetry; exact Es|].
    apply cached_valid; assumption. }
  destruct (IH _ _ _ _ _ _ Hv1 H) as [Hv' Hp']. split; [exact Hv'|].
  rewrite Hp', Ep. apply cached_points. exact Ew.
Qed.

(** Two runs of the search from states that differ in their caches only
    end alike. *)
Lemma search_strip fuel :
  forall (a b : list Waypoint) queue bd best,
    cache_valid a -> cache_valid b -> strip a = strip b ->
    search_rel (WebPaths.search hypot fuel rings a queue bd best)
               (WebPaths.search hypot fuel rings b queue bd best).
Proof.
  induction fuel as [|fuel IH]; intros a b queue bd best Ha Hb H; [exact I|].
  rewrite !search_unfold.
  destruct (Heap.pop WebPaths.node_sort queue) as [[node queue']|].
  2:{ split; [exact H|reflexivity]. }
  destruct (ge_ext _ _).
  { split; [exact H|reflexivity]. }
  pose proof (strip_nth a b (WebPaths.index node) H) as Hn.
  destruct (nth_error a (WebPaths.index node)) as [wa|] eqn:Ea,
           (nth_error b (WebPaths.index node)) as [wb|] eqn:Eb;
    try discriminate Hn; [|exact I].
  cbn in Hn. injection Hn as Hp Ht Hvis Hbt Hsh.
  rewrite Hvis, Ht.
  destruct (WebPaths.visible wb).
  { apply IH; assumption. }
  rewrite (lines_of_valid a _ wa Ha Ea), (lines_of_valid b _ wb Hb Eb).
  rewrite (findSightlines_points a b _ (strip_points a b H)).
  set (lines := WebPaths.findSightlines hypot rings b (WebPaths.index node)).
  set (g := wsub (WebPaths.nlength node) (WebPaths.targetDistance wb)).
  assert (Hs1 : strip (cached a (WebPaths.index node) wa)
                = strip (cached b (WebPaths.index node) wb)).
  { rewrite !cached_strip by assumption. exact H. }
  pose proof (relax_strip lines g (WebPaths.index node) _ _ queue' Hs1) as Hr.
  destruct (WebPaths.relax lines g (WebPaths.index node)
              (cached a (WebPaths.index node) wa) queue') as [[a1 qa]|] eqn:Era,
           (WebPaths.relax lines g (WebPaths.index node)
              (cached b (WebPaths.index node) wb) queue') as [[b1 qb]|] eqn:Erb;
    try contradiction; [|exact I].
  destruct Hr as [Hs Hq]. subst qb.
  apply relax_fields in Era, Erb.
  destruct Era as [Ea1 Ea2], Erb as [Eb1 Eb2].
  apply IH; [| |exact Hs].
  - apply (cache_valid_ext (cached a (WebPaths.index node) wa));
      [symmetry; exact Ea1|symmetry; exact Ea2|].
    apply cached_valid; assumption.
  - apply (cache_valid_ext (cached b (WebPaths.index node) wb));
      [symmetry; exact Eb1|symmetry; exact Eb2|].
    apply cached_valid; assumption.
Qed.

(** *** The other steps of [find] *)

Lemma calculateDistances_points to (wps : list Waypoint) :
  map point (WebPaths.calculateDistances hypot rings to wps) = map point wps.
Proof. unfold WebPaths.calculateDistances. rewrite map_map. reflexivity. Qed.

Lemma calculateDistances_sightlines to (wps : list Waypoint) :
  map sightlines (WebPaths.calculateDistances hypot rings to wps) = map sightlines wps.
Proof. unfold WebPaths.calculateDistances. rewrite map_map. reflexivity. Qed.

Lemma calculateDistances_strip to (a b : list Waypoint) :
  map point a = map point b ->
  strip (WebPaths.calculateDistances hypot rings to a)
  = strip (WebPaths.calculateDistances hypot rings to b).
Proof.
  intros H. unfold strip, WebPaths.calculateDistances. rewrite !map_map. cbn.
  set (F := fun p : Point =>
              WebPaths.mkWaypoint p [] (WebPaths.distance hypot to p)
                (negb (Web.intersects rings to p)) (-1)%Z Infinity).
  change (map (fun x => F (point x)) a = map (fun x => F (point x)) b).
  rewrite <- !(map_map point F), H. reflexivity.
Qed.

Lemma seed_step_fields from (wps : list Waypoint) queue i :
  map point (fst (WebPaths.seed_step hypot rings from (wps, queue) i)) = map point wps
  /\ map sightlines (fst (WebPaths.seed_step hypot rings from (wps, queue) i))
     = map sightlines wps.
Proof.
  unfold WebPaths.seed_step.
  destruct (nth_error wps i) as [it|] eqn:Ei; [|split; reflexivity].
  destruct (negb _); [|split; reflexivity].
  cbn [fst]. split; apply map_array_set; rewrite nth_error_map, Ei; reflexivity.
Qed.

Lemma seed_fold_fields from idx :
  forall (wps : list Waypoint) queue,
    map point (fst (fold_left (WebPaths.seed_step hypot rings from) idx (wps, queue)))
    = map point wps
    /\ map sightlines (fst (fold_left (WebPaths.seed_step hypot rings from) idx (wps, queue)))
       = map sightlines wps.
Proof.
  induction idx as [|i idx IH]; intros wps queue; [split; reflexivity|].
  cbn [fold_left].
  destruct (WebPaths.seed_step hypot rings from (wps, queue) i) as [wps1 queue1] eqn:E.
  destruct (IH wps1 queue1) as [H1 H2].
  pose proof (seed_step_fields from wps queue i) as [F1 F2]. rewrite E in F1, F2.
  cbn [fst] in F1, F2. rewrite H1, H2. split; assumption.
Qed.

Lemma seed_step_strip from (a b : list Waypoint) queue i :
  strip a = strip b ->
  strip (fst (WebPaths.seed_step hypot rings from (a, queue) i))
  = strip (fst (WebPaths.seed_step hypot rings from (b, queue) i))
  /\ snd (WebPaths.seed_step hypot rings from (a, queue) i)
     = snd (WebPaths.seed_step hypot rings from (b, queue) i).
Proof.
  intros H. unfold WebPaths.seed_step.
  pose proof (strip_nth a b i H) as Hn.
  destruct (nth_error a i) as [wa|] eqn:Ea, (nth_error b i) as [wb|] eqn:Eb;
    try discriminate Hn; [|split; [exact H|reflexivity]].
  cbn in Hn. injection Hn as Hp Ht Hvis Hbt Hsh. fold point in Hp.
  rewrite Hp, Ht, Hvis.
  destruct (negb _); [|split; [exact H|reflexivity]].
  cbn [fst snd]. split; [|reflexivity].
  unfold strip. rewrite !map_array_set_in by (apply nth_error_Some; congruence).
  fold (strip a) (strip b). rewrite H. reflexivity.
Qed.

Lemma seed_fold_strip from idx :
  forall (a b : list Waypoint) queue,
    strip a = strip b ->
    strip (fst (fold_left (WebPaths.seed_step hypot rings from) idx (a, queue)))
    = strip (fst (fold_left (WebPaths.seed_step hypot rings from) idx (b, queue)))
    /\ snd (fold_left (WebPaths.seed_step hypot rings from) idx (a, queue))
       = snd (fold_left (WebPaths.seed_step hypot rings from) idx (b, queue)).
Proof.
  induction idx as [|i idx IH]; intros a b queue H; [split; [exact H|reflexivity]|].
  cbn [fold_left].
  destruct (seed_step_strip from a b queue i H) as [H1 H2].
  destruct (WebPaths.seed_step hypot rings from (a, queue) i) as [a1 qa].
  destruct (WebPaths.seed_step hypot rings from (b, queue) i) as [b1 qb].
  cbn [fst snd] in H1, H2. subst qb. apply IH. exact H1.
Qed.

Lemma backtrack_strip fuel :
  forall (a b : list Waypoint) i,
    strip a = strip b ->
    WebPaths.backtrack_path fuel a i = WebPaths.backtrack_path fuel b i.
Proof.
  induction fuel as [|fuel IH]; intros a b i H; [reflexivity|].
  cbn [WebPaths.backtrack_path].
  destruct (i <? 0)%Z; [reflexivity|].
  pose proof (strip_nth a b (Z.to_nat i) H) as Hn.
  destruct (nth_error a (Z.to_nat i)) as [wa|], (nth_error b (Z.to_nat i)) as [wb|];
    try discriminate Hn; [|reflexivity].
  cbn in Hn. injection Hn as Hp Ht Hvis Hbt Hsh. fold point in Hp.
  rewrite Hbt, (IH a b _ H), Hp. reflexivity.
Qed.

End SightlineCache.

Section FindTwice.

Context {Wt : Weight} (hypot : Point -> W).

(** The state that [find] leaves has the passable region and the points it
    was given, and a valid cache. *)
Lemma find_state fuel (this : WebPaths.Paths) from to :
  cache_valid hypot (WebPaths.passable this) (WebPaths.waypoints this) ->
  let after := snd (WebPaths.find hypot fuel this from to) in
  WebPaths.passable after = WebPaths.passable this
  /\ map (@WebPaths.point Wt) (WebPaths.waypoints after)
     = map (@WebPaths.point Wt) (WebPaths.waypoints this)
  /\ cache_valid hypot (WebPaths.passable this) (WebPaths.waypoints after).
Proof.
  intros Hv. unfold WebPaths.find.
  destruct (WebPaths.passable this) as [|r rest] eqn:Hp.
  { cbn. rewrite Hp. auto. }
  set (rings := r :: rest) in *.
  destruct (if Web.Polygon_contains rings to then Some to
            else WebPaths.closestVertex hypot rings to) as [target|].
  2:{ cbn. rewrite Hp. auto. }
  destruct (negb (Web.intersects rings from target)).
  { cbn. rewrite Hp. auto. }
  set (wps0 := WebPaths.calculateDistances hypot rings target (WebPaths.waypoints this)).
  pose proof (seed_fold_fields hypot rings from (seq 0 (length wps0)) wps0 []) as [S1 S2].
  destruct (fold_left (WebPaths.seed_step hypot rings from) (seq 0 (length wps0)) (wps0, []))
    as [wps1 queue1].
  cbn [fst] in S1, S2.
  assert (Hp1 : map (@WebPaths.point Wt) wps1 = map (@WebPaths.point Wt) (WebPaths.waypoints this)).
  { rewrite S1. apply calculateDistances_points. }
  assert (Hv1 : cache_valid hypot rings wps1).
  { apply (cache_valid_ext hypot rings (WebPaths.waypoints this)).
    - symmetry. exact Hp1.
    - rewrite S2. symmetry. apply calculateDistances_sightlines.
    - exact Hv. }
  destruct (WebPaths.search hypot fuel rings wps1 queue1 Infinity None)
    as [[wps2 best]| |] eqn:Es.
  - destruct (search_valid hypot rings fuel _ _ _ _ _ _ Hv1 Es) as [Hv2 Hp2].
    assert (Hgoal : WebPaths.passable (WebPaths.mkPaths rings wps2) = rings
                    /\ map (@WebPaths.point Wt) (WebPaths.waypoints (WebPaths.mkPaths rings wps2))
                       = map (@WebPaths.point Wt) (WebPaths.waypoints this)
                    /\ cache_valid hypot rings (WebPaths.waypoints (WebPaths.mkPaths rings wps2))).
    { cbn. rewrite Hp2. auto. }
    destruct best as [b|]; [|exact Hgoal].
    destruct (WebPaths.backtrack_path _ _ _); exact Hgoal.
  - cbn. auto.
  - cbn. auto.
Qed.

(** The returned path does not depend on what the cache holds. *)
Lemma find_strip fuel (a b : WebPaths.Paths) from to :
  WebPaths.passable a = WebPaths.passable b ->
  cache_valid hypot (WebPaths.passable a) (WebPaths.waypoints a) ->
  cache_valid hypot (WebPaths.passable a) (WebPaths.waypoints b) ->
  map (@WebPaths.point Wt) (WebPaths.waypoints a)
  = map (@WebPaths.point Wt) (WebPaths.waypoints b) ->
  fst (WebPaths.find hypot fuel a from to) = fst (WebPaths.find hypot fuel b from to).
Proof.
  intros Hpass Ha Hb Hpts. unfold WebPaths.find. rewrite <- Hpass.
  destruct (WebPaths.passable a) as [|r rest] eqn:Hp; [reflexivity|].
  set (rings := r :: rest) in *.
  destruct (if Web.Polygon_contains rings to then Some to
            else WebPaths.closestVertex hypot rings to) as [target|]; [|reflexivity].
  destruct (negb (Web.intersects rings from target)); [reflexivity|].
  set (a0 := WebPaths.calculateDistances hypot rings target (WebPaths.waypoints a)).
  set (b0 := WebPaths.calculateDistances hypot rings target (WebPaths.waypoints b)).
  assert (H0 : strip a0 = strip b0) by (apply calculateDistances_strip; exact Hpts).
  assert (Hl : length a0 = length b0) by (apply strip_length; exact H0).
  rewrite <- Hl.
  pose proof (seed_fold_strip hypot rings from (seq 0 (length a0)) a0 b0 [] H0) as [H1 Hq].
  pose proof (seed_fold_fields hypot rings from (seq 0 (length a0)) a0 []) as [Sa1 Sa2].
  pose proof (seed_fold_fields hypot rings from (seq 0 (length a0)) b0 []) as [Sb1 Sb2].
  destruct (fold_left (WebPaths.seed_step hypot rings from) (seq 0 (length a0)) (a0, []))
    as [a1 qa].
  destruct (fold_left (WebPaths.seed_step hypot rings from) (seq 0 (length a0)) (b0, []))
    as [b1 qb].
  cbn [fst snd] in *. subst qb.
  assert (Hva : cache_valid hypot rings a1).
  { apply (cache_valid_ext hypot rings (WebPaths.waypoints a)); [| |exact Ha].
    - rewrite Sa1. symmetry. apply calculateDistances_points.
    - rewrite Sa2. symmetry. apply calculateDistances_sightlines. }
  assert (Hvb : cache_valid hypot rings b1).
  { apply (cache_valid_ext hypot rings (WebPaths.waypoints b)); [| |exact Hb].
    - rewrite Sb1. symmetry. apply calculateDistances_points.
    - rewrite Sb2. symmetry. apply calculateDistances_sightlines. }
  pose proof (search_strip hypot rings fuel a1 b1 qa Infinity None Hva Hvb H1) as Hr.
  destruct (WebPaths.search hypot fuel rings a1 qa Infinity None) as [[a2 ba]| |],
           (WebPaths.search hypot fuel rings b1 qa Infinity None) as [[b2 bb]| |];
    try contradiction; try reflexivity.
  destruct Hr as [H2 ->].
  destruct bb as [bn|]; [|reflexivity].
  rewrite (strip_length a2 b2 H2).
  rewrite (backtrack_strip (S (length b2)) a2 b2 _ H2).
  destruct (WebPaths.backtrack_path _ b2 _); reflexivity.
Qed.

(** The states of a Paths object: what [init] builds, and what calls of
    [find] leave. *)
Inductive initialized : WebPaths.Paths -> Prop :=
| initialized_init unioned p : initialized (WebPaths.init unioned p)
| initialized_find fuel this from to :
    initialized this -> initialized (snd (WebPaths.find hypot fuel this from to)).

Lemma initialized_valid (this : WebPaths.Paths) :
  initialized this ->
  cache_valid hypot (WebPaths.passable this) (WebPaths.waypoints this).
Proof.
  induction 1 as [unioned p|fuel this from to _ IH].
  - intros i w Hw. left. unfold WebPaths.init in Hw. cbn [WebPaths.waypoints] in Hw.
    rewrite nth_error_map in Hw.
    destruct (nth_error _ i); [|discriminate Hw]. injection Hw as <-. reflexivity.
  - destruct (find_state fuel this from to IH) as (Hp & _ & Hv). rewrite Hp. exact Hv.
Qed.

(** After a call of [find], the same call returns the same path. *)
Lemma Web_find_again (this : WebPaths.Paths) :
  initialized this ->
  forall fuel from to,
    fst (WebPaths.find hypot fuel (snd (WebPaths.find hypot fuel this from to)) from to)
    = fst (WebPaths.find hypot fuel this from to).
Proof.
  intros Hinit fuel from to.
  pose proof (initialized_valid this Hinit) as Hv.
  destruct (find_state fuel this from to Hv) as (Hp & Hpts & Hv').
  apply find_strip.
  - exact Hp.
  - rewrite Hp. exact Hv'.
  - rewrite Hp. exact Hv.
  - exact Hpts.
Qed.

(** *** The desktop port

    [Find] writes the [mutable] fields of the waypoints only, and
    [CalculateDistances] sets them all anew. *)

(** The fields of a waypoint that [Init] sets. *)
Definition Desktop_fixed (w : @DesktopPaths.Waypoint Wt) : Point * list (nat * W) :=
  (DesktopPaths.point w, DesktopPaths.sightlines w).

Lemma Desktop_relax_fixed lines g i :
  forall (wps : list DesktopPaths.Waypoint) queue wps' queue',
    DesktopPaths.relax lines g i wps queue = Some (wps', queue') ->
    map Desktop_fixed wps' = map Desktop_fixed wps.
Proof.
  induction lines as [|line rest IH]; intros wps queue wps' queue' H.
  - cbn in H. injection H as <- _. reflexivity.
  - cbn [DesktopPaths.relax] in H.
    destruct (nth_error wps (fst line)) as [next|] eqn:En; [|discriminate H].
    destruct (ge_ext _ _).
    + apply (IH _ _ _ _ H).
    + apply IH in H. rewrite H. apply map_array_set.
      rewrite nth_error_map, En. reflexivity.
Qed.

Lemma Desktop_search_fixed fuel :
  forall (wps : list DesktopPaths.Waypoint) queue bd best wps' best',
    DesktopPaths.search fuel wps queue bd best = Some (wps', best') ->
    map Desktop_fixed wps' = map Desktop_fixed wps.
Proof.
  induction fuel as [|fuel IH]; intros wps queue bd best wps' best' H; [discriminate H|].
  cbn [DesktopPaths.search] in H.
  destruct queue as [|node rest]; [injection H as <- _; reflexivity|].
  destruct (negb _); [injection H as <- _; reflexivity|].
  destruct (nth_error wps _) as [w|]; [|discriminate H].
  destruct (DesktopPaths.visible w); [apply (IH _ _ _ _ _ _ H)|].
  destruct (DesktopPaths.relax _ _ _ _ _) as [[wps1 queue1]|] eqn:Er; [|discriminate H].
  rewrite (IH _ _ _ _ _ _ H). apply (Desktop_relax_fixed _ _ _ _ _ _ _ Er).
Qed.

Lemma Desktop_seed_fixed rings from idx :
  forall (wps : list DesktopPaths.Waypoint) queue,
    map Desktop_fixed (fst (fold_left (DesktopPaths.seed_step hypot rings from) idx
                              (wps, queue)))
    = map Desktop_fixed wps.
Proof.
  induction idx as [|i idx IH]; intros wps queue; [reflexivity|].
  cbn [fold_left].
  assert (Hstep : map Desktop_fixed
                    (fst (DesktopPaths.seed_step hypot rings from (wps, queue) i))
                  = map Desktop_fixed wps).
  { unfold DesktopPaths.seed_step.
    destruct (nth_error wps i) as [w|] eqn:Ew; [|reflexivity].
    destruct (DesktopPaths.Visible rings from (DesktopPaths.point w)); [|reflexivity].
    cbn [fst]. apply map_array_set. rewrite nth_error_map, Ew. reflexivity. }
  destruct (DesktopPaths.seed_step hypot rings from (wps, queue) i) as [wps1 queue1].
  cbn [fst] in Hstep. rewrite IH. exact Hstep.
Qed.

Lemma CalculateDistances_fixed rings target (wps : list DesktopPaths.Waypoint) :
  map Desktop_fixed (DesktopPaths.CalculateDistances hypot rings target wps)
  = map Desktop_fixed wps.
Proof. unfold DesktopPaths.CalculateDistances. rewrite map_map. reflexivity. Qed.

Lemma CalculateDistances_ext rings target (a b : list DesktopPaths.Waypoint) :
  map Desktop_fixed a = map Desktop_fixed b ->
  DesktopPaths.CalculateDistances hypot rings target a
  = DesktopPaths.CalculateDistances hypot rings target b.
Proof.
  intros H. unfold DesktopPaths.CalculateDistances.
  set (F := fun x : Point * list (nat * W) =>
              DesktopPaths.mkWaypoint (fst x) (snd x)
                (DesktopPaths.Distance hypot target (fst x))
                (DesktopPaths.Visible rings (fst x) target) (-1)%Z Infinity).
  change (map (fun x => F (Desktop_fixed x)) a = map (fun x => F (Desktop_fixed x)) b).
  rewrite <- !(map_map Desktop_fixed F), H. reflexivity.
Qed.

(** [Find] leaves the points and the sightlines as they were. *)
Lemma Desktop_Find_fixed fuel (this : DesktopPaths.Paths) from to path wps' :
  DesktopPaths.Find hypot fuel this from to = Some (path, wps') ->
  map Desktop_fixed wps' = map Desktop_fixed (DesktopPaths.waypoints this).
Proof.
  unfold DesktopPaths.Find.
  destruct (DesktopPaths.passable this) as [|r rest].
  { intros H. injection H as _ <-. reflexivity. }
  set (rings := r :: rest). cbv zeta.
  set (target := if negb _ then _ else _).
  destruct (DesktopPaths.Visible rings _ target).
  { intros H. injection H as _ <-. reflexivity. }
  set (wps0 := DesktopPaths.CalculateDistances hypot rings target (DesktopPaths.waypoints this)).
  pose proof (Desktop_seed_fixed rings
                (Pt.mul from DesktopPaths.INTERNAL_SCALE) (seq 0 (length wps0)) wps0 [])
    as Hseed.
  destruct (fold_left _ _ _) as [wps1 queue1]. cbn [fst] in Hseed.
  destruct (DesktopPaths.search fuel wps1 queue1 Infinity _) as [[wps2 best]|] eqn:Es;
    [|discriminate].
  pose proof (Desktop_search_fixed _ _ _ _ _ _ _ Es) as Hsearch.
  assert (Hall : map Desktop_fixed wps2 = map Desktop_fixed (DesktopPaths.waypoints this)).
  { rewrite Hsearch, Hseed. apply CalculateDistances_fixed. }
  destruct (DesktopPaths.index best <? 0)%Z.
  { intros H. injection H as _ <-. exact Hall. }
  destruct (DesktopPaths.backtrack_path _ _ _); [|discriminate].
  intros H. injection H as _ <-. exact Hall.
Qed.

(** The returned path depends on the points and the sightlines only. *)
Lemma Desktop_Find_ext fuel (a b : DesktopPaths.Paths) from to :
  DesktopPaths.passable a = DesktopPaths.passable b ->
  map Desktop_fixed (DesktopPaths.waypoints a) = map Desktop_fixed (DesktopPaths.waypoints b) ->
  option_map fst (DesktopPaths.Find hypot fuel a from to)
  = option_map fst (DesktopPaths.Find hypot fuel b from to).
Proof.
  intros Hp Hw. unfold DesktopPaths.Find. rewrite <- Hp.
  destruct (DesktopPaths.passable a) as [|r rest]; [reflexivity|].
  cbv zeta.
  rewrite (CalculateDistances_ext _ _ _ _ Hw).
  destruct (DesktopPaths.Visible _ _ _); reflexivity.
Qed.

Lemma Desktop_Find_again (this : DesktopPaths.Paths) fuel from to path wps' :
  DesktopPaths.Find hypot fuel this from to = Some (path, wps') ->
  option_map fst
    (DesktopPaths.Find hypot fuel (DesktopPaths.mkPaths (DesktopPaths.passable this) wps')
       from to)
  = Some path.
Proof.
  intros H.
  rewrite (Desktop_Find_ext fuel (DesktopPaths.mkPaths (DesktopPaths.passable this) wps')
             this from to eq_refl (Desktop_Find_fixed fuel this from to path wps' H)).
  rewrite H. reflexivity.
Qed.


End FindTwice.

(** The L-shaped region of the specification's scenario. *)
Definition ell : list Point :=
  [mkPoint 0 0; mkPoint 20 0; mkPoint 20 10; mkPoint 10 10; mkPoint 10 20; mkPoint 0 20].

Definition ell_paths : @WebPaths.Paths ZWeight :=
  WebPaths.init [Web.expand ell] (mkPoint 5 5).

Definition ell_desktop : @DesktopPaths.Paths ZWeight :=
  match @DesktopPaths.Init ZWeight taxicab [[ell]] (mkPoint 5 5) with
  | Some this => this
  | None => DesktopPaths.mkPaths [] []
  end.


(** ** The laws of lengths *)

Definition wle {Wt : Weight} (a b : W) : Prop := wleb a b = true.

(** An ordered commutative group: what the search needs of its numbers. *)
Class WeightLaws (Wt : Weight) : Prop := {
  wle_refl : forall a, wle a a;
  wle_trans : forall a b c, wle a b -> wle b c -> wle a c;
  wle_total : forall a b, wle a b \/ wle b a;
  wltb_spec : forall a b, wltb a b = negb (wleb b a);
  wadd_comm : forall a b, wadd a b = wadd b a;
  wadd_assoc : forall a b c, wadd a (wadd b c) = wadd (wadd a b) c;
  wadd_zero : forall a, wadd a wzero = a;
  wadd_mono : forall a b c, wle a b -> wle (wadd a c) (wadd b c);
  wadd_cancel : forall a b c, wle (wadd a c) (wadd b c) -> wle a b;
  wsub_add : forall a b, wsub (wadd a b) b = a
}.

Lemma ZWeightLaws : WeightLaws ZWeight.
Proof.
  constructor; unfold wle; cbn; intros;
    rewrite ?Z.leb_le in *; lia.
Qed.

(** [a <= b] for lengths that may be infinite. *)
Definition ext_le {Wt : Weight} (a b : ext) : Prop :=
  match a, b with
  | Fin x, Fin y => wle x y
  | _, Infinity => True
  | Infinity, Fin _ => False
  end.

Section WeightFacts.

Context {Wt : Weight} {laws : WeightLaws Wt}.

Lemma wadd_mono_l a b c : wle a b -> wle (wadd c a) (wadd c b).
Proof. intros H. rewrite (wadd_comm c a), (wadd_comm c b). apply wadd_mono. exact H. Qed.

Lemma wadd_mono2 a b c d : wle a b -> wle c d -> wle (wadd a c) (wadd b d).
Proof.
  intros H1 H2. apply wle_trans with (b := wadd b c).
  - apply wadd_mono. exact H1.
  - apply wadd_mono_l. exact H2.
Qed.

Lemma wleb_false a b : wleb a b = false -> wle b a.
Proof.
  intros H. destruct (wle_total a b) as [H'|H']; [|exact H'].
  unfold wle in H'. congruence.
Qed.

Lemma ext_le_refl a : ext_le a a.
Proof. destruct a; cbn; [apply wle_refl|exact I]. Qed.

Lemma ext_le_trans a b c : ext_le a b -> ext_le b c -> ext_le a c.
Proof.
  destruct a, b, c; cbn; try tauto. apply wle_trans.
Qed.

Lemma ge_ext_true a b : ge_ext a b = true <-> ext_le b (Fin a).
Proof. destruct b; cbn; [reflexivity|]. split; [discriminate|tauto]. Qed.

Lemma ge_ext_false a b : ge_ext a b = false -> ext_le (Fin a) b.
Proof. destruct b; cbn; [apply wleb_false|tauto]. Qed.

(** [a < b]: the negation of [b <= a]. *)
Lemma ge_ext_false_strict a b c :
  ge_ext a b = false -> ext_le b (Fin c) -> wle c a -> False.
Proof.
  destruct b as [b|]; cbn; [|tauto]. intros H1 H2 H3.
  assert (H : wle b a) by (apply wle_trans with (b := c); assumption).
  unfold wle in H. congruence.
Qed.

Lemma wle_eq a b : a = b -> wle a b.
Proof. intros ->. apply wle_refl. Qed.

Lemma wadd_cancel_eq a b c : wadd a c = wadd b c -> wle a b.
Proof. intros H. apply (wadd_cancel a b c). rewrite H. apply wle_refl. Qed.

Lemma ext_le_fin (a : ext) (g : W) :
  ext_le a (Fin g) -> exists s, a = Fin s /\ wle s g.
Proof. destruct a as [s|]; cbn; [|tauto]. intros H. exists s. auto. Qed.

Lemma ge_ext_false_mono a b c :
  ge_ext a b = false -> ext_le b c -> ge_ext a c = false.
Proof.
  intros H1 H2. destruct (ge_ext a c) eqn:E; [|reflexivity]. exfalso.
  apply ge_ext_true in E.
  apply (ge_ext_false_strict a b a H1); [|apply wle_refl].
  apply ext_le_trans with (b := c); assumption.
Qed.

End WeightFacts.

(** ** The search on a graph

    Both ports run the same search.  Here it is seen from the graph it
    runs on: the waypoints are the numbers below [g_count], [g_sight i]
    lists the sightlines of waypoint [i] with their lengths, [g_heur] is
    the distance to the target and [g_start] the distance from the start.
    The state of the loop is seen through [sh] (the field [shortest]),
    [bk] (the field [backtrack]) and the entries [(length, index)] of the
    queue. *)

Record Graph {Wt : Weight} : Type := mkGraph {
  g_count : nat;
  g_heur : nat -> W;
  g_start : nat -> W;
  g_sees_target : nat -> bool;
  g_sees_start : nat -> bool;
  g_sight : nat -> list (nat * W);
  g_weight : nat -> nat -> W
}.

(** A sightline joins two distinct waypoints and has the length that the
    graph gives it; the heuristic is consistent. *)
Record GraphOk {Wt : Weight} (graph : Graph) : Prop := {
  ok_sight : forall i j d, In (j, d) (g_sight graph i) ->
      (i < g_count graph)%nat /\ (j < g_count graph)%nat /\ j <> i
      /\ d = g_weight graph i j;
  ok_heur : forall i j d, In (j, d) (g_sight graph i) ->
      wle (g_heur graph i) (wadd d (g_heur graph j))
}.

Definition entry {Wt : Weight} : Type := (W * nat)%type.

Section Search.

Context {Wt : Weight} {laws : WeightLaws Wt}.

Variable graph : Graph.

Local Abbreviation count := (g_count graph).
Local Abbreviation heur := (g_heur graph).
Local Abbreviation start := (g_start graph).
Local Abbreviation sees_target := (g_sees_target graph).
Local Abbreviation sees_start := (g_sees_start graph).
Local Abbreviation sight := (g_sight graph).
Local Abbreviation weight := (g_weight graph).

Hypothesis graph_ok : GraphOk graph.

Lemma sight_ok i j d :
  In (j, d) (sight i) ->
  (i < count)%nat /\ (j < count)%nat /\ j <> i /\ d = weight i j.
Proof. apply (ok_sight graph graph_ok). Qed.

Lemma heur_consistent i j d :
  In (j, d) (sight i) -> wle (heur i) (wadd d (heur j)).
Proof. apply (ok_heur graph graph_ok). Qed.

(** The route that the backtrack links describe from the start to waypoint
    [k]: the waypoints on it, last first, and its length. *)
Inductive Route (bk : nat -> Z) : nat -> list nat -> W -> Prop :=
| Route_seed k :
    (k < count)%nat -> bk k = (-1)%Z -> sees_start k = true ->
    Route bk k [k] (start k)
| Route_step k m d l len :
    (k < count)%nat -> bk k = Z.of_nat m -> In (k, d) (sight m) ->
    Route bk m l len ->
    Route bk k (k :: l) (wadd len d).

(** A path of the graph from its first waypoint to the target. *)
Fixpoint TailPath (l : list nat) : Prop :=
  match l with
  | [] => False
  | j :: rest =>
      match rest with
      | [] => (j < count)%nat /\ sees_target j = true
      | j' :: _ => (exists d, In (j', d) (sight j)) /\ TailPath rest
      end
  end.

(** Its length. *)
Fixpoint tail_length (l : list nat) : W :=
  match l with
  | [] => wzero
  | j :: rest =>
      match rest with
      | [] => heur j
      | j' :: _ => wadd (weight j j') (tail_length rest)
      end
  end.

(** A path from the start to the target, and its length. *)
Definition GraphPath (l : list nat) : Prop :=
  TailPath l /\ sees_start (hd O l) = true.

Definition graph_length (l : list nat) : W :=
  wadd (start (hd O l)) (tail_length l).

Lemma tail_length_cons j j' rest :
  tail_length (j :: j' :: rest) = wadd (weight j j') (tail_length (j' :: rest)).
Proof. reflexivity. Qed.

Lemma TailPath_head l : TailPath l -> (hd O l < count)%nat.
Proof.
  destruct l as [|j [|j' tl]]; cbn [hd TailPath]; [tauto|tauto|].
  intros [(d & Hd) _]. destruct (sight_ok j j' d Hd) as (H & _). exact H.
Qed.

Lemma TailPath_suffix l1 l2 : TailPath (l1 ++ l2) -> l2 <> [] -> TailPath l2.
Proof.
  induction l1 as [|a l1 IH]; intros H Hne; [exact H|].
  apply IH; [|exact Hne]. cbn [app TailPath] in H.
  destruct (l1 ++ l2) as [|b r] eqn:E.
  - destruct l1; [cbn in E; contradiction|discriminate E].
  - destruct H as [_ H]. exact H.
Qed.

(** The heuristic is admissible. *)
Lemma heur_admissible l : TailPath l -> wle (heur (hd O l)) (tail_length l).
Proof.
  induction l as [|j rest IH]; intros H; [destruct H|].
  destruct rest as [|j' rest'].
  - cbn. apply wle_refl.
  - cbn [TailPath] in H. destruct H as [(d & Hd) Ht].
    cbn [hd tail_length].
    pose proof (heur_consistent j j' d Hd) as Hc.
    destruct (sight_ok j j' d Hd) as (_ & _ & _ & ->).
    apply wle_trans with (b := wadd (weight j j') (heur j')); [exact Hc|].
    apply wadd_mono_l. apply (IH Ht).
Qed.

Lemma Route_ext (bk bk' : nat -> Z) k l len :
  Route bk k l len -> (forall m, In m l -> bk' m = bk m) -> Route bk' k l len.
Proof.
  induction 1 as [k Hk Hb Hs|k m d l len Hk Hb Hl Hr IH]; intros Hext.
  - apply Route_seed; auto. rewrite Hext; [exact Hb|left; reflexivity].
  - apply (Route_step bk' k m d l len); auto.
    + rewrite Hext; [exact Hb|left; reflexivity].
    + apply IH. intros x Hx. apply Hext. right. exact Hx.
Qed.

Lemma Route_head (bk : nat -> Z) k l len :
  Route bk k l len -> exists rest, l = k :: rest.
Proof. destruct 1; eexists; reflexivity. Qed.

Lemma Route_lt (bk : nat -> Z) k l len :
  Route bk k l len -> forall m, In m l -> (m < count)%nat.
Proof.
  induction 1 as [k Hk Hb Hs|k m d l len Hk Hb Hl Hr IH]; intros x Hx.
  - destruct Hx as [<-|[]]. exact Hk.
  - destruct Hx as [<-|Hx]; [exact Hk|apply IH; exact Hx].
Qed.

Lemma Route_bound (bk : nat -> Z) k l len :
  Route bk k l len -> NoDup l -> (length l <= count)%nat.
Proof.
  intros Hr Hnd. rewrite <- (length_seq count 0).
  apply NoDup_incl_length; [exact Hnd|].
  intros m Hm. apply in_seq. pose proof (Route_lt bk k l len Hr m Hm). lia.
Qed.

(** The route, walked from the start and continued to the target, is a
    path of the graph, of the length that the route has. *)
Lemma Route_tail (bk : nat -> Z) k l len :
  Route bk k l len ->
  forall tl, TailPath (k :: tl) ->
    GraphPath (rev l ++ tl)
    /\ graph_length (rev l ++ tl) = wadd len (tail_length (k :: tl)).
Proof.
  induction 1 as [k Hk Hb Hs|k m d l len Hk Hb Hl Hr IH]; intros tl Htl.
  - cbn. split; [split; [exact Htl|exact Hs]|reflexivity].
  - cbn [rev]. rewrite <- app_assoc. cbn [app].
    destruct (IH (k :: tl)) as [Hp Hlen].
    { cbn [TailPath]. split; [exists d; exact Hl|exact Htl]. }
    split; [exact Hp|]. rewrite Hlen, tail_length_cons.
    destruct (sight_ok m k d Hl) as (_ & _ & _ & ->).
    apply wadd_assoc.
Qed.

(** *** The invariant of the loop *)

(** The waypoints that were expanded, with the length they were first
    expanded at: a ghost of the proof. *)
Definition closed_add (C : nat -> option W) (i : nat) (g : W) : nat -> option W :=
  fun k => if (k =? i)%nat
           then Some (match C i with Some g0 => g0 | None => g end)
           else C k.

(** The number of sightlines of waypoints not yet expanded. *)
Definition open_sum (C : nat -> option W) : nat :=
  list_sum (map (fun i => match C i with
                          | None => length (sight i)
                          | Some _ => O
                          end) (seq 0 count)).

(** A path to the target has a witness: the bound is no longer than it, or
    the queue holds a waypoint of it that is no further than on the path. *)
Definition Witnessed (queue : list entry) (bd : ext) (l : list nat) (L : W) : Prop :=
  ext_le bd (Fin (wadd L (tail_length l)))
  \/ exists l1 j l2 g,
       l = l1 ++ j :: l2 /\ In (wadd g (heur j), j) queue
       /\ wle (wadd g (tail_length (j :: l2))) (wadd L (tail_length l)).

Record SearchInv (C : nat -> option W) (sh : nat -> ext) (bk : nat -> Z)
    (queue : list entry) (bd : ext) (best : option entry) : Prop := {
  inv_entry : forall e, In e queue ->
      (snd e < count)%nat
      /\ exists g, fst e = wadd g (heur (snd e)) /\ ext_le (sh (snd e)) (Fin g);
  inv_mono : forall e k g0, In e queue -> C k = Some g0 -> wle (wadd g0 (heur k)) (fst e);
  inv_closed : forall k g0, C k = Some g0 -> (k < count)%nat /\ ext_le (sh k) (Fin g0);
  inv_relaxed : forall k g0 j d, C k = Some g0 -> sees_target k = false ->
      In (j, d) (sight k) -> ext_le (sh j) (Fin (wadd g0 d));
  inv_best : match best with
             | None => bd = Infinity
             | Some b =>
                 bd = Fin (fst b) /\ sees_target (snd b) = true
                 /\ exists g0, C (snd b) = Some g0 /\ wle (wadd g0 (heur (snd b))) (fst b)
             end;
  inv_back : forall j s, (j < count)%nat -> sh j = Fin s ->
      (bk j = (-1)%Z /\ sees_start j = true /\ wle (start j) s)
      \/ exists k g0 d,
           bk j = Z.of_nat k /\ C k = Some g0 /\ In (j, d) (sight k)
           /\ wle (wadd g0 d) s;
  inv_route : forall k g0, C k = Some g0 ->
      exists l len, Route bk k l len /\ wle len g0 /\ NoDup l
                    /\ forall m, In m l -> C m <> None;
  inv_seed : forall i, (i < count)%nat -> sees_start i = true ->
      ext_le (sh i) (Fin (start i));
  inv_wit : forall l L, TailPath l -> ext_le (sh (hd O l)) (Fin L) -> Witnessed queue bd l L
}.

(** The loop has ended: no entry of the queue is below the bound. *)
Definition SearchDone (queue : list entry) (bd : ext) : Prop :=
  forall e, In e queue -> ext_le bd (Fin (fst e)).

(** What the loop over the sightlines of waypoint [i], reached at length
    [g], does to the state. *)
Record Relaxed (g : W) (i : nat) (sh : nat -> ext) (bk : nat -> Z) (rest : list entry)
    (sh' : nat -> ext) (bk' : nat -> Z) (queue' : list entry) : Prop := {
  rl_decrease : forall j, ext_le (sh' j) (sh j);
  rl_relaxed : forall j d, In (j, d) (sight i) -> ext_le (sh' j) (Fin (wadd g d));
  rl_updated : forall j,
      (sh' j = sh j /\ bk' j = bk j)
      \/ exists d, In (j, d) (sight i) /\ sh' j = Fin (wadd g d) /\ bk' j = Z.of_nat i
                   /\ In (wadd (wadd g d) (heur j), j) queue'
                   /\ ge_ext (wadd g d) (sh j) = false;
  rl_kept : forall e, In e rest -> In e queue';
  rl_new : forall e, In e queue' ->
      In e rest \/ exists j d, In (j, d) (sight i) /\ e = (wadd (wadd g d) (heur j), j);
  rl_size : (length queue' <= length rest + length (sight i))%nat;
  rl_idle : (forall j d, In (j, d) (sight i) -> ge_ext (wadd g d) (sh j) = true) ->
            (length queue' <= length rest)%nat
}.

Lemma closed_add_at C i g :
  closed_add C i g i = Some (match C i with Some g0 => g0 | None => g end).
Proof. unfold closed_add. rewrite Nat.eqb_refl. reflexivity. Qed.

Lemma closed_add_keeps C i g k g0 : C k = Some g0 -> closed_add C i g k = Some g0.
Proof.
  intros H. unfold closed_add. destruct (k =? i)%nat eqn:E; [|exact H].
  apply Nat.eqb_eq in E. subst k. rewrite H. reflexivity.
Qed.

Lemma closed_add_inv C i g k g0 :
  closed_add C i g k = Some g0 -> C k = Some g0 \/ (k = i /\ C i = None /\ g0 = g).
Proof.
  unfold closed_add. destruct (k =? i)%nat eqn:E; [|auto].
  apply Nat.eqb_eq in E. subst k. destruct (C i) as [gi|]; intros H; injection H as <-; auto.
Qed.

Lemma closed_add_some C i g m : C m <> None -> closed_add C i g m <> None.
Proof.
  destruct (C m) as [g0|] eqn:E; [|congruence]. intros _.
  rewrite (closed_add_keeps C i g m g0 E). discriminate.
Qed.

Lemma open_sum_ext C C' :
  (forall k, (k < count)%nat -> (C k = None <-> C' k = None)) -> open_sum C = open_sum C'.
Proof.
  intros H. unfold open_sum. f_equal. apply map_ext_in. intros k Hk.
  apply in_seq in Hk. specialize (H k ltac:(lia)).
  destruct (C k), (C' k); try reflexivity.
  - destruct H as [_ H]. discriminate (H eq_refl).
  - destruct H as [H _]. discriminate (H eq_refl).
Qed.

Lemma open_sum_stale C i g g0 : C i = Some g0 -> open_sum (closed_add C i g) = open_sum C.
Proof.
  intros Hi. apply open_sum_ext. intros k _. unfold closed_add.
  destruct (k =? i)%nat eqn:E; [|reflexivity].
  apply Nat.eqb_eq in E. subst k. rewrite Hi. split; discriminate.
Qed.

Lemma open_sum_fresh C i g :
  (i < count)%nat -> C i = None ->
  (open_sum (closed_add C i g) + length (sight i) = open_sum C)%nat.
Proof.
  intros Hi HC. unfold open_sum.
  assert (G : forall m first, (first <= i < first + m)%nat ->
    (list_sum (map (fun k => match closed_add C i g k with
                             | None => length (sight k) | Some _ => O end) (seq first m))
     + length (sight i)
     = list_sum (map (fun k => match C k with
                               | None => length (sight k) | Some _ => O end) (seq first m)))%nat).
  { unfold list_sum. induction m as [|m IH]; intros first Hr; [lia|].
    cbn [seq map fold_right].
    destruct (Nat.eq_dec first i) as [->|Hne].
    - rewrite closed_add_at, HC.
      assert (E : map (fun k => match closed_add C i g k with
                                | None => length (sight k) | Some _ => O end) (seq (S i) m)
                  = map (fun k => match C k with
                                  | None => length (sight k) | Some _ => O end) (seq (S i) m)).
      { apply map_ext_in. intros k Hk. apply in_seq in Hk. unfold closed_add.
        destruct (k =? i)%nat eqn:E; [apply Nat.eqb_eq in E; lia|reflexivity]. }
      rewrite E. lia.
    - specialize (IH (S first) ltac:(lia)).
      assert (E : closed_add C i g first = C first).
      { unfold closed_add. destruct (first =? i)%nat eqn:E; [apply Nat.eqb_eq in E; lia|].
        reflexivity. }
      rewrite E. lia. }
  apply (G count O). lia.
Qed.

Lemma open_sum_le C (bound : nat) :
  (forall i, length (sight i) <= bound)%nat -> (open_sum C <= count * bound)%nat.
Proof.
  intros Hb. unfold open_sum.
  assert (G : forall l : list nat,
    (list_sum (map (fun i => match C i with
                             | None => length (sight i)
                             | Some _ => O
                             end) l) <= length l * bound)%nat).
  { unfold list_sum. induction l as [|a l IH]; [cbn; lia|].
    cbn [map fold_right length]. pose proof (Hb a).
    destruct (C a); lia. }
  specialize (G (seq 0 count)). rewrite length_seq in G. exact G.
Qed.

(** The route to a waypoint that is expanded for the first time. *)
Lemma new_route C sh bk queue bd best i g :
  SearchInv C sh bk queue bd best -> C i = None -> (i < count)%nat ->
  ext_le (sh i) (Fin g) ->
  exists l len, Route bk i l len /\ wle len g /\ NoDup l
                /\ forall m, In m l -> closed_add C i g m <> None.
Proof.
  intros HI HC Hi Hsh.
  destruct (ext_le_fin _ _ Hsh) as (s & Hs & Hsg).
  destruct (inv_back _ _ _ _ _ _ HI i s Hi Hs)
    as [(Hb & Hseed & Hd)|(k & g0 & d & Hb & Hk & Hl & Hd)].
  - exists [i], (start i). split; [apply Route_seed; assumption|].
    split; [apply wle_trans with (b := s); assumption|].
    split; [constructor; [intros []|constructor]|].
    intros m [<-|[]]. rewrite closed_add_at. discriminate.
  - destruct (inv_route _ _ _ _ _ _ HI k g0 Hk) as (l & len & Hr & Hlen & Hnd & Hall).
    exists (i :: l), (wadd len d).
    split; [apply (Route_step bk i k d l len); assumption|].
    split.
    { apply wle_trans with (b := s); [|exact Hsg].
      apply wle_trans with (b := wadd g0 d); [|exact Hd].
      apply wadd_mono. exact Hlen. }
    split.
    { constructor; [|exact Hnd]. intros Hin. apply (Hall i Hin). exact HC. }
    intros m [<-|Hm]; [rewrite closed_add_at; discriminate|].
    apply closed_add_some. apply Hall. exact Hm.
Qed.

(** *** A waypoint in sight of the target is taken from the queue *)

Lemma step_goal C sh bk queue bd best (node : entry) rest :
  SearchInv C sh bk queue bd best ->
  Permutation queue (node :: rest) ->
  (forall e, In e queue -> wle (fst node) (fst e)) ->
  ge_ext (fst node) bd = false ->
  sees_target (snd node) = true ->
  exists C',
    SearchInv C' sh bk rest (Fin (fst node)) (Some node)
    /\ (length rest + open_sum C' < length queue + open_sum C)%nat.
Proof.
  intros HI Hperm Hmin Hge Hgoal.
  assert (Hnode : In node queue).
  { apply (Permutation_in _ (Permutation_sym Hperm)). left. reflexivity. }
  assert (Hrest : forall e, In e rest -> In e queue).
  { intros e He. apply (Permutation_in _ (Permutation_sym Hperm)). right. exact He. }
  set (i := snd node) in *.
  destruct (inv_entry _ _ _ _ _ _ HI node Hnode) as (Hi & g & Hg & Hsh).
  fold i in Hi, Hg, Hsh.
  exists (closed_add C i g). split.
  2:{ pose proof (Permutation_length Hperm) as Hlen. cbn [length] in Hlen.
      destruct (C i) as [g0|] eqn:HC.
      - rewrite (open_sum_stale C i g g0 HC). lia.
      - pose proof (open_sum_fresh C i g Hi HC). lia. }
  constructor.
  - intros e He. apply (inv_entry _ _ _ _ _ _ HI e (Hrest e He)).
  - intros e k g0 He Hk. destruct (closed_add_inv C i g k g0 Hk) as [Hk'|(-> & HC & ->)].
    + apply (inv_mono _ _ _ _ _ _ HI e k g0 (Hrest e He) Hk').
    + rewrite <- Hg. apply Hmin. apply Hrest. exact He.
  - intros k g0 Hk. destruct (closed_add_inv C i g k g0 Hk) as [Hk'|(-> & HC & ->)].
    + apply (inv_closed _ _ _ _ _ _ HI k g0 Hk').
    + split; assumption.
  - intros k g0 j d Hk Hgk Hl.
    destruct (closed_add_inv C i g k g0 Hk) as [Hk'|(-> & HC & ->)].
    + apply (inv_relaxed _ _ _ _ _ _ HI k g0 j d Hk' Hgk Hl).
    + congruence.
  - split; [reflexivity|]. split; [exact Hgoal|].
    fold i. rewrite closed_add_at. eexists. split; [reflexivity|].
    destruct (C i) as [g0|] eqn:HC.
    + apply (inv_mono _ _ _ _ _ _ HI node i g0 Hnode HC).
    + rewrite Hg. apply wle_refl.
  - intros j s Hj Hs.
    destruct (inv_back _ _ _ _ _ _ HI j s Hj Hs) as [H|(k & g0 & d & Hb & Hk & H)];
      [left; exact H|].
    right. exists k, g0, d. split; [exact Hb|]. split; [|exact H].
    apply closed_add_keeps. exact Hk.
  - intros k g0 Hk. destruct (closed_add_inv C i g k g0 Hk) as [Hk'|(-> & HC & ->)].
    + destruct (inv_route _ _ _ _ _ _ HI k g0 Hk') as (l & len & Hr & Hlen & Hnd & Hall).
      exists l, len. repeat split; try assumption.
      intros m Hm. apply closed_add_some. apply Hall. exact Hm.
    + apply (new_route C sh bk queue bd best i g HI HC Hi Hsh).
  - apply (inv_seed _ _ _ _ _ _ HI).
  - intros l L Hl HL.
    destruct (inv_wit _ _ _ _ _ _ HI l L Hl HL)
      as [Hbd|(l1 & j & l2 & g' & El & He & Hle)].
    + left. apply ext_le_trans with (b := bd); [|exact Hbd].
      apply ge_ext_false. exact Hge.
    + apply (Permutation_in _ Hperm) in He. destruct He as [E|He].
      * left. cbn [ext_le].
        apply wle_trans with (b := wadd g' (tail_length (j :: l2))); [|exact Hle].
        rewrite E. cbn [fst]. apply wadd_mono_l.
        apply (heur_admissible (j :: l2)).
        apply (TailPath_suffix l1 (j :: l2)); [rewrite <- El; exact Hl|discriminate].
      * right. exists l1, j, l2, g'. repeat split; assumption.
Qed.

(** *** A waypoint out of sight of the target is expanded *)

Lemma step_expand C sh bk queue bd best (node : entry) rest g sh' bk' queue' :
  SearchInv C sh bk queue bd best ->
  Permutation queue (node :: rest) ->
  (forall e, In e queue -> wle (fst node) (fst e)) ->
  sees_target (snd node) = false ->
  fst node = wadd g (heur (snd node)) ->
  Relaxed g (snd node) sh bk rest sh' bk' queue' ->
  exists C',
    SearchInv C' sh' bk' queue' bd best
    /\ (length queue' + open_sum C' < length queue + open_sum C)%nat.
Proof.
  intros HI Hperm Hmin Hgoal Hg R.
  assert (Hnode : In node queue).
  { apply (Permutation_in _ (Permutation_sym Hperm)). left. reflexivity. }
  assert (Hrest : forall e, In e rest -> In e queue).
  { intros e He. apply (Permutation_in _ (Permutation_sym Hperm)). right. exact He. }
  set (i := snd node) in *.
  destruct (inv_entry _ _ _ _ _ _ HI node Hnode) as (Hi & g1 & Hg1 & Hsh1).
  fold i in Hi, Hg1, Hsh1.
  assert (Hgg : wle g1 g).
  { apply (wadd_cancel_eq g1 g (heur i)). rewrite <- Hg, <- Hg1. reflexivity. }
  assert (Hsh : ext_le (sh i) (Fin g)).
  { apply ext_le_trans with (b := Fin g1); [exact Hsh1|exact Hgg]. }
  exists (closed_add C i g).
  destruct R as [Rdec Rrel Rupd Rkept Rnew Rsize Ridle].
  (* the length the waypoint is closed with *)
  set (gi := match C i with Some g0 => g0 | None => g end).
  assert (Hgi : wle gi g).
  { unfold gi. destruct (C i) as [g0|] eqn:HC; [|apply wle_refl].
    apply (wadd_cancel g0 g (heur i)). rewrite <- Hg.
    apply (inv_mono _ _ _ _ _ _ HI node i g0 Hnode HC). }
  (* everything closed is no further than the node *)
  assert (Hbelow : forall k g0, closed_add C i g k = Some g0 ->
                     wle (wadd g0 (heur k)) (fst node)).
  { intros k g0 Hk. destruct (closed_add_inv C i g k g0 Hk) as [Hk'|(-> & HC & ->)].
    - apply (inv_mono _ _ _ _ _ _ HI node k g0 Hnode Hk').
    - rewrite Hg. apply wle_refl. }
  (* the entries that the expansion adds are no nearer than the node *)
  assert (Hline : forall j d, In (j, d) (sight i) ->
            wle (fst node) (wadd (wadd g d) (heur j))).
  { intros j d Hl. rewrite Hg, <- wadd_assoc. apply wadd_mono_l.
    apply (heur_consistent i j d Hl). }
  (* closed waypoints are left alone *)
  assert (Hfixed : forall m, closed_add C i g m <> None -> sh' m = sh m /\ bk' m = bk m).
  { intros m Hm.
    destruct (Rupd m) as [H|(d & Hl & _ & _ & _ & Hup)]; [exact H|].
    exfalso. destruct (closed_add C i g m) as [g0|] eqn:Hk; [clear Hm|congruence].
    destruct (closed_add_inv C i g m g0 Hk) as [Hk'|(-> & HC & ->)].
    - destruct (inv_closed _ _ _ _ _ _ HI m g0 Hk') as [_ Hcm].
      apply (ge_ext_false_strict _ _ g0 Hup Hcm).
      apply (wadd_cancel _ _ (heur m)).
      apply wle_trans with (b := fst node); [apply Hbelow; exact Hk|].
      apply Hline. exact Hl.
    - destruct (sight_ok i i d Hl) as (_ & _ & Hne & _). contradiction. }
  split.
  2:{ pose proof (Permutation_length Hperm) as Hlen. cbn [length] in Hlen.
      destruct (C i) as [g0|] eqn:HC.
      - rewrite (open_sum_stale C i g g0 HC).
        assert (Hq : (length queue' <= length rest)%nat); [|lia].
        apply Ridle. intros j d Hl. apply ge_ext_true.
        apply ext_le_trans with (b := Fin (wadd g0 d)).
        + apply (inv_relaxed _ _ _ _ _ _ HI i g0 j d HC Hgoal Hl).
        + cbn. apply wadd_mono. exact Hgi.
      - pose proof (open_sum_fresh C i g Hi HC). lia. }
  constructor.
  - intros e He. destruct (Rnew e He) as [Hold|(j & d & Hl & ->)].
    + destruct (inv_entry _ _ _ _ _ _ HI e (Hrest e Hold)) as (He1 & ge & He2 & He3).
      split; [exact He1|]. exists ge. split; [exact He2|].
      apply ext_le_trans with (b := sh (snd e)); [apply Rdec|exact He3].
    + cbn [fst snd].
      destruct (sight_ok i j d Hl) as (_ & Hlt & _).
      split; [exact Hlt|]. exists (wadd g d).
      split; [reflexivity|]. apply (Rrel j d Hl).
  - intros e k g0 He Hk.
    apply wle_trans with (b := fst node); [apply Hbelow; exact Hk|].
    destruct (Rnew e He) as [Hold|(j & d & Hl & ->)].
    + apply Hmin. apply Hrest. exact Hold.
    + cbn [fst]. apply Hline. exact Hl.
  - intros k g0 Hk. destruct (closed_add_inv C i g k g0 Hk) as [Hk'|(-> & HC & ->)].
    + destruct (inv_closed _ _ _ _ _ _ HI k g0 Hk') as [Hk1 Hk2]. split; [exact Hk1|].
      apply ext_le_trans with (b := sh k); [apply Rdec|exact Hk2].
    + split; [exact Hi|].
      apply ext_le_trans with (b := sh i); [apply Rdec|exact Hsh].
  - intros k g0 j d Hk Hgk Hl.
    destruct (closed_add_inv C i g k g0 Hk) as [Hk'|(-> & HC & ->)].
    + apply ext_le_trans with (b := sh j); [apply Rdec|].
      apply (inv_relaxed _ _ _ _ _ _ HI k g0 j d Hk' Hgk Hl).
    + apply (Rrel j d Hl).
  - pose proof (inv_best _ _ _ _ _ _ HI) as Hb. destruct best as [b|]; [|exact Hb].
    destruct Hb as (Hb1 & Hb2 & g0 & Hb3 & Hb4).
    split; [exact Hb1|]. split; [exact Hb2|]. exists g0. split; [|exact Hb4].
    apply closed_add_keeps. exact Hb3.
  - intros j s Hj Hs.
    destruct (Rupd j) as [[Hs0 Hb0]|(d & Hl & Hs' & Hb' & _ & _)].
    + rewrite Hs0 in Hs. rewrite Hb0.
      destruct (inv_back _ _ _ _ _ _ HI j s Hj Hs) as [H|(k & g0 & d & Hb & Hk & H)];
        [left; exact H|].
      right. exists k, g0, d. split; [exact Hb|]. split; [|exact H].
      apply closed_add_keeps. exact Hk.
    + right. exists i, gi, d.
      rewrite Hs' in Hs. injection Hs as <-.
      split; [exact Hb'|]. split; [apply closed_add_at|]. split; [exact Hl|].
      apply wadd_mono. exact Hgi.
  - intros k g0 Hk.
    assert (Hold : exists l len, Route bk k l len /\ wle len g0 /\ NoDup l
                                 /\ forall m, In m l -> closed_add C i g m <> None).
    { destruct (closed_add_inv C i g k g0 Hk) as [Hk'|(-> & HC & ->)].
      - destruct (inv_route _ _ _ _ _ _ HI k g0 Hk') as (l & len & Hr' & Hlen & Hnd & Hall).
        exists l, len. repeat split; try assumption.
        intros m Hm. apply closed_add_some. apply Hall. exact Hm.
      - apply (new_route C sh bk queue bd best i g HI HC Hi Hsh). }
    destruct Hold as (l & len & Hr' & Hlen & Hnd & Hall).
    exists l, len. repeat split; try assumption.
    apply (Route_ext bk bk' k l len Hr'). intros m Hm. apply Hfixed. apply Hall. exact Hm.
  - intros j Hj Hs. apply ext_le_trans with (b := sh j); [apply Rdec|].
    apply (inv_seed _ _ _ _ _ _ HI j Hj Hs).
  - assert (G : forall m l L, (length l <= m)%nat -> TailPath l ->
                  ext_le (sh' (hd O l)) (Fin L) -> Witnessed queue' bd l L).
    { induction m as [|m IH]; intros l L Hlen Hl HL.
      { destruct l; [destruct Hl|cbn in Hlen; lia]. }
      destruct l as [|j tl]; [destruct Hl|]. cbn [hd] in HL.
      destruct (Rupd j) as [[Hsame _]|(d & Hl' & Hs' & _ & Hin & _)].
      - assert (HL0 : ext_le (sh (hd O (j :: tl))) (Fin L)).
        { cbn [hd]. rewrite <- Hsame. exact HL. }
        destruct (inv_wit _ _ _ _ _ _ HI (j :: tl) L Hl HL0)
          as [Hbd|(l1 & j1 & l2 & g' & El & He & Hle)];
          [left; exact Hbd|].
        apply (Permutation_in _ Hperm) in He. destruct He as [E|He].
        2:{ right. exists l1, j1, l2, g'. repeat split; try assumption.
            apply Rkept. exact He. }
        assert (Ej : j1 = i) by (unfold i; rewrite E; reflexivity). subst j1.
        assert (Hgg' : wle g g').
        { apply (wadd_cancel_eq g g' (heur i)). rewrite <- Hg, E. reflexivity. }
        assert (Hsuf : TailPath (i :: l2)).
        { apply (TailPath_suffix l1 (i :: l2)); [rewrite <- El; exact Hl|discriminate]. }
        destruct l2 as [|j' l3].
        { cbn in Hsuf. destruct Hsuf as [_ Hsuf]. congruence. }
        cbn [TailPath] in Hsuf. destruct Hsuf as [(d & Hl') Htail].
        destruct (sight_ok i j' d Hl') as (_ & _ & _ & Hd).
        assert (Hbound : wle (wadd (wadd g d) (tail_length (j' :: l3)))
                             (wadd L (tail_length (j :: tl)))).
        { apply wle_trans with (b := wadd g' (tail_length (i :: j' :: l3))); [|exact Hle].
          rewrite tail_length_cons, <- wadd_assoc, Hd. apply wadd_mono. exact Hgg'. }
        assert (Hlen' : (length (j' :: l3) <= m)%nat).
        { rewrite El in Hlen. rewrite length_app in Hlen. cbn [length] in *. lia. }
        assert (Hsh' : ext_le (sh' (hd O (j' :: l3))) (Fin (wadd g d))).
        { cbn [hd]. apply (Rrel j' d Hl'). }
        destruct (IH (j' :: l3) _ Hlen' Htail Hsh')
          as [Hbd|(l1' & j1 & l2' & g2 & El' & He & Hle1)].
        + left. apply ext_le_trans with (b := Fin (wadd (wadd g d) (tail_length (j' :: l3))));
            assumption.
        + right. exists (l1 ++ i :: l1'), j1, l2', g2.
          split. { rewrite El, El', <- app_assoc. reflexivity. }
          split; [exact He|].
          apply wle_trans with (b := wadd (wadd g d) (tail_length (j' :: l3))); assumption.
      - right. exists [], j, tl, (wadd g d).
        split; [reflexivity|]. split; [exact Hin|].
        apply wadd_mono. rewrite Hs' in HL. exact HL. }
    intros l L. apply (G (length l)). lia.
Qed.

(** *** The first state of the loop *)

Lemma seeded_inv sh bk (queue : list entry) :
  (forall j, sh j = Infinity
             \/ (sh j = Fin (start j) /\ bk j = (-1)%Z /\ sees_start j = true
                 /\ In (wadd (start j) (heur j), j) queue)) ->
  (forall j, (j < count)%nat -> sees_start j = true -> sh j = Fin (start j)) ->
  (forall e, In e queue ->
     (snd e < count)%nat /\ sees_start (snd e) = true
     /\ fst e = wadd (start (snd e)) (heur (snd e))) ->
  SearchInv (fun _ => None) sh bk queue Infinity None.
Proof.
  intros Hsh Hdone Hq.
  constructor; try discriminate.
  - intros e He. destruct (Hq e He) as (H1 & H2 & H3). split; [exact H1|].
    exists (start (snd e)). split; [exact H3|].
    rewrite (Hdone _ H1 H2). apply wle_refl.
  - reflexivity.
  - intros j s Hj Hs. left.
    destruct (Hsh j) as [H|(H1 & H2 & H3 & _)]; [congruence|].
    split; [exact H2|]. split; [exact H3|].
    rewrite H1 in Hs. injection Hs as <-. apply wle_refl.
  - intros j Hj Hs. rewrite (Hdone j Hj Hs). apply wle_refl.
  - intros l L Hl HL. destruct l as [|j tl]; [destruct Hl|]. cbn [hd] in HL.
    destruct (Hsh j) as [H|(H1 & _ & _ & H4)]; [rewrite H in HL; destruct HL|].
    right. exists [], j, tl, (start j).
    repeat split; try assumption.
    apply wadd_mono. rewrite H1 in HL. exact HL.
Qed.

(** *** The last state of the loop *)

(** No path of the graph is shorter than the bound that the loop ends with. *)
Lemma final_bound C sh bk queue bd best l :
  SearchInv C sh bk queue bd best -> SearchDone queue bd ->
  GraphPath l -> ext_le bd (Fin (graph_length l)).
Proof.
  intros HI HF [Hl Hs].
  pose proof (inv_seed _ _ _ _ _ _ HI _ (TailPath_head l Hl) Hs) as Hsh.
  destruct (inv_wit _ _ _ _ _ _ HI l _ Hl Hsh)
    as [Hbd|(l1 & j & l2 & g' & El & He & Hle)]; [exact Hbd|].
  apply ext_le_trans with (b := Fin (wadd g' (heur j))); [apply (HF _ He)|].
  cbn. apply wle_trans with (b := wadd g' (tail_length (j :: l2))); [|exact Hle].
  apply wadd_mono_l. apply (heur_admissible (j :: l2)).
  apply (TailPath_suffix l1 (j :: l2)); [rewrite <- El; exact Hl|discriminate].
Qed.

(** Without a best waypoint, the graph has no path. *)
Lemma final_none C sh bk queue bd :
  SearchInv C sh bk queue bd None -> SearchDone queue bd ->
  forall l, ~ GraphPath l.
Proof.
  intros HI HF l Hl. pose proof (final_bound C sh bk queue bd None l HI HF Hl) as Hb.
  rewrite (inv_best _ _ _ _ _ _ HI) in Hb. exact Hb.
Qed.

(** With a best waypoint, the backtrack links from it are a shortest path
    of the graph. *)
Lemma final_some C sh bk queue bd (b : entry) :
  SearchInv C sh bk queue bd (Some b) -> SearchDone queue bd ->
  exists l len,
    Route bk (snd b) l len /\ (length l <= count)%nat
    /\ GraphPath (rev l)
    /\ forall p, GraphPath p -> wle (graph_length (rev l)) (graph_length p).
Proof.
  intros HI HF.
  destruct (inv_best _ _ _ _ _ _ HI) as (Hbd & Hgoal & g0 & Hg0 & Hle).
  destruct (inv_route _ _ _ _ _ _ HI _ g0 Hg0) as (l & len & Hr & Hlen & Hnd & _).
  destruct (inv_closed _ _ _ _ _ _ HI _ g0 Hg0) as [Hb _].
  exists l, len. split; [exact Hr|]. split; [apply (Route_bound bk _ l len Hr Hnd)|].
  destruct (Route_tail bk _ l len Hr [] (conj Hb Hgoal)) as [Hp Hgl].
  rewrite app_nil_r in Hp, Hgl. split; [exact Hp|].
  intros p Hp'. rewrite Hgl. cbn [tail_length].
  pose proof (final_bound C sh bk queue bd (Some b) p HI HF Hp') as Hfin.
  rewrite Hbd in Hfin. cbn in Hfin.
  apply wle_trans with (b := fst b); [|exact Hfin].
  apply wle_trans with (b := wadd g0 (heur (snd b))); [|exact Hle].
  apply wadd_mono. exact Hlen.
Qed.

End Search.

(** *** Graphs that agree *)

Record Graph_eqv {Wt : Weight} (a b : Graph) : Prop := {
  eqv_count : g_count a = g_count b;
  eqv_heur : forall i, g_heur a i = g_heur b i;
  eqv_start : forall i, g_start a i = g_start b i;
  eqv_sees_target : forall i, g_sees_target a i = g_sees_target b i;
  eqv_sees_start : forall i, g_sees_start a i = g_sees_start b i;
  eqv_sight : forall i, g_sight a i = g_sight b i;
  eqv_weight : forall i j, g_weight a i j = g_weight b i j
}.

Section GraphEqv.

Context {Wt : Weight}.

Lemma TailPath_eqv (a b : Graph) l : Graph_eqv a b -> TailPath a l -> TailPath b l.
Proof.
  intros E. induction l as [|j rest IH]; [tauto|].
  cbn [TailPath]. destruct rest as [|j' rest].
  - rewrite (eqv_count a b E), (eqv_sees_target a b E). tauto.
  - rewrite (eqv_sight a b E). intros [H1 H2]. split; [exact H1|]. apply IH. exact H2.
Qed.

Lemma GraphPath_eqv (a b : Graph) l : Graph_eqv a b -> GraphPath a l -> GraphPath b l.
Proof.
  intros E [H1 H2]. split; [apply (TailPath_eqv a b l E H1)|].
  rewrite <- (eqv_sees_start a b E). exact H2.
Qed.

Lemma tail_length_eqv (a b : Graph) l : Graph_eqv a b -> tail_length a l = tail_length b l.
Proof.
  intros E. induction l as [|j rest IH]; [reflexivity|].
  cbn [tail_length]. destruct rest as [|j' rest].
  - apply (eqv_heur a b E).
  - rewrite IH, (eqv_weight a b E). reflexivity.
Qed.

Lemma graph_length_eqv (a b : Graph) l : Graph_eqv a b -> graph_length a l = graph_length b l.
Proof.
  intros E. unfold graph_length. rewrite (tail_length_eqv a b l E), (eqv_start a b E).
  reflexivity.
Qed.

Lemma Graph_eqv_sym (a b : Graph) : Graph_eqv a b -> Graph_eqv b a.
Proof. intros [H1 H2 H3 H4 H5 H6 H7]. constructor; intros; symmetry; auto. Qed.

End GraphEqv.

(** ** The length of a path through points *)

Section PathLength.

Context {Wt : Weight} {laws : WeightLaws Wt}.

(** The distance between two points. *)
Variable dist : Point -> Point -> W.

Fixpoint path_length (l : list Point) : W :=
  match l with
  | [] => wzero
  | a :: rest =>
      match rest with
      | [] => wzero
      | b :: _ => wadd (dist a b) (path_length rest)
      end
  end.

(** A graph whose lengths are the distances between the points of its
    waypoints: the length of a path of the graph is the length of the path
    through the points. *)
Variable graph : Graph.
Variable pts : nat -> Point.
Variables from target : Point.

Hypothesis heur_dist : forall i, g_heur graph i = dist (pts i) target.
Hypothesis start_dist : forall i, g_start graph i = dist from (pts i).
Hypothesis weight_dist : forall i j, g_weight graph i j = dist (pts i) (pts j).

Lemma tail_path_length l :
  l <> [] -> path_length (map pts l ++ [target]) = tail_length graph l.
Proof.
  induction l as [|j rest IH]; intros Hne; [contradiction|].
  destruct rest as [|j' rest].
  - cbn. rewrite wadd_zero. symmetry. apply heur_dist.
  - cbn [map app path_length tail_length] in *.
    rewrite IH by discriminate. rewrite weight_dist. reflexivity.
Qed.

Lemma graph_path_length l :
  l <> [] -> path_length (from :: map pts l ++ [target]) = graph_length graph l.
Proof.
  intros Hne. unfold graph_length. rewrite <- (tail_path_length l Hne).
  destruct l as [|j rest]; [contradiction|]. cbn [map app path_length hd].
  rewrite start_dist. reflexivity.
Qed.

End PathLength.

Section WebQueue.

Context {Wt : Weight} {laws : WeightLaws Wt}.

(** The order that [node_sort] gives the heap. *)
Lemma node_sort_hle (a b : WebPaths.Node) :
  hle WebPaths.node_sort a b <-> wle (WebPaths.nlength a) (WebPaths.nlength b).
Proof.
  unfold hle, WebPaths.node_sort. rewrite wltb_spec, negb_false_iff. reflexivity.
Qed.

Lemma node_sort_asym (a b : WebPaths.Node) :
  WebPaths.node_sort a b = true -> WebPaths.node_sort b a = false.
Proof.
  unfold WebPaths.node_sort. rewrite !wltb_spec, negb_true_iff, negb_false_iff.
  apply wleb_false.
Qed.

Lemma node_sort_trans (a b c : WebPaths.Node) :
  hle WebPaths.node_sort a b -> hle WebPaths.node_sort b c -> hle WebPaths.node_sort a c.
Proof. rewrite !node_sort_hle. apply wle_trans. Qed.

End WebQueue.

(** ** The web port: the relaxation loop *)

Section Relax.

Context {Wt : Weight} {laws : WeightLaws Wt}.

Local Abbreviation Waypoint := (@WebPaths.Waypoint Wt).
Local Abbreviation Node := (@WebPaths.Node Wt).
Local Abbreviation heap := (heap_ok (@WebPaths.node_sort Wt)).

(** The best known length to waypoint [j]. *)
Definition Web_shortest_at (wps : list Waypoint) (j : nat) : ext :=
  match nth_error wps j with
  | Some w => WebPaths.shortest w
  | None => Infinity
  end.

(** The fields of a waypoint that a query never changes after
    [_calculateDistances]. *)
Definition Web_frame (w : Waypoint) : Point * W * bool :=
  (WebPaths.point w, WebPaths.targetDistance w, WebPaths.visible w).

Lemma Web_frame_nth (a b : list Waypoint) (j : nat) :
  map Web_frame a = map Web_frame b ->
  option_map Web_frame (nth_error a j) = option_map Web_frame (nth_error b j).
Proof. intros H. rewrite <- !nth_error_map, H. reflexivity. Qed.

Lemma heap_insert (queue : list Node) (e : Node) :
  heap queue ->
  heap (Heap.insert WebPaths.node_sort queue e)
  /\ Permutation (Heap.insert WebPaths.node_sort queue e) (e :: queue).
Proof.
  apply insert_spec; [apply node_sort_asym|apply node_sort_trans].
Qed.

Lemma Web_shortest_at_set (wps : list Waypoint) (i j : nat) (w : Waypoint) :
  (i < length wps)%nat ->
  Web_shortest_at (array_set wps i w) j = if (j =? i)%nat then WebPaths.shortest w else Web_shortest_at wps j.
Proof.
  intros Hi. unfold Web_shortest_at. rewrite nth_error_array_set by exact Hi.
  destruct (j =? i)%nat; reflexivity.
Qed.

Record relax_result (lines : list WebPaths.Sightline) (g : W) (i : nat)
    (wps : list Waypoint) (queue : list Node)
    (wps' : list Waypoint) (queue' : list Node) : Prop := {
  rr_heap : heap queue';
  rr_frame : map Web_frame wps' = map Web_frame wps;
  rr_sightlines : map (@WebPaths.sightlines Wt) wps' = map (@WebPaths.sightlines Wt) wps;
  rr_decrease : forall j, ext_le (Web_shortest_at wps' j) (Web_shortest_at wps j);
  rr_relaxed : forall line, In line lines ->
      ext_le (Web_shortest_at wps' (WebPaths.link line)) (Fin (wadd g (WebPaths.sdistance line)));
  rr_updated : forall j,
      nth_error wps' j = nth_error wps j
      \/ exists line w',
           In line lines /\ WebPaths.link line = j
           /\ nth_error wps' j = Some w'
           /\ WebPaths.shortest w' = Fin (wadd g (WebPaths.sdistance line))
           /\ WebPaths.backtrack w' = Z.of_nat i
           /\ In (WebPaths.mkNode
                    (wadd (wadd g (WebPaths.sdistance line)) (WebPaths.targetDistance w'))
                    j (Some i)) queue'
           /\ ge_ext (wadd g (WebPaths.sdistance line)) (Web_shortest_at wps j) = false;
  rr_kept : forall e, In e queue -> In e queue';
  rr_new : forall e, In e queue' ->
      In e queue
      \/ exists line w,
           In line lines /\ nth_error wps (WebPaths.link line) = Some w
           /\ e = WebPaths.mkNode
                    (wadd (wadd g (WebPaths.sdistance line)) (WebPaths.targetDistance w))
                    (WebPaths.link line) (Some i)
           /\ ge_ext (wadd g (WebPaths.sdistance line)) (Web_shortest_at wps (WebPaths.link line)) = false;
  rr_size : (length queue' <= length queue + length lines)%nat;
  rr_idle : (forall line, In line lines ->
               ge_ext (wadd g (WebPaths.sdistance line)) (Web_shortest_at wps (WebPaths.link line)) = true) ->
            wps' = wps /\ queue' = queue
}.

Lemma relax_spec (g : W) (i : nat) (lines : list WebPaths.Sightline) :
  forall (wps : list Waypoint) (queue : list Node),
    heap queue ->
    (forall line, In line lines -> (WebPaths.link line < length wps)%nat) ->
    exists wps' queue',
      WebPaths.relax lines g i wps queue = Some (wps', queue')
      /\ relax_result lines g i wps queue wps' queue'.
Proof.
  induction lines as [|line rest IH]; intros wps queue Hheap Hlinks.
  - exists wps, queue. split; [reflexivity|].
    constructor; auto; try (intros ? []); try (cbn; lia).
    + intros j. apply ext_le_refl.
  - cbn [WebPaths.relax].
    assert (Hlt : (WebPaths.link line < length wps)%nat) by (apply Hlinks; left; reflexivity).
    destruct (nth_error wps (WebPaths.link line)) as [next|] eqn:En.
    2:{ apply nth_error_None in En. lia. }
    set (d := wadd g (WebPaths.sdistance line)).
    destruct (ge_ext d (WebPaths.shortest next)) eqn:Ege.
    + destruct (IH wps queue Hheap) as (wps' & queue' & Hr & R).
      { intros l Hl. apply Hlinks. right. exact Hl. }
      exists wps', queue'. split; [exact Hr|]. destruct R.
      constructor; auto.
      * intros l [<-|Hl]; [|auto].
        apply ext_le_trans with (b := Web_shortest_at wps (WebPaths.link line)); [apply rr_decrease0|].
        unfold Web_shortest_at. rewrite En. apply ge_ext_true. exact Ege.
      * intros j. destruct (rr_updated0 j) as [H|(l & w' & Hl & H)]; [left; exact H|].
        right. exists l, w'. split; [right; exact Hl|exact H].
      * intros e He. destruct (rr_new0 e He) as [H|(l & w & Hl & H)]; [left; exact H|].
        right. exists l, w. split; [right; exact Hl|exact H].
      * cbn [length]. lia.
      * intros Hidle. apply rr_idle0. intros l Hl. apply Hidle. right. exact Hl.
    + set (next' := WebPaths.mkWaypoint (WebPaths.point next) (WebPaths.sightlines next)
                      (WebPaths.targetDistance next) (WebPaths.visible next)
                      (Z.of_nat i) (Fin d)).
      set (e0 := WebPaths.mkNode (wadd d (WebPaths.targetDistance next))
                   (WebPaths.link line) (Some i)).
      destruct (heap_insert queue e0 Hheap) as [Hheap1 Hperm1].
      destruct (IH (array_set wps (WebPaths.link line) next')
                   (Heap.insert WebPaths.node_sort queue e0) Hheap1)
        as (wps' & queue' & Hr & R).
      { intros l Hl. rewrite array_set_length by exact Hlt. apply Hlinks. right. exact Hl. }
      exists wps', queue'. split; [exact Hr|]. destruct R.
      assert (Hsh1 : forall j, ext_le (Web_shortest_at (array_set wps (WebPaths.link line) next') j)
                                      (Web_shortest_at wps j)).
      { intros j. rewrite Web_shortest_at_set by exact Hlt.
        destruct (j =? WebPaths.link line)%nat eqn:E; [|apply ext_le_refl].
        apply Nat.eqb_eq in E. subst j. unfold Web_shortest_at. rewrite En. cbn [WebPaths.shortest next'].
        apply ge_ext_false. exact Ege. }
      constructor.
      * exact rr_heap0.
      * rewrite rr_frame0. apply map_array_set. rewrite nth_error_map, En. reflexivity.
      * rewrite rr_sightlines0. apply map_array_set. rewrite nth_error_map, En. reflexivity.
      * intros j. apply ext_le_trans with (b := Web_shortest_at (array_set wps (WebPaths.link line) next') j);
          [apply rr_decrease0|apply Hsh1].
      * intros l [<-|Hl]; [|auto].
        apply ext_le_trans with (b := Web_shortest_at (array_set wps (WebPaths.link line) next')
                                        (WebPaths.link line)); [apply rr_decrease0|].
        rewrite Web_shortest_at_set, Nat.eqb_refl by exact Hlt. apply wle_refl.
      * intros j. destruct (rr_updated0 j) as [H|(l & w' & Hl & Hj & Hw' & Hs & Hb & Hin & Hg)].
        -- rewrite nth_error_array_set in H by exact Hlt.
           destruct (j =? WebPaths.link line)%nat eqn:E; [|left; exact H].
           apply Nat.eqb_eq in E. subst j. right. exists line, next'.
           split; [left; reflexivity|]. split; [reflexivity|]. split; [exact H|].
           split; [reflexivity|]. split; [reflexivity|]. split.
           ++ apply rr_kept0. apply (Permutation_in _ (Permutation_sym Hperm1)).
              left. reflexivity.
           ++ unfold Web_shortest_at. rewrite En. exact Ege.
        -- right. exists l, w'. split; [right; exact Hl|].
           split; [exact Hj|]. split; [exact Hw'|]. split; [exact Hs|].
           split; [exact Hb|]. split; [exact Hin|].
           apply (ge_ext_false_mono _ _ _ Hg). apply Hsh1.
      * intros e He. apply rr_kept0. apply (Permutation_in _ (Permutation_sym Hperm1)).
        right. exact He.
      * intros e He. destruct (rr_new0 e He) as [H|(l & w & Hl & Hw & Hee & Hg)].
        -- apply (Permutation_in _ Hperm1) in H. destruct H as [<-|H]; [|left; exact H].
           right. exists line, next. split; [left; reflexivity|]. split; [exact En|].
           split; [reflexivity|]. unfold Web_shortest_at. rewrite En. exact Ege.
        -- right. rewrite nth_error_array_set in Hw by exact Hlt.
           destruct (WebPaths.link l =? WebPaths.link line)%nat eqn:E.
           ++ injection Hw as <-. apply Nat.eqb_eq in E. exists l, next.
              split; [right; exact Hl|]. split; [rewrite E; exact En|].
              split; [exact Hee|]. apply (ge_ext_false_mono _ _ _ Hg). apply Hsh1.
           ++ exists l, w. split; [right; exact Hl|]. split; [exact Hw|].
              split; [exact Hee|]. apply (ge_ext_false_mono _ _ _ Hg). apply Hsh1.
      * rewrite (Permutation_length Hperm1) in rr_size0. cbn [length] in *. lia.
      * intros Hidle. exfalso.
        specialize (Hidle line (or_introl eq_refl)). unfold Web_shortest_at in Hidle. rewrite En in Hidle.
        fold d in Hidle. congruence.
Qed.

End Relax.


(** ** The web port: the search *)

Section WebSearch.

Context {Wt : Weight} {laws : WeightLaws Wt} (hypot : Point -> W).

(** The two facts about the Euclidean length that the search relies on. *)
Hypothesis hypot_triangle : forall a b, wle (hypot (a +p b)) (wadd (hypot a) (hypot b)).
Hypothesis hypot_neg : forall a, hypot (Pt.neg a) = hypot a.

Local Abbreviation Waypoint := (@WebPaths.Waypoint Wt).
Local Abbreviation Node := (@WebPaths.Node Wt).
Local Abbreviation heap := (heap_ok (@WebPaths.node_sort Wt)).
Local Abbreviation distance := (WebPaths.distance hypot).

Lemma distance_sym a b : distance a b = distance b a.
Proof.
  unfold WebPaths.distance. rewrite <- (hypot_neg (b -p a)). f_equal.
  destruct a, b. unfold Pt.sub, Pt.neg. cbn. f_equal; lia.
Qed.

Lemma distance_triangle a b c : wle (distance a c) (wadd (distance a b) (distance b c)).
Proof.
  unfold WebPaths.distance.
  replace (a -p c) with ((a -p b) +p (b -p c)); [apply hypot_triangle|].
  destruct a, b, c. unfold Pt.sub, Pt.add. cbn. f_equal; lia.
Qed.

Variable rings : Web.Polygon.
Variables from target : Point.

(** The waypoints as [_calculateDistances] leaves them. *)
Variable wps0 : list Waypoint.
Hypothesis wps0_frame : forall i w, nth_error wps0 i = Some w ->
  WebPaths.targetDistance w = distance target (WebPaths.point w)
  /\ WebPaths.visible w = negb (Web.intersects rings target (WebPaths.point w)).

(** *** The graph of the query *)

Definition Web_point_at (i : nat) : Point :=
  match nth_error wps0 i with
  | Some w => WebPaths.point w
  | None => origin
  end.

(** The graph that [find] searches: the sightlines are those that
    [_findSightlines] computes. *)
Definition Web_graph : Graph := {|
  g_count := length wps0;
  g_heur := fun i => distance target (Web_point_at i);
  g_start := fun i => distance from (Web_point_at i);
  g_sees_target := fun i => negb (Web.intersects rings target (Web_point_at i));
  g_sees_start := fun i => negb (Web.intersects rings from (Web_point_at i));
  g_sight := fun i => map (fun line => (WebPaths.link line, WebPaths.sdistance line))
                          (WebPaths.findSightlines hypot rings wps0 i);
  g_weight := fun i j => distance (Web_point_at j) (Web_point_at i)
|}.

Local Abbreviation count := (length wps0).
Local Abbreviation pt := Web_point_at.
Local Abbreviation lines_at := (WebPaths.findSightlines hypot rings wps0).

Lemma lines_spec i line :
  In line (lines_at i) ->
  (i < count)%nat /\ (WebPaths.link line < count)%nat /\ WebPaths.link line <> i
  /\ WebPaths.sdistance line = distance (pt (WebPaths.link line)) (pt i)
  /\ Web.intersects rings (pt i) (pt (WebPaths.link line)) = false.
Proof.
  unfold WebPaths.findSightlines, Web_point_at.
  destruct (nth_error wps0 i) as [here|] eqn:Eh; [|intros []].
  intros H. apply in_flat_map in H. destruct H as (j & Hj & H).
  apply in_seq in Hj.
  destruct (j =? i)%nat eqn:E; [destruct H|]. apply Nat.eqb_neq in E.
  destruct (nth_error wps0 j) as [other|] eqn:Eo; [|destruct H].
  destruct (negb (Web.intersects rings (WebPaths.point here) (WebPaths.point other))) eqn:Ei;
    [|destruct H].
  destruct H as [<-|[]]. cbn [WebPaths.link WebPaths.sdistance]. rewrite Eo.
  apply negb_true_iff in Ei.
  repeat split; auto; try lia. apply nth_error_Some. congruence.
Qed.

Lemma Web_sight_in i j d :
  In (j, d) (g_sight Web_graph i) <->
  exists line, In line (lines_at i) /\ WebPaths.link line = j /\ WebPaths.sdistance line = d.
Proof.
  cbn [g_sight Web_graph]. rewrite in_map_iff. split.
  - intros (line & E & Hl). injection E as <- <-. exists line. auto.
  - intros (line & Hl & <- & <-). exists line. auto.
Qed.

(** Two distinct waypoints with nothing between them are in sight. *)
Lemma Web_sight_edge i j :
  (i < count)%nat -> (j < count)%nat -> j <> i ->
  Web.intersects rings (pt i) (pt j) = false ->
  In (j, distance (pt j) (pt i)) (g_sight Web_graph i).
Proof.
  intros Hi Hj Hne Hvis. apply Web_sight_in.
  exists (WebPaths.mkSightline j (distance (pt j) (pt i))).
  split; [|split; reflexivity].
  unfold WebPaths.findSightlines, Web_point_at in *.
  destruct (nth_error wps0 i) as [here|] eqn:Eh.
  2:{ apply nth_error_None in Eh. lia. }
  apply in_flat_map. exists j. split; [apply in_seq; lia|].
  destruct (j =? i)%nat eqn:E; [apply Nat.eqb_eq in E; contradiction|].
  destruct (nth_error wps0 j) as [other|] eqn:Eo.
  2:{ apply nth_error_None in Eo. lia. }
  rewrite Hvis. left. reflexivity.
Qed.

(** The sightlines join distinct waypoints, and the straight-line heuristic
    is consistent. *)
Lemma Web_graph_ok : GraphOk Web_graph.
Proof.
  constructor.
  - intros i j d H. apply Web_sight_in in H. destruct H as (line & Hl & <- & <-).
    destruct (lines_spec i line Hl) as (H1 & H2 & H3 & H4 & _).
    cbn [g_count g_weight Web_graph]. auto.
  - intros i j d H. apply Web_sight_in in H. destruct H as (line & Hl & <- & <-).
    destruct (lines_spec i line Hl) as (_ & _ & _ & -> & _).
    cbn [g_heur Web_graph].
    rewrite (distance_sym (pt (WebPaths.link line)) (pt i)), (distance_sym target (pt i)),
      (distance_sym target (pt (WebPaths.link line))).
    apply distance_triangle.
Qed.

Lemma Web_sight_length i : (length (g_sight Web_graph i) <= count)%nat.
Proof.
  cbn [g_sight Web_graph]. rewrite length_map. unfold WebPaths.findSightlines.
  destruct (nth_error wps0 i) as [here|]; [|cbn; lia].
  apply Nat.le_trans with (m := length (seq 0 (length wps0))); [|rewrite length_seq; lia].
  assert (G : forall (f : nat -> list WebPaths.Sightline) (l : list nat),
            (forall a, length (f a) <= 1)%nat -> (length (flat_map f l) <= length l)%nat).
  { intros f l Hf. induction l as [|a l IH]; [cbn; lia|].
    cbn [flat_map]. rewrite length_app. cbn [length]. specialize (Hf a). lia. }
  apply G. intros a.
  destruct (a =? i)%nat; [cbn; lia|].
  destruct (nth_error wps0 a); [|cbn; lia].
  destruct (negb _); cbn; lia.
Qed.

(** *** The state of the loop, seen from the graph *)

(** The waypoint that a waypoint was reached from, [-1] for none. *)
Definition Web_backtrack_at (wps : list Waypoint) (j : nat) : Z :=
  match nth_error wps j with
  | Some w => WebPaths.backtrack w
  | None => (-1)%Z
  end.

Definition Web_entry (e : Node) : entry := (WebPaths.nlength e, WebPaths.index e).

Local Abbreviation sh := Web_shortest_at.
Local Abbreviation bk := Web_backtrack_at.

(** The invariant of the loop: the fields that a query does not change
    have the values that [_calculateDistances] gave them, the cache is
    valid, the queue is a heap, and the graph view satisfies the invariant
    of the search. *)
Record Web_inv (C : nat -> option W) (wps : list Waypoint) (queue : list Node)
    (bd : ext) (best : option Node) : Prop := {
  wi_frame : map Web_frame wps = map Web_frame wps0;
  wi_cache : cache_valid hypot rings wps;
  wi_heap : heap queue;
  wi_search : SearchInv Web_graph C (sh wps) (bk wps) (map Web_entry queue) bd
                (option_map Web_entry best)
}.

Lemma frame_of (wps : list Waypoint) (i : nat) (w : Waypoint) :
  map Web_frame wps = map Web_frame wps0 -> nth_error wps i = Some w ->
  (i < count)%nat /\ WebPaths.point w = pt i
  /\ WebPaths.targetDistance w = g_heur Web_graph i
  /\ WebPaths.visible w = g_sees_target Web_graph i.
Proof.
  intros Hf Hw. pose proof (Web_frame_nth wps wps0 i Hf) as Hn. rewrite Hw in Hn.
  cbn [g_heur g_sees_target Web_graph]. unfold Web_point_at.
  destruct (nth_error wps0 i) as [w0|] eqn:E0; [|discriminate Hn].
  injection Hn as Hp Ht Hv. destruct (wps0_frame i w0 E0) as [F1 F2].
  split; [apply nth_error_Some; congruence|].
  rewrite Hp, Ht, Hv. auto.
Qed.

Lemma frame_length (wps : list Waypoint) :
  map Web_frame wps = map Web_frame wps0 -> length wps = count.
Proof.
  intros H. rewrite <- (length_map Web_frame wps), H. apply length_map.
Qed.

Lemma frame_points (a b : list Waypoint) :
  map Web_frame a = map Web_frame b ->
  map (@WebPaths.point Wt) a = map (@WebPaths.point Wt) b.
Proof.
  intros H.
  assert (E : map fst (map fst (map Web_frame a)) = map fst (map fst (map Web_frame b)))
    by (rewrite H; reflexivity).
  rewrite !map_map in E. exact E.
Qed.

Lemma lines_of_frame (wps : list Waypoint) (i : nat) :
  map Web_frame wps = map Web_frame wps0 ->
  WebPaths.findSightlines hypot rings wps i = lines_at i.
Proof.
  intros H. apply findSightlines_points. apply frame_points. exact H.
Qed.

(** Caching the sightlines of a waypoint changes no other field. *)
Lemma cached_frame (wps : list Waypoint) (i : nat) (w : Waypoint) :
  nth_error wps i = Some w -> map Web_frame (cached hypot rings wps i w) = map Web_frame wps.
Proof.
  intros Hw. unfold cached. apply map_array_set. rewrite nth_error_map, Hw. reflexivity.
Qed.

Lemma cached_nth (wps : list Waypoint) (i : nat) (w : Waypoint) (j : nat) :
  nth_error wps i = Some w ->
  option_map (fun x => (WebPaths.shortest x, WebPaths.backtrack x))
    (nth_error (cached hypot rings wps i w) j)
  = option_map (fun x => (WebPaths.shortest x, WebPaths.backtrack x)) (nth_error wps j).
Proof.
  intros Hw. rewrite <- !nth_error_map. f_equal. unfold cached.
  apply map_array_set. rewrite nth_error_map, Hw. reflexivity.
Qed.

Lemma sh_cached (wps : list Waypoint) (i : nat) (w : Waypoint) (j : nat) :
  nth_error wps i = Some w -> sh (cached hypot rings wps i w) j = sh wps j.
Proof.
  intros Hw. pose proof (cached_nth wps i w j Hw) as H. unfold Web_shortest_at.
  destruct (nth_error (cached hypot rings wps i w) j), (nth_error wps j);
    try discriminate H; [|reflexivity].
  cbn in H. congruence.
Qed.

Lemma bk_cached (wps : list Waypoint) (i : nat) (w : Waypoint) (j : nat) :
  nth_error wps i = Some w -> bk (cached hypot rings wps i w) j = bk wps j.
Proof.
  intros Hw. pose proof (cached_nth wps i w j Hw) as H. unfold Web_backtrack_at.
  destruct (nth_error (cached hypot rings wps i w) j), (nth_error wps j);
    try discriminate H; [|reflexivity].
  cbn in H. congruence.
Qed.

Lemma pop_facts (queue rest : list Node) (node : Node) :
  heap queue -> Heap.pop WebPaths.node_sort queue = Some (node, rest) ->
  heap rest /\ Permutation (map Web_entry queue) (Web_entry node :: map Web_entry rest)
  /\ forall e, In e (map Web_entry queue) -> wle (fst (Web_entry node)) (fst e).
Proof.
  intros Hh Hp.
  destruct (pop_spec WebPaths.node_sort node_sort_asym node_sort_trans queue rest node Hh Hp)
    as (H1 & H2 & H3).
  split; [exact H1|]. split; [apply (Permutation_map Web_entry H2)|].
  intros e He. apply in_map_iff in He. destruct He as (x & <- & Hx).
  apply node_sort_hle. apply H3. exact Hx.
Qed.

(** What [relax] does to the waypoints with the sightlines of [i] cached,
    seen from the graph. *)
Lemma relax_relaxed g i (wps wps' : list Waypoint) (w : Waypoint) (rest queue' : list Node) :
  map Web_frame wps = map Web_frame wps0 -> nth_error wps i = Some w ->
  relax_result (lines_at i) g i (cached hypot rings wps i w) rest wps' queue' ->
  Relaxed Web_graph g i (sh wps) (bk wps) (map Web_entry rest)
          (sh wps') (bk wps') (map Web_entry queue').
Proof.
  intros Hframe Hw [Rheap Rframe Rsight Rdec Rrel Rupd Rkept Rnew Rsize Ridle].
  set (wc := cached hypot rings wps i w) in *.
  assert (Hfc : map Web_frame wc = map Web_frame wps0).
  { unfold wc. rewrite cached_frame by exact Hw. exact Hframe. }
  assert (Hframe' : map Web_frame wps' = map Web_frame wps0) by (rewrite Rframe; exact Hfc).
  assert (Hshc : forall j, sh wc j = sh wps j) by (intros j; apply sh_cached; exact Hw).
  assert (Hbkc : forall j, bk wc j = bk wps j) by (intros j; apply bk_cached; exact Hw).
  constructor.
  - intros j. rewrite <- Hshc. apply Rdec.
  - intros j d Hl. apply Web_sight_in in Hl. destruct Hl as (line & Hl & <- & <-).
    apply Rrel. exact Hl.
  - intros j. destruct (Rupd j) as [H|(line & w' & Hl & Hlink & Hw' & Hs' & Hb' & Hin & Hup)].
    + left. rewrite <- Hshc, <- Hbkc. unfold Web_shortest_at, Web_backtrack_at.
      rewrite H. split; reflexivity.
    + right. exists (WebPaths.sdistance line).
      split; [apply Web_sight_in; exists line; auto|].
      unfold Web_shortest_at at 1, Web_backtrack_at at 1. rewrite Hw'.
      split; [exact Hs'|]. split; [exact Hb'|].
      split; [|rewrite <- Hshc; exact Hup].
      destruct (frame_of wps' j w' Hframe' Hw') as (_ & _ & Ht & _).
      rewrite <- Ht. apply in_map_iff. eexists. split; [|exact Hin]. reflexivity.
  - intros e He. apply in_map_iff in He. destruct He as (x & <- & Hx).
    apply in_map. apply Rkept. exact Hx.
  - intros e He. apply in_map_iff in He. destruct He as (x & <- & Hx).
    destruct (Rnew x Hx) as [Hold|(line & wl & Hl & Hwl & -> & _)].
    + left. apply in_map. exact Hold.
    + right. exists (WebPaths.link line), (WebPaths.sdistance line).
      split; [apply Web_sight_in; exists line; auto|].
      destruct (frame_of wc _ wl Hfc Hwl) as (_ & _ & Ht & _).
      unfold Web_entry. cbn [WebPaths.nlength WebPaths.index]. rewrite Ht. reflexivity.
  - cbn [g_sight Web_graph]. rewrite !length_map. exact Rsize.
  - intros Hidle. rewrite !length_map.
    destruct Ridle as [_ ->]; [|lia].
    intros line Hl. rewrite Hshc.
    apply (Hidle (WebPaths.link line) (WebPaths.sdistance line)).
    apply Web_sight_in. exists line. auto.
Qed.

(** *** The loop *)

(** The search raises no error, runs out of fuel only when it was given no
    more than the number of entries it can still take off the queue, and
    ends in a state that satisfies the invariant with nothing left to do. *)
Lemma Web_search_run fuel :
  forall C (wps : list Waypoint) queue bd best,
    Web_inv C wps queue bd best ->
    match WebPaths.search hypot fuel rings wps queue bd best with
    | Returned (wps', best') =>
        exists C' queue' bd',
          Web_inv C' wps' queue' bd' best' /\ SearchDone (map Web_entry queue') bd'
    | TypeError => False
    | OutOfFuel => (fuel <= length queue + open_sum Web_graph C)%nat
    end.
Proof.
  induction fuel as [|fuel IH]; intros C wps queue bd best HI; [cbn; lia|].
  rewrite search_unfold.
  destruct HI as [Hframe Hcache Hheap HS].
  destruct (Heap.pop WebPaths.node_sort queue) as [[node rest]|] eqn:Hpop.
  2:{ apply pop_none in Hpop. subst queue. exists C, [], bd.
      split; [constructor; assumption|]. intros e []. }
  destruct (pop_facts queue rest node Hheap Hpop) as (Hheap' & Hperm & Hmin).
  assert (Hnode : In (Web_entry node) (map Web_entry queue)).
  { apply (Permutation_in _ (Permutation_sym Hperm)). left. reflexivity. }
  destruct (ge_ext (WebPaths.nlength node) bd) eqn:Hge.
  { exists C, queue, bd. split; [constructor; assumption|]. intros e He.
    apply ext_le_trans with (b := Fin (WebPaths.nlength node)).
    - apply ge_ext_true. exact Hge.
    - cbn. apply (Hmin e He). }
  destruct (inv_entry _ _ _ _ _ _ _ HS _ Hnode) as (Hi & g & Hg & _).
  cbn [Web_entry fst snd] in Hi, Hg.
  destruct (nth_error wps (WebPaths.index node)) as [w|] eqn:Hw.
  2:{ apply nth_error_None in Hw. rewrite (frame_length wps Hframe) in Hw.
      cbn [g_count Web_graph] in Hi. lia. }
  destruct (frame_of wps _ w Hframe Hw) as (_ & _ & Htd & Hvis).
  pose proof (Permutation_length Hperm) as Hlen. cbn [length] in Hlen.
  rewrite !length_map in Hlen.
  destruct (WebPaths.visible w) eqn:Hv.
  - destruct (step_goal Web_graph Web_graph_ok C _ _ _ bd _ (Web_entry node) _
                HS Hperm Hmin Hge (eq_sym Hvis)) as (C' & HS' & Hphi).
    rewrite !length_map in Hphi.
    assert (HI' : Web_inv C' wps rest (Fin (WebPaths.nlength node)) (Some node))
      by (constructor; assumption).
    specialize (IH C' wps rest (Fin (WebPaths.nlength node)) (Some node) HI').
    destruct (WebPaths.search hypot fuel rings wps rest (Fin (WebPaths.nlength node))
                (Some node)) as [[wps' best']| |]; [exact IH|exact IH|lia].
  - rewrite Htd, Hg, wsub_add.
    rewrite (lines_of_valid hypot rings wps _ w Hcache Hw).
    rewrite (lines_of_frame wps _ Hframe).
    set (i := WebPaths.index node) in *.
    destruct (relax_spec g i (lines_at i) (cached hypot rings wps i w) rest Hheap')
      as (wps1 & queue1 & Hr & R).
    { intros line Hl.
      rewrite (frame_length (cached hypot rings wps i w))
        by (rewrite cached_frame by exact Hw; exact Hframe).
      destruct (lines_spec i line Hl) as (_ & H & _). exact H. }
    rewrite Hr.
    pose proof (relax_relaxed g i wps wps1 w rest queue1 Hframe Hw R) as HR.
    destruct (step_expand Web_graph Web_graph_ok C _ _ _ bd _ (Web_entry node) _ g _ _ _
                HS Hperm Hmin (eq_sym Hvis) Hg HR) as (C' & HS' & Hphi).
    rewrite !length_map in Hphi.
    assert (HI' : Web_inv C' wps1 queue1 bd best).
    { destruct R as [Rheap Rframe Rsight _ _ _ _ _ _ _]. constructor.
      - rewrite Rframe. rewrite cached_frame by exact Hw. exact Hframe.
      - apply (cache_valid_ext hypot rings (cached hypot rings wps i w)).
        + symmetry. apply frame_points. exact Rframe.
        + symmetry. exact Rsight.
        + apply cached_valid; assumption.
      - exact Rheap.
      - exact HS'. }
    specialize (IH C' wps1 queue1 bd best HI').
    destruct (WebPaths.search hypot fuel rings wps1 queue1 bd best)
      as [[wps' best']| |]; [exact IH|exact IH|lia].
Qed.

(** *** The waypoints in sight of the start *)

Definition Web_seeded (m : nat) (wps : list Waypoint) (queue : list Node) : Prop :=
  map Web_frame wps = map Web_frame wps0
  /\ map (@WebPaths.sightlines Wt) wps = map (@WebPaths.sightlines Wt) wps0
  /\ heap queue
  /\ (length queue <= m)%nat
  /\ (forall j, sh wps j = Infinity
                \/ (sh wps j = Fin (g_start Web_graph j) /\ bk wps j = (-1)%Z
                    /\ g_sees_start Web_graph j = true
                    /\ In (wadd (g_start Web_graph j) (g_heur Web_graph j), j)
                          (map Web_entry queue)))
  /\ (forall j, (j < m)%nat -> g_sees_start Web_graph j = true ->
                sh wps j = Fin (g_start Web_graph j))
  /\ (forall e, In e (map Web_entry queue) ->
        (snd e < m)%nat /\ g_sees_start Web_graph (snd e) = true
        /\ fst e = wadd (g_start Web_graph (snd e)) (g_heur Web_graph (snd e))).

Lemma bk_array_set (wps : list Waypoint) (i j : nat) (w : Waypoint) :
  (i < length wps)%nat ->
  bk (array_set wps i w) j = if (j =? i)%nat then WebPaths.backtrack w else bk wps j.
Proof.
  intros Hi. unfold Web_backtrack_at. rewrite nth_error_array_set by exact Hi.
  destruct (j =? i)%nat; reflexivity.
Qed.

Lemma seed_step_inv m (wps : list Waypoint) queue :
  (m < count)%nat -> Web_seeded m wps queue ->
  Web_seeded (S m) (fst (WebPaths.seed_step hypot rings from (wps, queue) m))
                   (snd (WebPaths.seed_step hypot rings from (wps, queue) m)).
Proof.
  intros Hm (Hframe & Hsight & Hheap & Hlen & Hsh & Hdone & Hq).
  unfold WebPaths.seed_step.
  assert (Hlt : (m < length wps)%nat) by (rewrite (frame_length wps Hframe); exact Hm).
  destruct (nth_error wps m) as [it|] eqn:Hit.
  2:{ apply nth_error_None in Hit. lia. }
  destruct (frame_of wps m it Hframe Hit) as (_ & Hp & Ht & _).
  rewrite Hp, Ht.
  change (negb (Web.intersects rings from (pt m))) with (g_sees_start Web_graph m).
  change (distance from (pt m)) with (g_start Web_graph m).
  destruct (g_sees_start Web_graph m) eqn:Hs; cbn [fst snd].
  - set (d := g_start Web_graph m).
    set (e0 := WebPaths.mkNode (wadd d (g_heur Web_graph m)) m None).
    destruct (heap_insert queue e0 Hheap) as [Hheap' Hperm].
    pose proof (Permutation_map Web_entry Hperm) as Hperm'. cbn [map] in Hperm'.
    split.
    { rewrite <- Hframe. apply map_array_set. rewrite nth_error_map, Hit.
      cbn. unfold Web_frame. cbn. rewrite Hp, Ht. reflexivity. }
    split.
    { rewrite <- Hsight. apply map_array_set. rewrite nth_error_map, Hit. reflexivity. }
    split; [exact Hheap'|].
    split. { rewrite (Permutation_length Hperm). cbn [length]. lia. }
    split.
    { intros j. rewrite Web_shortest_at_set, bk_array_set by exact Hlt.
      destruct (j =? m)%nat eqn:E.
      - apply Nat.eqb_eq in E. subst j. right. cbn [WebPaths.shortest WebPaths.backtrack].
        repeat split; try assumption; try reflexivity.
        apply (Permutation_in _ (Permutation_sym Hperm')). left. reflexivity.
      - destruct (Hsh j) as [H|(H1 & H2 & H3 & H4)]; [left; exact H|].
        right. repeat split; try assumption.
        apply (Permutation_in _ (Permutation_sym Hperm')). right. exact H4. }
    split.
    { intros j Hj Hsj. rewrite Web_shortest_at_set by exact Hlt.
      destruct (j =? m)%nat eqn:E.
      - apply Nat.eqb_eq in E. subst j. reflexivity.
      - apply Nat.eqb_neq in E. apply Hdone; [lia|exact Hsj]. }
    intros e He. apply (Permutation_in _ Hperm') in He. destruct He as [<-|He].
    + cbn. repeat split; [lia|exact Hs].
    + destruct (Hq e He) as (H1 & H2 & H3). repeat split; [lia|exact H2|exact H3].
  - split; [exact Hframe|]. split; [exact Hsight|]. split; [exact Hheap|].
    split; [lia|]. split; [exact Hsh|]. split.
    { intros j Hj Hsj. destruct (Nat.eq_dec j m) as [->|Hne]; [congruence|].
      apply Hdone; [lia|exact Hsj]. }
    intros e He. destruct (Hq e He) as (H1 & H2 & H3). repeat split; [lia|exact H2|exact H3].
Qed.

Lemma seed_fold_inv m :
  (forall i w, nth_error wps0 i = Some w -> WebPaths.shortest w = Infinity) ->
  (m <= count)%nat ->
  Web_seeded m (fst (fold_left (WebPaths.seed_step hypot rings from) (seq 0 m) (wps0, [])))
               (snd (fold_left (WebPaths.seed_step hypot rings from) (seq 0 m) (wps0, []))).
Proof.
  intros Hfresh. induction m as [|m IH]; intros Hm.
  - cbn. split; [reflexivity|]. split; [reflexivity|]. split; [apply heap_ok_nil|].
    split; [cbn; lia|]. split.
    { intros j. left. unfold Web_shortest_at.
      destruct (nth_error wps0 j) as [w|] eqn:E; [|reflexivity].
      apply (Hfresh j w E). }
    split; [intros j Hj; lia|]. intros e [].
  - rewrite seq_S, fold_left_app. cbn [fold_left Nat.add].
    specialize (IH ltac:(lia)).
    destruct (fold_left (WebPaths.seed_step hypot rings from) (seq 0 m) (wps0, []))
      as [wps queue].
    cbn [fst snd] in IH. apply seed_step_inv; [lia|exact IH].
Qed.

Lemma Web_seeded_inv (wps : list Waypoint) queue :
  cache_valid hypot rings wps0 -> Web_seeded count wps queue ->
  Web_inv (fun _ => None) wps queue Infinity None.
Proof.
  intros Hv (Hframe & Hsight & Hheap & Hlen & Hsh & Hdone & Hq).
  constructor.
  - exact Hframe.
  - apply (cache_valid_ext hypot rings wps0); [| |exact Hv].
    + symmetry. apply frame_points. exact Hframe.
    + symmetry. exact Hsight.
  - exact Hheap.
  - apply seeded_inv; assumption.
Qed.

(** *** The path that is returned *)

Lemma backtrack_neg fuel (wps : list Waypoint) :
  WebPaths.backtrack_path fuel wps (-1) = Returned [].
Proof. destruct fuel; reflexivity. Qed.

Lemma backtrack_route (wps : list Waypoint) k l len :
  map Web_frame wps = map Web_frame wps0 -> Route Web_graph (bk wps) k l len ->
  forall fuel, (length l <= fuel)%nat ->
    WebPaths.backtrack_path fuel wps (Z.of_nat k) = Returned (map pt l).
Proof.
  intros Hframe.
  induction 1 as [k Hk Hb Hs|k m d l len Hk Hb Hl Hr IH]; intros fuel Hfuel.
  - destruct fuel as [|fuel]; [cbn in Hfuel; lia|].
    cbn [WebPaths.backtrack_path].
    destruct (Z.of_nat k <? 0)%Z eqn:E; [apply Z.ltb_lt in E; lia|].
    rewrite Nat2Z.id. unfold Web_backtrack_at in Hb.
    destruct (nth_error wps k) as [w|] eqn:Hw.
    2:{ apply nth_error_None in Hw. rewrite (frame_length wps Hframe) in Hw.
        cbn [g_count Web_graph] in Hk. lia. }
    rewrite Hb, backtrack_neg.
    destruct (frame_of wps k w Hframe Hw) as (_ & Hp & _). rewrite Hp. reflexivity.
  - destruct fuel as [|fuel]; [cbn in Hfuel; lia|].
    cbn [WebPaths.backtrack_path].
    destruct (Z.of_nat k <? 0)%Z eqn:E; [apply Z.ltb_lt in E; lia|].
    rewrite Nat2Z.id. unfold Web_backtrack_at in Hb.
    destruct (nth_error wps k) as [w|] eqn:Hw.
    2:{ apply nth_error_None in Hw. rewrite (frame_length wps Hframe) in Hw.
        cbn [g_count Web_graph] in Hk. lia. }
    rewrite Hb, IH by (cbn in Hfuel; lia).
    destruct (frame_of wps k w Hframe Hw) as (_ & Hp & _). rewrite Hp. reflexivity.
Qed.

(** The length of a path of the graph is the length of the path through
    its points. *)
Lemma Web_graph_length l :
  l <> [] ->
  path_length distance (from :: map pt l ++ [target]) = graph_length Web_graph l.
Proof.
  apply graph_path_length; intros; cbn [g_heur g_start g_weight Web_graph];
    [apply distance_sym|reflexivity|apply distance_sym].
Qed.

(** The outcome of the search and of the backtracking that follows it. *)
Definition Web_search_result (fuel : nat) (wps : list Waypoint) (queue : list Node)
    : outcome (list Point) :=
  match WebPaths.search hypot fuel rings wps queue Infinity None with
  | Returned (wps', best) =>
      match best with
      | None => Returned []
      | Some b =>
          match WebPaths.backtrack_path (S (length wps')) wps'
                  (Z.of_nat (WebPaths.index b)) with
          | Returned path => Returned (target :: path)
          | TypeError => TypeError
          | OutOfFuel => OutOfFuel
          end
      end
  | TypeError => TypeError
  | OutOfFuel => OutOfFuel
  end.

Lemma Web_search_result_spec fuel (wps : list Waypoint) queue :
  Web_inv (fun _ => None) wps queue Infinity None ->
  match Web_search_result fuel wps queue with
  | Returned path =>
      (path = [] /\ forall l, ~ GraphPath Web_graph l)
      \/ (exists p, GraphPath Web_graph p
          /\ path = rev (map pt p ++ [target])
          /\ forall l, GraphPath Web_graph l ->
               wle (graph_length Web_graph p) (graph_length Web_graph l))
  | TypeError => False
  | OutOfFuel => (fuel <= length queue + count * count)%nat
  end.
Proof.
  intros HI. unfold Web_search_result.
  pose proof (Web_search_run fuel _ wps queue Infinity None HI) as Hrun.
  destruct (WebPaths.search hypot fuel rings wps queue Infinity None)
    as [[wps' best]| |]; [|exact Hrun|].
  2:{ pose proof (open_sum_le Web_graph (fun _ => None) count Web_sight_length) as Hle.
      cbn [g_count Web_graph] in Hle. lia. }
  destruct Hrun as (C' & queue' & bd' & [Hframe _ _ HS] & HF).
  destruct best as [b|]; cbn [option_map] in HS.
  - destruct (final_some Web_graph Web_graph_ok C' _ _ _ bd' _ HS HF)
      as (l & len & Hr & Hlen & Hp & Hopt).
    cbn [Web_entry snd] in Hr.
    rewrite (backtrack_route wps' _ l len Hframe Hr).
    2:{ rewrite (frame_length wps' Hframe). cbn [g_count Web_graph] in Hlen. lia. }
    right. exists (rev l). split; [exact Hp|]. split; [|exact Hopt].
    rewrite rev_app_distr, map_rev, rev_involutive. reflexivity.
  - left. split; [reflexivity|].
    apply (final_none Web_graph Web_graph_ok C' _ _ _ bd' HS HF).
Qed.

End WebSearch.

(** ** The desktop port: the priority queue *)

Section DesktopQueue.

Context {Wt : Weight} {laws : WeightLaws Wt}.

Local Abbreviation Node := (@DesktopPaths.Node Wt).

(** The order of the queue: the shortest length is on top. *)
Definition node_le (a b : Node) : Prop :=
  wle (DesktopPaths.nlength a) (DesktopPaths.nlength b).

Definition queue_ok (queue : list Node) : Prop := StronglySorted node_le queue.

Lemma emplace_perm (queue : list Node) (n : Node) :
  Permutation (DesktopPaths.emplace queue n) (n :: queue).
Proof.
  induction queue as [|h t IH]; cbn [DesktopPaths.emplace]; [reflexivity|].
  destruct (wltb _ _); [reflexivity|].
  transitivity (h :: n :: t); [apply perm_skip; exact IH|apply perm_swap].
Qed.

Lemma emplace_ok (queue : list Node) (n : Node) :
  queue_ok queue -> queue_ok (DesktopPaths.emplace queue n).
Proof.
  unfold queue_ok. induction 1 as [|h t Ht IH Hh]; cbn [DesktopPaths.emplace].
  - constructor; constructor.
  - destruct (wltb (DesktopPaths.nlength n) (DesktopPaths.nlength h)) eqn:E.
    + rewrite wltb_spec, negb_true_iff in E. apply wleb_false in E.
      constructor; [constructor; assumption|].
      constructor; [exact E|].
      rewrite Forall_forall in *. intros x Hx. unfold node_le in *.
      apply wle_trans with (b := DesktopPaths.nlength h); [exact E|apply Hh; exact Hx].
    + rewrite wltb_spec, negb_false_iff in E.
      constructor; [exact IH|].
      rewrite Forall_forall in *. intros x Hx.
      apply (Permutation_in _ (emplace_perm t n)) in Hx.
      destruct Hx as [<-|Hx]; [exact E|apply Hh; exact Hx].
Qed.

Lemma queue_top (node : Node) (rest : list Node) :
  queue_ok (node :: rest) ->
  queue_ok rest /\ forall e, In e (node :: rest) -> node_le node e.
Proof.
  intros H. inversion H as [|a l Hl Ha]; subst. split; [exact Hl|].
  intros e [<-|He]; [apply wle_refl|].
  rewrite Forall_forall in Ha. apply Ha. exact He.
Qed.

(** The test [queue.top().length < bestDistance], negated. *)
Lemma lt_ext_ge (a : W) (b : ext) : negb (lt_ext a b) = ge_ext a b.
Proof.
  destruct b as [b|]; cbn; [|reflexivity]. rewrite wltb_spec, negb_involutive. reflexivity.
Qed.

End DesktopQueue.

(** ** The desktop port: the relaxation loop *)

Section DesktopRelax.

Context {Wt : Weight} {laws : WeightLaws Wt}.

Local Abbreviation Waypoint := (@DesktopPaths.Waypoint Wt).
Local Abbreviation Node := (@DesktopPaths.Node Wt).

(** The best known length to waypoint [j]. *)
Definition Desktop_shortest_at (wps : list Waypoint) (j : nat) : ext :=
  match nth_error wps j with
  | Some w => DesktopPaths.shortest w
  | None => Infinity
  end.

(** The waypoint that a waypoint was reached from, [-1] for none. *)
Definition Desktop_backtrack_at (wps : list Waypoint) (j : nat) : Z :=
  match nth_error wps j with
  | Some w => DesktopPaths.backtrack w
  | None => (-1)%Z
  end.

(** The fields of a waypoint that the search does not change. *)
Definition Desktop_frame (w : Waypoint) : Point * list (nat * W) * W * bool :=
  (DesktopPaths.point w, DesktopPaths.sightlines w, DesktopPaths.distance w,
   DesktopPaths.visible w).

Local Abbreviation sh := Desktop_shortest_at.
Local Abbreviation bk := Desktop_backtrack_at.

Lemma Desktop_frame_nth (a b : list Waypoint) (j : nat) :
  map Desktop_frame a = map Desktop_frame b ->
  option_map Desktop_frame (nth_error a j) = option_map Desktop_frame (nth_error b j).
Proof. intros H. rewrite <- !nth_error_map, H. reflexivity. Qed.

Lemma Desktop_shortest_at_set (wps : list Waypoint) (i j : nat) (w : Waypoint) :
  (i < length wps)%nat ->
  sh (array_set wps i w) j = if (j =? i)%nat then DesktopPaths.shortest w else sh wps j.
Proof.
  intros Hi. unfold Desktop_shortest_at. rewrite nth_error_array_set by exact Hi.
  destruct (j =? i)%nat; reflexivity.
Qed.

Lemma Desktop_backtrack_at_set (wps : list Waypoint) (i j : nat) (w : Waypoint) :
  (i < length wps)%nat ->
  bk (array_set wps i w) j = if (j =? i)%nat then DesktopPaths.backtrack w else bk wps j.
Proof.
  intros Hi. unfold Desktop_backtrack_at. rewrite nth_error_array_set by exact Hi.
  destruct (j =? i)%nat; reflexivity.
Qed.

Record Desktop_relax_result (lines : list (nat * W)) (g : W) (i : Z)
    (wps : list Waypoint) (queue : list Node)
    (wps' : list Waypoint) (queue' : list Node) : Prop := {
  dr_queue : queue_ok queue';
  dr_frame : map Desktop_frame wps' = map Desktop_frame wps;
  dr_decrease : forall j, ext_le (sh wps' j) (sh wps j);
  dr_relaxed : forall line, In line lines ->
      ext_le (sh wps' (fst line)) (Fin (wadd g (snd line)));
  dr_updated : forall j,
      nth_error wps' j = nth_error wps j
      \/ exists line w',
           In line lines /\ fst line = j
           /\ nth_error wps' j = Some w'
           /\ DesktopPaths.shortest w' = Fin (wadd g (snd line))
           /\ DesktopPaths.backtrack w' = i
           /\ In (DesktopPaths.mkNode
                    (wadd (wadd g (snd line)) (DesktopPaths.distance w'))
                    (Z.of_nat j) i) queue'
           /\ ge_ext (wadd g (snd line)) (sh wps j) = false;
  dr_kept : forall e, In e queue -> In e queue';
  dr_new : forall e, In e queue' ->
      In e queue
      \/ exists line w,
           In line lines /\ nth_error wps (fst line) = Some w
           /\ e = DesktopPaths.mkNode
                    (wadd (wadd g (snd line)) (DesktopPaths.distance w))
                    (Z.of_nat (fst line)) i;
  dr_size : (length queue' <= length queue + length lines)%nat;
  dr_idle : (forall line, In line lines ->
               ge_ext (wadd g (snd line)) (sh wps (fst line)) = true) ->
            wps' = wps /\ queue' = queue
}.

Lemma Desktop_relax_spec (g : W) (i : Z) (lines : list (nat * W)) :
  forall (wps : list Waypoint) (queue : list Node),
    queue_ok queue ->
    (forall line, In line lines -> (fst line < length wps)%nat) ->
    exists wps' queue',
      DesktopPaths.relax lines g i wps queue = Some (wps', queue')
      /\ Desktop_relax_result lines g i wps queue wps' queue'.
Proof.
  induction lines as [|line rest IH]; intros wps queue Hq Hlinks.
  - exists wps, queue. split; [reflexivity|].
    constructor; auto; try (intros ? []); try (cbn; lia).
    + intros j. apply ext_le_refl.
  - cbn [DesktopPaths.relax].
    assert (Hlt : (fst line < length wps)%nat) by (apply Hlinks; left; reflexivity).
    destruct (nth_error wps (fst line)) as [next|] eqn:En.
    2:{ apply nth_error_None in En. lia. }
    set (d := wadd g (snd line)).
    destruct (ge_ext d (DesktopPaths.shortest next)) eqn:Ege.
    + destruct (IH wps queue Hq) as (wps' & queue' & Hr & R).
      { intros l Hl. apply Hlinks. right. exact Hl. }
      exists wps', queue'. split; [exact Hr|]. destruct R.
      constructor; auto.
      * intros l [<-|Hl]; [|auto].
        apply ext_le_trans with (b := sh wps (fst line)); [apply dr_decrease0|].
        unfold Desktop_shortest_at. rewrite En. apply ge_ext_true. exact Ege.
      * intros j. destruct (dr_updated0 j) as [H|(l & w' & Hl & H)]; [left; exact H|].
        right. exists l, w'. split; [right; exact Hl|exact H].
      * intros e He. destruct (dr_new0 e He) as [H|(l & w & Hl & H)]; [left; exact H|].
        right. exists l, w. split; [right; exact Hl|exact H].
      * cbn [length]. lia.
      * intros Hidle. apply dr_idle0. intros l Hl. apply Hidle. right. exact Hl.
    + set (next' := DesktopPaths.mkWaypoint (DesktopPaths.point next)
                      (DesktopPaths.sightlines next) (DesktopPaths.distance next)
                      (DesktopPaths.visible next) i (Fin d)).
      set (e0 := DesktopPaths.mkNode (wadd d (DesktopPaths.distance next))
                   (Z.of_nat (fst line)) i).
      pose proof (emplace_ok queue e0 Hq) as Hq1.
      pose proof (emplace_perm queue e0) as Hperm1.
      destruct (IH (array_set wps (fst line) next') (DesktopPaths.emplace queue e0) Hq1)
        as (wps' & queue' & Hr & R).
      { intros l Hl. rewrite array_set_length by exact Hlt. apply Hlinks. right. exact Hl. }
      exists wps', queue'. split; [exact Hr|]. destruct R.
      assert (Hsh1 : forall j, ext_le (sh (array_set wps (fst line) next') j) (sh wps j)).
      { intros j. rewrite Desktop_shortest_at_set by exact Hlt.
        destruct (j =? fst line)%nat eqn:E; [|apply ext_le_refl].
        apply Nat.eqb_eq in E. subst j. unfold Desktop_shortest_at. rewrite En.
        cbn [DesktopPaths.shortest next']. apply ge_ext_false. exact Ege. }
      constructor.
      * exact dr_queue0.
      * rewrite dr_frame0. apply map_array_set. rewrite nth_error_map, En. reflexivity.
      * intros j. apply ext_le_trans with (b := sh (array_set wps (fst line) next') j);
          [apply dr_decrease0|apply Hsh1].
      * intros l [<-|Hl]; [|auto].
        apply ext_le_trans with (b := sh (array_set wps (fst line) next') (fst line));
          [apply dr_decrease0|].
        rewrite Desktop_shortest_at_set, Nat.eqb_refl by exact Hlt. apply wle_refl.
      * intros j. destruct (dr_updated0 j) as [H|(l & w' & Hl & Hj & Hw' & Hs & Hb & Hin & Hg)].
        -- rewrite nth_error_array_set in H by exact Hlt.
           destruct (j =? fst line)%nat eqn:E; [|left; exact H].
           apply Nat.eqb_eq in E. subst j. right. exists line, next'.
           split; [left; reflexivity|]. split; [reflexivity|]. split; [exact H|].
           split; [reflexivity|]. split; [reflexivity|]. split.
           ++ apply dr_kept0. apply (Permutation_in _ (Permutation_sym Hperm1)).
              left. reflexivity.
           ++ unfold Desktop_shortest_at. rewrite En. exact Ege.
        -- right. exists l, w'. split; [right; exact Hl|].
           split; [exact Hj|]. split; [exact Hw'|]. split; [exact Hs|].
           split; [exact Hb|]. split; [exact Hin|].
           apply (ge_ext_false_mono _ _ _ Hg). apply Hsh1.
      * intros e He. apply dr_kept0. apply (Permutation_in _ (Permutation_sym Hperm1)).
        right. exact He.
      * intros e He. destruct (dr_new0 e He) as [H|(l & w & Hl & Hw & Hee)].
        -- apply (Permutation_in _ Hperm1) in H. destruct H as [<-|H]; [|left; exact H].
           right. exists line, next. split; [left; reflexivity|]. split; [exact En|].
           reflexivity.
        -- right. rewrite nth_error_array_set in Hw by exact Hlt.
           destruct (fst l =? fst line)%nat eqn:E.
           ++ injection Hw as <-. apply Nat.eqb_eq in E. exists l, next.
              split; [right; exact Hl|]. split; [rewrite E; exact En|exact Hee].
           ++ exists l, w. split; [right; exact Hl|]. split; [exact Hw|exact Hee].
      * rewrite (Permutation_length Hperm1) in dr_size0. cbn [length] in *. lia.
      * intros Hidle. exfalso.
        specialize (Hidle line (or_introl eq_refl)). unfold Desktop_shortest_at in Hidle.
        rewrite En in Hidle. fold d in Hidle. congruence.
Qed.

End DesktopRelax.

(** ** The desktop port: the sightlines that Init stores *)

Section DesktopLines.

Context {Wt : Weight} (Length : Point -> W).

Hypothesis Length_neg : forall a, Length (Pt.neg a) = Length a.

Local Abbreviation Waypoint := (@DesktopPaths.Waypoint Wt).
Local Abbreviation point := (@DesktopPaths.point Wt).
Local Abbreviation sightlines := (@DesktopPaths.sightlines Wt).
Local Abbreviation Distance := (DesktopPaths.Distance Length).

(** Every sightline of a waypoint leads to another waypoint and holds the
    distance to it: [pts] are the points of the waypoints. *)
Definition lines_ok_at (pts : list Point) (i : nat) (w : Waypoint) : Prop :=
  forall line, In line (sightlines w) ->
    fst line <> i
    /\ exists q, nth_error pts (fst line) = Some q /\ snd line = Distance (point w) q.

Definition Desktop_lines_ok (wps : list Waypoint) : Prop :=
  forall i w, nth_error wps i = Some w -> lines_ok_at (map point wps) i w.

Lemma Desktop_lines_ok_ext (a b : list Waypoint) :
  map point a = map point b -> map sightlines a = map sightlines b ->
  Desktop_lines_ok a -> Desktop_lines_ok b.
Proof.
  intros Hp Hs Ha i w Hw line Hl.
  assert (Hpi : nth_error (map point a) i = Some (point w))
    by (rewrite Hp, nth_error_map, Hw; reflexivity).
  assert (Hsi : nth_error (map sightlines a) i = Some (sightlines w))
    by (rewrite Hs, nth_error_map, Hw; reflexivity).
  rewrite nth_error_map in Hpi, Hsi.
  destruct (nth_error a i) as [wa|] eqn:Ea; [|discriminate Hpi].
  cbn in Hpi, Hsi. injection Hpi as Hpi. injection Hsi as Hsi.
  rewrite <- Hp, <- Hpi. apply (Ha i wa Ea). rewrite Hsi. exact Hl.
Qed.

Lemma lines_ok_push (pts : list Point) (i : nat) (w : Waypoint) (j : nat) (d : W) q :
  lines_ok_at pts i w -> j <> i -> nth_error pts j = Some q -> d = Distance (point w) q ->
  lines_ok_at pts i (DesktopPaths.push_sightline w (j, d)).
Proof.
  intros Hw Hne Hq Hd line Hl. cbn [DesktopPaths.push_sightline DesktopPaths.sightlines] in Hl.
  apply in_app_or in Hl. destruct Hl as [Hl|[<-|[]]].
  - apply (Hw line Hl).
  - cbn [fst snd DesktopPaths.point DesktopPaths.push_sightline].
    split; [exact Hne|]. exists q. auto.
Qed.

Lemma AddWaypoint_step_ok rings vertex back forward end_ (wps : list Waypoint) i :
  (i < end_)%nat -> nth_error (map point wps) end_ = Some vertex ->
  Desktop_lines_ok wps ->
  Desktop_lines_ok (DesktopPaths.AddWaypoint_step Length rings vertex back forward end_ wps i).
Proof.
  intros Hi Hend Hok.
  pose proof (AddWaypoint_step_points Length rings vertex back forward end_ wps i) as Hpts.
  unfold DesktopPaths.AddWaypoint_step in *.
  destruct (nth_error wps i) as [wi|] eqn:Ei; [|exact Hok].
  destruct (nth_error wps end_) as [we|] eqn:Ee; [|exact Hok].
  match goal with |- context [if ?c then _ else _] => destruct c end; [|exact Hok].
  assert (Hli : (i < length wps)%nat) by (apply nth_error_Some; congruence).
  assert (Hle : (end_ < length wps)%nat) by (apply nth_error_Some; congruence).
  assert (Hve : point we = vertex).
  { rewrite nth_error_map, Ee in Hend. cbn in Hend. congruence. }
  set (d := Length (DesktopPaths.point wi -p vertex)) in *.
  intros k w Hw. rewrite Hpts.
  rewrite nth_error_array_set in Hw by (rewrite array_set_length; assumption).
  destruct (k =? end_)%nat eqn:Eke.
  - apply Nat.eqb_eq in Eke. subst k. injection Hw as <-.
    apply (lines_ok_push _ _ _ _ _ (point wi)).
    + apply (Hok end_ we Ee).
    + lia.
    + rewrite nth_error_map, Ei. reflexivity.
    + rewrite Hve. reflexivity.
  - rewrite nth_error_array_set in Hw by exact Hli.
    destruct (k =? i)%nat eqn:Eki.
    + apply Nat.eqb_eq in Eki. subst k. injection Hw as <-.
      apply (lines_ok_push _ _ _ _ _ vertex).
      * apply (Hok i wi Ei).
      * lia.
      * exact Hend.
      * unfold d, DesktopPaths.Distance. rewrite <- Length_neg. f_equal.
        destruct (DesktopPaths.point wi), vertex. unfold Pt.sub, Pt.neg. cbn. f_equal; lia.
    + apply (Hok k w Hw).
Qed.

Lemma AddWaypoint_ok rings (wps : list Waypoint) vertex back forward :
  Desktop_lines_ok wps ->
  Desktop_lines_ok (DesktopPaths.AddWaypoint Length rings wps vertex back forward).
Proof.
  intros Hok. unfold DesktopPaths.AddWaypoint.
  set (first := wps ++ [DesktopPaths.mkWaypoint vertex [] wzero false (-1)%Z (Fin wzero)]).
  assert (Hfirst : Desktop_lines_ok first).
  { intros k w Hw line Hl. unfold first in *.
    destruct (Nat.lt_ge_cases k (length wps)) as [Hlt|Hge].
    - rewrite nth_error_app1 in Hw by exact Hlt.
      destruct (Hok k w Hw line Hl) as (Hne & q & Hq & Hd).
      split; [exact Hne|]. exists q. split; [|exact Hd].
      rewrite map_app, nth_error_app1; [exact Hq|].
      apply nth_error_Some. congruence.
    - rewrite nth_error_app2 in Hw by exact Hge.
      destruct (k - length wps)%nat as [|x]; [|destruct x; discriminate Hw].
      injection Hw as <-. destruct Hl. }
  assert (Hend : nth_error (map point first) (length wps) = Some vertex).
  { unfold first. rewrite map_app, nth_error_app2 by (rewrite length_map; lia).
    rewrite length_map, Nat.sub_diag. reflexivity. }
  assert (G : forall idx (l : list Waypoint),
            (forall i, In i idx -> (i < length wps)%nat) ->
            nth_error (map point l) (length wps) = Some vertex ->
            Desktop_lines_ok l ->
            Desktop_lines_ok
              (fold_left (DesktopPaths.AddWaypoint_step Length rings vertex back forward
                            (length wps)) idx l)).
  { induction idx as [|i idx IH]; intros l Hidx Hl Hlok; [exact Hlok|].
    cbn [fold_left]. apply IH.
    - intros j Hj. apply Hidx. right. exact Hj.
    - rewrite AddWaypoint_step_points. exact Hl.
    - apply AddWaypoint_step_ok; [apply Hidx; left; reflexivity|exact Hl|exact Hlok]. }
  apply G; [|exact Hend|exact Hfirst].
  intros i Hi. apply in_seq in Hi. lia.
Qed.

Lemma Init_ring_loop_ok rings prev here part :
  forall wps : list Waypoint,
    Desktop_lines_ok wps ->
    Desktop_lines_ok (DesktopPaths.Init_ring_loop Length rings prev here part wps).
Proof.
  revert prev here. induction part as [|next rest IH]; intros prev here wps Hok;
    [exact Hok|].
  cbn [DesktopPaths.Init_ring_loop]. apply IH.
  destruct (0 <=? _); [apply AddWaypoint_ok; exact Hok|exact Hok].
Qed.

Lemma Init_ring_ok rings (wps : list Waypoint) part :
  Desktop_lines_ok wps -> Desktop_lines_ok (DesktopPaths.Init_ring Length rings wps part).
Proof.
  intros Hok. unfold DesktopPaths.Init_ring.
  destruct (length part <? 3)%nat; [exact Hok|apply Init_ring_loop_ok; exact Hok].
Qed.

(** The waypoints that [Init] builds. *)
Lemma Init_lines_ok masks p (this : DesktopPaths.Paths) :
  DesktopPaths.Init Length masks p = Some this ->
  Desktop_lines_ok (DesktopPaths.waypoints this).
Proof.
  unfold DesktopPaths.Init. destruct (DesktopPaths.Init_passable masks p) as [rings|];
    [|discriminate].
  intros H. injection H as <-. cbn [DesktopPaths.waypoints].
  assert (G : forall parts (wps : list Waypoint),
            Desktop_lines_ok wps ->
            Desktop_lines_ok (fold_left (DesktopPaths.Init_ring Length rings) parts wps)).
  { induction parts as [|part parts IH]; intros wps Hok; [exact Hok|].
    cbn [fold_left]. apply IH. apply Init_ring_ok. exact Hok. }
  apply G. intros i w Hw. destruct i; discriminate Hw.
Qed.

End DesktopLines.

(** ** The desktop port: the search *)

Section DesktopSearch.

Context {Wt : Weight} {laws : WeightLaws Wt} (Length : Point -> W).

(** The two facts about the Euclidean length that the search relies on. *)
Hypothesis Length_triangle : forall a b, wle (Length (a +p b)) (wadd (Length a) (Length b)).
Hypothesis Length_neg : forall a, Length (Pt.neg a) = Length a.

Local Abbreviation Waypoint := (@DesktopPaths.Waypoint Wt).
Local Abbreviation Node := (@DesktopPaths.Node Wt).
Local Abbreviation Distance := (DesktopPaths.Distance Length).

Lemma Distance_sym a b : Distance a b = Distance b a.
Proof.
  unfold DesktopPaths.Distance. rewrite <- (Length_neg (a -p b)). f_equal.
  destruct a, b. unfold Pt.sub, Pt.neg. cbn. f_equal; lia.
Qed.

Lemma Distance_triangle a b c : wle (Distance a c) (wadd (Distance a b) (Distance b c)).
Proof.
  unfold DesktopPaths.Distance.
  replace (c -p a) with ((b -p a) +p (c -p b)); [apply Length_triangle|].
  destruct a, b, c. unfold Pt.sub, Pt.add. cbn. f_equal; lia.
Qed.

Variable rings : Desktop.Polygon.
Variables from target : Point.

(** The waypoints as [CalculateDistances] leaves them. *)
Variable wps0 : list Waypoint.
Hypothesis wps0_frame : forall i w, nth_error wps0 i = Some w ->
  DesktopPaths.distance w = Distance target (DesktopPaths.point w)
  /\ DesktopPaths.visible w = DesktopPaths.Visible rings (DesktopPaths.point w) target.
Hypothesis wps0_lines : Desktop_lines_ok Length wps0.

(** *** The graph of the query *)

Definition Desktop_point_at (i : nat) : Point :=
  match nth_error wps0 i with
  | Some w => DesktopPaths.point w
  | None => origin
  end.

(** The graph that [Find] searches: the sightlines are those that [Init]
    stored. *)
Definition Desktop_graph : Graph := {|
  g_count := length wps0;
  g_heur := fun i => Distance target (Desktop_point_at i);
  g_start := fun i => Distance from (Desktop_point_at i);
  g_sees_target := fun i => DesktopPaths.Visible rings (Desktop_point_at i) target;
  g_sees_start := fun i => DesktopPaths.Visible rings from (Desktop_point_at i);
  g_sight := fun i => match nth_error wps0 i with
                      | Some w => DesktopPaths.sightlines w
                      | None => []
                      end;
  g_weight := fun i j => Distance (Desktop_point_at i) (Desktop_point_at j)
|}.

Local Abbreviation count := (length wps0).
Local Abbreviation pt := Desktop_point_at.
Local Abbreviation sh := Desktop_shortest_at.
Local Abbreviation bk := Desktop_backtrack_at.

Lemma Desktop_graph_ok : GraphOk Desktop_graph.
Proof.
  assert (Hsight : forall i j d, In (j, d) (g_sight Desktop_graph i) ->
            (i < count)%nat /\ (j < count)%nat /\ j <> i
            /\ d = g_weight Desktop_graph i j).
  { intros i j d H. cbn [g_sight g_weight Desktop_graph] in *.
    unfold Desktop_point_at.
    destruct (nth_error wps0 i) as [w|] eqn:Ew; [|destruct H].
    destruct (wps0_lines i w Ew (j, d) H) as (Hne & q & Hq & Hd).
    cbn [fst snd] in *. rewrite nth_error_map in Hq.
    destruct (nth_error wps0 j) as [other|] eqn:Ho; [|discriminate Hq].
    injection Hq as <-.
    split; [apply nth_error_Some; congruence|].
    split; [apply nth_error_Some; congruence|]. auto. }
  constructor; [exact Hsight|].
  intros i j d H. destruct (Hsight i j d H) as (_ & _ & _ & ->).
  cbn [g_heur g_weight Desktop_graph].
  rewrite (Distance_sym target (pt i)), (Distance_sym target (pt j)).
  apply Distance_triangle.
Qed.

(** *** The state of the loop, seen from the graph *)

Definition Desktop_entry (e : Node) : entry :=
  (DesktopPaths.nlength e, Z.to_nat (DesktopPaths.index e)).

(** [best.index] is negative until a waypoint in sight of the target is
    taken from the queue. *)
Definition Desktop_best (b : Node) : option entry :=
  if (DesktopPaths.index b <? 0)%Z then None else Some (Desktop_entry b).

Record Desktop_inv (C : nat -> option W) (wps : list Waypoint) (queue : list Node)
    (bd : ext) (best : Node) : Prop := {
  di_frame : map Desktop_frame wps = map Desktop_frame wps0;
  di_queue : queue_ok queue;
  di_index : forall e, In e queue -> (0 <= DesktopPaths.index e)%Z;
  di_search : SearchInv Desktop_graph C (sh wps) (bk wps) (map Desktop_entry queue) bd
                (Desktop_best best)
}.

Lemma Desktop_frame_of (wps : list Waypoint) (i : nat) (w : Waypoint) :
  map Desktop_frame wps = map Desktop_frame wps0 -> nth_error wps i = Some w ->
  (i < count)%nat /\ DesktopPaths.point w = pt i
  /\ DesktopPaths.sightlines w = g_sight Desktop_graph i
  /\ DesktopPaths.distance w = g_heur Desktop_graph i
  /\ DesktopPaths.visible w = g_sees_target Desktop_graph i.
Proof.
  intros Hf Hw. pose proof (Desktop_frame_nth wps wps0 i Hf) as Hn. rewrite Hw in Hn.
  cbn [g_sight g_heur g_sees_target Desktop_graph]. unfold Desktop_point_at.
  destruct (nth_error wps0 i) as [w0|] eqn:E0; [|discriminate Hn].
  injection Hn as Hp Hl Ht Hv. destruct (wps0_frame i w0 E0) as [F1 F2].
  split; [apply nth_error_Some; congruence|].
  rewrite Hp, Hl, Ht, Hv. auto.
Qed.

Lemma Desktop_frame_length (wps : list Waypoint) :
  map Desktop_frame wps = map Desktop_frame wps0 -> length wps = count.
Proof.
  intros H. rewrite <- (length_map Desktop_frame wps), H. apply length_map.
Qed.

(** What [relax] does, seen from the graph. *)
Lemma Desktop_relax_relaxed g i (wps wps' : list Waypoint) (rest queue' : list Node) :
  map Desktop_frame wps = map Desktop_frame wps0 ->
  Desktop_relax_result (g_sight Desktop_graph i) g (Z.of_nat i) wps rest wps' queue' ->
  Relaxed Desktop_graph g i (sh wps) (bk wps) (map Desktop_entry rest)
          (sh wps') (bk wps') (map Desktop_entry queue')
  /\ ((forall e, In e rest -> (0 <= DesktopPaths.index e)%Z) ->
      forall e, In e queue' -> (0 <= DesktopPaths.index e)%Z).
Proof.
  intros Hframe [Rq Rframe Rdec Rrel Rupd Rkept Rnew Rsize Ridle].
  assert (Hframe' : map Desktop_frame wps' = map Desktop_frame wps0)
    by (rewrite Rframe; exact Hframe).
  split.
  2:{ intros Hpos e He. destruct (Rnew e He) as [Hold|(line & w & _ & _ & ->)].
      - apply Hpos. exact Hold.
      - cbn. lia. }
  constructor.
  - exact Rdec.
  - intros j d Hl. apply (Rrel (j, d) Hl).
  - intros j. destruct (Rupd j) as [H|(line & w' & Hl & Hlink & Hw' & Hs' & Hb' & Hin & Hup)].
    + left. unfold Desktop_shortest_at, Desktop_backtrack_at. rewrite H. split; reflexivity.
    + right. exists (snd line).
      split; [rewrite <- Hlink, <- surjective_pairing; exact Hl|].
      unfold Desktop_shortest_at at 1, Desktop_backtrack_at at 1. rewrite Hw'.
      split; [exact Hs'|]. split; [exact Hb'|]. split; [|exact Hup].
      destruct (Desktop_frame_of wps' j w' Hframe' Hw') as (_ & _ & _ & Ht & _).
      rewrite <- Ht. apply in_map_iff. eexists. split; [|exact Hin].
      unfold Desktop_entry. cbn. rewrite Nat2Z.id. reflexivity.
  - intros e He. apply in_map_iff in He. destruct He as (x & <- & Hx).
    apply in_map. apply Rkept. exact Hx.
  - intros e He. apply in_map_iff in He. destruct He as (x & <- & Hx).
    destruct (Rnew x Hx) as [Hold|(line & wl & Hl & Hwl & ->)].
    + left. apply in_map. exact Hold.
    + right. exists (fst line), (snd line).
      split; [rewrite <- surjective_pairing; exact Hl|].
      destruct (Desktop_frame_of wps _ wl Hframe Hwl) as (_ & _ & _ & Ht & _).
      unfold Desktop_entry. cbn. rewrite Ht, Nat2Z.id. reflexivity.
  - rewrite !length_map. exact Rsize.
  - intros Hidle. rewrite !length_map.
    destruct Ridle as [_ ->]; [|lia].
    intros line Hl. apply (Hidle (fst line) (snd line)).
    rewrite <- surjective_pairing. exact Hl.
Qed.

(** *** The loop *)

(** The search leaves the model only when it runs out of fuel, which takes
    no more fuel than the number of entries it can still take off the
    queue, and it ends in a state that satisfies the invariant with nothing
    left to do. *)
Lemma Desktop_search_run fuel :
  forall C (wps : list Waypoint) queue bd best,
    Desktop_inv C wps queue bd best ->
    match DesktopPaths.search fuel wps queue bd best with
    | Some (wps', best') =>
        exists C' queue' bd',
          Desktop_inv C' wps' queue' bd' best'
          /\ SearchDone (map Desktop_entry queue') bd'
    | None => (fuel <= length queue + open_sum Desktop_graph C)%nat
    end.
Proof.
  induction fuel as [|fuel IH]; intros C wps queue bd best HI; [cbn; lia|].
  cbn [DesktopPaths.search].
  destruct HI as [Hframe Hq Hpos HS].
  destruct queue as [|node rest].
  { exists C, [], bd. split; [constructor; assumption|]. intros e []. }
  destruct (queue_top node rest Hq) as [Hq' Hmin0].
  assert (Hmin : forall e, In e (map Desktop_entry (node :: rest)) ->
                   wle (fst (Desktop_entry node)) (fst e)).
  { intros e He. apply in_map_iff in He. destruct He as (x & <- & Hx).
    apply (Hmin0 x Hx). }
  assert (Hperm : Permutation (map Desktop_entry (node :: rest))
                    (Desktop_entry node :: map Desktop_entry rest)) by reflexivity.
  assert (Hnode : In (Desktop_entry node) (map Desktop_entry (node :: rest)))
    by (left; reflexivity).
  assert (Hidx : (0 <= DesktopPaths.index node)%Z) by (apply Hpos; left; reflexivity).
  rewrite lt_ext_ge.
  destruct (ge_ext (DesktopPaths.nlength node) bd) eqn:Hge.
  { exists C, (node :: rest), bd. split; [constructor; assumption|]. intros e He.
    apply ext_le_trans with (b := Fin (DesktopPaths.nlength node)).
    - apply ge_ext_true. exact Hge.
    - cbn. apply (Hmin e He). }
  destruct (inv_entry _ _ _ _ _ _ _ HS _ Hnode) as (Hi & g & Hg & _).
  cbn [Desktop_entry fst snd] in Hi, Hg.
  set (i := Z.to_nat (DesktopPaths.index node)) in *.
  destruct (nth_error wps i) as [w|] eqn:Hw.
  2:{ apply nth_error_None in Hw. rewrite (Desktop_frame_length wps Hframe) in Hw.
      cbn [g_count Desktop_graph] in Hi. lia. }
  destruct (Desktop_frame_of wps _ w Hframe Hw) as (_ & _ & Hlines & Htd & Hvis).
  destruct (DesktopPaths.visible w) eqn:Hv.
  - destruct (step_goal Desktop_graph Desktop_graph_ok C _ _ _ bd _ (Desktop_entry node) _
                HS Hperm Hmin Hge (eq_sym Hvis)) as (C' & HS' & Hphi).
    cbn [map length] in Hphi. rewrite !length_map in Hphi.
    assert (HI' : Desktop_inv C' wps rest (Fin (DesktopPaths.nlength node)) node).
    { constructor; try assumption.
      - intros e He. apply Hpos. right. exact He.
      - unfold Desktop_best. destruct (DesktopPaths.index node <? 0)%Z eqn:E;
          [apply Z.ltb_lt in E; lia|exact HS']. }
    specialize (IH C' wps rest (Fin (DesktopPaths.nlength node)) node HI').
    destruct (DesktopPaths.search fuel wps rest (Fin (DesktopPaths.nlength node)) node)
      as [[wps' best']|]; [exact IH|cbn [length]; lia].
  - rewrite Htd, Hg, wsub_add, Hlines.
    replace (DesktopPaths.index node) with (Z.of_nat i) by (unfold i; lia).
    destruct (Desktop_relax_spec g (Z.of_nat i) (g_sight Desktop_graph i) wps rest Hq')
      as (wps1 & queue1 & Hr & R).
    { intros line Hl. rewrite (Desktop_frame_length wps Hframe).
      destruct (ok_sight Desktop_graph Desktop_graph_ok i (fst line) (snd line))
        as (_ & H & _); [rewrite <- surjective_pairing; exact Hl|exact H]. }
    rewrite Hr.
    destruct (Desktop_relax_relaxed g i wps wps1 rest queue1 Hframe R) as [HR Hpos1].
    destruct (step_expand Desktop_graph Desktop_graph_ok C _ _ _ bd _ (Desktop_entry node) _
                g _ _ _ HS Hperm Hmin (eq_sym Hvis) Hg HR) as (C' & HS' & Hphi).
    cbn [map length] in Hphi. rewrite !length_map in Hphi.
    assert (HI' : Desktop_inv C' wps1 queue1 bd best).
    { destruct R as [Rq Rframe _ _ _ _ _ _ _]. constructor.
      - rewrite Rframe. exact Hframe.
      - exact Rq.
      - apply Hpos1. intros e He. apply Hpos. right. exact He.
      - exact HS'. }
    specialize (IH C' wps1 queue1 bd best HI').
    destruct (DesktopPaths.search fuel wps1 queue1 bd best)
      as [[wps' best']|]; [exact IH|cbn [length]; lia].
Qed.

(** *** The waypoints in sight of the start *)

Definition Desktop_seeded (m : nat) (wps : list Waypoint) (queue : list Node) : Prop :=
  map Desktop_frame wps = map Desktop_frame wps0
  /\ queue_ok queue
  /\ (forall e, In e queue -> (0 <= DesktopPaths.index e)%Z)
  /\ (length queue <= m)%nat
  /\ (forall j, sh wps j = Infinity
                \/ (sh wps j = Fin (g_start Desktop_graph j) /\ bk wps j = (-1)%Z
                    /\ g_sees_start Desktop_graph j = true
                    /\ In (wadd (g_start Desktop_graph j) (g_heur Desktop_graph j), j)
                          (map Desktop_entry queue)))
  /\ (forall j, (j < m)%nat -> g_sees_start Desktop_graph j = true ->
                sh wps j = Fin (g_start Desktop_graph j))
  /\ (forall e, In e (map Desktop_entry queue) ->
        (snd e < m)%nat /\ g_sees_start Desktop_graph (snd e) = true
        /\ fst e = wadd (g_start Desktop_graph (snd e)) (g_heur Desktop_graph (snd e))).

Lemma Desktop_seed_step_inv m (wps : list Waypoint) queue :
  (m < count)%nat -> Desktop_seeded m wps queue ->
  Desktop_seeded (S m) (fst (DesktopPaths.seed_step Length rings from (wps, queue) m))
                       (snd (DesktopPaths.seed_step Length rings from (wps, queue) m)).
Proof.
  intros Hm (Hframe & Hq & Hpos & Hlen & Hsh & Hdone & Hent).
  unfold DesktopPaths.seed_step.
  assert (Hlt : (m < length wps)%nat)
    by (rewrite (Desktop_frame_length wps Hframe); exact Hm).
  destruct (nth_error wps m) as [it|] eqn:Hit.
  2:{ apply nth_error_None in Hit. lia. }
  destruct (Desktop_frame_of wps m it Hframe Hit) as (_ & Hp & _ & Ht & _).
  rewrite Hp, Ht.
  change (DesktopPaths.Visible rings from (pt m)) with (g_sees_start Desktop_graph m).
  change (Distance from (pt m)) with (g_start Desktop_graph m).
  destruct (g_sees_start Desktop_graph m) eqn:Hs; cbn [fst snd].
  - set (d := g_start Desktop_graph m).
    set (e0 := DesktopPaths.mkNode (wadd d (g_heur Desktop_graph m)) (Z.of_nat m) (-1)%Z).
    pose proof (emplace_perm queue e0) as Hperm.
    pose proof (Permutation_map Desktop_entry Hperm) as Hperm'. cbn [map] in Hperm'.
    assert (He0 : Desktop_entry e0 = (wadd d (g_heur Desktop_graph m), m)).
    { unfold Desktop_entry, e0. cbn. rewrite Nat2Z.id. reflexivity. }
    rewrite He0 in Hperm'.
    split.
    { rewrite <- Hframe. apply map_array_set. rewrite nth_error_map, Hit.
      cbn. unfold Desktop_frame. cbn. rewrite Hp, Ht. reflexivity. }
    split; [apply emplace_ok; exact Hq|].
    split.
    { intros e He. apply (Permutation_in _ Hperm) in He. destruct He as [<-|He].
      - cbn. lia.
      - apply Hpos. exact He. }
    split. { rewrite (Permutation_length Hperm). cbn [length]. lia. }
    split.
    { intros j. rewrite Desktop_shortest_at_set, Desktop_backtrack_at_set by exact Hlt.
      destruct (j =? m)%nat eqn:E.
      - apply Nat.eqb_eq in E. subst j. right.
        cbn [DesktopPaths.shortest DesktopPaths.backtrack].
        repeat split; try assumption; try reflexivity.
        apply (Permutation_in _ (Permutation_sym Hperm')). left. reflexivity.
      - destruct (Hsh j) as [H|(H1 & H2 & H3 & H4)]; [left; exact H|].
        right. repeat split; try assumption.
        apply (Permutation_in _ (Permutation_sym Hperm')). right. exact H4. }
    split.
    { intros j Hj Hsj. rewrite Desktop_shortest_at_set by exact Hlt.
      destruct (j =? m)%nat eqn:E.
      - apply Nat.eqb_eq in E. subst j. reflexivity.
      - apply Nat.eqb_neq in E. apply Hdone; [lia|exact Hsj]. }
    intros e He. apply (Permutation_in _ Hperm') in He. destruct He as [<-|He].
    + cbn. repeat split; [lia|exact Hs].
    + destruct (Hent e He) as (H1 & H2 & H3). repeat split; [lia|exact H2|exact H3].
  - split; [exact Hframe|]. split; [exact Hq|]. split; [exact Hpos|].
    split; [lia|]. split; [exact Hsh|]. split.
    { intros j Hj Hsj. destruct (Nat.eq_dec j m) as [->|Hne]; [congruence|].
      apply Hdone; [lia|exact Hsj]. }
    intros e He. destruct (Hent e He) as (H1 & H2 & H3).
    repeat split; [lia|exact H2|exact H3].
Qed.

Lemma Desktop_seed_fold_inv m :
  (forall i w, nth_error wps0 i = Some w -> DesktopPaths.shortest w = Infinity) ->
  (m <= count)%nat ->
  Desktop_seeded m
    (fst (fold_left (DesktopPaths.seed_step Length rings from) (seq 0 m) (wps0, [])))
    (snd (fold_left (DesktopPaths.seed_step Length rings from) (seq 0 m) (wps0, []))).
Proof.
  intros Hfresh. induction m as [|m IH]; intros Hm.
  - cbn. split; [reflexivity|]. split; [constructor|]. split; [intros e []|].
    split; [cbn; lia|]. split.
    { intros j. left. unfold Desktop_shortest_at.
      destruct (nth_error wps0 j) as [w|] eqn:E; [|reflexivity].
      apply (Hfresh j w E). }
    split; [intros j Hj; lia|]. intros e [].
  - rewrite seq_S, fold_left_app. cbn [fold_left Nat.add].
    specialize (IH ltac:(lia)).
    destruct (fold_left (DesktopPaths.seed_step Length rings from) (seq 0 m) (wps0, []))
      as [wps queue].
    cbn [fst snd] in IH. apply Desktop_seed_step_inv; [lia|exact IH].
Qed.

Lemma Desktop_seeded_inv (wps : list Waypoint) queue :
  Desktop_seeded count wps queue ->
  Desktop_inv (fun _ => None) wps queue Infinity (DesktopPaths.mkNode wzero (-1) (-1)).
Proof.
  intros (Hframe & Hq & Hpos & Hlen & Hsh & Hdone & Hent).
  constructor; try assumption.
  unfold Desktop_best. cbn. apply seeded_inv; assumption.
Qed.

(** *** The path that is returned *)

Lemma Desktop_backtrack_route (wps : list Waypoint) k l len :
  map Desktop_frame wps = map Desktop_frame wps0 ->
  Route Desktop_graph (bk wps) k l len ->
  forall fuel, (length l <= fuel)%nat ->
    DesktopPaths.backtrack_path fuel wps (Z.of_nat k)
    = Some (map (fun i => Pt.div (pt i) DesktopPaths.INTERNAL_SCALE) l).
Proof.
  intros Hframe.
  induction 1 as [k Hk Hb Hs|k m d l len Hk Hb Hl Hr IH]; intros fuel Hfuel.
  - destruct fuel as [|fuel]; [cbn in Hfuel; lia|].
    cbn [DesktopPaths.backtrack_path].
    destruct (Z.of_nat k =? -1)%Z eqn:E1; [apply Z.eqb_eq in E1; lia|].
    destruct (Z.of_nat k <? 0)%Z eqn:E; [apply Z.ltb_lt in E; lia|].
    rewrite Nat2Z.id. unfold Desktop_backtrack_at in Hb.
    destruct (nth_error wps k) as [w|] eqn:Hw.
    2:{ apply nth_error_None in Hw. rewrite (Desktop_frame_length wps Hframe) in Hw.
        cbn [g_count Desktop_graph] in Hk. lia. }
    rewrite Hb.
    assert (Hend : forall f, DesktopPaths.backtrack_path f wps (-1) = Some [])
      by (intros f; destruct f; reflexivity).
    rewrite Hend.
    destruct (Desktop_frame_of wps k w Hframe Hw) as (_ & Hp & _). rewrite Hp. reflexivity.
  - destruct fuel as [|fuel]; [cbn in Hfuel; lia|].
    cbn [DesktopPaths.backtrack_path].
    destruct (Z.of_nat k =? -1)%Z eqn:E1; [apply Z.eqb_eq in E1; lia|].
    destruct (Z.of_nat k <? 0)%Z eqn:E; [apply Z.ltb_lt in E; lia|].
    rewrite Nat2Z.id. unfold Desktop_backtrack_at in Hb.
    destruct (nth_error wps k) as [w|] eqn:Hw.
    2:{ apply nth_error_None in Hw. rewrite (Desktop_frame_length wps Hframe) in Hw.
        cbn [g_count Desktop_graph] in Hk. lia. }
    rewrite Hb, IH by (cbn in Hfuel; lia).
    destruct (Desktop_frame_of wps k w Hframe Hw) as (_ & Hp & _). rewrite Hp. reflexivity.
Qed.

(** The length of a path of the graph is the length of the path through
    its points. *)
Lemma Desktop_graph_length l :
  l <> [] ->
  path_length Distance (from :: map pt l ++ [target]) = graph_length Desktop_graph l.
Proof.
  apply graph_path_length; intros; cbn [g_heur g_start g_weight Desktop_graph];
    [apply Distance_sym|reflexivity|reflexivity].
Qed.

(** The number of sightlines that [Init] stored. *)
Definition Desktop_line_count (wps : list Waypoint) : nat :=
  list_sum (map (fun w => length (DesktopPaths.sightlines w)) wps).

Lemma Desktop_open_sum : open_sum Desktop_graph (fun _ => None) = Desktop_line_count wps0.
Proof.
  unfold open_sum, Desktop_line_count. cbn [g_count g_sight Desktop_graph]. f_equal.
  assert (G : forall (l : list Waypoint) (pre : list Waypoint),
            map (fun i => length match nth_error (pre ++ l) i with
                                | Some w => DesktopPaths.sightlines w
                                | None => []
                                end) (seq (length pre) (length l))
            = map (fun w => length (DesktopPaths.sightlines w)) l).
  { induction l as [|a l IH]; intros pre; [reflexivity|].
    cbn [length seq map]. f_equal.
    - rewrite nth_error_app2 by lia. rewrite Nat.sub_diag. reflexivity.
    - specialize (IH (pre ++ [a])). rewrite <- app_assoc in IH. cbn [app] in IH.
      rewrite length_app in IH. cbn [length] in IH.
      rewrite Nat.add_1_r in IH. exact IH. }
  apply (G wps0 []).
Qed.

(** The outcome of the search and of the backtracking that follows it. *)
Definition Desktop_search_result (fuel : nat) (wps : list Waypoint) (queue : list Node)
    : option (list Point * list Waypoint) :=
  match DesktopPaths.search fuel wps queue Infinity (DesktopPaths.mkNode wzero (-1) (-1)) with
  | None => None
  | Some (wps', best) =>
      if (DesktopPaths.index best <? 0)%Z then Some ([], wps')
      else
        match DesktopPaths.backtrack_path (S (length wps')) wps' (DesktopPaths.index best) with
        | None => None
        | Some path => Some (Pt.div target DesktopPaths.INTERNAL_SCALE :: path, wps')
        end
  end.

Lemma Desktop_search_result_spec fuel (wps : list Waypoint) queue :
  Desktop_inv (fun _ => None) wps queue Infinity (DesktopPaths.mkNode wzero (-1) (-1)) ->
  match Desktop_search_result fuel wps queue with
  | Some (path, wps') =>
      map Desktop_frame wps' = map Desktop_frame wps0
      /\ ((path = [] /\ forall l, ~ GraphPath Desktop_graph l)
          \/ (exists p, GraphPath Desktop_graph p
              /\ path = map (fun q => Pt.div q DesktopPaths.INTERNAL_SCALE)
                            (rev (map pt p ++ [target]))
              /\ forall l, GraphPath Desktop_graph l ->
                   wle (graph_length Desktop_graph p) (graph_length Desktop_graph l)))
  | None => (fuel <= length queue + Desktop_line_count wps0)%nat
  end.
Proof.
  intros HI. unfold Desktop_search_result.
  pose proof (Desktop_search_run fuel _ wps queue Infinity _ HI) as Hrun.
  destruct (DesktopPaths.search fuel wps queue Infinity _) as [[wps' best]|].
  2:{ rewrite <- Desktop_open_sum. exact Hrun. }
  destruct Hrun as (C' & queue' & bd' & [Hframe _ _ HS] & HF).
  unfold Desktop_best in HS.
  destruct (DesktopPaths.index best <? 0)%Z eqn:Eb.
  - split; [exact Hframe|]. left. split; [reflexivity|].
    apply (final_none Desktop_graph Desktop_graph_ok C' _ _ _ bd' HS HF).
  - apply Z.ltb_ge in Eb.
    destruct (final_some Desktop_graph Desktop_graph_ok C' _ _ _ bd' _ HS HF)
      as (l & len & Hr & Hlen & Hp & Hopt).
    cbn [Desktop_entry snd] in Hr.
    replace (DesktopPaths.index best) with (Z.of_nat (Z.to_nat (DesktopPaths.index best)))
      by lia.
    rewrite (Desktop_backtrack_route wps' _ l len Hframe Hr).
    2:{ rewrite (Desktop_frame_length wps' Hframe). cbn [g_count Desktop_graph] in Hlen. lia. }
    split; [exact Hframe|].
    right. exists (rev l). split; [exact Hp|]. split; [|exact Hopt].
    rewrite rev_app_distr, map_rev, rev_involutive. cbn [rev app map].
    rewrite map_map. reflexivity.
Qed.

End DesktopSearch.

(** ** The shortest path: the web port *)

Section WebShortestPath.

Context {Wt : Weight} {laws : WeightLaws Wt} (hypot : Point -> W).

Hypothesis hypot_triangle : forall a b, wle (hypot (a +p b)) (wadd (hypot a) (hypot b)).
Hypothesis hypot_neg : forall a, hypot (Pt.neg a) = hypot a.

Local Abbreviation Waypoint := (@WebPaths.Waypoint Wt).
Local Abbreviation point := (@WebPaths.point Wt).

(** The graph is read off the points alone. *)
Lemma Web_point_at_ext (a b : list Waypoint) i :
  map point a = map point b -> Web_point_at a i = Web_point_at b i.
Proof.
  intros H. unfold Web_point_at.
  assert (E : option_map point (nth_error a i) = option_map point (nth_error b i)).
  { rewrite <- !nth_error_map, H. reflexivity. }
  destruct (nth_error a i), (nth_error b i); try discriminate E; [|reflexivity].
  cbn in E. congruence.
Qed.

Lemma Web_graph_ext rings from target (a b : list Waypoint) :
  map point a = map point b ->
  Graph_eqv (Web_graph hypot rings from target a) (Web_graph hypot rings from target b).
Proof.
  intros H. constructor; intros; cbn [g_count g_heur g_start g_sees_target g_sees_start
                                       g_sight g_weight Web_graph];
    rewrite ?(Web_point_at_ext a b _ H); try reflexivity.
  - rewrite <- (length_map point a), H. apply length_map.
  - rewrite (findSightlines_points hypot rings a b i H). reflexivity.
Qed.

(** *** [find] runs the search *)

Lemma find_search fuel (this : WebPaths.Paths) from to target r rest :
  WebPaths.passable this = r :: rest ->
  Web_target hypot (WebPaths.passable this) to = Some target ->
  Web.intersects (WebPaths.passable this) from target = true ->
  let rings := WebPaths.passable this in
  let wps0 := WebPaths.calculateDistances hypot rings target (WebPaths.waypoints this) in
  let s := fold_left (WebPaths.seed_step hypot rings from) (seq 0 (length wps0)) (wps0, []) in
  fst (WebPaths.find hypot fuel this from to)
  = Web_search_result hypot rings target fuel (fst s) (snd s).
Proof.
  intros Hp Hsnap Hi rings wps0 s. unfold WebPaths.find.
  subst s wps0 rings. unfold Web_target in Hsnap.
  destruct (WebPaths.passable this) as [|r0 rest0] eqn:Hp0; [discriminate Hp|].
  rewrite Hsnap, Hi. cbn [negb].
  destruct (fold_left _ _ _) as [wps1 queue1]. cbn [fst snd].
  unfold Web_search_result.
  destruct (WebPaths.search hypot fuel (r0 :: rest0) wps1 queue1 Infinity None)
    as [[wps2 best]| |]; try reflexivity.
  destruct best as [b|]; [|reflexivity].
  destruct (WebPaths.backtrack_path _ _ _); reflexivity.
Qed.

Lemma find_no_vertex fuel (this : WebPaths.Paths) from to r rest :
  WebPaths.passable this = r :: rest ->
  Web_target hypot (WebPaths.passable this) to = None ->
  WebPaths.find hypot fuel this from to = (TypeError, this).
Proof.
  intros Hp Hsnap. unfold WebPaths.find. unfold Web_target in Hsnap.
  destruct (WebPaths.passable this) as [|r0 rest0] eqn:Hp0; [discriminate Hp|].
  rewrite Hsnap. reflexivity.
Qed.

Lemma find_empty fuel (this : WebPaths.Paths) from to :
  WebPaths.passable this = [] ->
  WebPaths.find hypot fuel this from to = (Returned [], this).
Proof. intros Hp. unfold WebPaths.find. rewrite Hp. reflexivity. Qed.

(** When the target is out of sight: the search raises no error, returns
    when it has fuel for every sightline, returns the empty list exactly
    when the graph has no path, and returns a shortest path of the graph,
    last point first, otherwise. *)
Lemma find_run fuel (this : WebPaths.Paths) from to target r rest :
  cache_valid hypot (WebPaths.passable this) (WebPaths.waypoints this) ->
  WebPaths.passable this = r :: rest ->
  Web_target hypot (WebPaths.passable this) to = Some target ->
  Web.intersects (WebPaths.passable this) from target = true ->
  let wps := WebPaths.waypoints this in
  let graph := Web_graph hypot (WebPaths.passable this) from target wps in
  match fst (WebPaths.find hypot fuel this from to) with
  | Returned path =>
      (path = [] /\ forall l, ~ GraphPath graph l)
      \/ (exists p, GraphPath graph p
          /\ path = rev (map (Web_point_at wps) p ++ [target])
          /\ forall l, GraphPath graph l ->
               wle (path_length (WebPaths.distance hypot)
                      (from :: map (Web_point_at wps) p ++ [target]))
                   (path_length (WebPaths.distance hypot)
                      (from :: map (Web_point_at wps) l ++ [target])))
  | TypeError => False
  | OutOfFuel => (fuel <= length wps + length wps * length wps)%nat
  end.
Proof.
  intros Hv Hp Hsnap Hi wps graph.
  rewrite (find_search fuel this from to target r rest Hp Hsnap Hi).
  set (rings := WebPaths.passable this) in *. fold wps.
  set (wps0 := WebPaths.calculateDistances hypot rings target wps).
  assert (Hpts : map point wps0 = map point wps) by apply calculateDistances_points.
  assert (Hframe0 : forall i w, nth_error wps0 i = Some w ->
            WebPaths.targetDistance w = WebPaths.distance hypot target (WebPaths.point w)
            /\ WebPaths.visible w = negb (Web.intersects rings target (WebPaths.point w))).
  { intros i w Hw. unfold wps0, WebPaths.calculateDistances in Hw.
    rewrite nth_error_map in Hw. destruct (nth_error wps i); [|discriminate Hw].
    injection Hw as <-. split; reflexivity. }
  assert (Hfresh : forall i w, nth_error wps0 i = Some w -> WebPaths.shortest w = Infinity).
  { intros i w Hw. unfold wps0, WebPaths.calculateDistances in Hw.
    rewrite nth_error_map in Hw. destruct (nth_error wps i); [|discriminate Hw].
    injection Hw as <-. reflexivity. }
  assert (Hv0 : cache_valid hypot rings wps0).
  { apply (cache_valid_ext hypot rings wps); [symmetry; exact Hpts| |exact Hv].
    symmetry. apply calculateDistances_sightlines. }
  pose proof (seed_fold_inv hypot rings from target wps0 Hframe0 (length wps0) Hfresh
                (Nat.le_refl _)) as Hseed.
  set (s := fold_left (WebPaths.seed_step hypot rings from) (seq 0 (length wps0)) (wps0, []))
    in *.
  pose proof (Web_seeded_inv hypot rings from target wps0 (fst s) (snd s) Hv0 Hseed) as HI.
  pose proof (Web_search_result_spec hypot hypot_triangle hypot_neg rings from target wps0
                Hframe0 fuel (fst s) (snd s) HI) as Hres.
  assert (Hn : length wps0 = length wps).
  { unfold wps0, WebPaths.calculateDistances. apply length_map. }
  pose proof (Web_graph_ext rings from target wps0 wps Hpts) as Heqv. fold graph in Heqv.
  assert (Hlen : forall l, GraphPath graph l ->
            path_length (WebPaths.distance hypot) (from :: map (Web_point_at wps) l ++ [target])
            = graph_length (Web_graph hypot rings from target wps0) l).
  { intros l [Hl _].
    assert (Hl0 : l <> []) by (destruct l; [destruct Hl|discriminate]).
    rewrite <- (Web_graph_length hypot hypot_neg rings from target wps0 l Hl0).
    do 3 f_equal. apply map_ext. intros i. symmetry. apply Web_point_at_ext. exact Hpts. }
  destruct (Web_search_result hypot rings target fuel (fst s) (snd s)) as [path| |].
  - destruct Hres as [[-> Hnone]|(p & Hp1 & -> & Hopt)].
    + left. split; [reflexivity|]. intros l Hl.
      apply (Hnone l). apply (GraphPath_eqv _ _ l (Graph_eqv_sym _ _ Heqv) Hl).
    + right. exists p.
      assert (Hgp : GraphPath graph p) by (apply (GraphPath_eqv _ _ p Heqv Hp1)).
      split; [exact Hgp|].
      split.
      { do 2 f_equal. apply map_ext. intros i. apply Web_point_at_ext. exact Hpts. }
      intros l Hl. rewrite (Hlen l Hl), (Hlen p Hgp).
      apply Hopt. apply (GraphPath_eqv _ _ l (Graph_eqv_sym _ _ Heqv) Hl).
  - exact Hres.
  - destruct Hseed as (_ & _ & _ & Hq & _). rewrite Hn in *. lia.
Qed.

(** *** An initialized region is empty or has a vertex *)

Lemma floodFill_smallest_positive (areas : list Q) (rings : Web.Polygon) (p : Point) idx :
  forall acc s,
    (forall s0, acc = Some s0 -> Qltb 0 (nth s0 areas 0%Q) = true) ->
    fold_left (Web.floodFill_smallest_step areas rings p) idx acc = Some s ->
    Qltb 0 (nth s areas 0%Q) = true.
Proof.
  induction idx as [|i idx IH]; intros acc s Hacc H.
  - cbn in H. apply Hacc. exact H.
  - cbn [fold_left] in H. apply (IH _ s) in H; [exact H|].
    intros s0. unfold Web.floodFill_smallest_step.
    destruct (Qltb 0 (nth i areas 0%Q)) eqn:E; cbn [andb]; [|apply Hacc].
    destruct (Web.contains (nth i rings []) p && _); [|apply Hacc].
    intros Hs. injection Hs as <-. exact E.
Qed.

Lemma floodFill_vertex (poly : Web.Polygon) (p : Point) :
  Web.floodFill poly p = []
  \/ exists r rest, Web.floodFill poly p = r :: rest /\ r <> [].
Proof.
  unfold Web.floodFill.
  destruct (fold_left _ _ None) as [s|] eqn:E; [|left; reflexivity].
  right. eexists. eexists. split; [reflexivity|].
  apply floodFill_smallest_positive in E; [|discriminate].
  intros Hnil.
  destruct (Nat.lt_ge_cases s (length poly)) as [Hlt|Hge].
  - rewrite (nth_indep _ 0%Q (Web.area []) ) in E by (rewrite length_map; exact Hlt).
    rewrite map_nth, Hnil in E. vm_compute in E. discriminate E.
  - rewrite nth_overflow in E by (rewrite length_map; exact Hge).
    vm_compute in E. discriminate E.
Qed.

Lemma closestVertex_step_some target acc e :
  snd acc <> None -> snd (WebPaths.closestVertex_step hypot target acc e) <> None.
Proof.
  intros H. unfold WebPaths.closestVertex_step.
  destruct (lt_ext _ (fst acc)); [discriminate|exact H].
Qed.

Lemma closestVertex_ring_some target (ring : Web.Ring) :
  forall acc, snd acc <> None ->
    snd (fold_left (WebPaths.closestVertex_step hypot target) ring acc) <> None.
Proof.
  induction ring as [|e ring IH]; intros acc H; [exact H|].
  cbn [fold_left]. apply IH. apply closestVertex_step_some. exact H.
Qed.

Lemma closestVertex_vertex (r : Web.Ring) (rest : Web.Polygon) (to : Point) :
  r <> [] -> WebPaths.closestVertex hypot (r :: rest) to <> None.
Proof.
  intros Hr. unfold WebPaths.closestVertex. cbn [fold_left].
  assert (H1 : snd (fold_left (WebPaths.closestVertex_step hypot to) r (Infinity, None))
               <> None).
  { destruct r as [|e r]; [contradiction|]. cbn [fold_left].
    apply closestVertex_ring_some. unfold WebPaths.closestVertex_step. cbn. discriminate. }
  revert H1. generalize (fold_left (WebPaths.closestVertex_step hypot to) r (Infinity, None)).
  induction rest as [|r' rest IH]; intros acc H; [exact H|].
  cbn [fold_left]. apply IH. apply closestVertex_ring_some. exact H.
Qed.

Lemma initialized_vertex (this : WebPaths.Paths) :
  initialized hypot this ->
  WebPaths.passable this = []
  \/ exists r rest, WebPaths.passable this = r :: rest /\ r <> [].
Proof.
  induction 1 as [unioned p|fuel this from to Hinit IH].
  - apply floodFill_vertex.
  - destruct (find_state hypot fuel this from to (initialized_valid hypot this Hinit))
      as (Hp & _). rewrite Hp. exact IH.
Qed.

Lemma initialized_target (this : WebPaths.Paths) (to : Point) r rest :
  initialized hypot this -> WebPaths.passable this = r :: rest ->
  exists target, Web_target hypot (WebPaths.passable this) to = Some target.
Proof.
  intros Hinit Hp.
  destruct (initialized_vertex this Hinit) as [H|(r0 & rest0 & H & Hr)]; [congruence|].
  unfold Web_target. destruct (Web.Polygon_contains _ to); [eexists; reflexivity|].
  rewrite H. pose proof (closestVertex_vertex r0 rest0 to Hr) as Hc.
  destruct (WebPaths.closestVertex hypot (r0 :: rest0) to) as [t|]; [|contradiction].
  eexists. reflexivity.
Qed.

Lemma passable_cases (this : WebPaths.Paths) :
  WebPaths.passable this = [] \/ exists r rest, WebPaths.passable this = r :: rest.
Proof.
  destruct (WebPaths.passable this) as [|r rest]; [left|right; exists r, rest]; reflexivity.
Qed.

(** The path that the search returns is a path of the visibility graph
    from [from] to the target, and no path of the graph between these two
    points is shorter. *)
Lemma Web_find_optimal (this : WebPaths.Paths) :
  initialized hypot this ->
  forall fuel from to target route this',
    WebPaths.find hypot fuel this from to = (Returned (target :: route), this') ->
    route <> [] ->
    let wps := WebPaths.waypoints this in
    let graph := Web_graph hypot (WebPaths.passable this) from target wps in
    Web_target hypot (WebPaths.passable this) to = Some target
    /\ (exists p, GraphPath graph p
                  /\ from :: rev (target :: route)
                     = from :: map (Web_point_at wps) p ++ [target])
    /\ forall l, GraphPath graph l ->
         wle (path_length (WebPaths.distance hypot) (from :: rev (target :: route)))
             (path_length (WebPaths.distance hypot)
                (from :: map (Web_point_at wps) l ++ [target])).
Proof.
  intros Hinit fuel from to target route this' Hfind Hroute wps graph.
  pose proof (initialized_valid hypot this Hinit) as Hv.
  destruct (passable_cases this) as [Hp|(r & rest & Hp)].
  { rewrite (find_empty fuel this from to Hp) in Hfind. discriminate Hfind. }
  destruct (Web_target hypot (WebPaths.passable this) to) as [t|] eqn:Ht.
  2:{ rewrite (find_no_vertex fuel this from to r rest Hp Ht) in Hfind.
      discriminate Hfind. }
  destruct (Web.intersects (WebPaths.passable this) from t) eqn:Hi.
  2:{ rewrite (Web_find_direct hypot fuel this from to t) in Hfind;
        [|rewrite Hp; discriminate|exact Ht|exact Hi].
      injection Hfind as <- <- _. contradiction. }
  pose proof (find_run fuel this from to t r rest Hv Hp Ht Hi) as Hrun.
  cbv zeta in Hrun. rewrite Hfind in Hrun. cbn [fst] in Hrun.
  destruct Hrun as [[Hnil _]|(p & Hgp & Hpath & Hopt)]; [discriminate Hnil|].
  assert (Et : t = target).
  { rewrite rev_app_distr in Hpath. cbn [rev app] in Hpath. congruence. }
  subst t.
  assert (Ewalk : from :: rev (target :: route)
                  = from :: map (Web_point_at wps) p ++ [target]).
  { rewrite Hpath, rev_involutive. reflexivity. }
  split; [reflexivity|]. split; [exists p; split; assumption|].
  intros l Hl. rewrite Ewalk. apply Hopt. exact Hl.
Qed.

(** [find] raises no error on a state that [init] and [find] built. *)
Lemma Web_find_no_error (this : WebPaths.Paths) :
  initialized hypot this ->
  forall fuel from to, fst (WebPaths.find hypot fuel this from to) <> TypeError.
Proof.
  intros Hinit fuel from to.
  pose proof (initialized_valid hypot this Hinit) as Hv.
  destruct (passable_cases this) as [Hp|(r & rest & Hp)].
  { rewrite (find_empty fuel this from to Hp). discriminate. }
  destruct (initialized_target this to r rest Hinit Hp) as [t Ht].
  destruct (Web.intersects (WebPaths.passable this) from t) eqn:Hi.
  2:{ rewrite (Web_find_direct hypot fuel this from to t);
        [discriminate|rewrite Hp; discriminate|exact Ht|exact Hi]. }
  pose proof (find_run fuel this from to t r rest Hv Hp Ht Hi) as Hrun.
  cbv zeta in Hrun. intros E. rewrite E in Hrun. exact Hrun.
Qed.

(** With fuel for every sightline [find] returns, and the list it returns
    is empty exactly when the region is empty, or when the target is out of
    sight and the graph has no path to it. *)
Lemma Web_find_returns (this : WebPaths.Paths) :
  initialized hypot this ->
  forall fuel from to,
    (length (WebPaths.waypoints this)
     + length (WebPaths.waypoints this) * length (WebPaths.waypoints this) < fuel)%nat ->
    exists path,
      fst (WebPaths.find hypot fuel this from to) = Returned path
      /\ (path = [] <->
          WebPaths.passable this = []
          \/ exists target,
               Web_target hypot (WebPaths.passable this) to = Some target
               /\ Web.intersects (WebPaths.passable this) from target = true
               /\ forall l, ~ GraphPath (Web_graph hypot (WebPaths.passable this) from target
                                           (WebPaths.waypoints this)) l).
Proof.
  intros Hinit fuel from to Hfuel.
  pose proof (initialized_valid hypot this Hinit) as Hv.
  destruct (passable_cases this) as [Hp|(r & rest & Hp)].
  { exists []. rewrite (find_empty fuel this from to Hp). split; [reflexivity|].
    split; [left; exact Hp|reflexivity]. }
  destruct (initialized_target this to r rest Hinit Hp) as [t Ht].
  destruct (Web.intersects (WebPaths.passable this) from t) eqn:Hi.
  2:{ exists [t]. rewrite (Web_find_direct hypot fuel this from to t);
        [|rewrite Hp; discriminate|exact Ht|exact Hi].
      split; [reflexivity|]. split; [discriminate|].
      intros [H|(t' & Ht' & Hi' & _)]; [congruence|].
      rewrite Ht in Ht'. injection Ht' as <-. congruence. }
  pose proof (find_run fuel this from to t r rest Hv Hp Ht Hi) as Hrun.
  cbv zeta in Hrun.
  destruct (fst (WebPaths.find hypot fuel this from to)) as [path| |];
    [|contradiction|lia].
  exists path. split; [reflexivity|].
  destruct Hrun as [[-> Hnone]|(p & Hgp & -> & Hopt)].
  + split; [|reflexivity]. intros _. right. exists t. auto.
  + split.
    * intros H. apply (f_equal (@rev Point)) in H. rewrite rev_involutive in H.
      destruct (map (Web_point_at (WebPaths.waypoints this)) p); discriminate H.
    * intros [H|(t' & Ht' & _ & Hnone)]; [congruence|].
      exfalso. rewrite Ht in Ht'. injection Ht' as <-. apply (Hnone p Hgp).
Qed.

End WebShortestPath.

(** ** The shortest path: the desktop port *)

Section DesktopShortestPath.

Context {Wt : Weight} {laws : WeightLaws Wt} (Length : Point -> W).

Hypothesis Length_triangle : forall a b, wle (Length (a +p b)) (wadd (Length a) (Length b)).
Hypothesis Length_neg : forall a, Length (Pt.neg a) = Length a.

Local Abbreviation Waypoint := (@DesktopPaths.Waypoint Wt).
Local Abbreviation point := (@DesktopPaths.point Wt).
Local Abbreviation sightlines := (@DesktopPaths.sightlines Wt).

(** [Find] works on coordinates scaled by [INTERNAL_SCALE], and divides the
    points it returns. *)
Definition scale_up (p : Point) : Point := Pt.mul p DesktopPaths.INTERNAL_SCALE.
Definition scale_down (p : Point) : Point := Pt.div p DesktopPaths.INTERNAL_SCALE.

Lemma Desktop_frame_fields (a b : list Waypoint) :
  map Desktop_frame a = map Desktop_frame b ->
  map point a = map point b /\ map sightlines a = map sightlines b.
Proof.
  intros H. split.
  - assert (E : map (fun x => fst (fst (fst x))) (map Desktop_frame a)
                = map (fun x => fst (fst (fst x))) (map Desktop_frame b))
      by (rewrite H; reflexivity).
    rewrite !map_map in E. exact E.
  - assert (E : map (fun x => snd (fst (fst x))) (map Desktop_frame a)
                = map (fun x => snd (fst (fst x))) (map Desktop_frame b))
      by (rewrite H; reflexivity).
    rewrite !map_map in E. exact E.
Qed.

Lemma Desktop_point_at_ext (a b : list Waypoint) i :
  map point a = map point b -> Desktop_point_at a i = Desktop_point_at b i.
Proof.
  intros H. unfold Desktop_point_at.
  assert (E : option_map point (nth_error a i) = option_map point (nth_error b i)).
  { rewrite <- !nth_error_map, H. reflexivity. }
  destruct (nth_error a i), (nth_error b i); try discriminate E; [|reflexivity].
  cbn in E. congruence.
Qed.

Lemma Desktop_graph_ext rings from target (a b : list Waypoint) :
  map point a = map point b -> map sightlines a = map sightlines b ->
  Graph_eqv (Desktop_graph Length rings from target a)
            (Desktop_graph Length rings from target b).
Proof.
  intros Hp Hs. constructor; intros; cbn [g_count g_heur g_start g_sees_target g_sees_start
                                            g_sight g_weight Desktop_graph];
    rewrite ?(Desktop_point_at_ext a b _ Hp); try reflexivity.
  - rewrite <- (length_map point a), Hp. apply length_map.
  - assert (E : option_map sightlines (nth_error a i) = option_map sightlines (nth_error b i)).
    { rewrite <- !nth_error_map, Hs. reflexivity. }
    destruct (nth_error a i), (nth_error b i); try discriminate E; [|reflexivity].
    cbn in E. congruence.
Qed.

Lemma CalculateDistances_fields rings target (wps : list Waypoint) :
  map point (DesktopPaths.CalculateDistances Length rings target wps) = map point wps
  /\ map sightlines (DesktopPaths.CalculateDistances Length rings target wps)
     = map sightlines wps.
Proof. unfold DesktopPaths.CalculateDistances. rewrite !map_map. split; reflexivity. Qed.

Lemma Desktop_line_count_ext (a b : list Waypoint) :
  map sightlines a = map sightlines b -> Desktop_line_count a = Desktop_line_count b.
Proof.
  intros H. unfold Desktop_line_count.
  rewrite <- (map_map sightlines (@length _) a), <- (map_map sightlines (@length _) b), H.
  reflexivity.
Qed.

(** *** [Find] runs the search *)

Lemma Desktop_Find_search fuel (this : DesktopPaths.Paths) from to r rest :
  DesktopPaths.passable this = r :: rest ->
  let rings := DesktopPaths.passable this in
  let target := Desktop_target rings to in
  DesktopPaths.Visible rings (scale_up from) target = false ->
  let wps0 := DesktopPaths.CalculateDistances Length rings target (DesktopPaths.waypoints this) in
  let s := fold_left (DesktopPaths.seed_step Length rings (scale_up from))
             (seq 0 (length wps0)) (wps0, []) in
  DesktopPaths.Find Length fuel this from to
  = Desktop_search_result target fuel (fst s) (snd s).
Proof.
  intros Hp rings target Hvis wps0 s. unfold DesktopPaths.Find.
  subst s wps0 target rings. unfold Desktop_target, scale_up in *.
  destruct (DesktopPaths.passable this) as [|r0 rest0] eqn:Hp0; [discriminate Hp|].
  rewrite Hvis.
  destruct (fold_left _ _ _) as [wps1 queue1]. cbn [fst snd].
  unfold Desktop_search_result. reflexivity.
Qed.

Lemma Desktop_Find_empty fuel (this : DesktopPaths.Paths) from to :
  DesktopPaths.passable this = [] ->
  DesktopPaths.Find Length fuel this from to = Some ([], DesktopPaths.waypoints this).
Proof. intros Hp. unfold DesktopPaths.Find. rewrite Hp. reflexivity. Qed.

Lemma Desktop_Find_visible fuel (this : DesktopPaths.Paths) from to r rest :
  DesktopPaths.passable this = r :: rest ->
  DesktopPaths.Visible (DesktopPaths.passable this) (scale_up from)
    (Desktop_target (DesktopPaths.passable this) to) = true ->
  DesktopPaths.Find Length fuel this from to
  = Some ([scale_down (Desktop_target (DesktopPaths.passable this) to)],
          DesktopPaths.waypoints this).
Proof.
  intros Hp Hvis. apply Desktop_Find_direct; [rewrite Hp; discriminate|exact Hvis].
Qed.

(** When the target is out of sight: with fuel for every sightline the
    search returns; it returns the empty list exactly when the graph has no
    path, and a shortest path of the graph, last point first and scaled
    down, otherwise. *)
Lemma Desktop_Find_run fuel (this : DesktopPaths.Paths) from to r rest :
  Desktop_lines_ok Length (DesktopPaths.waypoints this) ->
  DesktopPaths.passable this = r :: rest ->
  let rings := DesktopPaths.passable this in
  let wps := DesktopPaths.waypoints this in
  let target := Desktop_target rings to in
  let graph := Desktop_graph Length rings (scale_up from) target wps in
  DesktopPaths.Visible rings (scale_up from) target = false ->
  match DesktopPaths.Find Length fuel this from to with
  | Some (path, wps') =>
      (map point wps' = map point wps /\ map sightlines wps' = map sightlines wps)
      /\ ((path = [] /\ forall l, ~ GraphPath graph l)
          \/ (exists p, GraphPath graph p
              /\ path = map scale_down (rev (map (Desktop_point_at wps) p ++ [target]))
              /\ forall l, GraphPath graph l ->
                   wle (path_length (DesktopPaths.Distance Length)
                          (scale_up from :: map (Desktop_point_at wps) p ++ [target]))
                       (path_length (DesktopPaths.Distance Length)
                          (scale_up from :: map (Desktop_point_at wps) l ++ [target]))))
  | None => (fuel <= length wps + Desktop_line_count wps)%nat
  end.
Proof.
  intros Hok Hp rings wps target graph Hvis.
  rewrite (Desktop_Find_search fuel this from to r rest Hp Hvis).
  fold rings wps target.
  set (start := scale_up from) in *.
  set (wps0 := DesktopPaths.CalculateDistances Length rings target wps).
  destruct (CalculateDistances_fields rings target wps) as [Hpts Hsl]. fold wps0 in Hpts, Hsl.
  assert (Hframe0 : forall i w, nth_error wps0 i = Some w ->
            DesktopPaths.distance w = DesktopPaths.Distance Length target (DesktopPaths.point w)
            /\ DesktopPaths.visible w
               = DesktopPaths.Visible rings (DesktopPaths.point w) target).
  { intros i w Hw. unfold wps0, DesktopPaths.CalculateDistances in Hw.
    rewrite nth_error_map in Hw. destruct (nth_error wps i); [|discriminate Hw].
    injection Hw as <-. split; reflexivity. }
  assert (Hfresh : forall i w, nth_error wps0 i = Some w -> DesktopPaths.shortest w = Infinity).
  { intros i w Hw. unfold wps0, DesktopPaths.CalculateDistances in Hw.
    rewrite nth_error_map in Hw. destruct (nth_error wps i); [|discriminate Hw].
    injection Hw as <-. reflexivity. }
  assert (Hok0 : Desktop_lines_ok Length wps0).
  { apply (Desktop_lines_ok_ext Length wps wps0); [symmetry; exact Hpts|symmetry; exact Hsl|].
    exact Hok. }
  pose proof (Desktop_seed_fold_inv Length rings start target wps0 Hframe0 (length wps0)
                Hfresh (Nat.le_refl _)) as Hseed.
  set (s := fold_left (DesktopPaths.seed_step Length rings start) (seq 0 (length wps0))
              (wps0, [])) in *.
  pose proof (Desktop_seeded_inv Length rings start target wps0 (fst s) (snd s) Hseed) as HI.
  pose proof (Desktop_search_result_spec Length Length_triangle Length_neg rings start target
                wps0 Hframe0 Hok0 fuel (fst s) (snd s) HI) as Hres.
  assert (Hn : length wps0 = length wps).
  { unfold wps0, DesktopPaths.CalculateDistances. apply length_map. }
  pose proof (Desktop_graph_ext rings start target wps0 wps Hpts Hsl) as Heqv.
  fold graph in Heqv.
  assert (Hlen : forall l, GraphPath graph l ->
            path_length (DesktopPaths.Distance Length)
              (start :: map (Desktop_point_at wps) l ++ [target])
            = graph_length (Desktop_graph Length rings start target wps0) l).
  { intros l [Hl _].
    assert (Hl0 : l <> []) by (destruct l; [destruct Hl|discriminate]).
    rewrite <- (Desktop_graph_length Length Length_neg rings start target wps0 l Hl0).
    do 3 f_equal. apply map_ext. intros i. symmetry. apply Desktop_point_at_ext. exact Hpts. }
  destruct (Desktop_search_result target fuel (fst s) (snd s)) as [[path wps']|].
  - destruct Hres as [Hframe Hres].
    destruct (Desktop_frame_fields wps' wps0 Hframe) as [Hp' Hs'].
    split; [split; [rewrite Hp'; exact Hpts|rewrite Hs'; exact Hsl]|].
    destruct Hres as [[-> Hnone]|(p & Hp1 & -> & Hopt)].
    + left. split; [reflexivity|]. intros l Hl.
      apply (Hnone l). apply (GraphPath_eqv _ _ l (Graph_eqv_sym _ _ Heqv) Hl).
    + right. exists p.
      assert (Hgp : GraphPath graph p) by (apply (GraphPath_eqv _ _ p Heqv Hp1)).
      split; [exact Hgp|].
      split.
      { unfold scale_down. do 3 f_equal. apply map_ext. intros i.
        apply Desktop_point_at_ext. exact Hpts. }
      intros l Hl. rewrite (Hlen l Hl), (Hlen p Hgp).
      apply Hopt. apply (GraphPath_eqv _ _ l (Graph_eqv_sym _ _ Heqv) Hl).
  - destruct Hseed as (_ & _ & _ & Hq & _).
    rewrite (Desktop_line_count_ext wps0 wps Hsl) in Hres. rewrite Hn in *. lia.
Qed.

(** *** The states of a Paths object *)

(** What [Init] builds, and what calls of [Find] leave in the [mutable]
    fields. *)
Inductive Desktop_initialized : DesktopPaths.Paths -> Prop :=
| Desktop_initialized_Init masks p this :
    DesktopPaths.Init Length masks p = Some this -> Desktop_initialized this
| Desktop_initialized_Find fuel this from to path wps' :
    Desktop_initialized this ->
    DesktopPaths.Find Length fuel this from to = Some (path, wps') ->
    Desktop_initialized (DesktopPaths.mkPaths (DesktopPaths.passable this) wps').

Lemma Desktop_passable_cases (this : DesktopPaths.Paths) :
  DesktopPaths.passable this = []
  \/ exists r rest, DesktopPaths.passable this = r :: rest.
Proof.
  destruct (DesktopPaths.passable this) as [|r rest]; [left|right; exists r, rest];
    reflexivity.
Qed.

Lemma Desktop_Find_state fuel (this : DesktopPaths.Paths) from to path wps' :
  Desktop_lines_ok Length (DesktopPaths.waypoints this) ->
  DesktopPaths.Find Length fuel this from to = Some (path, wps') ->
  Desktop_lines_ok Length wps'.
Proof.
  intros Hok Hfind.
  destruct (Desktop_passable_cases this) as [Hp|(r & rest & Hp)].
  { rewrite (Desktop_Find_empty fuel this from to Hp) in Hfind.
    injection Hfind as _ <-. exact Hok. }
  destruct (DesktopPaths.Visible (DesktopPaths.passable this) (scale_up from)
              (Desktop_target (DesktopPaths.passable this) to)) eqn:Hvis.
  { rewrite (Desktop_Find_visible fuel this from to r rest Hp Hvis) in Hfind.
    injection Hfind as _ <-. exact Hok. }
  pose proof (Desktop_Find_run fuel this from to r rest Hok Hp Hvis) as Hrun.
  rewrite Hfind in Hrun. destruct Hrun as [[H1 H2] _].
  apply (Desktop_lines_ok_ext Length (DesktopPaths.waypoints this) wps');
    [symmetry; exact H1|symmetry; exact H2|exact Hok].
Qed.

Lemma Desktop_initialized_lines (this : DesktopPaths.Paths) :
  Desktop_initialized this -> Desktop_lines_ok Length (DesktopPaths.waypoints this).
Proof.
  induction 1 as [masks p this Hinit|fuel this from to path wps' _ IH Hfind].
  - apply (Init_lines_ok Length Length_neg masks p this Hinit).
  - cbn [DesktopPaths.waypoints]. apply (Desktop_Find_state fuel this from to path wps' IH Hfind).
Qed.

(** The path that the search returns is the scaled-down image of a path
    of the visibility graph from the start to the target, and no path of
    the graph between these two points is shorter. *)
Lemma Desktop_Find_optimal (this : DesktopPaths.Paths) :
  Desktop_initialized this ->
  forall fuel from to first route wps',
    DesktopPaths.Find Length fuel this from to = Some (first :: route, wps') ->
    route <> [] ->
    let rings := DesktopPaths.passable this in
    let wps := DesktopPaths.waypoints this in
    let target := Desktop_target rings to in
    let graph := Desktop_graph Length rings (scale_up from) target wps in
    exists p,
      GraphPath graph p
      /\ first :: route = map scale_down (rev (map (Desktop_point_at wps) p ++ [target]))
      /\ forall l, GraphPath graph l ->
           wle (path_length (DesktopPaths.Distance Length)
                  (scale_up from :: map (Desktop_point_at wps) p ++ [target]))
               (path_length (DesktopPaths.Distance Length)
                  (scale_up from :: map (Desktop_point_at wps) l ++ [target])).
Proof.
  intros Hinit fuel from to first route wps' Hfind Hroute rings wps target graph.
  pose proof (Desktop_initialized_lines this Hinit) as Hok.
  destruct (Desktop_passable_cases this) as [Hp|(r & rest & Hp)].
  { rewrite (Desktop_Find_empty fuel this from to Hp) in Hfind. discriminate Hfind. }
  destruct (DesktopPaths.Visible rings (scale_up from) target) eqn:Hvis.
  { rewrite (Desktop_Find_visible fuel this from to r rest Hp Hvis) in Hfind.
    injection Hfind as _ <- _. contradiction. }
  pose proof (Desktop_Find_run fuel this from to r rest Hok Hp Hvis) as Hrun.
  rewrite Hfind in Hrun. destruct Hrun as [_ [[Hnil _]|Hsome]]; [discriminate Hnil|].
  exact Hsome.
Qed.

(** With fuel for every sightline [Find] stays in the model, and the list
    it returns is empty exactly when the region is empty, or when the
    target is out of sight and the graph has no path to it. *)
Lemma Desktop_Find_returns (this : DesktopPaths.Paths) :
  Desktop_initialized this ->
  forall fuel from to,
    (length (DesktopPaths.waypoints this)
     + Desktop_line_count (DesktopPaths.waypoints this) < fuel)%nat ->
    let rings := DesktopPaths.passable this in
    let target := Desktop_target rings to in
    exists path wps',
      DesktopPaths.Find Length fuel this from to = Some (path, wps')
      /\ (path = [] <->
          rings = []
          \/ (DesktopPaths.Visible rings (scale_up from) target = false
              /\ forall l, ~ GraphPath (Desktop_graph Length rings (scale_up from) target
                                          (DesktopPaths.waypoints this)) l)).
Proof.
  intros Hinit fuel from to Hfuel rings target.
  pose proof (Desktop_initialized_lines this Hinit) as Hok.
  destruct (Desktop_passable_cases this) as [Hp|(r & rest & Hp)].
  { exists [], (DesktopPaths.waypoints this).
    split; [apply Desktop_Find_empty; exact Hp|].
    split; [left; exact Hp|reflexivity]. }
  destruct (DesktopPaths.Visible rings (scale_up from) target) eqn:Hvis.
  { exists [scale_down target], (DesktopPaths.waypoints this).
    split; [apply (Desktop_Find_visible fuel this from to r rest Hp Hvis)|].
    split; [discriminate|].
    intros [H|[H _]]; [unfold rings in H; congruence|discriminate H]. }
  pose proof (Desktop_Find_run fuel this from to r rest Hok Hp Hvis) as Hrun.
  destruct (DesktopPaths.Find Length fuel this from to) as [[path wps']|]; [|lia].
  exists path, wps'. split; [reflexivity|].
  destruct Hrun as [_ [[-> Hnone]|(p & Hgp & -> & _)]].
  - split; [|reflexivity]. intros _. right. split; [reflexivity|exact Hnone].
  - split.
    + rewrite rev_app_distr. cbn. discriminate.
    + intros [H|[_ Hnone]]; [unfold rings in H; congruence|].
      exfalso. apply (Hnone p Hgp).
Qed.

End DesktopShortestPath.

(** ** Shortest paths and empty results *)

Section FindClaims.

Context {Wt : Weight} {laws : WeightLaws Wt} (hypot : Point -> W).

Hypothesis hypot_triangle : forall a b, wle (hypot (a +p b)) (wadd (hypot a) (hypot b)).
Hypothesis hypot_neg : forall a, hypot (Pt.neg a) = hypot a.



End FindClaims.

(** *** A region with two waypoints *)

(** A U-shaped region: from one arm to the other the path runs around the
    two inner corners. *)
Definition ushape : list Point :=
  [mkPoint 0 0; mkPoint 30 0; mkPoint 30 20; mkPoint 20 20;
   mkPoint 20 10; mkPoint 10 10; mkPoint 10 20; mkPoint 0 20].

Definition ushape_paths : @WebPaths.Paths ZWeight :=
  WebPaths.init [Web.expand ushape] (mkPoint 5 5).

Definition ushape_desktop : @DesktopPaths.Paths ZWeight :=
  match @DesktopPaths.Init ZWeight taxicab [[ushape]] (mkPoint 5 5) with
  | Some this => this
  | None => DesktopPaths.mkPaths [] []
  end.

Lemma taxicab_triangle (a b : Point) :
  @wle ZWeight (taxicab (a +p b)) (@wadd ZWeight (taxicab a) (taxicab b)).
Proof.
  unfold wle, taxicab, Pt.add. cbn. apply Z.leb_le. lia.
Qed.

Lemma taxicab_neg (a : Point) : taxicab (Pt.neg a) = taxicab a.
Proof. unfold taxicab, Pt.neg. cbn. lia. Qed.

Lemma ushape_desktop_initialized : @Desktop_initialized ZWeight taxicab ushape_desktop.
Proof.
  apply (@Desktop_initialized_Init ZWeight taxicab [[ushape]] (mkPoint 5 5)).
  vm_compute. reflexivity.
Qed.



(** * Further properties of the geometry and of the path finder *)

(** ** Ring.cpp and Polygon.cpp: translation and scaling *)

Module DesktopOps.

(** [Ring::operator+=] and [Ring::operator+]. *)
Definition Ring_add (ring : Desktop.Ring) (offset : Point) : Desktop.Ring :=
  map (fun point => point +p offset) ring.

(** [Ring::operator-=]: [*this += -offset]. *)
Definition Ring_sub (ring : Desktop.Ring) (offset : Point) : Desktop.Ring :=
  Ring_add ring (Pt.neg offset).

(** [Ring::operator*=]. *)
Definition Ring_mul (ring : Desktop.Ring) (scale : Z) : Desktop.Ring :=
  map (fun point => Pt.mul point scale) ring.

(** [Ring::operator/=]. *)
Definition Ring_div (ring : Desktop.Ring) (scale : Z) : Desktop.Ring :=
  map (fun point => Pt.div point scale) ring.

(** [Polygon::operator+=], [-=], [*=] and [/=]. *)
Definition Polygon_add (this : Desktop.Polygon) (offset : Point) : Desktop.Polygon :=
  map (fun ring => Ring_add ring offset) this.

Definition Polygon_sub (this : Desktop.Polygon) (offset : Point) : Desktop.Polygon :=
  Polygon_add this (Pt.neg offset).

Definition Polygon_mul (this : Desktop.Polygon) (scale : Z) : Desktop.Polygon :=
  map (fun ring => Ring_mul ring scale) this.

Definition Polygon_div (this : Desktop.Polygon) (scale : Z) : Desktop.Polygon :=
  map (fun ring => Ring_div ring scale) this.

End DesktopOps.

(** ** polygon.js: the other methods of Polygon *)

Module WebOps.

(** [Polygon.add(point)]: the rings moved by [point]; only the vertices
    change, the edge vectors are copied. *)
Definition add_ring (ring : Web.Ring) (point : Point) : Web.Ring :=
  map (fun e => Web.mkEdge (Web.x e + X point) (Web.y e + Y point) (Web.dx e) (Web.dy e))
      ring.

Definition add (rings : Web.Polygon) (point : Point) : Web.Polygon :=
  map (fun ring => add_ring ring point) rings.

(** [Polygon.push(points)]: a ring is added without looking for
    intersections; an empty list of points adds nothing. *)
Definition push (rings : Web.Polygon) (points : list Point) : Web.Polygon :=
  match points with
  | [] => rings
  | _ :: _ => rings ++ [Web.expand points]
  end.

(** [Polygon.isEmpty()]. *)
Definition isEmpty (rings : Web.Polygon) : bool :=
  match rings with [] => true | _ :: _ => false end.

End WebOps.

Import DesktopOps.

Lemma Pt_add_sub p o : (p +p o) +p Pt.neg o = p.
Proof. destruct p, o; unfold Pt.add, Pt.neg; cbn; f_equal; lia. Qed.

Lemma Pt_mul_div p k : k <> 0 -> Pt.div (Pt.mul p k) k = p.
Proof.
  intros Hk. destruct p; unfold Pt.div, Pt.mul; cbn. f_equal; apply Z.quot_mul; exact Hk.
Qed.

(** *** The shoelace sum *)

Lemma chain_cross_add o s pts :
  chain_cross (s +p o) (map (fun p => p +p o) pts)
  = chain_cross s pts + Pt.Cross o (last pts s -p s).
Proof.
  revert s. induction pts as [|p rest IH]; intros s.
  - cbn. unfold Pt.Cross, Pt.sub. cbn. lia.
  - cbn [map chain_cross]. rewrite IH. rewrite last_cons_default.
    destruct (last rest p) as [lx ly], p, s, o. unfold Pt.Cross, Pt.sub, Pt.add. cbn. lia.
Qed.

Lemma chain_cross_mul k s pts :
  chain_cross (Pt.mul s k) (map (fun p => Pt.mul p k) pts) = k * k * chain_cross s pts.
Proof.
  revert s. induction pts as [|p rest IH]; intros s.
  - cbn. lia.
  - cbn [map chain_cross]. rewrite IH. destruct p, s. unfold Pt.Cross, Pt.mul. cbn. lia.
Qed.

Lemma Area2_chain ring :
  Desktop.Area2 ring = chain_cross (Desktop.back ring) ring.
Proof. unfold Desktop.Area2, Desktop.edges. rewrite Desktop_edges_sum. lia. Qed.

Lemma last_map {A B : Type} (f : A -> B) (l : list A) (d : A) :
  last (map f l) (f d) = f (last l d).
Proof.
  induction l as [|a l IH]; [reflexivity|].
  destruct l as [|b l]; [reflexivity|]. exact IH.
Qed.

Lemma back_add ring o : ring <> [] -> Desktop.back (Ring_add ring o) = Desktop.back ring +p o.
Proof.
  intros Hne. unfold Desktop.back, Ring_add. destruct ring as [|p rest]; [contradiction|].
  cbn [map]. rewrite !last_cons_default. apply (last_map (fun q => q +p o)).
Qed.

Lemma back_mul ring k : Desktop.back (Ring_mul ring k) = Pt.mul (Desktop.back ring) k.
Proof.
  unfold Desktop.back, Ring_mul.
  replace (mkPoint 0 0) with (Pt.mul (mkPoint 0 0) k) at 1
    by (unfold Pt.mul; cbn; f_equal; lia).
  apply (last_map (fun q => Pt.mul q k)).
Qed.

Lemma Area2_add ring o : Desktop.Area2 (Ring_add ring o) = Desktop.Area2 ring.
Proof.
  destruct ring as [|p rest]; [reflexivity|].
  rewrite !Area2_chain, back_add by discriminate.
  unfold Ring_add. rewrite chain_cross_add.
  unfold Desktop.back. rewrite last_cons_default.
  rewrite last_cons_default.
  unfold Pt.Cross, Pt.sub. cbn. lia.
Qed.

Lemma Area2_mul ring k : Desktop.Area2 (Ring_mul ring k) = k * k * Desktop.Area2 ring.
Proof. rewrite !Area2_chain, back_mul. apply chain_cross_mul. Qed.

(** The sum of the cross products along an open chain of points. *)
Definition path_cross (l : list Point) : Z :=
  match l with
  | [] => 0
  | s :: t => chain_cross s t
  end.

Lemma chain_cross_snoc s l p :
  chain_cross s (l ++ [p]) = chain_cross s l + Pt.Cross (last l s) p.
Proof.
  revert s. induction l as [|q l IH]; intros s.
  - cbn. lia.
  - cbn [app chain_cross]. rewrite IH, last_cons_default. lia.
Qed.

Lemma Cross_antisym a b : Pt.Cross a b = - Pt.Cross b a.
Proof. unfold Pt.Cross. lia. Qed.

Lemma last_rev_cons {A : Type} (l : list A) (a d : A) : last (rev (a :: l)) d = a.
Proof. cbn [rev]. apply last_last. Qed.

Lemma path_cross_rev l : path_cross (rev l) = - path_cross l.
Proof.
  induction l as [|s t IH]; [reflexivity|].
  destruct t as [|q r]; [reflexivity|].
  change (rev (s :: q :: r)) with (rev (q :: r) ++ [s]).
  destruct (rev (q :: r)) as [|h u] eqn:E.
  - apply (f_equal (@length Point)) in E. rewrite length_rev in E. discriminate E.
  - cbn [app path_cross] in *. rewrite chain_cross_snoc, IH.
    assert (Hl : last u h = q).
    { rewrite <- (last_cons_default h u q), <- E. apply last_rev_cons. }
    rewrite Hl. cbn [chain_cross]. rewrite (Cross_antisym q s). lia.
Qed.

Lemma Area2_path ring :
  Desktop.Area2 ring = Pt.Cross (Desktop.back ring) (Desktop.front ring) + path_cross ring.
Proof.
  rewrite Area2_chain. destruct ring as [|p rest]; [reflexivity|].
  cbn [chain_cross path_cross Desktop.front hd]. reflexivity.
Qed.

Lemma Area2_Reverse ring : Desktop.Area2 (Desktop.Reverse ring) = - Desktop.Area2 ring.
Proof.
  rewrite !Area2_path. unfold Desktop.Reverse. rewrite path_cross_rev.
  destruct ring as [|p rest]; [reflexivity|].
  assert (Hb : Desktop.back (rev (p :: rest)) = p) by apply last_rev_cons.
  assert (Hf : Desktop.front (rev (p :: rest)) = Desktop.back (p :: rest)).
  { unfold Desktop.front, Desktop.back.
    rewrite <- (rev_involutive (p :: rest)) at 2.
    destruct (rev (p :: rest)) as [|h u] eqn:E.
    - apply (f_equal (@length Point)) in E. rewrite length_rev in E. discriminate E.
    - cbn [hd]. apply eq_sym, last_rev_cons. }
  rewrite Hb, Hf. cbn [Desktop.front hd]. rewrite (Cross_antisym p). lia.
Qed.

(** Comparisons of halved integers. *)
Lemma Qltb_half a b :
  Qltb ((1 # 2) * inject_Z a) ((1 # 2) * inject_Z b) = (a <? b).
Proof.
  destruct (a <? b) eqn:E.
  - apply Qltb_lt. apply Z.ltb_lt in E. unfold Qlt, Qmult, inject_Z. cbn [Qnum Qden]. lia.
  - apply Z.ltb_ge in E. destruct (Qltb _ _) eqn:F; [|reflexivity].
    apply Qltb_lt in F. unfold Qlt, Qmult, inject_Z in F. cbn [Qnum Qden] in F. lia.
Qed.

Lemma Qltb_half_0 a : Qltb ((1 # 2) * inject_Z a) 0 = (a <? 0).
Proof.
  destruct (a <? 0) eqn:E.
  - apply Qltb_lt. apply Z.ltb_lt in E. unfold Qlt, Qmult, inject_Z. cbn [Qnum Qden]. lia.
  - apply Z.ltb_ge in E. destruct (Qltb _ _) eqn:F; [|reflexivity].
    apply Qltb_lt in F. unfold Qlt, Qmult, inject_Z in F. cbn [Qnum Qden] in F. lia.
Qed.

Lemma Qltb_0_half a : Qltb 0 ((1 # 2) * inject_Z a) = (0 <? a).
Proof.
  destruct (0 <? a) eqn:E.
  - apply Qltb_lt. apply Z.ltb_lt in E. unfold Qlt, Qmult, inject_Z. cbn [Qnum Qden]. lia.
  - apply Z.ltb_ge in E. destruct (Qltb _ _) eqn:F; [|reflexivity].
    apply Qltb_lt in F. unfold Qlt, Qmult, inject_Z in F. cbn [Qnum Qden] in F. lia.
Qed.

Lemma IsHole_Area2 ring : Desktop.IsHole ring = (Desktop.Area2 ring <? 0).
Proof. apply Qltb_half_0. Qed.

Lemma square_pos k : k <> 0 -> 0 < k * k.
Proof. nia. Qed.

Lemma ltb_scale c a b : 0 < c -> (c * a <? c * b) = (a <? b).
Proof.
  intros Hc. destruct (a <? b) eqn:E.
  - apply Z.ltb_lt in E. apply Z.ltb_lt. nia.
  - apply Z.ltb_ge in E. apply Z.ltb_ge. nia.
Qed.

Lemma leb_scale c a b : 0 < c -> (c * a <=? c * b) = (a <=? b).
Proof.
  intros Hc. destruct (a <=? b) eqn:E.
  - apply Z.leb_le in E. apply Z.leb_le. nia.
  - apply Z.leb_gt in E. apply Z.leb_gt. nia.
Qed.

Lemma ltb_scale_0l c a : 0 < c -> (0 <? c * a) = (0 <? a).
Proof. intros Hc. rewrite <- (ltb_scale c 0 a Hc). f_equal. lia. Qed.

Lemma ltb_scale_0r c a : 0 < c -> (c * a <? 0) = (a <? 0).
Proof. intros Hc. rewrite <- (ltb_scale c a 0 Hc). f_equal. lia. Qed.

Lemma eqb_scale c a : c <> 0 -> (c * a =? 0) = (a =? 0).
Proof.
  intros Hc. destruct (a =? 0) eqn:E.
  - apply Z.eqb_eq in E. apply Z.eqb_eq. nia.
  - apply Z.eqb_neq in E. apply Z.eqb_neq. nia.
Qed.

(** *** The edges of a moved ring *)

Definition Edge_add (o : Point) (e : Desktop.Edge) : Desktop.Edge :=
  Desktop.mkEdge (Desktop.Start e +p o) (Desktop.End e +p o) (Desktop.Vector e)
    (Desktop.Order e).

Definition Edge_mul (k : Z) (e : Desktop.Edge) : Desktop.Edge :=
  Desktop.mkEdge (Pt.mul (Desktop.Start e) k) (Pt.mul (Desktop.End e) k)
    (Pt.mul (Desktop.Vector e) k) (k * k * Desktop.Order e).

Lemma edges_from_add o s order pts :
  Desktop.edges_from (s +p o) order (map (fun p => p +p o) pts)
  = map (Edge_add o) (Desktop.edges_from s order pts).
Proof.
  revert s order. induction pts as [|p rest IH]; intros s order; [reflexivity|].
  cbn [map Desktop.edges_from].
  assert (Hv : (p +p o) -p (s +p o) = p -p s)
    by (destruct p, s, o; unfold Pt.add, Pt.sub; cbn; f_equal; lia).
  rewrite Hv, IH. reflexivity.
Qed.

Lemma edges_from_mul k s order pts :
  Desktop.edges_from (Pt.mul s k) (k * k * order) (map (fun p => Pt.mul p k) pts)
  = map (Edge_mul k) (Desktop.edges_from s order pts).
Proof.
  revert s order. induction pts as [|p rest IH]; intros s order; [reflexivity|].
  cbn [map Desktop.edges_from].
  assert (Hv : Pt.mul p k -p Pt.mul s k = Pt.mul (p -p s) k)
    by (destruct p, s; unfold Pt.mul, Pt.sub; cbn; f_equal; lia).
  rewrite Hv.
  replace (k * k * order + Pt.Dot (Pt.mul (p -p s) k) (Pt.mul (p -p s) k))
    with (k * k * (order + Pt.Dot (p -p s) (p -p s)))
    by (destruct p, s; unfold Pt.Dot, Pt.mul, Pt.sub; cbn; lia).
  rewrite IH. reflexivity.
Qed.

Lemma edges_add ring o :
  Desktop.edges (Ring_add ring o) = map (Edge_add o) (Desktop.edges ring).
Proof.
  destruct ring as [|p rest]; [reflexivity|].
  unfold Desktop.edges. rewrite back_add by discriminate. apply edges_from_add.
Qed.

Lemma edges_mul ring k :
  Desktop.edges (Ring_mul ring k) = map (Edge_mul k) (Desktop.edges ring).
Proof.
  unfold Desktop.edges. rewrite back_mul.
  replace 0 with (k * k * 0) at 1 by lia. apply edges_from_mul.
Qed.

Lemma fold_left_map {A B C : Type} (f : A -> C -> A) (g : B -> C) (l : list B) (a : A) :
  fold_left f (map g l) a = fold_left (fun acc b => f acc (g b)) l a.
Proof. revert a. induction l as [|b l IH]; intros a; [reflexivity|]. cbn. apply IH. Qed.

Lemma fold_left_ext_all {A B : Type} (f g : A -> B -> A) (l : list B) (a : A) :
  (forall acc b, f acc b = g acc b) -> fold_left f l a = fold_left g l a.
Proof.
  intros H. revert a. induction l as [|b l IH]; intros a; [reflexivity|].
  cbn. rewrite H. apply IH.
Qed.

(** *** Winding numbers *)

Lemma Winding_step_add o point acc e :
  Desktop.Winding_step (point +p o) acc (Edge_add o e) = Desktop.Winding_step point acc e.
Proof.
  unfold Desktop.Winding_step, Edge_add. destruct acc as [w b].
  cbn [Desktop.Start Desktop.End Desktop.Vector].
  assert (H1 : (Y (Desktop.Start e +p o) <=? Y (point +p o)) = (Y (Desktop.Start e) <=? Y point)).
  { unfold Pt.add. cbn. destruct (Y (Desktop.Start e) <=? Y point) eqn:E.
    - apply Z.leb_le in E. apply Z.leb_le. lia.
    - apply Z.leb_gt in E. apply Z.leb_gt. lia. }
  assert (H2 : (Y (Desktop.End e +p o) <=? Y (point +p o)) = (Y (Desktop.End e) <=? Y point)).
  { unfold Pt.add. cbn. destruct (Y (Desktop.End e) <=? Y point) eqn:E.
    - apply Z.leb_le in E. apply Z.leb_le. lia.
    - apply Z.leb_gt in E. apply Z.leb_gt. lia. }
  assert (H3 : (point +p o) -p (Desktop.Start e +p o) = point -p Desktop.Start e)
    by (destruct point, (Desktop.Start e), o; unfold Pt.add, Pt.sub; cbn; f_equal; lia).
  rewrite H1, H2, H3. reflexivity.
Qed.

Lemma Winding_step_mul k point acc e :
  0 < k ->
  Desktop.Winding_step (Pt.mul point k) acc (Edge_mul k e) = Desktop.Winding_step point acc e.
Proof.
  intros Hk. unfold Desktop.Winding_step, Edge_mul. destruct acc as [w b].
  cbn [Desktop.Start Desktop.End Desktop.Vector].
  assert (H1 : forall q, (Y (Pt.mul q k) <=? Y (Pt.mul point k)) = (Y q <=? Y point)).
  { intros q. unfold Pt.mul. cbn. rewrite !(Z.mul_comm _ k). apply leb_scale. exact Hk. }
  assert (H3 : Pt.Cross (Pt.mul (Desktop.Vector e) k) (Pt.mul point k -p Pt.mul (Desktop.Start e) k)
               = (k * k) * Pt.Cross (Desktop.Vector e) (point -p Desktop.Start e))
    by (destruct point, (Desktop.Start e), (Desktop.Vector e);
        unfold Pt.Cross, Pt.mul, Pt.sub; cbn; lia).
  assert (Hkk : 0 < k * k) by nia.
  rewrite !H1, H3.
  replace (0 <? k * k * Pt.Cross (Desktop.Vector e) (point -p Desktop.Start e))
    with (0 <? Pt.Cross (Desktop.Vector e) (point -p Desktop.Start e))
    by (rewrite <- (ltb_scale (k * k) 0 _ Hkk); f_equal; lia).
  replace (k * k * Pt.Cross (Desktop.Vector e) (point -p Desktop.Start e) <=? 0)
    with (Pt.Cross (Desktop.Vector e) (point -p Desktop.Start e) <=? 0)
    by (rewrite <- (leb_scale (k * k) _ 0 Hkk); f_equal; lia).
  rewrite eqb_scale by lia. reflexivity.
Qed.

Lemma Winding_add ring o point :
  Desktop.Winding (Ring_add ring o) (point +p o) = Desktop.Winding ring point.
Proof.
  unfold Desktop.Winding. rewrite edges_add, fold_left_map.
  apply fold_left_ext_all. intros acc e. apply Winding_step_add.
Qed.

Lemma Winding_mul ring k point :
  0 < k -> Desktop.Winding (Ring_mul ring k) (Pt.mul point k) = Desktop.Winding ring point.
Proof.
  intros Hk. unfold Desktop.Winding. rewrite edges_mul, fold_left_map.
  apply fold_left_ext_all. intros acc e. apply Winding_step_mul. exact Hk.
Qed.

Lemma Polygon_Contains_add this o point :
  Desktop.Polygon_Contains (Polygon_add this o) (point +p o)
  = Desktop.Polygon_Contains this point.
Proof.
  unfold Desktop.Polygon_Contains. generalize 0 as w.
  induction this as [|part rest IH]; intros w; [reflexivity|].
  cbn [Polygon_add map Desktop.Polygon_Contains_loop]. rewrite Winding_add.
  destruct (negb (snd (Desktop.Winding part point) =? 0)); [reflexivity|]. apply IH.
Qed.

Lemma Polygon_Contains_mul this k point :
  0 < k ->
  Desktop.Polygon_Contains (Polygon_mul this k) (Pt.mul point k)
  = Desktop.Polygon_Contains this point.
Proof.
  intros Hk. unfold Desktop.Polygon_Contains. generalize 0 as w.
  induction this as [|part rest IH]; intros w; [reflexivity|].
  cbn [Polygon_mul map Desktop.Polygon_Contains_loop]. rewrite Winding_mul by exact Hk.
  destruct (negb (snd (Desktop.Winding part point) =? 0)); [reflexivity|]. apply IH.
Qed.

(** *** Intersections with a segment *)

Lemma Intersects_edge_add o start qV e :
  Desktop.Intersects_edge (start +p o) qV (Edge_add o e) = Desktop.Intersects_edge start qV e.
Proof.
  unfold Desktop.Intersects_edge, Edge_add. cbn [Desktop.Start Desktop.Vector].
  replace ((start +p o) -p (Desktop.Start e +p o)) with (start -p Desktop.Start e)
    by (destruct start, (Desktop.Start e), o; unfold Pt.add, Pt.sub; cbn; f_equal; lia).
  reflexivity.
Qed.

Lemma Intersects_edge_mul k start qV e :
  k <> 0 ->
  Desktop.Intersects_edge (Pt.mul start k) (Pt.mul qV k) (Edge_mul k e)
  = Desktop.Intersects_edge start qV e.
Proof.
  intros Hk. assert (Hkk : 0 < k * k) by nia.
  unfold Desktop.Intersects_edge, Edge_mul. cbn [Desktop.Start Desktop.Vector].
  set (V := Desktop.Vector e). set (S := Desktop.Start e).
  assert (Hc : Pt.Cross (Pt.mul V k) (Pt.mul qV k) = k * k * Pt.Cross V qV)
    by (destruct V, qV; unfold Pt.Cross, Pt.mul; cbn; lia).
  assert (Hp : Pt.Cross (Pt.mul start k -p Pt.mul S k) (Pt.mul qV k)
               = k * k * Pt.Cross (start -p S) qV)
    by (destruct start, S, qV; unfold Pt.Cross, Pt.mul, Pt.sub; cbn; lia).
  assert (Hq : Pt.Cross (Pt.mul start k -p Pt.mul S k) (Pt.mul V k)
               = k * k * Pt.Cross (start -p S) V)
    by (destruct start, S, V; unfold Pt.Cross, Pt.mul, Pt.sub; cbn; lia).
  rewrite Hc, Hp, Hq. rewrite eqb_scale by lia.
  destruct (Pt.Cross V qV =? 0); [reflexivity|].
  replace (k * k * Pt.Cross V qV <? 0) with (Pt.Cross V qV <? 0)
    by (rewrite <- (ltb_scale (k * k) _ 0 Hkk); f_equal; lia).
  destruct (Pt.Cross V qV <? 0).
  - rewrite <- !Z.mul_opp_r.
    rewrite <- (ltb_scale (k * k) 0 (- Pt.Cross (start -p S) V) Hkk).
    rewrite (ltb_scale (k * k) _ _ Hkk), !(leb_scale (k * k) _ _ Hkk).
    replace (k * k * 0) with 0 by lia.
    rewrite <- (leb_scale (k * k) 0 (- Pt.Cross (start -p S) qV) Hkk).
    replace (k * k * 0) with 0 by lia. reflexivity.
  - rewrite <- (ltb_scale (k * k) 0 (Pt.Cross (start -p S) V) Hkk).
    rewrite (ltb_scale (k * k) _ _ Hkk), !(leb_scale (k * k) _ _ Hkk).
    replace (k * k * 0) with 0 by lia.
    rewrite <- (leb_scale (k * k) 0 (Pt.Cross (start -p S) qV) Hkk).
    replace (k * k * 0) with 0 by lia. reflexivity.
Qed.

Lemma existsb_map {A B : Type} (f : B -> bool) (g : A -> B) (l : list A) :
  existsb f (map g l) = existsb (fun a => f (g a)) l.
Proof. induction l as [|a l IH]; [reflexivity|]. cbn. rewrite IH. reflexivity. Qed.

Lemma existsb_ext_all {A : Type} (f g : A -> bool) (l : list A) :
  (forall a, f a = g a) -> existsb f l = existsb g l.
Proof. intros H. induction l as [|a l IH]; [reflexivity|]. cbn. rewrite H, IH. reflexivity. Qed.

Lemma existsb_ext_in {A : Type} (f g : A -> bool) (l : list A) :
  (forall a, In a l -> f a = g a) -> existsb f l = existsb g l.
Proof.
  intros H. induction l as [|a l IH]; [reflexivity|]. cbn.
  rewrite H by (left; reflexivity). rewrite IH; [reflexivity|].
  intros b Hb. apply H. right. exact Hb.
Qed.

Lemma Intersects_add this o a b :
  Desktop.Intersects (Polygon_add this o) (a +p o) (b +p o) = Desktop.Intersects this a b.
Proof.
  unfold Desktop.Intersects, Polygon_add.
  replace ((b +p o) -p (a +p o)) with (b -p a)
    by (destruct a, b, o; unfold Pt.add, Pt.sub; cbn; f_equal; lia).
  rewrite existsb_map. apply existsb_ext_all. intros part.
  rewrite edges_add, existsb_map. apply existsb_ext_all. intros e.
  apply Intersects_edge_add.
Qed.

Lemma Intersects_mul this k a b :
  k <> 0 ->
  Desktop.Intersects (Polygon_mul this k) (Pt.mul a k) (Pt.mul b k)
  = Desktop.Intersects this a b.
Proof.
  intros Hk. unfold Desktop.Intersects, Polygon_mul.
  replace (Pt.mul b k -p Pt.mul a k) with (Pt.mul (b -p a) k)
    by (destruct a, b; unfold Pt.mul, Pt.sub; cbn; f_equal; lia).
  rewrite existsb_map. apply existsb_ext_all. intros part.
  rewrite edges_mul, existsb_map. apply existsb_ext_all. intros e.
  apply Intersects_edge_mul. exact Hk.
Qed.

(** *** Flood fill *)

Lemma Area_half ring : Desktop.Area ring = ((1 # 2) * inject_Z (Desktop.Area2 ring))%Q.
Proof. reflexivity. Qed.

Lemma IsHole_nonempty ring : Qltb (Desktop.Area ring) 0 = true -> ring <> [].
Proof. intros H ->. vm_compute in H. discriminate H. Qed.

Section FloodFillMoved.

(** A motion of the plane, as it acts on rings and on points. *)
Variable T : Desktop.Ring -> Desktop.Ring.
Variable t : Point -> Point.

Hypothesis T_nil : T [] = [].
Hypothesis T_front : forall r, r <> [] -> Desktop.front (T r) = t (Desktop.front r).
Hypothesis T_Winding : forall r p, Desktop.Winding (T r) (t p) = Desktop.Winding r p.
Hypothesis T_pos : forall r, Qltb 0 (Desktop.Area (T r)) = Qltb 0 (Desktop.Area r).
Hypothesis T_neg : forall r, Qltb (Desktop.Area (T r)) 0 = Qltb (Desktop.Area r) 0.
Hypothesis T_lt : forall r r',
  Qltb (Desktop.Area (T r)) (Desktop.Area (T r')) = Qltb (Desktop.Area r) (Desktop.Area r').

Lemma T_Contains r p : Desktop.Contains (T r) (t p) = Desktop.Contains r p.
Proof. unfold Desktop.Contains. rewrite T_Winding. reflexivity. Qed.

Lemma T_ContainsRing r r' :
  r' <> [] -> Desktop.ContainsRing (T r) (T r') = Desktop.ContainsRing r r'.
Proof.
  intros Hne. unfold Desktop.ContainsRing.
  rewrite T_front by exact Hne. rewrite T_Winding, T_lt. reflexivity.
Qed.

Lemma nth_map_T (this : Desktop.Polygon) i : nth i (map T this) [] = T (nth i this []).
Proof. rewrite <- T_nil at 1. apply map_nth. Qed.

Lemma nth_areas (this : Desktop.Polygon) i :
  (i < length this)%nat ->
  nth i (map Desktop.Area this) 0%Q = Desktop.Area (nth i this []).
Proof.
  intros Hi. rewrite (nth_indep _ 0%Q (Desktop.Area [])) by (rewrite length_map; exact Hi).
  apply map_nth.
Qed.

Lemma smallest_step_moved this point kc s i :
  (i < length this)%nat -> (kc = true -> (s < length this)%nat) ->
  Desktop.FloodFill_smallest_step (map Desktop.Area (map T this)) (map T this) (t point)
    (kc, s) i
  = Desktop.FloodFill_smallest_step (map Desktop.Area this) this point (kc, s) i.
Proof.
  intros Hi Hs. unfold Desktop.FloodFill_smallest_step.
  assert (HiT : (i < length (map T this))%nat) by (rewrite length_map; exact Hi).
  rewrite (nth_areas (map T this) i HiT), (nth_areas this i Hi).
  rewrite nth_map_T, T_pos, T_Contains.
  destruct kc; cbn [negb orb].
  - assert (Hs' : (s < length this)%nat) by (apply Hs; reflexivity).
    assert (HsT : (s < length (map T this))%nat) by (rewrite length_map; exact Hs').
    rewrite (nth_areas (map T this) s HsT), (nth_areas this s Hs').
    rewrite nth_map_T, T_lt. reflexivity.
  - rewrite !andb_true_r. reflexivity.
Qed.

Lemma smallest_fold_moved this point l kc s :
  (forall i, In i l -> (i < length this)%nat) -> (kc = true -> (s < length this)%nat) ->
  fold_left (Desktop.FloodFill_smallest_step (map Desktop.Area (map T this)) (map T this)
               (t point)) l (kc, s)
  = fold_left (Desktop.FloodFill_smallest_step (map Desktop.Area this) this point) l (kc, s).
Proof.
  revert kc s. induction l as [|i l IH]; intros kc s Hl Hs; [reflexivity|].
  cbn [fold_left]. rewrite smallest_step_moved by (auto; apply Hl; left; reflexivity).
  destruct (Desktop.FloodFill_smallest_step (map Desktop.Area this) this point (kc, s) i)
    as [kc' s'] eqn:E.
  apply IH; [intros j Hj; apply Hl; right; exact Hj|].
  unfold Desktop.FloodFill_smallest_step in E.
  destruct (_ && _ && _) in E; injection E as <- <-; [intros _; apply Hl; left; reflexivity|exact Hs].
Qed.

Lemma smallest_fold_range this point l kc s kc' s' :
  (forall i, In i l -> (i < length this)%nat) -> (kc = true -> (s < length this)%nat) ->
  fold_left (Desktop.FloodFill_smallest_step (map Desktop.Area this) this point) l (kc, s)
  = (kc', s') ->
  kc' = true -> (s' < length this)%nat.
Proof.
  revert kc s. induction l as [|i l IH]; intros kc s Hl Hs E.
  - cbn in E. injection E as <- <-. exact Hs.
  - cbn [fold_left] in E.
    destruct (Desktop.FloodFill_smallest_step (map Desktop.Area this) this point (kc, s) i)
      as [kc1 s1] eqn:E1.
    apply (IH kc1 s1); [intros j Hj; apply Hl; right; exact Hj| |exact E].
    unfold Desktop.FloodFill_smallest_step in E1.
    destruct (_ && _ && _) in E1; injection E1 as <- <-;
      [intros _; apply Hl; left; reflexivity|exact Hs].
Qed.

Lemma nested_moved this i :
  (i < length this)%nat -> nth i this [] <> [] ->
  Desktop.FloodFill_nested (map Desktop.Area (map T this)) (map T this) i
  = Desktop.FloodFill_nested (map Desktop.Area this) this i.
Proof.
  intros Hi Hne. unfold Desktop.FloodFill_nested. rewrite length_map.
  apply existsb_ext_in. intros j Hj. apply in_seq in Hj.
  assert (Hj' : (j < length this)%nat) by (destruct Hj as [_ Hj]; exact Hj).
  assert (HjT : (j < length (map T this))%nat) by (rewrite length_map; exact Hj').
  assert (HiT : (i < length (map T this))%nat) by (rewrite length_map; exact Hi).
  rewrite (nth_areas (map T this) j HjT), (nth_areas (map T this) i HiT),
    (nth_areas this j Hj'), (nth_areas this i Hi).
  rewrite !nth_map_T, T_lt, T_front by exact Hne. rewrite T_Contains. reflexivity.
Qed.

Lemma FloodFill_moved this point :
  Desktop.FloodFill (map T this) (t point) = map T (Desktop.FloodFill this point).
Proof.
  unfold Desktop.FloodFill. rewrite length_map.
  rewrite smallest_fold_moved
    by (try discriminate; intros i Hi; apply in_seq in Hi; lia).
  destruct (fold_left _ (seq 0 (length this)) (false, 0%nat)) as [kc s] eqn:E.
  destruct kc; cbn [negb]; [|reflexivity].
  assert (Hs : (s < length this)%nat).
  { apply (smallest_fold_range this point (seq 0 (length this)) false 0%nat true s);
      try discriminate; try reflexivity; [|exact E].
    intros i Hi. apply in_seq in Hi. lia. }
  rewrite (filter_ext_in _
             (fun i => (i =? s)%nat
                       || (Qltb (nth i (map Desktop.Area this) 0%Q) 0
                           && Desktop.ContainsRing (nth s this []) (nth i this [])
                           && negb (Desktop.FloodFill_nested (map Desktop.Area this) this i)))).
  - rewrite map_map. apply map_ext. intros i. apply nth_map_T.
  - intros i Hi. apply in_seq in Hi. f_equal.
    assert (Hi' : (i < length this)%nat) by (destruct Hi as [_ Hi]; exact Hi).
    assert (HiT : (i < length (map T this))%nat) by (rewrite length_map; exact Hi').
    rewrite (nth_areas (map T this) i HiT), (nth_areas this i Hi').
    rewrite !nth_map_T, T_neg.
    destruct (Qltb (Desktop.Area (nth i this [])) 0) eqn:En; [|reflexivity].
    apply IsHole_nonempty in En.
    rewrite T_ContainsRing, nested_moved by auto. reflexivity.
Qed.

End FloodFillMoved.

Lemma front_add ring o : ring <> [] -> Desktop.front (Ring_add ring o) = Desktop.front ring +p o.
Proof. intros H. destruct ring; [contradiction|reflexivity]. Qed.

Lemma front_mul ring k : ring <> [] -> Desktop.front (Ring_mul ring k) = Pt.mul (Desktop.front ring) k.
Proof. intros H. destruct ring; [contradiction|reflexivity]. Qed.

Lemma Area_add ring o : Desktop.Area (Ring_add ring o) = Desktop.Area ring.
Proof. unfold Desktop.Area. rewrite Area2_add. reflexivity. Qed.

Lemma FloodFill_add this o point :
  Desktop.FloodFill (Polygon_add this o) (point +p o)
  = Polygon_add (Desktop.FloodFill this point) o.
Proof.
  apply (FloodFill_moved (fun r => Ring_add r o) (fun p => p +p o)).
  - reflexivity.
  - intros r Hr. apply front_add. exact Hr.
  - intros r p. apply Winding_add.
  - intros r. rewrite Area_add. reflexivity.
  - intros r. rewrite Area_add. reflexivity.
  - intros r r'. rewrite !Area_add. reflexivity.
Qed.

Lemma FloodFill_mul this k point :
  0 < k ->
  Desktop.FloodFill (Polygon_mul this k) (Pt.mul point k)
  = Polygon_mul (Desktop.FloodFill this point) k.
Proof.
  intros Hk. assert (Hkk : 0 < k * k) by nia.
  apply (FloodFill_moved (fun r => Ring_mul r k) (fun p => Pt.mul p k)).
  - reflexivity.
  - intros r Hr. apply front_mul. exact Hr.
  - intros r p. apply Winding_mul. exact Hk.
  - intros r. rewrite !Area_half, !Qltb_0_half, Area2_mul. apply ltb_scale_0l. exact Hkk.
  - intros r. rewrite !Area_half, !Qltb_half_0, Area2_mul. apply ltb_scale_0r. exact Hkk.
  - intros r r'. rewrite !Area_half, !Qltb_half, !Area2_mul. apply ltb_scale. exact Hkk.
Qed.

(** *** The web port: [Polygon.add] *)

Lemma windingNumber_step_add o px py acc e :
  Web.windingNumber_step (px + X o) (py + Y o) acc
    (Web.mkEdge (Web.x e + X o) (Web.y e + Y o) (Web.dx e) (Web.dy e))
  = Web.windingNumber_step px py acc e.
Proof.
  unfold Web.windingNumber_step. destruct acc as [w b].
  cbn [Web.x Web.y Web.dx Web.dy].
  replace (Web.y e + Y o =? py + Y o) with (Web.y e =? py)
    by (destruct (Web.y e =? py) eqn:E; symmetry;
        [apply Z.eqb_eq in E; apply Z.eqb_eq|apply Z.eqb_neq in E; apply Z.eqb_neq]; lia).
  replace (Web.x e + X o + Z.min 0 (Web.dx e) <=? px + X o)
    with (Web.x e + Z.min 0 (Web.dx e) <=? px)
    by (destruct (Web.x e + Z.min 0 (Web.dx e) <=? px) eqn:E; symmetry;
        [apply Z.leb_le in E; apply Z.leb_le|apply Z.leb_gt in E; apply Z.leb_gt]; lia).
  replace (px + X o <=? Web.x e + X o + Z.max 0 (Web.dx e))
    with (px <=? Web.x e + Z.max 0 (Web.dx e))
    by (destruct (px <=? Web.x e + Z.max 0 (Web.dx e)) eqn:E; symmetry;
        [apply Z.leb_le in E; apply Z.leb_le|apply Z.leb_gt in E; apply Z.leb_gt]; lia).
  replace (Web.y e + Y o <=? py + Y o) with (Web.y e <=? py)
    by (destruct (Web.y e <=? py) eqn:E; symmetry;
        [apply Z.leb_le in E; apply Z.leb_le|apply Z.leb_gt in E; apply Z.leb_gt]; lia).
  replace (Web.y e + Y o + Web.dy e <=? py + Y o) with (Web.y e + Web.dy e <=? py)
    by (destruct (Web.y e + Web.dy e <=? py) eqn:E; symmetry;
        [apply Z.leb_le in E; apply Z.leb_le|apply Z.leb_gt in E; apply Z.leb_gt]; lia).
  replace ((px + X o - (Web.x e + X o)) * Web.dy e - (py + Y o - (Web.y e + Y o)) * Web.dx e)
    with ((px - Web.x e) * Web.dy e - (py - Web.y e) * Web.dx e) by lia.
  reflexivity.
Qed.

Lemma windingNumber_add ring o px py :
  Web.windingNumber (WebOps.add_ring ring o) (px + X o) (py + Y o)
  = Web.windingNumber ring px py.
Proof.
  unfold Web.windingNumber, WebOps.add_ring. rewrite fold_left_map.
  apply fold_left_ext_all. intros acc e. apply windingNumber_step_add.
Qed.

Lemma Web_contains_add ring o p :
  Web.contains (WebOps.add_ring ring o) (p +p o) = Web.contains ring p.
Proof. unfold Web.contains. cbn [Pt.add X Y]. rewrite windingNumber_add. reflexivity. Qed.

Lemma Web_Polygon_contains_add rings o p :
  Web.Polygon_contains (WebOps.add rings o) (p +p o) = Web.Polygon_contains rings p.
Proof.
  unfold Web.Polygon_contains. generalize 0 as w.
  induction rings as [|ring rest IH]; intros w; [reflexivity|].
  cbn [WebOps.add map Web.Polygon_contains_loop]. cbn [Pt.add X Y].
  rewrite windingNumber_add.
  destruct (negb (snd (Web.windingNumber ring (X p) (Y p)) =? 0)); [reflexivity|].
  apply IH.
Qed.

Lemma intersects_edge_add o a b v pCross e :
  Web.intersects_edge (a +p o) (b +p o) v pCross
    (Web.mkEdge (Web.x e + X o) (Web.y e + Y o) (Web.dx e) (Web.dy e))
  = Web.intersects_edge a b v pCross e.
Proof.
  unfold Web.intersects_edge. cbn [Web.x Web.y Web.dx Web.dy Pt.add X Y].
  assert (Heq : forall u w c, (u + c =? w + c) = (u =? w)).
  { intros u w c. destruct (u =? w) eqn:E;
      [apply Z.eqb_eq in E; apply Z.eqb_eq|apply Z.eqb_neq in E; apply Z.eqb_neq]; lia. }
  rewrite !Heq.
  replace (X a + X o - (Web.x e + X o)) with (X a - Web.x e) by lia.
  replace (Y a + Y o - (Web.y e + Y o)) with (Y a - Web.y e) by lia.
  reflexivity.
Qed.

Lemma intersects_ring_add o a b v prev ring :
  Web.intersects_ring (a +p o) (b +p o) v prev (WebOps.add_ring ring o)
  = Web.intersects_ring a b v prev ring.
Proof.
  revert prev. induction ring as [|e rest IH]; intros prev; [reflexivity|].
  cbn [WebOps.add_ring map Web.intersects_ring]. fold (WebOps.add_ring rest o).
  rewrite intersects_edge_add. cbn [Web.dx Web.dy]. rewrite IH. reflexivity.
Qed.

Lemma first_prev_add v ring o :
  Web.first_prev v (WebOps.add_ring ring o) = Web.first_prev v ring.
Proof.
  destruct ring as [|e0 rest]; [reflexivity|].
  unfold WebOps.add_ring.
  set (f := fun e => Web.mkEdge (Web.x e + X o) (Web.y e + Y o) (Web.dx e) (Web.dy e)).
  transitivity ((Web.x (f e0) - Web.x (last (map f (e0 :: rest)) (f e0))) * Y v
                - (Web.y (f e0) - Web.y (last (map f (e0 :: rest)) (f e0))) * X v);
    [reflexivity|].
  rewrite (last_map f (e0 :: rest) e0). unfold f, Web.first_prev. cbn [Web.x Web.y]. lia.
Qed.

Lemma Web_intersects_add rings o a b :
  Web.intersects (WebOps.add rings o) (a +p o) (b +p o) = Web.intersects rings a b.
Proof.
  unfold Web.intersects, WebOps.add.
  replace ((b +p o) -p (a +p o)) with (b -p a)
    by (destruct a, b, o; unfold Pt.add, Pt.sub; cbn; f_equal; lia).
  rewrite existsb_map. apply existsb_ext_all. intros ring.
  rewrite first_prev_add. apply intersects_ring_add.
Qed.

(** [add] and [expand] commute: moving the vertices of a ring moves the
    expanded ring. *)
Lemma expand_from_add o first start pts :
  Web.expand_from (first +p o) (start +p o) (map (fun p => p +p o) pts)
  = WebOps.add_ring (Web.expand_from first start pts) o.
Proof.
  revert start. induction pts as [|e rest IH]; intros start.
  - cbn. f_equal. f_equal; lia.
  - cbn [map Web.expand_from WebOps.add_ring]. rewrite IH.
    unfold WebOps.add_ring. cbn [Pt.add X Y Web.x Web.y Web.dx Web.dy]. f_equal. f_equal; lia.
Qed.

Lemma expand_add o pts :
  Web.expand (map (fun p => p +p o) pts) = WebOps.add_ring (Web.expand pts) o.
Proof.
  destruct pts as [|p rest]; [reflexivity|]. cbn [map Web.expand]. apply expand_from_add.
Qed.

(** *** Moving and scaling: what the queries keep *)

(** X1: a translation is undone by the opposite translation, and a scaling
    by a factor other than zero is undone by the division by that factor,
    which is exact on the scaled coordinates. *)
Theorem Polygon_moves_undone (this : Desktop.Polygon) (offset : Point) (scale : Z) :
  Polygon_sub (Polygon_add this offset) offset = this
  /\ Polygon_add (Polygon_sub this offset) offset = this
  /\ (scale <> 0 -> Polygon_div (Polygon_mul this scale) scale = this).
Proof.
  unfold Polygon_sub, Polygon_add, Polygon_div, Polygon_mul, Ring_add, Ring_div, Ring_mul.
  split; [|split].
  - rewrite map_map. rewrite <- (map_id this) at 2. apply map_ext. intros ring.
    rewrite map_map. rewrite <- (map_id ring) at 2. apply map_ext. intros p.
    apply Pt_add_sub.
  - rewrite map_map. rewrite <- (map_id this) at 2. apply map_ext. intros ring.
    rewrite map_map. rewrite <- (map_id ring) at 2. apply map_ext. intros p.
    destruct p, offset. unfold Pt.add, Pt.neg. cbn. f_equal; lia.
  - intros Hk. rewrite map_map. rewrite <- (map_id this) at 2. apply map_ext. intros ring.
    rewrite map_map. rewrite <- (map_id ring) at 2. apply map_ext. intros p.
    apply Pt_mul_div. exact Hk.
Qed.

Lemma Polygon_moves_undone_witness :
  Polygon_div (Polygon_mul [square] 4) 4 = [square].
Proof. apply (Polygon_moves_undone [square] (mkPoint 0 0) 4). lia. Defined.



(** X3: reversing the order of the vertices negates the area of a ring, so
    a ring of non-zero area changes between solid and hole; reversing twice
    gives the ring back. *)
Theorem Reverse_negates_Area (ring : Desktop.Ring) :
  (Desktop.Area (Desktop.Reverse ring) == - Desktop.Area ring)%Q
  /\ (~ (Desktop.Area ring == 0)%Q ->
      Desktop.IsHole (Desktop.Reverse ring) = negb (Desktop.IsHole ring))
  /\ Desktop.Reverse (Desktop.Reverse ring) = ring.
Proof.
  split; [|split].
  - rewrite !Area_half, Area2_Reverse. rewrite inject_Z_opp. ring.
  - intros Hne. rewrite !IsHole_Area2, Area2_Reverse.
    assert (Hz : Desktop.Area2 ring <> 0).
    { intros E. apply Hne. rewrite Area_half, E. reflexivity. }
    destruct (Desktop.Area2 ring <? 0) eqn:E.
    + apply Z.ltb_lt in E. apply Z.ltb_ge. cbn [negb]. lia.
    + apply Z.ltb_ge in E. apply Z.ltb_lt. lia.
  - apply rev_involutive.
Qed.

Lemma Reverse_negates_Area_witness :
  Desktop.IsHole (Desktop.Reverse square) = negb (Desktop.IsHole square).
Proof.
  apply (Reverse_negates_Area square). intros H. vm_compute in H. discriminate H.
Defined.

(** X4: whether a point is inside does not change when the polygon and
    the point are moved together, or scaled together by a positive factor;
    the winding number and the border count of every ring are unchanged. *)
Theorem Contains_of_moved_polygon (this : Desktop.Polygon) (point offset : Point)
    (scale : Z) :
  (forall ring, Desktop.Winding (Ring_add ring offset) (point +p offset)
                = Desktop.Winding ring point)
  /\ Desktop.Polygon_Contains (Polygon_add this offset) (point +p offset)
     = Desktop.Polygon_Contains this point
  /\ (0 < scale ->
      (forall ring, Desktop.Winding (Ring_mul ring scale) (Pt.mul point scale)
                    = Desktop.Winding ring point)
      /\ Desktop.Polygon_Contains (Polygon_mul this scale) (Pt.mul point scale)
         = Desktop.Polygon_Contains this point)
  /\ (forall rings : Web.Polygon,
        Web.Polygon_contains (WebOps.add rings offset) (point +p offset)
        = Web.Polygon_contains rings point).
Proof.
  split; [intros ring; apply Winding_add|].
  split; [apply Polygon_Contains_add|]. split.
  - intros Hk. split; [intros ring; apply Winding_mul; exact Hk|].
    apply Polygon_Contains_mul. exact Hk.
  - intros rings. apply Web_Polygon_contains_add.
Qed.

Lemma Contains_of_moved_polygon_witness :
  Desktop.Polygon_Contains (Polygon_mul [square] 4) (Pt.mul (mkPoint 5 5) 4)
  = Desktop.Polygon_Contains [square] (mkPoint 5 5).
Proof.
  apply (Contains_of_moved_polygon [square] (mkPoint 5 5) (mkPoint 0 0) 4). lia.
Defined.

(** X5: whether a segment crosses the boundary does not change when the
    polygon and the segment are moved together, or scaled together by a
    factor other than zero. *)
Theorem Intersects_of_moved_polygon (this : Desktop.Polygon) (start end_ offset : Point)
    (scale : Z) :
  Desktop.Intersects (Polygon_add this offset) (start +p offset) (end_ +p offset)
  = Desktop.Intersects this start end_
  /\ (scale <> 0 ->
      Desktop.Intersects (Polygon_mul this scale) (Pt.mul start scale) (Pt.mul end_ scale)
      = Desktop.Intersects this start end_)
  /\ (forall rings : Web.Polygon,
        Web.intersects (WebOps.add rings offset) (start +p offset) (end_ +p offset)
        = Web.intersects rings start end_).
Proof.
  split; [apply Intersects_add|]. split.
  - intros Hk. apply Intersects_mul. exact Hk.
  - intros rings. apply Web_intersects_add.
Qed.

Lemma Intersects_of_moved_polygon_witness :
  Desktop.Intersects (Polygon_mul [square] 4) (Pt.mul (mkPoint 5 5) 4)
    (Pt.mul (mkPoint 15 5) 4)
  = Desktop.Intersects [square] (mkPoint 5 5) (mkPoint 15 5).
Proof.
  apply (Intersects_of_moved_polygon [square] (mkPoint 5 5) (mkPoint 15 5) (mkPoint 0 0) 4).
  lia.
Defined.



(** ** heap.js: the heap as a priority queue *)

Section HeapUse.

Context {A : Type} (sort : A -> A -> bool).

(** The elements in the order in which [pop] hands them out, until the heap
    is empty. *)
Fixpoint pop_all (fuel : nat) (elements : list A) : list A :=
  match fuel with
  | O => []
  | S fuel' =>
      match Heap.pop sort elements with
      | None => []
      | Some (top, rest) => top :: pop_all fuel' rest
      end
  end.

Hypothesis sort_asym : forall a b, sort a b = true -> sort b a = false.
Hypothesis hle_trans : forall a b c, hle sort a b -> hle sort b c -> hle sort a c.

Lemma pop_some (els : list A) : els <> [] -> exists top rest, Heap.pop sort els = Some (top, rest).
Proof.
  intros Hne. destruct (Heap.pop sort els) as [[top rest]|] eqn:E.
  - exists top, rest. reflexivity.
  - apply pop_none in E. contradiction.
Qed.

Lemma pop_all_sorted (fuel : nat) (els : list A) :
  heap_ok sort els -> length els = fuel ->
  Permutation (pop_all fuel els) els /\ StronglySorted (hle sort) (pop_all fuel els).
Proof.
  revert els. induction fuel as [|fuel IH]; intros els Hok Hlen.
  - destruct els; [|discriminate Hlen]. cbn. split; constructor.
  - cbn [pop_all]. destruct (Heap.pop sort els) as [[top rest]|] eqn:E.
    + destruct (pop_spec sort sort_asym hle_trans els rest top Hok E) as (Hrest & Hperm & Hmin).
      assert (Hl : length rest = fuel).
      { apply Permutation_length in Hperm. cbn in Hperm. lia. }
      destruct (IH rest Hrest Hl) as [Hp Hs].
      split.
      * rewrite Hperm. apply perm_skip. exact Hp.
      * constructor; [exact Hs|]. apply Forall_forall. intros y Hy.
        apply Hmin. apply (Permutation_in y (Permutation_sym Hperm)). right.
        apply (Permutation_in y Hp). exact Hy.
    + apply pop_none in E. subst els. discriminate Hlen.
Qed.

Lemma insert_all_ok (l els : list A) :
  heap_ok sort els ->
  heap_ok sort (fold_left (Heap.insert sort) l els)
  /\ Permutation (fold_left (Heap.insert sort) l els) (els ++ l).
Proof.
  revert els. induction l as [|x l IH]; intros els Hok.
  - cbn. rewrite app_nil_r. split; [exact Hok|reflexivity].
  - cbn [fold_left].
    destruct (insert_spec sort sort_asym hle_trans els x Hok) as [Hok' Hperm].
    destruct (IH _ Hok') as [H1 H2]. split; [exact H1|].
    rewrite H2, Hperm. cbn [app]. apply Permutation_middle.
Qed.

(** X7: [insert] keeps the heap order and adds exactly the new element:
    the array after the call holds the old elements and the new one, and no
    element sorts before its parent. *)
Theorem Heap_insert_keeps_order (els : list A) (x : A) :
  heap_ok sort els ->
  heap_ok sort (Heap.insert sort els x)
  /\ Permutation (Heap.insert sort els x) (x :: els)
  /\ Heap.empty (Heap.insert sort els x) = false.
Proof.
  intros Hok. destruct (insert_spec sort sort_asym hle_trans els x Hok) as [H1 H2].
  split; [exact H1|]. split; [exact H2|].
  destruct (Heap.insert sort els x); [|reflexivity].
  apply Permutation_length in H2. discriminate H2.
Qed.

(** X8: [pop] on an empty heap returns [undefined] and on any other heap
    it returns the first element, before which no element of the heap
    sorts; it removes exactly that element and keeps the heap order. *)
Theorem Heap_pop_returns_least (els : list A) :
  heap_ok sort els ->
  (Heap.pop sort els = None <-> Heap.empty els = true)
  /\ (forall top rest, Heap.pop sort els = Some (top, rest) ->
        nth_error els 0 = Some top
        /\ (forall y, In y els -> sort y top = false)
        /\ Permutation els (top :: rest)
        /\ heap_ok sort rest).
Proof.
  intros Hok. split.
  - rewrite pop_none. destruct els; cbn; split; intros H; try reflexivity; discriminate H.
  - intros top rest E.
    destruct (pop_spec sort sort_asym hle_trans els rest top Hok E) as (Hrest & Hperm & Hmin).
    split; [|split; [exact Hmin|split; assumption]].
    destruct els as [|t els0]; [discriminate E|]. unfold Heap.pop in E.
    destruct (removelast (t :: els0)); injection E as <- _; reflexivity.
Qed.

(** X9: the heap is a priority queue: after the elements of a list have
    been inserted one by one into an empty heap, popping until the heap is
    empty hands out the same elements in ascending order. *)
Theorem Heap_pops_in_order (l : list A) :
  let heap := fold_left (Heap.insert sort) l [] in
  let out := pop_all (length l) heap in
  Permutation out l
  /\ StronglySorted (fun a b => sort b a = false) out.
Proof.
  intros heap out.
  destruct (insert_all_ok l [] (heap_ok_nil sort)) as [Hok Hperm]. cbn [app] in Hperm.
  fold heap in Hok, Hperm.
  destruct (pop_all_sorted (length l) heap Hok) as [Hp Hs].
  - apply Permutation_length. exact Hperm.
  - split; [|exact Hs]. unfold out. rewrite Hp. exact Hperm.
Qed.

End HeapUse.

Lemma ltb_asym (a b : Z) : (a <? b) = true -> (b <? a) = false.
Proof. intros H. apply Z.ltb_lt in H. apply Z.ltb_ge. lia. Qed.

Lemma ltb_hle_trans (a b c : Z) : hle Z.ltb a b -> hle Z.ltb b c -> hle Z.ltb a c.
Proof. unfold hle. rewrite !Z.ltb_ge. lia. Qed.

Lemma heap_ok_small : heap_ok Z.ltb [1; 3; 2].
Proof.
  intros i x y Hi Hx Hy. unfold hle.
  destruct i as [|[|[|i]]]; [lia| | |destruct i; discriminate Hx];
    cbn in Hx, Hy; injection Hx as <-; injection Hy as <-; reflexivity.
Qed.

Lemma Heap_insert_keeps_order_witness :
  heap_ok Z.ltb [1; 3; 2]
  /\ heap_ok Z.ltb (Heap.insert Z.ltb [1; 3; 2] 0)
  /\ Permutation (Heap.insert Z.ltb [1; 3; 2] 0) [0; 1; 3; 2].
Proof.
  split; [exact heap_ok_small|].
  pose proof (Heap_insert_keeps_order Z.ltb ltb_asym ltb_hle_trans [1; 3; 2] 0 heap_ok_small)
    as (H1 & H2 & _).
  split; assumption.
Defined.

Lemma Heap_pop_returns_least_witness :
  Heap.pop Z.ltb [1; 3; 2] = Some (1, [2; 3])
  /\ Permutation [1; 3; 2] [1; 2; 3]
  /\ heap_ok Z.ltb [2; 3].
Proof.
  assert (E : Heap.pop Z.ltb [1; 3; 2] = Some (1, [2; 3])) by reflexivity.
  split; [exact E|].
  pose proof (proj2 (Heap_pop_returns_least Z.ltb ltb_asym ltb_hle_trans [1; 3; 2] heap_ok_small)
                1 [2; 3] E) as (_ & _ & H3 & H4).
  split; assumption.
Defined.

Lemma Heap_pops_in_order_witness :
  pop_all Z.ltb 4 (fold_left (Heap.insert Z.ltb) [3; 1; 2; 1] []) = [1; 1; 2; 3]
  /\ StronglySorted (fun a b => (b <? a) = false)
       (pop_all Z.ltb 4 (fold_left (Heap.insert Z.ltb) [3; 1; 2; 1] [])).
Proof.
  split; [reflexivity|].
  exact (proj2 (Heap_pops_in_order Z.ltb ltb_asym ltb_hle_trans [3; 1; 2; 1])).
Defined.

(** ** Union: the parts that the new ring leaves alone *)

(** The parts of P that Q neither crosses nor contains. *)
Definition Desktop_untouched (ring : Desktop.Ring) (this : Desktop.Polygon) : Desktop.Polygon :=
  filter (fun part => match Desktop.surviving part ring with
                      | [] => negb (Desktop.ContainsRing ring part)
                      | _ :: _ => false
                      end) this.

Definition Web_untouched (ring : Web.Ring) (this : Web.Polygon) : Web.Polygon :=
  filter (fun part => match Web.surviving part ring with
                      | [] => negb (Web.ringContainsRing ring part)
                      | _ :: _ => false
                      end) this.

Lemma Add_part_result ring st part :
  Desktop.result (Desktop.Add_part ring st part)
  = Desktop.result st ++ Desktop_untouched ring [part].
Proof.
  unfold Desktop.Add_part, Desktop_untouched. cbn [filter].
  destruct (Desktop.surviving part ring) as [|i0 its].
  - destruct (Desktop.ContainsRing ring part); cbn [negb Desktop.result].
    + rewrite app_nil_r. reflexivity.
    + reflexivity.
  - destruct (Desktop.amplify_part_outer _ _ _ _ _ _) as [qInts amp].
    cbn [Desktop.result]. rewrite app_nil_r. reflexivity.
Qed.

Lemma Add_fold_result ring this st :
  Desktop.result (fold_left (Desktop.Add_part ring) this st)
  = Desktop.result st ++ Desktop_untouched ring this.
Proof.
  revert st. induction this as [|part rest IH]; intros st.
  - cbn. rewrite app_nil_r. reflexivity.
  - cbn [fold_left]. rewrite IH, Add_part_result, <- app_assoc. f_equal.
    unfold Desktop_untouched. cbn [filter].
    destruct (match Desktop.surviving part ring with
              | [] => negb (Desktop.ContainsRing ring part)
              | _ :: _ => false
              end); reflexivity.
Qed.

Lemma Desktop_trace_all_spec fuel idx amp res res' :
  Desktop.trace_all fuel idx amp res = Some res' ->
  exists traced, res' = res ++ traced /\ Forall (fun out => (3 <= length out)%nat) traced.
Proof.
  revert amp res. induction idx as [|i rest IH]; intros amp res H.
  - cbn in H. injection H as <-. exists []. rewrite app_nil_r. split; constructor.
  - cbn [Desktop.trace_all] in H.
    destruct (Desktop.vertex_at amp i) as [vertex|]; [|discriminate H].
    destruct (Desktop.link vertex <? 0).
    + apply (IH _ _ H).
    + destruct (Desktop.trace fuel amp i i []) as [[amp' out]|]; [|discriminate H].
      destruct (length out <? 3)%nat eqn:El.
      * apply (IH _ _ H).
      * apply IH in H. destruct H as (traced & -> & Hall).
        exists (out :: traced). rewrite <- app_assoc. split; [reflexivity|].
        constructor; [|exact Hall]. apply Nat.ltb_ge in El. exact El.
Qed.

Lemma union_part_result ring st part :
  Web.result (Web.union_part ring st part) = Web.result st ++ Web_untouched ring [part].
Proof.
  unfold Web.union_part, Web_untouched. cbn [filter].
  destruct (Web.surviving part ring) as [|i0 its].
  - destruct (Web.ringContainsRing ring part); cbn [negb Web.result].
    + rewrite app_nil_r. reflexivity.
    + reflexivity.
  - destruct (Web.amplify _ _ _ _ _) as [qInts amp].
    cbn [Web.result]. rewrite app_nil_r. reflexivity.
Qed.

Lemma union_fold_result ring this st :
  Web.result (fold_left (Web.union_part ring) this st)
  = Web.result st ++ Web_untouched ring this.
Proof.
  revert st. induction this as [|part rest IH]; intros st.
  - cbn. rewrite app_nil_r. reflexivity.
  - cbn [fold_left]. rewrite IH, union_part_result, <- app_assoc. f_equal.
    unfold Web_untouched. cbn [filter].
    destruct (match Web.surviving part ring with
              | [] => negb (Web.ringContainsRing ring part)
              | _ :: _ => false
              end); reflexivity.
Qed.

Lemma Web_trace_all_spec fuel idx amp traced traced' :
  Web.trace_all fuel idx amp traced = Some traced' ->
  Forall (fun out => (3 <= length out)%nat) traced ->
  Forall (fun out => (3 <= length out)%nat) traced'.
Proof.
  revert amp traced. induction idx as [|i rest IH]; intros amp traced H Hall.
  - cbn in H. injection H as <-. exact Hall.
  - cbn [Web.trace_all] in H.
    destruct (nth_error amp i) as [l|]; [|discriminate H].
    destruct (Web.link l <? 0).
    + apply (IH _ _ H Hall).
    + destruct (Web.tracePolygon fuel amp i i []) as [[amp' out]|]; [|discriminate H].
      destruct (3 <=? length out)%nat eqn:El.
      * apply (IH _ _ H). apply Forall_app. split; [exact Hall|].
        constructor; [|constructor]. apply Nat.leb_le in El. exact El.
      * apply (IH _ _ H Hall).
Qed.

(** X10: a union never changes or reorders the parts of P that Q neither
    crosses nor contains: they are the front of the result, in their
    order.  What follows them is Q itself, nothing, or traced rings, and a
    traced ring has at least three vertices.  On an empty polygon the
    result is Q if Q is solid and nothing if Q is a hole. *)
Theorem union_leaves_untouched_parts :
  (forall (this : Desktop.Polygon) (ring : Desktop.Ring) (res : Desktop.Polygon),
     Desktop.Add this ring = Some res ->
     exists tail,
       res = Desktop_untouched ring this ++ tail
       /\ (tail = [] \/ tail = [ring]
           \/ Forall (fun out => (3 <= length out)%nat) tail))
  /\ (forall (this : Web.Polygon) (ring : Web.Ring),
        (forall rings, Web._union this ring = Some (Web.Rings rings) ->
           rings = Web_untouched ring this \/ rings = Web_untouched ring this ++ [ring])
        /\ (forall copied traced, Web._union this ring = Some (Web.Traced copied traced) ->
              copied = Web_untouched ring this
              /\ Forall (fun out => (3 <= length out)%nat) traced))
  /\ (forall ring : Desktop.Ring,
        Desktop.Add [] ring = Some (if Desktop.IsHole ring then [] else [ring]))
  /\ (forall ring : Web.Ring,
        Web._union [] ring = Some (Web.Rings (if Web.isHole ring then [] else [ring]))).
Proof.
  split; [|split; [|split]].
  - intros this ring res H. unfold Desktop.Add in H.
    pose proof (Add_fold_result ring this (Desktop.mkAddState [] [] [] None)) as Hres.
    cbn [Desktop.result app] in Hres.
    destruct (Desktop.qIntersections _) as [|q qs].
    + injection H as <-. rewrite Hres.
      destruct (negb _).
      * exists [ring]. auto.
      * exists []. rewrite app_nil_r. auto.
    + destruct (Desktop.amplify_ring_outer _ _ _ _ _) as [idx amp].
      apply Desktop_trace_all_spec in H. destruct H as (traced & -> & Hall).
      exists traced. rewrite Hres. auto.
  - intros this ring.
    pose proof (union_fold_result ring this (Web.mkUnionState [] [] [] None)) as Hres.
    cbn [Web.result app] in Hres. split.
    + intros rings H. unfold Web._union in H.
      destruct (Web.qIntersections _) as [|q qs].
      * injection H as <-. rewrite Hres. destruct (negb _); auto.
      * destruct (Web.amplify _ _ _ _ _) as [idx amp].
        destruct (Web.trace_all _ _ _ _); discriminate H.
    + intros copied traced H. unfold Web._union in H.
      destruct (Web.qIntersections _) as [|q qs]; [discriminate H|].
      destruct (Web.amplify _ _ _ _ _) as [idx amp].
      destruct (Web.trace_all _ _ _ _) as [traced'|] eqn:Et; [|discriminate H].
      cbn in H. injection H as <- <-. split; [exact Hres|].
      apply (Web_trace_all_spec _ _ _ _ _ Et). constructor.
  - intros ring. unfold Desktop.Add. cbn.
    destruct (Desktop.IsHole ring); reflexivity.
  - intros ring. unfold Web._union. cbn.
    destruct (Web.isHole ring); reflexivity.
Qed.

Lemma union_leaves_untouched_parts_witness :
  Desktop.Add [square; rect 20 0 30 10] (rect 5 5 15 15)
  = Some [rect 20 0 30 10;
          [mkPoint 5 10; mkPoint 0 10; mkPoint 0 0; mkPoint 10 0; mkPoint 10 5;
           mkPoint 15 5; mkPoint 15 15; mkPoint 5 15]]
  /\ exists tail,
       [rect 20 0 30 10;
        [mkPoint 5 10; mkPoint 0 10; mkPoint 0 0; mkPoint 10 0; mkPoint 10 5;
         mkPoint 15 5; mkPoint 15 15; mkPoint 5 15]]
       = Desktop_untouched (rect 5 5 15 15) [square; rect 20 0 30 10] ++ tail
       /\ (tail = [] \/ tail = [rect 5 5 15 15]
           \/ Forall (fun out => (3 <= length out)%nat) tail).
Proof.
  assert (E : Desktop.Add [square; rect 20 0 30 10] (rect 5 5 15 15)
              = Some [rect 20 0 30 10;
                      [mkPoint 5 10; mkPoint 0 10; mkPoint 0 0; mkPoint 10 0; mkPoint 10 5;
                       mkPoint 15 5; mkPoint 15 15; mkPoint 5 15]])
    by (vm_compute; reflexivity).
  split; [exact E|].
  exact (proj1 union_leaves_untouched_parts _ _ _ E).
Defined.

(** ** Segments seen from either end *)

Lemma inject_Z_sub a b : (inject_Z (a - b) == inject_Z a - inject_Z b)%Q.
Proof. unfold Z.sub. rewrite inject_Z_plus, inject_Z_opp. reflexivity. Qed.

Lemma meets_open_swap s e a b : meets_open s e a b -> meets_open e s a b.
Proof.
  unfold meets_open, meets_open_vec.
  intros (t & u & Ht0 & Ht1 & Hu0 & Hu1 & Ex & Ey).
  exists (1 - t)%Q, u. repeat split; try lra.
  - rewrite <- Ex. rewrite !inject_Z_sub. ring.
  - rewrite <- Ey. rewrite !inject_Z_sub. ring.
Qed.

Lemma Cross_swap v s e : Pt.Cross v (e -p s) <> 0 -> Pt.Cross v (s -p e) <> 0.
Proof. unfold Pt.Cross, Pt.sub. cbn. lia. Qed.

Lemma Desktop_Intersects_swap poly s e :
  Desktop.Intersects poly e s = Desktop.Intersects poly s e.
Proof.
  apply Bool.eq_iff_eq_true. rewrite !Desktop_Intersects_iff.
  unfold Desktop_crosses_transversal.
  split; intros (part & Hin & p & Hp & Hc & Hm); exists part; (split; [exact Hin|]);
    exists p; (split; [exact Hp|]); (split; [apply Cross_swap; exact Hc|]);
    apply meets_open_swap; exact Hm.
Qed.

Lemma Visible_swap rings a b :
  DesktopPaths.Visible rings b a = DesktopPaths.Visible rings a b.
Proof.
  unfold DesktopPaths.Visible. rewrite Desktop_Intersects_swap.
  replace (b +p a) with (a +p b)
    by (destruct a, b; unfold Pt.add; cbn; f_equal; lia).
  reflexivity.
Qed.

(** *** The web port *)

(** The last tests of the edge loop of [Polygon.intersects], on the two
    quotients. *)
Definition edge_tests (segT edgeT : Q) (neg : bool) : bool :=
  if Qltb edgeT 0 || Qltb 1 edgeT || Qltb segT 0 || Qltb 1 segT then false
  else if Qltb 0 segT && Qltb segT 1 then true
  else negb (Qeqb edgeT 0) && negb (Qeqb edgeT 1) && Bool.eqb (Qeqb segT 0) neg.

Lemma Qltb_false a b : Qltb a b = false <-> (b <= a)%Q.
Proof.
  split; intros H.
  - destruct (Qlt_le_dec a b) as [Hlt|Hle]; [|exact Hle].
    apply Qltb_lt in Hlt. congruence.
  - destruct (Qltb a b) eqn:E; [|reflexivity]. apply Qltb_lt in E. lra.
Qed.

Lemma Qeqb_false a b : Qeqb a b = false <-> ~ (a == b)%Q.
Proof.
  split; intros H.
  - intros E. apply Qeqb_eq in E. congruence.
  - destruct (Qeqb a b) eqn:E; [|reflexivity]. apply Qeqb_eq in E. contradiction.
Qed.

Lemma edge_tests_spec segT edgeT neg :
  edge_tests segT edgeT neg = true
  <-> (0 <= edgeT /\ edgeT <= 1 /\ 0 <= segT /\ segT <= 1
       /\ ((0 < segT /\ segT < 1)
           \/ (~ edgeT == 0 /\ ~ edgeT == 1
               /\ ((segT == 0 /\ neg = true) \/ (segT == 1 /\ neg = false)))))%Q.
Proof.
  unfold edge_tests.
  destruct (Qltb edgeT 0) eqn:E1; cbn [orb].
  { apply Qltb_lt in E1. split; [discriminate|]. intros H. lra. }
  destruct (Qltb 1 edgeT) eqn:E2; cbn [orb].
  { apply Qltb_lt in E2. split; [discriminate|]. intros H. lra. }
  destruct (Qltb segT 0) eqn:E3; cbn [orb].
  { apply Qltb_lt in E3. split; [discriminate|]. intros H. lra. }
  destruct (Qltb 1 segT) eqn:E4; cbn [orb].
  { apply Qltb_lt in E4. split; [discriminate|]. intros H. lra. }
  apply Qltb_false in E1, E2, E3, E4.
  destruct (Qltb 0 segT) eqn:E5; cbn [andb].
  - apply Qltb_lt in E5. destruct (Qltb segT 1) eqn:E6.
    + apply Qltb_lt in E6. split; [|reflexivity]. intros _. repeat split; try lra.
    + apply Qltb_false in E6.
      assert (Hs : (segT == 1)%Q) by lra.
      assert (Hn : Qeqb segT 0 = false) by (apply Qeqb_false; lra).
      rewrite Hn.
      destruct (Qeqb edgeT 0) eqn:E7; cbn [negb andb].
      { apply Qeqb_eq in E7. split; [discriminate|]. intros (_ & _ & _ & _ & [H|H]); lra. }
      destruct (Qeqb edgeT 1) eqn:E8; cbn [negb andb].
      { apply Qeqb_eq in E8. split; [discriminate|]. intros (_ & _ & _ & _ & [H|H]); lra. }
      apply Qeqb_false in E7, E8.
      destruct neg; cbn.
      * split; [discriminate|]. intros (_ & _ & _ & _ & [H|(_ & _ & [[H _]|[_ H]])]);
          try lra; discriminate H.
      * split; [|reflexivity]. intros _. repeat split; try lra; try (right; auto).
  - apply Qltb_false in E5.
    assert (Hs : (segT == 0)%Q) by lra.
    assert (Hn : Qeqb segT 0 = true) by (apply Qeqb_eq; exact Hs).
    rewrite Hn.
    destruct (Qeqb edgeT 0) eqn:E7; cbn [negb andb].
    { apply Qeqb_eq in E7. split; [discriminate|]. intros (_ & _ & _ & _ & [H|H]); lra. }
    destruct (Qeqb edgeT 1) eqn:E8; cbn [negb andb].
    { apply Qeqb_eq in E8. split; [discriminate|]. intros (_ & _ & _ & _ & [H|H]); lra. }
    apply Qeqb_false in E7, E8.
    destruct neg; cbn.
    + split; [|reflexivity]. intros _. repeat split; try lra; try (right; auto).
    + split; [discriminate|]. intros (_ & _ & _ & _ & [H|(_ & _ & [[_ H]|[H _]])]);
        try lra; discriminate H.
Qed.

Lemma edge_tests_swap segT edgeT neg segT' edgeT' :
  (segT' == 1 - segT)%Q -> (edgeT' == edgeT)%Q ->
  edge_tests segT' edgeT' (negb neg) = edge_tests segT edgeT neg.
Proof.
  intros Hs He. apply Bool.eq_iff_eq_true. rewrite !edge_tests_spec.
  rewrite Hs, He. split.
  - intros (H1 & H2 & H3 & H4 & [H|(H5 & H6 & [[H Hn]|[H Hn]])]);
      repeat split; try lra.
    + right. split; [exact H5|]. split; [exact H6|]. right. split; [lra|].
      destruct neg; [discriminate Hn|reflexivity].
    + right. split; [exact H5|]. split; [exact H6|]. left. split; [lra|].
      destruct neg; [reflexivity|discriminate Hn].
  - intros (H1 & H2 & H3 & H4 & [H|(H5 & H6 & [[H Hn]|[H Hn]])]);
      repeat split; try lra.
    + right. split; [exact H5|]. split; [exact H6|]. right. split; [lra|].
      subst neg. reflexivity.
    + right. split; [exact H5|]. split; [exact H6|]. left. split; [lra|].
      subst neg. reflexivity.
Qed.

Lemma intersects_edge_tests start end_ vector pCross e :
  Web.intersects_edge start end_ vector pCross e
  = let cross := Web.dx e * Y vector - Web.dy e * X vector in
    if (X start =? Web.x e) && (Y start =? Web.y e) then (pCross <? 0) && (cross <? 0)
    else if (X end_ =? Web.x e) && (Y end_ =? Web.y e) then (0 <? pCross) && (0 <? cross)
    else if cross =? 0 then false
    else
      let ddx := X start - Web.x e in
      let ddy := Y start - Web.y e in
      edge_tests (inject_Z (ddx * Web.dy e - ddy * Web.dx e) / inject_Z cross)%Q
                 (inject_Z (ddx * Y vector - ddy * X vector) / inject_Z cross)%Q
                 (cross <? 0).
Proof. reflexivity. Qed.

Lemma at_vertex_iff p e :
  (X p =? Web.x e) && (Y p =? Web.y e) = true <-> p = mkPoint (Web.x e) (Web.y e).
Proof.
  rewrite andb_true_iff, !Z.eqb_eq. destruct p. cbn. split.
  - intros [-> ->]. reflexivity.
  - intros H. injection H. auto.
Qed.

Lemma intersects_edge_swap s e pCross ed :
  s <> e ->
  Web.intersects_edge e s (s -p e) (- pCross) ed
  = Web.intersects_edge s e (e -p s) pCross ed.
Proof.
  intros Hne. rewrite !intersects_edge_tests. cbv zeta.
  assert (Hc : Web.dx ed * Y (s -p e) - Web.dy ed * X (s -p e)
               = - (Web.dx ed * Y (e -p s) - Web.dy ed * X (e -p s)))
    by (unfold Pt.sub; cbn; lia).
  rewrite Hc. set (cross := Web.dx ed * Y (e -p s) - Web.dy ed * X (e -p s)).
  assert (Hneg : forall z, (- z <? 0) = (0 <? z)).
  { intros z. destruct (0 <? z) eqn:E;
      [apply Z.ltb_lt in E; apply Z.ltb_lt|apply Z.ltb_ge in E; apply Z.ltb_ge]; lia. }
  assert (Hpos : forall z, (0 <? - z) = (z <? 0)).
  { intros z. destruct (z <? 0) eqn:E;
      [apply Z.ltb_lt in E; apply Z.ltb_lt|apply Z.ltb_ge in E; apply Z.ltb_ge]; lia. }
  destruct ((X s =? Web.x ed) && (Y s =? Web.y ed)) eqn:Es;
    destruct ((X e =? Web.x ed) && (Y e =? Web.y ed)) eqn:Ee.
  - apply at_vertex_iff in Es, Ee. congruence.
  - rewrite !Hpos. reflexivity.
  - rewrite !Hneg. reflexivity.
  - replace (- cross =? 0) with (cross =? 0)
      by (destruct (cross =? 0) eqn:E; symmetry;
          [apply Z.eqb_eq in E; apply Z.eqb_eq|apply Z.eqb_neq in E; apply Z.eqb_neq]; lia).
    destruct (cross =? 0) eqn:E0; [reflexivity|]. apply Z.eqb_neq in E0.
    assert (Hq : ~ (inject_Z cross == 0)%Q).
    { intros H. apply E0. unfold Qeq, inject_Z in H. cbn [Qnum Qden] in H. lia. }
    replace (- cross <? 0) with (negb (cross <? 0))
      by (rewrite Hneg; destruct (cross <? 0) eqn:E1; destruct (0 <? cross) eqn:E2;
          try reflexivity;
          [apply Z.ltb_lt in E1; apply Z.ltb_lt in E2|apply Z.ltb_ge in E1; apply Z.ltb_ge in E2];
          lia).
    apply edge_tests_swap.
    + replace ((X e - Web.x ed) * Web.dy ed - (Y e - Web.y ed) * Web.dx ed)
        with (((X s - Web.x ed) * Web.dy ed - (Y s - Web.y ed) * Web.dx ed) - cross)
        by (unfold cross, Pt.sub; cbn; lia).
      rewrite inject_Z_sub, inject_Z_opp. field. exact Hq.
    + replace ((X e - Web.x ed) * Y (s -p e) - (Y e - Web.y ed) * X (s -p e))
        with (- ((X s - Web.x ed) * Y (e -p s) - (Y s - Web.y ed) * X (e -p s)))
        by (unfold Pt.sub; cbn; lia).
      rewrite !inject_Z_opp. field. exact Hq.
Qed.

Lemma intersects_ring_swap s e prev ring :
  s <> e ->
  Web.intersects_ring e s (s -p e) (- prev) ring
  = Web.intersects_ring s e (e -p s) prev ring.
Proof.
  intros Hne. revert prev. induction ring as [|ed rest IH]; intros prev; [reflexivity|].
  cbn [Web.intersects_ring]. rewrite intersects_edge_swap by exact Hne.
  replace (Web.dx ed * Y (s -p e) - Web.dy ed * X (s -p e))
    with (- (Web.dx ed * Y (e -p s) - Web.dy ed * X (e -p s)))
    by (unfold Pt.sub; cbn; lia).
  rewrite IH. reflexivity.
Qed.

Lemma Web_intersects_swap rings s e :
  Web.intersects rings e s = Web.intersects rings s e.
Proof.
  destruct (Pt.eqb s e) eqn:E.
  - apply Pt.eqb_eq in E. subst e. reflexivity.
  - assert (Hne : s <> e) by (intros H; apply Pt.eqb_eq in H; congruence).
    unfold Web.intersects. apply existsb_ext_all. intros ring.
    replace (Web.first_prev (s -p e) ring) with (- Web.first_prev (e -p s) ring)
      by (unfold Web.first_prev; destruct ring; [reflexivity|]; unfold Pt.sub; cbn [X Y]; lia).
    apply intersects_ring_swap. exact Hne.
Qed.

(** X11: a line of sight does not depend on the end it is looked at from:
    [Intersects], [Visible] and the web port's [intersects] give the same
    answer when the two end points are exchanged, and a segment of length
    zero is never reported as intersecting. *)
Theorem sight_is_symmetric :
  (forall (poly : Desktop.Polygon) (a b : Point),
     Desktop.Intersects poly b a = Desktop.Intersects poly a b
     /\ DesktopPaths.Visible poly b a = DesktopPaths.Visible poly a b
     /\ Desktop.Intersects poly a a = false)
  /\ (forall (rings : Web.Polygon) (a b : Point),
        Web.intersects rings b a = Web.intersects rings a b
        /\ Web.intersects rings a a = false).
Proof.
  split.
  - intros poly a b. split; [apply Desktop_Intersects_swap|].
    split; [apply Visible_swap|apply Desktop_Intersects_same].
  - intros rings a b. split; [apply Web_intersects_swap|apply Web_intersects_same].
Qed.

(** ** The closest vertex *)

Lemma fold_left_concat {A B : Type} (f : A -> B -> A) (ls : list (list B)) (a : A) :
  fold_left (fun acc l => fold_left f l acc) ls a = fold_left f (concat ls) a.
Proof.
  revert a. induction ls as [|l ls IH]; intros a; [reflexivity|].
  cbn [fold_left concat]. rewrite fold_left_app. apply IH.
Qed.

(** The body of the loops of [Paths::ClosestVertex]. *)
Definition ClosestVertex_step (target : Point) (acc : Z * Point) (p : Point) : Z * Point :=
  let d := Pt.DistanceSquared target p in
  if d <? fst acc then (d, p) else acc.

Lemma ClosestVertex_fold target vs acc :
  let r := fold_left (ClosestVertex_step target) vs acc in
  (forall v, In v vs -> fst r <= Pt.DistanceSquared target v)
  /\ fst r <= fst acc
  /\ (r = acc \/ (In (snd r) vs /\ fst r = Pt.DistanceSquared target (snd r))).
Proof.
  revert acc. induction vs as [|p vs IH]; intros acc; cbn zeta.
  - cbn. split; [intros v []|]. split; [lia|left; reflexivity].
  - cbn [fold_left]. specialize (IH (ClosestVertex_step target acc p)). cbn zeta in IH.
    destruct IH as (IH1 & IH2 & IH3).
    set (r := fold_left (ClosestVertex_step target) vs (ClosestVertex_step target acc p)) in *.
    assert (Hstep : fst (ClosestVertex_step target acc p) <= fst acc
                    /\ fst (ClosestVertex_step target acc p) <= Pt.DistanceSquared target p).
    { unfold ClosestVertex_step. cbn zeta.
      destruct (Pt.DistanceSquared target p <? fst acc) eqn:E; cbn [fst].
      - apply Z.ltb_lt in E. lia.
      - apply Z.ltb_ge in E. lia. }
    split; [|split].
    + intros v [<-|Hv]; [lia|apply IH1; exact Hv].
    + lia.
    + destruct IH3 as [E|[Hin Hd]].
      * rewrite E. unfold ClosestVertex_step. cbn zeta.
        destruct (Pt.DistanceSquared target p <? fst acc); [|left; reflexivity].
        right. cbn [fst snd]. split; [left; reflexivity|reflexivity].
      * right. split; [right; exact Hin|exact Hd].
Qed.

Lemma ClosestVertex_concat rings target :
  DesktopPaths.ClosestVertex rings target
  = snd (fold_left (ClosestVertex_step target) (concat rings)
           (DesktopPaths.INT_MAX, mkPoint 0 0)).
Proof.
  unfold DesktopPaths.ClosestVertex. f_equal.
  apply (fold_left_concat (ClosestVertex_step target)).
Qed.

Section WebClosest.

Context {Wt : Weight} {laws : WeightLaws Wt} (hypot : Point -> W).

Definition Web_vertex (e : Web.Edge) : Point := mkPoint (Web.x e) (Web.y e).

(** The distance that [_closestVertex] measures. *)
Definition Web_gap (target : Point) (e : Web.Edge) : W :=
  hypot (mkPoint (X target - Web.x e) (Y target - Web.y e)).

(** What the loops have found: nothing yet, or a vertex and its distance. *)
Definition closest_state (target : Point) (es : list Web.Edge) (acc : ext * option Point)
    : Prop :=
  match acc with
  | (Infinity, None) => es = []
  | (Fin d, Some v) =>
      exists e, In e es /\ v = Web_vertex e /\ d = Web_gap target e
                /\ forall e', In e' es -> wle d (Web_gap target e')
  | _ => False
  end.

Lemma wltb_false a b : wltb a b = false -> wle b a.
Proof. rewrite wltb_spec. intros H. apply negb_false_iff in H. exact H. Qed.

Lemma wltb_true a b : wltb a b = true -> wle a b.
Proof.
  rewrite wltb_spec. intros H. apply negb_true_iff in H.
  destruct (wle_total a b) as [Hab|Hba]; [exact Hab|]. unfold wle in Hba. congruence.
Qed.

Lemma closestVertex_fold target es seen acc :
  closest_state target seen acc ->
  closest_state target (seen ++ es)
    (fold_left (WebPaths.closestVertex_step hypot target) es acc).
Proof.
  revert seen acc. induction es as [|e es IH]; intros seen acc Hacc.
  - cbn. rewrite app_nil_r. exact Hacc.
  - cbn [fold_left]. replace (seen ++ e :: es) with ((seen ++ [e]) ++ es)
      by (rewrite <- app_assoc; reflexivity).
    apply IH. unfold WebPaths.closestVertex_step. fold (Web_gap target e).
    destruct acc as [[d|] [v|]]; cbn [closest_state fst lt_ext] in *; try contradiction.
    + destruct Hacc as (e0 & Hin & Hv & Hd & Hmin).
      destruct (wltb (Web_gap target e) d) eqn:E; cbn [closest_state].
      * exists e. split; [apply in_or_app; right; left; reflexivity|].
        split; [reflexivity|]. split; [reflexivity|].
        intros e' He'. apply in_app_or in He'. destruct He' as [He'|[<-|[]]].
        -- apply wle_trans with (b := d); [apply wltb_true; exact E|apply Hmin; exact He'].
        -- apply wle_refl.
      * exists e0. split; [apply in_or_app; left; exact Hin|].
        split; [exact Hv|]. split; [exact Hd|].
        intros e' He'. apply in_app_or in He'. destruct He' as [He'|[<-|[]]].
        -- apply Hmin. exact He'.
        -- apply wltb_false. exact E.
    + subst seen. cbn [app]. exists e. split; [left; reflexivity|].
      split; [reflexivity|]. split; [reflexivity|].
      intros e' [<-|[]]. apply wle_refl.
Qed.

Lemma closestVertex_state rings target :
  closest_state target (concat rings)
    (fold_left (fun acc ring => fold_left (WebPaths.closestVertex_step hypot target) ring acc)
               rings (Infinity, None)).
Proof.
  rewrite (fold_left_concat (WebPaths.closestVertex_step hypot target)).
  apply (closestVertex_fold target (concat rings) [] (Infinity, None)). reflexivity.
Qed.

End WebClosest.



(** ** Flood fill: what is kept *)

(** The search for the smallest ring of positive area around the point,
    as both ports run it over the indices of the rings. *)
Section Smallest.

Variable area : nat -> Q.
Variable good : nat -> bool.

Definition smallest_step (acc : option nat) (i : nat) : option nat :=
  if good i && match acc with
               | None => true
               | Some s => Qltb (area i) (area s)
               end
  then Some i else acc.

Definition smallest_inv (seen : list nat) (acc : option nat) : Prop :=
  match acc with
  | None => forall i, In i seen -> good i = false
  | Some s =>
      In s seen /\ good s = true
      /\ forall i, In i seen -> good i = true -> (area s <= area i)%Q
  end.

Lemma smallest_fold l seen acc :
  smallest_inv seen acc -> smallest_inv (seen ++ l) (fold_left smallest_step l acc).
Proof.
  revert seen acc. induction l as [|i l IH]; intros seen acc Hinv.
  - cbn. rewrite app_nil_r. exact Hinv.
  - cbn [fold_left]. replace (seen ++ i :: l) with ((seen ++ [i]) ++ l)
      by (rewrite <- app_assoc; reflexivity).
    apply IH. unfold smallest_step.
    destruct (good i) eqn:Eg; cbn [andb].
    + destruct acc as [s|]; cbn [smallest_inv] in *.
      * destruct Hinv as (Hs & Hgs & Hmin).
        destruct (Qltb (area i) (area s)) eqn:El; cbn [smallest_inv].
        -- apply Qltb_lt in El. split; [apply in_or_app; right; left; reflexivity|].
           split; [exact Eg|]. intros j Hj Hgj. apply in_app_or in Hj.
           destruct Hj as [Hj|[<-|[]]]; [|lra]. specialize (Hmin j Hj Hgj). lra.
        -- apply Qltb_false in El. split; [apply in_or_app; left; exact Hs|].
           split; [exact Hgs|]. intros j Hj Hgj. apply in_app_or in Hj.
           destruct Hj as [Hj|[<-|[]]]; [apply Hmin; assumption|exact El].
      * split; [apply in_or_app; right; left; reflexivity|].
        split; [exact Eg|]. intros j Hj Hgj. apply in_app_or in Hj.
        destruct Hj as [Hj|[<-|[]]]; [|lra]. rewrite (Hinv j Hj) in Hgj. discriminate Hgj.
    + destruct acc as [s|]; cbn [smallest_inv] in *.
      * destruct Hinv as (Hs & Hgs & Hmin). split; [apply in_or_app; left; exact Hs|].
        split; [exact Hgs|]. intros j Hj Hgj. apply in_app_or in Hj.
        destruct Hj as [Hj|[<-|[]]]; [apply Hmin; assumption|congruence].
      * intros j Hj. apply in_app_or in Hj. destruct Hj as [Hj|[<-|[]]]; [apply Hinv; exact Hj|exact Eg].
Qed.

End Smallest.

(** *** The desktop port *)

Definition Desktop_state (acc : bool * nat) : option nat :=
  if fst acc then Some (snd acc) else None.

Definition Desktop_good (this : Desktop.Polygon) (point : Point) (i : nat) : bool :=
  Qltb 0 (nth i (map Desktop.Area this) 0%Q) && Desktop.Contains (nth i this []) point.

Lemma Desktop_smallest_step this point acc i :
  Desktop_state (Desktop.FloodFill_smallest_step (map Desktop.Area this) this point acc i)
  = smallest_step (fun i => nth i (map Desktop.Area this) 0%Q) (Desktop_good this point)
      (Desktop_state acc) i.
Proof.
  unfold Desktop.FloodFill_smallest_step, smallest_step, Desktop_good, Desktop_state.
  destruct acc as [kc s]. cbn [fst snd].
  destruct kc; cbn [negb orb];
    destruct (Qltb 0 (nth i (map Desktop.Area this) 0%Q)
              && Desktop.Contains (nth i this []) point); cbn [andb fst snd]; try reflexivity.
  destruct (Qltb _ _); reflexivity.
Qed.

Lemma Desktop_smallest_fold this point l acc :
  Desktop_state (fold_left (Desktop.FloodFill_smallest_step (map Desktop.Area this) this point)
                   l acc)
  = fold_left (smallest_step (fun i => nth i (map Desktop.Area this) 0%Q)
                 (Desktop_good this point)) l (Desktop_state acc).
Proof.
  revert acc. induction l as [|i l IH]; intros acc; [reflexivity|].
  cbn [fold_left]. rewrite IH, Desktop_smallest_step. reflexivity.
Qed.

(** The index that the first loop of [FloodFill] settles on. *)
Definition Desktop_smallest (this : Desktop.Polygon) (point : Point) : option nat :=
  Desktop_state (fold_left (Desktop.FloodFill_smallest_step (map Desktop.Area this) this point)
                   (seq 0 (length this)) (false, 0%nat)).

Lemma Desktop_smallest_spec this point :
  smallest_inv (fun i => nth i (map Desktop.Area this) 0%Q) (Desktop_good this point)
    (seq 0 (length this)) (Desktop_smallest this point).
Proof.
  unfold Desktop_smallest. rewrite Desktop_smallest_fold.
  apply (smallest_fold _ _ (seq 0 (length this)) [] None). intros i [].
Qed.

(** The test of the second loop: a hole inside the smallest ring that is
    inside no larger hole. *)
Definition Desktop_hole_kept (this : Desktop.Polygon) (s i : nat) : bool :=
  Qltb (nth i (map Desktop.Area this) 0%Q) 0
  && Desktop.ContainsRing (nth s this []) (nth i this [])
  && negb (Desktop.FloodFill_nested (map Desktop.Area this) this i).

Lemma FloodFill_unfold this point :
  Desktop.FloodFill this point
  = match Desktop_smallest this point with
    | None => []
    | Some s =>
        map (fun i => nth i this [])
            (filter (fun i => (i =? s)%nat || Desktop_hole_kept this s i)
                    (seq 0 (length this)))
    end.
Proof.
  unfold Desktop.FloodFill, Desktop_smallest, Desktop_state.
  destruct (fold_left _ (seq 0 (length this)) (false, 0%nat)) as [kc s].
  cbn [fst snd]. destruct kc; reflexivity.
Qed.

Lemma Desktop_good_nth this point i :
  (i < length this)%nat ->
  Desktop_good this point i
  = Qltb 0 (Desktop.Area (nth i this [])) && Desktop.Contains (nth i this []) point.
Proof. intros Hi. unfold Desktop_good. rewrite nth_areas by exact Hi. reflexivity. Qed.

Lemma In_nth_index {A : Type} (l : list A) (x d : A) :
  In x l -> exists i, (i < length l)%nat /\ nth i l d = x.
Proof. intros H. apply In_nth. exact H. Qed.

(** The rings of positive area around the point. *)
Definition Desktop_around (point : Point) (ring : Desktop.Ring) : bool :=
  Qltb 0 (Desktop.Area ring) && Desktop.Contains ring point.

Lemma FloodFill_nil_iff this point :
  Desktop.FloodFill this point = []
  <-> forall ring, In ring this -> Desktop_around point ring = false.
Proof.
  rewrite FloodFill_unfold. pose proof (Desktop_smallest_spec this point) as Hs.
  destruct (Desktop_smallest this point) as [s|]; cbn [smallest_inv] in Hs.
  - destruct Hs as (Hin & Hg & _). apply in_seq in Hin.
    assert (Hlt : (s < length this)%nat) by (destruct Hin as [_ H]; exact H).
    split.
    + intros E. exfalso.
      assert (Hk : In s (filter (fun i => (i =? s)%nat || Desktop_hole_kept this s i)
                           (seq 0 (length this)))).
      { apply filter_In. split; [apply in_seq; exact Hin|].
        rewrite Nat.eqb_refl. reflexivity. }
      apply (in_map (fun i => nth i this [])) in Hk. rewrite E in Hk. destruct Hk.
    + intros Hnone. exfalso.
      rewrite Desktop_good_nth in Hg by exact Hlt.
      specialize (Hnone (nth s this []) (nth_In _ _ Hlt)).
      unfold Desktop_around in Hnone. congruence.
  - split; [|reflexivity]. intros _ ring Hring.
    destruct (In_nth_index this ring [] Hring) as (i & Hi & <-).
    unfold Desktop_around. rewrite <- Desktop_good_nth by exact Hi. apply Hs. apply in_seq.
    split; [apply Nat.le_0_l|exact Hi].
Qed.

Lemma nested_false_iff this i :
  (i < length this)%nat ->
  (Desktop.FloodFill_nested (map Desktop.Area this) this i = false
   <-> forall other, In other this ->
         Qltb (Desktop.Area other) (Desktop.Area (nth i this [])) = true ->
         Desktop.Contains other (Desktop.front (nth i this [])) = false).
Proof.
  intros Hi. unfold Desktop.FloodFill_nested. split.
  - intros H other Ho Hlt.
    destruct (In_nth_index this other [] Ho) as (j & Hj & <-).
    destruct (Desktop.Contains _ _) eqn:Ec; [|reflexivity].
    assert (Hex : existsb (fun j => Qltb (nth j (map Desktop.Area this) 0%Q)
                                         (nth i (map Desktop.Area this) 0%Q)
                                    && Desktop.Contains (nth j this [])
                                         (Desktop.front (nth i this [])))
                          (seq 0 (length this)) = true).
    { apply existsb_exists. exists j. split; [apply in_seq; split; [apply Nat.le_0_l|exact Hj]|].
      rewrite (nth_areas this j Hj), (nth_areas this i Hi), Hlt, Ec. reflexivity. }
    congruence.
  - intros H. destruct (existsb _ _) eqn:E; [|reflexivity].
    apply existsb_exists in E. destruct E as (j & Hj & Hb). apply in_seq in Hj.
    assert (Hj' : (j < length this)%nat) by (destruct Hj as [_ Hj]; exact Hj).
    rewrite (nth_areas this j Hj'), (nth_areas this i Hi) in Hb.
    apply andb_true_iff in Hb. destruct Hb as [Hb1 Hb2].
    rewrite (H (nth j this []) (nth_In _ _ Hj') Hb1) in Hb2. discriminate Hb2.
Qed.

(** A hole that [FloodFill] keeps beside the ring [smallest]. *)
Definition Desktop_kept_hole (this : Desktop.Polygon) (smallest ring : Desktop.Ring) : Prop :=
  Qltb (Desktop.Area ring) 0 = true
  /\ Desktop.ContainsRing smallest ring = true
  /\ forall other, In other this ->
       Qltb (Desktop.Area other) (Desktop.Area ring) = true ->
       Desktop.Contains other (Desktop.front ring) = false.

Lemma hole_kept_iff this s i :
  (i < length this)%nat ->
  (Desktop_hole_kept this s i = true
   <-> Desktop_kept_hole this (nth s this []) (nth i this [])).
Proof.
  intros Hi. unfold Desktop_hole_kept, Desktop_kept_hole.
  rewrite !andb_true_iff, negb_true_iff, (nested_false_iff this i Hi), (nth_areas this i Hi).
  tauto.
Qed.

Lemma FloodFill_some this point s :
  Desktop_smallest this point = Some s ->
  let smallest := nth s this [] in
  (s < length this)%nat
  /\ In smallest (Desktop.FloodFill this point)
  /\ Desktop_around point smallest = true
  /\ (forall ring, In ring this -> Desktop_around point ring = true ->
        (Desktop.Area smallest <= Desktop.Area ring)%Q)
  /\ (forall ring, In ring (Desktop.FloodFill this point) <->
        ring = smallest \/ (In ring this /\ Desktop_kept_hole this smallest ring)).
Proof.
  intros Es smallest. pose proof (Desktop_smallest_spec this point) as Hs.
  rewrite Es in Hs. cbn [smallest_inv] in Hs. destruct Hs as (Hin & Hg & Hmin).
  apply in_seq in Hin.
  assert (Hlt : (s < length this)%nat) by (destruct Hin as [_ H]; exact H).
  rewrite FloodFill_unfold, Es.
  assert (Hall : forall ring,
            In ring (map (fun i => nth i this [])
                       (filter (fun i => (i =? s)%nat || Desktop_hole_kept this s i)
                               (seq 0 (length this))))
            <-> ring = smallest \/ (In ring this /\ Desktop_kept_hole this smallest ring)).
  { intros ring. rewrite in_map_iff. split.
    - intros (i & <- & Hi). apply filter_In in Hi. destruct Hi as [Hi Hk].
      apply in_seq in Hi. assert (Hi' : (i < length this)%nat) by (destruct Hi as [_ H]; exact H).
      apply orb_true_iff in Hk. destruct Hk as [Hk|Hk].
      + apply Nat.eqb_eq in Hk. subst i. left. reflexivity.
      + right. split; [apply nth_In; exact Hi'|]. apply hole_kept_iff; assumption.
    - intros [->|[Hring Hk]].
      + exists s. split; [reflexivity|]. apply filter_In. split; [apply in_seq; exact Hin|].
        rewrite Nat.eqb_refl. reflexivity.
      + destruct (In_nth_index this ring [] Hring) as (i & Hi & <-).
        exists i. split; [reflexivity|]. apply filter_In.
        split; [apply in_seq; split; [apply Nat.le_0_l|exact Hi]|].
        apply orb_true_iff. right. apply hole_kept_iff; assumption. }
  split; [exact Hlt|]. split; [apply Hall; left; reflexivity|].
  split; [unfold Desktop_around, smallest; rewrite <- Desktop_good_nth by exact Hlt; exact Hg|].
  split; [|exact Hall].
  intros ring Hring Hgood. destruct (In_nth_index this ring [] Hring) as (i & Hi & <-).
  unfold smallest. rewrite <- (nth_areas this s Hlt), <- (nth_areas this i Hi).
  apply Hmin; [apply in_seq; split; [apply Nat.le_0_l|exact Hi]|].
  rewrite Desktop_good_nth by exact Hi. exact Hgood.
Qed.

Lemma map_nth_seq {A : Type} (l : list A) (d : A) :
  map (fun i => nth i l d) (seq 0 (length l)) = l.
Proof.
  induction l as [|a l IH]; [reflexivity|].
  cbn [length seq map nth]. f_equal.
  rewrite <- seq_shift, map_map. exact IH.
Qed.

Lemma filter_all {A : Type} (f : A -> bool) (l : list A) :
  (forall a, In a l -> f a = true) -> filter f l = l.
Proof.
  intros H. induction l as [|a l IH]; [reflexivity|].
  cbn [filter]. rewrite H by (left; reflexivity). f_equal. apply IH.
  intros b Hb. apply H. right. exact Hb.
Qed.

Lemma around_not_hole point ring :
  Desktop_around point ring = true -> Qltb (Desktop.Area ring) 0 = false.
Proof.
  unfold Desktop_around. rewrite andb_true_iff. intros [H _].
  apply Qltb_lt in H. apply Qltb_false. lra.
Qed.

Lemma FloodFill_again this point :
  Desktop.FloodFill (Desktop.FloodFill this point) point = Desktop.FloodFill this point.
Proof.
  destruct (Desktop_smallest this point) as [s|] eqn:Es.
  2:{ rewrite (FloodFill_unfold this point), Es. reflexivity. }
  destruct (FloodFill_some this point s Es) as (Hlt & Hsm & Hgood & Hmin & Hall).
  cbn zeta in *. set (smallest := nth s this []) in *.
  set (R := Desktop.FloodFill this point) in *.
  set (keep := fun i => (i =? s)%nat || Desktop_hole_kept this s i).
  set (K := filter keep (seq 0 (length this))).
  assert (HR : R = map (fun i => nth i this []) K).
  { unfold R. rewrite FloodFill_unfold, Es. reflexivity. }
  assert (HK : NoDup K) by (apply NoDup_filter, seq_NoDup).
  assert (Hlen : length R = length K) by (rewrite HR; apply length_map).
  assert (Hnth : forall j, nth j R [] = nth (nth j K (length this)) this []).
  { intros j. rewrite HR.
    rewrite <- (map_nth (fun i => nth i this []) K (length this) j).
    f_equal. symmetry. apply nth_overflow. apply Nat.le_refl. }
  assert (HinK : forall j, (j < length R)%nat ->
            (nth j K (length this) < length this)%nat
            /\ keep (nth j K (length this)) = true).
  { intros j Hj. rewrite Hlen in Hj.
    pose proof (nth_In K (length this) Hj) as Hin. unfold K in Hin at 2.
    apply filter_In in Hin. destruct Hin as [Hseq Hk]. apply in_seq in Hseq.
    split; [destruct Hseq as [_ H]; exact H|exact Hk]. }
  assert (Hincl : forall ring, In ring R -> In ring this).
  { intros ring Hring. apply Hall in Hring. destruct Hring as [->|[H _]]; [|exact H].
    apply nth_In. exact Hlt. }
  (* the ring that the second run picks *)
  pose proof (Desktop_smallest_spec R point) as Hs'.
  destruct (Desktop_smallest R point) as [s'|] eqn:Es'; cbn [smallest_inv] in Hs'.
  2:{ exfalso. destruct (In_nth_index R smallest [] Hsm) as (j & Hj & Ej).
      specialize (Hs' j ltac:(apply in_seq; split; [apply Nat.le_0_l|exact Hj])).
      rewrite Desktop_good_nth in Hs' by exact Hj. rewrite Ej in Hs'.
      unfold Desktop_around in Hgood. congruence. }
  destruct Hs' as (Hin' & Hg' & _). apply in_seq in Hin'.
  assert (Hlt' : (s' < length R)%nat) by (destruct Hin' as [_ H]; exact H).
  rewrite Desktop_good_nth in Hg' by exact Hlt'. fold (Desktop_around point (nth s' R [])) in Hg'.
  assert (Hks' : nth s' K (length this) = s).
  { destruct (HinK s' Hlt') as [Hk1 Hk2]. unfold keep in Hk2.
    apply orb_true_iff in Hk2. destruct Hk2 as [Hk2|Hk2]; [apply Nat.eqb_eq; exact Hk2|].
    exfalso. apply hole_kept_iff in Hk2; [|exact Hk1]. destruct Hk2 as [Hneg _].
    rewrite <- Hnth in Hneg. rewrite (around_not_hole _ _ Hg') in Hneg. discriminate Hneg. }
  assert (Hsm' : nth s' R [] = smallest) by (rewrite Hnth, Hks'; reflexivity).
  rewrite (FloodFill_unfold R point), Es'.
  rewrite filter_all; [apply map_nth_seq|].
  intros j Hj. apply in_seq in Hj.
  assert (Hj' : (j < length R)%nat) by (destruct Hj as [_ H]; exact H).
  apply orb_true_iff.
  destruct (Nat.eq_dec j s') as [->|Hne]; [left; apply Nat.eqb_refl|right].
  destruct (HinK j Hj') as [Hk1 Hk2]. unfold keep in Hk2.
  apply orb_true_iff in Hk2. destruct Hk2 as [Hk2|Hk2].
  - exfalso. apply Nat.eqb_eq in Hk2. apply Hne.
    apply (proj1 (NoDup_nth K (length this)) HK); [rewrite <- Hlen; exact Hj'
                                                   |rewrite <- Hlen; exact Hlt'|].
    rewrite Hk2, Hks'. reflexivity.
  - apply hole_kept_iff in Hk2; [|exact Hk1]. rewrite <- Hnth in Hk2.
    fold smallest in Hk2. destruct Hk2 as (H1 & H2 & H3).
    apply hole_kept_iff; [exact Hj'|]. rewrite Hsm'.
    split; [exact H1|]. split; [exact H2|].
    intros other Ho. apply H3. apply Hincl. exact Ho.
Qed.



(** *** The web port *)

Definition Web_good (rings : Web.Polygon) (point : Point) (i : nat) : bool :=
  Qltb 0 (nth i (map Web.area rings) 0%Q) && Web.contains (nth i rings []) point.

Definition Web_smallest (rings : Web.Polygon) (point : Point) : option nat :=
  fold_left (Web.floodFill_smallest_step (map Web.area rings) rings point)
            (seq 0 (length (map Web.area rings))) None.

Lemma Web_smallest_spec rings point :
  smallest_inv (fun i => nth i (map Web.area rings) 0%Q) (Web_good rings point)
    (seq 0 (length rings)) (Web_smallest rings point).
Proof.
  unfold Web_smallest. rewrite length_map.
  apply (smallest_fold (fun i => nth i (map Web.area rings) 0%Q) (Web_good rings point)
           (seq 0 (length rings)) [] None).
  intros i [].
Qed.

Lemma Web_nth_areas (rings : Web.Polygon) i :
  (i < length rings)%nat -> nth i (map Web.area rings) 0%Q = Web.area (nth i rings []).
Proof.
  intros Hi. rewrite (nth_indep _ 0%Q (Web.area [])) by (rewrite length_map; exact Hi).
  apply map_nth.
Qed.

Definition Web_hole_kept (rings : Web.Polygon) (s i : nat) : bool :=
  Qltb (nth i (map Web.area rings) 0%Q) 0
  && Web.ringContainsRing (nth s rings []) (nth i rings [])
  && negb (Web.floodFill_nested (map Web.area rings) rings i).

Lemma floodFill_unfold rings point :
  Web.floodFill rings point
  = match Web_smallest rings point with
    | None => []
    | Some s =>
        nth s rings []
        :: map (fun i => nth i rings [])
               (filter (Web_hole_kept rings s) (seq 0 (length rings)))
    end.
Proof.
  unfold Web.floodFill, Web_smallest. rewrite length_map.
  destruct (fold_left _ (seq 0 (length rings)) None); reflexivity.
Qed.

Definition Web_around (point : Point) (ring : Web.Ring) : bool :=
  Qltb 0 (Web.area ring) && Web.contains ring point.

Lemma Web_good_nth rings point i :
  (i < length rings)%nat -> Web_good rings point i = Web_around point (nth i rings []).
Proof. intros Hi. unfold Web_good, Web_around. rewrite Web_nth_areas by exact Hi. reflexivity. Qed.

(** A hole that [floodFill] keeps beside the ring [smallest]. *)
Definition Web_kept_hole (rings : Web.Polygon) (smallest ring : Web.Ring) : Prop :=
  Qltb (Web.area ring) 0 = true
  /\ Web.ringContainsRing smallest ring = true
  /\ forall other, In other rings ->
       Qltb (Web.area other) (Web.area ring) = true ->
       Web.ringContainsRing other ring = false.

Lemma Web_nested_false_iff rings i :
  (i < length rings)%nat ->
  (Web.floodFill_nested (map Web.area rings) rings i = false
   <-> forall other, In other rings ->
         Qltb (Web.area other) (Web.area (nth i rings [])) = true ->
         Web.ringContainsRing other (nth i rings []) = false).
Proof.
  intros Hi. unfold Web.floodFill_nested. rewrite length_map. split.
  - intros H other Ho Hlt.
    destruct (In_nth_index rings other [] Ho) as (j & Hj & <-).
    destruct (Web.ringContainsRing _ _) eqn:Ec; [|reflexivity].
    assert (Hex : existsb (fun j => Qltb (nth j (map Web.area rings) 0%Q)
                                         (nth i (map Web.area rings) 0%Q)
                                    && Web.ringContainsRing (nth j rings []) (nth i rings []))
                          (seq 0 (length rings)) = true).
    { apply existsb_exists. exists j. split; [apply in_seq; split; [apply Nat.le_0_l|exact Hj]|].
      rewrite (Web_nth_areas rings j Hj), (Web_nth_areas rings i Hi), Hlt, Ec. reflexivity. }
    congruence.
  - intros H. destruct (existsb _ _) eqn:E; [|reflexivity].
    apply existsb_exists in E. destruct E as (j & Hj & Hb). apply in_seq in Hj.
    assert (Hj' : (j < length rings)%nat) by (destruct Hj as [_ Hj]; exact Hj).
    rewrite (Web_nth_areas rings j Hj'), (Web_nth_areas rings i Hi) in Hb.
    apply andb_true_iff in Hb. destruct Hb as [Hb1 Hb2].
    rewrite (H (nth j rings []) (nth_In _ _ Hj') Hb1) in Hb2. discriminate Hb2.
Qed.

Lemma Web_hole_kept_iff rings s i :
  (i < length rings)%nat ->
  (Web_hole_kept rings s i = true
   <-> Web_kept_hole rings (nth s rings []) (nth i rings [])).
Proof.
  intros Hi. unfold Web_hole_kept, Web_kept_hole.
  rewrite !andb_true_iff, negb_true_iff, (Web_nested_false_iff rings i Hi),
    (Web_nth_areas rings i Hi).
  tauto.
Qed.

Lemma floodFill_nil_iff rings point :
  Web.floodFill rings point = []
  <-> forall ring, In ring rings -> Web_around point ring = false.
Proof.
  rewrite floodFill_unfold. pose proof (Web_smallest_spec rings point) as Hs.
  destruct (Web_smallest rings point) as [s|]; cbn [smallest_inv] in Hs.
  - destruct Hs as (Hin & Hg & _). apply in_seq in Hin.
    assert (Hlt : (s < length rings)%nat) by (destruct Hin as [_ H]; exact H).
    split; [discriminate|]. intros Hnone. exfalso.
    rewrite Web_good_nth in Hg by exact Hlt.
    rewrite (Hnone (nth s rings []) (nth_In _ _ Hlt)) in Hg. discriminate Hg.
  - split; [|reflexivity]. intros _ ring Hring.
    destruct (In_nth_index rings ring [] Hring) as (i & Hi & <-).
    rewrite <- Web_good_nth by exact Hi. apply Hs. apply in_seq.
    split; [apply Nat.le_0_l|exact Hi].
Qed.

Lemma floodFill_some rings point s :
  Web_smallest rings point = Some s ->
  let smallest := nth s rings [] in
  (s < length rings)%nat
  /\ Web_around point smallest = true
  /\ (forall ring, In ring rings -> Web_around point ring = true ->
        (Web.area smallest <= Web.area ring)%Q)
  /\ exists holes,
       Web.floodFill rings point = smallest :: holes
       /\ forall ring, In ring holes <-> In ring rings /\ Web_kept_hole rings smallest ring.
Proof.
  intros Es smallest. pose proof (Web_smallest_spec rings point) as Hs.
  rewrite Es in Hs. cbn [smallest_inv] in Hs. destruct Hs as (Hin & Hg & Hmin).
  apply in_seq in Hin.
  assert (Hlt : (s < length rings)%nat) by (destruct Hin as [_ H]; exact H).
  split; [exact Hlt|].
  split; [unfold smallest; rewrite <- Web_good_nth by exact Hlt; exact Hg|].
  split.
  - intros ring Hring Hgood. destruct (In_nth_index rings ring [] Hring) as (i & Hi & <-).
    unfold smallest. rewrite <- (Web_nth_areas rings s Hlt), <- (Web_nth_areas rings i Hi).
    apply Hmin; [apply in_seq; split; [apply Nat.le_0_l|exact Hi]|].
    rewrite Web_good_nth by exact Hi. exact Hgood.
  - rewrite floodFill_unfold, Es. eexists. split; [reflexivity|].
    intros ring. rewrite in_map_iff. split.
    + intros (i & <- & Hi). apply filter_In in Hi. destruct Hi as [Hi Hk].
      apply in_seq in Hi. assert (Hi' : (i < length rings)%nat) by (destruct Hi as [_ H]; exact H).
      split; [apply nth_In; exact Hi'|]. apply Web_hole_kept_iff; assumption.
    + intros [Hring Hk]. destruct (In_nth_index rings ring [] Hring) as (i & Hi & <-).
      exists i. split; [reflexivity|]. apply filter_In.
      split; [apply in_seq; split; [apply Nat.le_0_l|exact Hi]|].
      apply Web_hole_kept_iff; assumption.
Qed.

Lemma Web_around_not_hole point ring :
  Web_around point ring = true -> Qltb (Web.area ring) 0 = false.
Proof.
  unfold Web_around. rewrite andb_true_iff. intros [H _].
  apply Qltb_lt in H. apply Qltb_false. lra.
Qed.

Lemma floodFill_again rings point :
  Web.floodFill (Web.floodFill rings point) point = Web.floodFill rings point.
Proof.
  destruct (Web_smallest rings point) as [s|] eqn:Es.
  2:{ rewrite (floodFill_unfold rings point), Es. reflexivity. }
  destruct (floodFill_some rings point s Es) as (Hlt & Hgood & Hmin & holes & HR & Hholes).
  cbn zeta in *. set (smallest := nth s rings []) in *.
  rewrite HR.
  assert (Hincl : forall ring, In ring (smallest :: holes) -> In ring rings).
  { intros ring [<-|Hh]; [apply nth_In; exact Hlt|apply Hholes; exact Hh]. }
  pose proof (Web_smallest_spec (smallest :: holes) point) as Hs'.
  destruct (Web_smallest (smallest :: holes) point) as [s'|] eqn:Es'; cbn [smallest_inv] in Hs'.
  2:{ exfalso. specialize (Hs' 0%nat ltac:(cbn; auto)).
      rewrite Web_good_nth in Hs' by (cbn; lia). cbn [nth] in Hs'. congruence. }
  destruct Hs' as (Hin' & Hg' & _). apply in_seq in Hin'.
  assert (Hlt' : (s' < length (smallest :: holes))%nat) by (destruct Hin' as [_ H]; exact H).
  rewrite Web_good_nth in Hg' by exact Hlt'.
  assert (Hs0 : s' = 0%nat).
  { destruct s' as [|j]; [reflexivity|]. exfalso. cbn [nth] in Hg'.
    assert (Hj : In (nth j holes []) holes) by (apply nth_In; cbn in Hlt'; lia).
    apply Hholes in Hj. destruct Hj as (_ & Hneg & _).
    rewrite (Web_around_not_hole _ _ Hg') in Hneg. discriminate Hneg. }
  subst s'. rewrite (floodFill_unfold (smallest :: holes) point), Es'. cbn [nth]. f_equal.
  cbn [length seq filter].
  assert (H0 : Web_hole_kept (smallest :: holes) 0 0 = false).
  { unfold Web_hole_kept. rewrite (Web_nth_areas (smallest :: holes) 0) by (cbn; lia).
    cbn [nth]. rewrite (Web_around_not_hole _ _ Hgood). reflexivity. }
  rewrite H0. rewrite filter_all.
  - rewrite <- seq_shift, map_map. cbn [nth]. apply map_nth_seq.
  - intros j Hj. apply in_seq in Hj.
    assert (Hj' : (j < length (smallest :: holes))%nat) by (cbn [length]; lia).
    apply Web_hole_kept_iff; [exact Hj'|]. cbn [nth].
    destruct j as [|j]; [lia|]. cbn [nth].
    assert (Hin : In (nth j holes []) holes) by (apply nth_In; cbn [length] in Hj'; lia).
    apply Hholes in Hin. destruct Hin as (_ & H1 & H2 & H3).
    split; [exact H1|]. split; [exact H2|].
    intros other Ho. apply H3. apply Hincl. exact Ho.
Qed.

(** X14: the web flood fill keeps one component.  The result is empty
    exactly when no ring of positive area contains the point.  Otherwise it
    is the smallest such ring followed by the holes of the polygon that lie
    inside that ring and inside no larger hole; a second flood fill from the
    same point changes nothing. *)
Theorem floodFill_keeps_one_component (rings : Web.Polygon) (point : Point) :
  (Web.floodFill rings point = []
   <-> forall ring, In ring rings -> Web_around point ring = false)
  /\ (Web.floodFill rings point <> [] ->
      exists smallest holes,
        Web.floodFill rings point = smallest :: holes
        /\ In smallest rings
        /\ Web_around point smallest = true
        /\ (forall ring, In ring rings -> Web_around point ring = true ->
              (Web.area smallest <= Web.area ring)%Q)
        /\ forall ring, In ring holes <-> In ring rings /\ Web_kept_hole rings smallest ring)
  /\ Web.floodFill (Web.floodFill rings point) point = Web.floodFill rings point.
Proof.
  split; [apply floodFill_nil_iff|]. split; [|apply floodFill_again].
  intros Hne. destruct (Web_smallest rings point) as [s|] eqn:Es.
  - destruct (floodFill_some rings point s Es) as (Hlt & Hgood & Hmin & holes & HR & Hholes).
    exists (nth s rings []), holes. split; [exact HR|].
    split; [apply nth_In; exact Hlt|]. split; [exact Hgood|]. split; [exact Hmin|exact Hholes].
  - exfalso. apply Hne. rewrite floodFill_unfold, Es. reflexivity.
Qed.

Lemma floodFill_keeps_one_component_witness :
  Web.floodFill [Web.expand lake; Web.expand land; Web.expand island] (mkPoint 5 5)
  = [Web.expand land; Web.expand lake]
  /\ exists smallest holes,
       Web.floodFill [Web.expand lake; Web.expand land; Web.expand island] (mkPoint 5 5)
       = smallest :: holes
       /\ In smallest [Web.expand lake; Web.expand land; Web.expand island]
       /\ Web_around (mkPoint 5 5) smallest = true
       /\ (forall ring, In ring [Web.expand lake; Web.expand land; Web.expand island] ->
             Web_around (mkPoint 5 5) ring = true ->
             (Web.area smallest <= Web.area ring)%Q)
       /\ forall ring, In ring holes <->
            In ring [Web.expand lake; Web.expand land; Web.expand island]
            /\ Web_kept_hole [Web.expand lake; Web.expand land; Web.expand island]
                 smallest ring.
Proof.
  assert (E : Web.floodFill [Web.expand lake; Web.expand land; Web.expand island] (mkPoint 5 5)
              = [Web.expand land; Web.expand lake])
    by (vm_compute; reflexivity).
  split; [exact E|].
  apply (proj1 (proj2 (floodFill_keeps_one_component
                         [Web.expand lake; Web.expand land; Web.expand island] (mkPoint 5 5)))).
  rewrite E. discriminate.
Defined.

(** ** Polygon.cpp: the intersections that survive *)

Section RemoveDoublesSpec.

Local Abbreviation order := Desktop.order.
Local Abbreviation entering := Desktop.entering.

(** The entering flags of the intersections at the place of [x] agree. *)
Definition one_way (full : list Desktop.Intersection) (x : Desktop.Intersection) : Prop :=
  forall j, In j full -> order j = order x -> entering j = entering x.

(** The number of entering intersections of a run. *)
Fixpoint entering_count (run : list Desktop.Intersection) : Z :=
  match run with
  | [] => 0
  | i :: rest => Z.b2z (entering i) + entering_count rest
  end.

Lemma entering_count_app a b :
  entering_count (a ++ b) = entering_count a + entering_count b.
Proof.
  induction a as [|i a IH]; [reflexivity|].
  cbn [app entering_count]. rewrite IH. lia.
Qed.

Lemma entering_count_range run :
  0 <= entering_count run <= Z.of_nat (length run).
Proof.
  induction run as [|i run IH]; cbn [entering_count length]; [lia|].
  destruct (entering i); cbn [Z.b2z]; lia.
Qed.

Lemma entering_count_zero run :
  entering_count run = 0 <-> forall i, In i run -> entering i = false.
Proof.
  induction run as [|i run IH]; cbn [entering_count].
  - split; [intros _ i []|reflexivity].
  - pose proof (entering_count_range run) as Hr. split.
    + intros H j [<-|Hj].
      * destruct (entering i); [cbn [Z.b2z] in H; lia|reflexivity].
      * apply IH; [|exact Hj]. destruct (entering i); cbn [Z.b2z] in H; lia.
    + intros H. rewrite (H i (or_introl eq_refl)). cbn [Z.b2z].
      rewrite (proj2 IH); [reflexivity|]. intros j Hj. apply H. right. exact Hj.
Qed.

Lemma entering_count_full run :
  entering_count run = Z.of_nat (length run) <-> forall i, In i run -> entering i = true.
Proof.
  induction run as [|i run IH]; cbn [entering_count length].
  - split; [intros _ i []|reflexivity].
  - pose proof (entering_count_range run) as Hr. split.
    + intros H j [<-|Hj].
      * destruct (entering i); [reflexivity|cbn [Z.b2z] in H; lia].
      * apply IH; [|exact Hj]. destruct (entering i); cbn [Z.b2z] in H; lia.
    + intros H. rewrite (H i (or_introl eq_refl)). cbn [Z.b2z].
      rewrite (proj2 IH); [lia|]. intros j Hj. apply H. right. exact Hj.
Qed.

(** The flags of a run agree exactly when the test of [RemoveDoubles]
    passes. *)
Lemma run_agrees first run :
  (entering_count (first :: run) =? 0)
  || (entering_count (first :: run) =? Z.of_nat (length (first :: run))) = true
  <-> forall j, In j (first :: run) -> entering j = entering first.
Proof.
  rewrite orb_true_iff, !Z.eqb_eq, entering_count_zero, entering_count_full. split.
  - intros [H|H] j Hj; rewrite (H j Hj), (H first (or_introl eq_refl)); reflexivity.
  - intros H. destruct (entering first) eqn:E; [right|left]; exact H.
Qed.

Definition kept_spec (first_order : Z) (full out : list Desktop.Intersection) : Prop :=
  StronglySorted (fun a b => order a < order b) out
  /\ (forall x, In x out -> first_order <= order x /\ In x full /\ one_way full x)
  /\ (forall i, In i full -> one_way full i -> exists x, In x out /\ order x = order i).

Lemma RemoveDoubles_loop_spec (l : list Desktop.Intersection) :
  forall first run,
    (forall r, In r run -> order r = order first) ->
    (forall x, In x l -> order first <= order x) ->
    StronglySorted (fun a b => order a <= order b) l ->
    kept_spec (order first) ((first :: run) ++ l)
      (Desktop.RemoveDoubles_loop
         (Some (first, entering_count (first :: run), Z.of_nat (length (first :: run)))) l).
Proof.
  induction l as [|i l IH]; intros first run Hrun Hge Hsorted.
  - cbn [Desktop.RemoveDoubles_loop Desktop.RemoveDoubles_flush]. rewrite app_nil_r.
    destruct ((entering_count (first :: run) =? 0)
              || (entering_count (first :: run) =? Z.of_nat (length (first :: run)))) eqn:E.
    + pose proof (proj1 (run_agrees first run) E) as E'; clear E; rename E' into E. split; [repeat constructor|]. split.
      * intros x [<-|[]]. split; [lia|]. split; [left; reflexivity|].
        intros j Hj _. apply E. exact Hj.
      * intros j Hj _. exists first. split; [left; reflexivity|].
        destruct Hj as [<-|Hj]; [reflexivity|]. symmetry. apply Hrun. exact Hj.
    + split; [constructor|]. split; [intros x []|].
      intros j Hj Hone. exfalso.
      assert (Hall : forall k, In k (first :: run) -> entering k = entering first).
      { assert (Hoj : order j = order first)
          by (destruct Hj as [<-|Hj]; [reflexivity|apply Hrun; exact Hj]).
        intros k Hk. rewrite (Hone k Hk), (Hone first (or_introl eq_refl)); try reflexivity.
        - congruence.
        - destruct Hk as [<-|Hk]; [congruence|]. rewrite (Hrun k Hk). congruence. }
      apply (proj2 (run_agrees _ _)) in Hall. congruence.
  - cbn [Desktop.RemoveDoubles_loop].
    assert (Hi : order first <= order i) by (apply Hge; left; reflexivity).
    inversion Hsorted as [|? ? Hs' Hall]. subst.
    destruct (order i =? order first) eqn:Eo.
    + apply Z.eqb_eq in Eo.
      replace (entering_count (first :: run) + Z.b2z (entering i))
        with (entering_count (first :: run ++ [i]))
        by (change (first :: run ++ [i]) with ((first :: run) ++ [i]);
            rewrite entering_count_app; cbn; lia).
      replace (Z.of_nat (length (first :: run)) + 1)
        with (Z.of_nat (length (first :: run ++ [i])))
        by (cbn [length]; rewrite length_app; cbn [length]; lia).
      replace ((first :: run) ++ i :: l) with ((first :: run ++ [i]) ++ l)
        by (cbn [app]; rewrite <- app_assoc; reflexivity).
      apply IH.
      * intros r Hr. apply in_app_or in Hr. destruct Hr as [Hr|[<-|[]]]; [apply Hrun; exact Hr|exact Eo].
      * intros x Hx. apply Hge. right. exact Hx.
      * exact Hs'.
    + apply Z.eqb_neq in Eo. assert (Hlt : order first < order i) by lia.
      specialize (IH i [] ltac:(intros r []) ltac:(intros x Hx; apply (proj1 (Forall_forall _ _) Hall x Hx)) Hs').
      cbn [entering_count length app] in IH.
      replace (Z.b2z (entering i) + 0) with (Z.b2z (entering i)) in IH by lia.
      change (Z.of_nat 1) with 1 in IH.
      destruct IH as (IH1 & IH2 & IH3).
      set (out' := Desktop.RemoveDoubles_loop (Some (i, Z.b2z (entering i), 1)) l) in *.
      assert (Hlow : forall r, In r (first :: run) -> order r = order first)
        by (intros r [<-|Hr]; [reflexivity|apply Hrun; exact Hr]).
      assert (Hhigh : forall x, In x (i :: l) -> order first < order x).
      { intros x [<-|Hx]; [exact Hlt|].
        pose proof (proj1 (Forall_forall _ _) Hall x Hx). cbn in H. lia. }
      assert (Hone_low : forall x, In x (first :: run) ->
                (one_way ((first :: run) ++ i :: l) x
                 <-> forall j, In j (first :: run) -> entering j = entering first)).
      { intros x Hx. split.
        - intros Hone j Hj.
          rewrite (Hone j ltac:(apply in_or_app; left; exact Hj)
                     ltac:(rewrite (Hlow j Hj), (Hlow x Hx); reflexivity)).
          rewrite (Hone first ltac:(apply in_or_app; left; left; reflexivity)
                     ltac:(rewrite (Hlow x Hx); reflexivity)).
          reflexivity.
        - intros Hu j Hj Hoj. apply in_app_or in Hj. destruct Hj as [Hj|Hj].
          + rewrite (Hu j Hj), (Hu x Hx). reflexivity.
          + exfalso. specialize (Hhigh j Hj). rewrite Hoj, (Hlow x Hx) in Hhigh. lia. }
      assert (Hone_high : forall x, In x (i :: l) ->
                (one_way ((first :: run) ++ i :: l) x <-> one_way (i :: l) x)).
      { intros x Hx. split.
        - intros Hone j Hj. apply Hone. apply in_or_app. right. exact Hj.
        - intros Hone j Hj Hoj. apply in_app_or in Hj. destruct Hj as [Hj|Hj].
          + exfalso. specialize (Hhigh x Hx). rewrite <- Hoj, (Hlow j Hj) in Hhigh. lia.
          + apply Hone; assumption. }
      assert (Hout' : forall x, In x out' ->
                order first < order x /\ In x ((first :: run) ++ i :: l)
                /\ one_way ((first :: run) ++ i :: l) x).
      { intros x Hx. destruct (IH2 x Hx) as (H1 & H2 & H3).
        split; [lia|]. split; [apply in_or_app; right; exact H2|].
        apply Hone_high; assumption. }
      unfold Desktop.RemoveDoubles_flush.
      destruct ((entering_count (first :: run) =? 0)
                || (entering_count (first :: run) =? Z.of_nat (length (first :: run)))) eqn:E.
      * pose proof (proj1 (run_agrees first run) E) as E'; clear E; rename E' into E. cbn [app]. split; [|split].
        -- constructor; [exact IH1|]. apply Forall_forall. intros x Hx.
           apply (Hout' x Hx).
        -- intros x [<-|Hx].
           ++ split; [lia|]. split; [left; reflexivity|].
              apply (Hone_low first (or_introl eq_refl)). exact E.
           ++ destruct (Hout' x Hx) as (H1 & H2 & H3). split; [lia|]. split; assumption.
        -- intros j Hj Hone. change (In j ((first :: run) ++ i :: l)) in Hj.
           change (one_way ((first :: run) ++ i :: l) j) in Hone. apply in_app_or in Hj. destruct Hj as [Hj|Hj].
           ++ exists first. split; [left; reflexivity|]. symmetry. apply Hlow. exact Hj.
           ++ pose proof (proj1 (Hone_high j Hj) Hone) as Hu.
              destruct (IH3 j Hj Hu) as (x & Hx & Hox). exists x. split; [right; exact Hx|exact Hox].
      * cbn [app]. split; [exact IH1|]. split.
        -- intros x Hx. destruct (Hout' x Hx) as (H1 & H2 & H3). split; [lia|]. split; assumption.
        -- intros j Hj Hone. change (In j ((first :: run) ++ i :: l)) in Hj.
           change (one_way ((first :: run) ++ i :: l) j) in Hone. apply in_app_or in Hj. destruct Hj as [Hj|Hj].
           ++ exfalso. pose proof (proj1 (Hone_low j Hj) Hone) as Hu.
              apply (proj2 (run_agrees _ _)) in Hu. congruence.
           ++ pose proof (proj1 (Hone_high j Hj) Hone) as Hu.
              destruct (IH3 j Hj Hu) as (x & Hx & Hox). exists x. split; [exact Hx|exact Hox].
Qed.

Lemma RemoveDoubles_spec (l : list Desktop.Intersection) :
  StronglySorted (fun a b => order a <= order b) l ->
  StronglySorted (fun a b => order a < order b) (Desktop.RemoveDoubles l)
  /\ (forall x, In x (Desktop.RemoveDoubles l) -> In x l /\ one_way l x)
  /\ (forall i, In i l -> one_way l i ->
        exists x, In x (Desktop.RemoveDoubles l) /\ order x = order i).
Proof.
  intros Hsorted. unfold Desktop.RemoveDoubles.
  destruct l as [|first l].
  - cbn. split; [constructor|]. split; [intros x []|intros i []].
  - cbn [Desktop.RemoveDoubles_loop]. inversion Hsorted as [|? ? Hs' Hall]. subst.
    pose proof (RemoveDoubles_loop_spec l first [] ltac:(intros r [])
                  ltac:(intros x Hx; apply (proj1 (Forall_forall _ _) Hall x Hx)) Hs') as H.
    cbn [entering_count length app] in H.
    replace (Z.b2z (entering first) + 0) with (Z.b2z (entering first)) in H by lia.
    change (Z.of_nat 1) with 1 in H.
    destruct H as (H1 & H2 & H3). split; [exact H1|]. split; [|exact H3].
    intros x Hx. destruct (H2 x Hx) as (_ & Ha & Hb). split; assumption.
Qed.

(** [Sort] orders the intersections and keeps all of them. *)
Lemma insert_sorted_perm i l : Permutation (Desktop.insert_sorted i l) (i :: l).
Proof.
  induction l as [|h t IH]; [reflexivity|].
  cbn [Desktop.insert_sorted]. destruct (order h <? order i); [|reflexivity].
  rewrite IH. apply perm_swap.
Qed.

Lemma insert_sorted_sorted i l :
  StronglySorted (fun a b => order a <= order b) l ->
  StronglySorted (fun a b => order a <= order b) (Desktop.insert_sorted i l).
Proof.
  induction l as [|h t IH]; intros Hs; [repeat constructor|].
  cbn [Desktop.insert_sorted]. inversion Hs as [|? ? Hs' Hall]. subst.
  destruct (order h <? order i) eqn:E.
  - apply Z.ltb_lt in E. constructor; [apply IH; exact Hs'|].
    apply Forall_forall. intros x Hx.
    apply (Permutation_in x (insert_sorted_perm i t)) in Hx. destruct Hx as [<-|Hx].
    + cbn. lia.
    + apply (proj1 (Forall_forall _ _) Hall x Hx).
  - apply Z.ltb_ge in E. constructor; [exact Hs|]. constructor; [exact E|].
    apply Forall_forall. intros x Hx. pose proof (proj1 (Forall_forall _ _) Hall x Hx).
    cbn in H. lia.
Qed.

Lemma Sort_spec l :
  Permutation (Desktop.Sort l) l
  /\ StronglySorted (fun a b => order a <= order b) (Desktop.Sort l).
Proof.
  unfold Desktop.Sort. induction l as [|i l [IH1 IH2]]; cbn [fold_right].
  - split; constructor.
  - split; [rewrite insert_sorted_perm; apply perm_skip; exact IH1|].
    apply insert_sorted_sorted. exact IH2.
Qed.

End RemoveDoublesSpec.

(** X15: after [Sort] and [RemoveDoubles], no two intersections share an
    order value (a place on the ring), and the places that are left are
    exactly those where all the intersections found agree on whether the
    ring enters or leaves: every intersection kept is one that was found at
    such a place, and every such place keeps one. *)
Theorem RemoveDoubles_keeps_one_way_crossings (l : list Desktop.Intersection) :
  let kept := Desktop.RemoveDoubles (Desktop.Sort l) in
  StronglySorted (fun a b => Desktop.order a < Desktop.order b) kept
  /\ (forall x, In x kept -> In x l /\ one_way l x)
  /\ (forall i, In i l -> one_way l i ->
        exists x, In x kept /\ Desktop.order x = Desktop.order i).
Proof.
  destruct (Sort_spec l) as [Hperm Hsorted].
  destruct (RemoveDoubles_spec (Desktop.Sort l) Hsorted) as (H1 & H2 & H3).
  assert (Hone : forall x, one_way (Desktop.Sort l) x <-> one_way l x).
  { intros x. unfold one_way. split; intros H j Hj; apply H.
    - apply (Permutation_in j (Permutation_sym Hperm)). exact Hj.
    - apply (Permutation_in j Hperm). exact Hj. }
  cbn zeta. split; [exact H1|]. split.
  - intros x Hx. destruct (H2 x Hx) as [Ha Hb].
    split; [apply (Permutation_in x Hperm); exact Ha|apply Hone; exact Hb].
  - intros i Hi Hw. apply H3; [apply (Permutation_in i (Permutation_sym Hperm)); exact Hi|].
    apply Hone. exact Hw.
Qed.

Definition touch_in : Desktop.Intersection := Desktop.mkIntersection (mkPoint 10 0) 100 0 true.
Definition touch_out : Desktop.Intersection := Desktop.mkIntersection (mkPoint 10 0) 100 25 false.
Definition cross_in : Desktop.Intersection := Desktop.mkIntersection (mkPoint 10 5) 125 0 true.

Lemma RemoveDoubles_keeps_one_way_crossings_witness :
  Desktop.RemoveDoubles (Desktop.Sort [cross_in; touch_in; touch_out]) = [cross_in]
  /\ In cross_in [cross_in; touch_in; touch_out]
  /\ one_way [cross_in; touch_in; touch_out] cross_in.
Proof.
  assert (E : Desktop.RemoveDoubles (Desktop.Sort [cross_in; touch_in; touch_out]) = [cross_in])
    by reflexivity.
  split; [exact E|].
  apply (proj1 (proj2 (RemoveDoubles_keeps_one_way_crossings [cross_in; touch_in; touch_out]))).
  rewrite E. left. reflexivity.
Defined.

(** ** polygon.js: the intersections that survive *)

(** The entering flags of a list alternate, the first one being the
    opposite of [was]. *)
Fixpoint alternates (was : bool) (l : list Web.PIntersection) : Prop :=
  match l with
  | [] => True
  | i :: rest => Web.entering i = negb was /\ alternates (negb was) rest
  end.

(** The value of [wasEntering] after the second loop of [removeDoubles]. *)
Fixpoint trim_state (wasEntering : bool) (l : list Web.PIntersection) : bool :=
  match l with
  | [] => wasEntering
  | i :: rest =>
      if Bool.eqb (Web.entering i) wasEntering then trim_state wasEntering rest
      else trim_state (negb wasEntering) rest
  end.

Lemma trim_alternates was l : alternates was (Web.removeDoubles_trim was l).
Proof.
  revert was. induction l as [|i l IH]; intros was; [exact I|].
  cbn [Web.removeDoubles_trim]. destruct (Bool.eqb (Web.entering i) was) eqn:E.
  - apply IH.
  - cbn [alternates]. split; [|apply IH].
    destruct (Web.entering i), was; try reflexivity; discriminate E.
Qed.

Lemma trim_state_last was i l :
  trim_state was (i :: l) = Web.entering (last l i).
Proof.
  revert was i. induction l as [|j l IH]; intros was i.
  - cbn. destruct (Web.entering i), was; reflexivity.
  - change (trim_state was (i :: j :: l))
      with (if Bool.eqb (Web.entering i) was then trim_state was (j :: l)
            else trim_state (negb was) (j :: l)).
    rewrite !IH, last_cons_default. destruct (Bool.eqb (Web.entering i) was); reflexivity.
Qed.

Lemma trim_parity was l :
  Nat.even (length (Web.removeDoubles_trim was l)) = Bool.eqb (trim_state was l) was.
Proof.
  revert was. induction l as [|i l IH]; intros was.
  - cbn. destruct was; reflexivity.
  - cbn [Web.removeDoubles_trim trim_state].
    destruct (Bool.eqb (Web.entering i) was); [apply IH|].
    cbn [length]. rewrite Nat.even_succ, <- Nat.negb_even, IH.
    destruct was, (trim_state _ l); reflexivity.
Qed.

Lemma alternates_last was l d :
  alternates was l -> l <> [] ->
  Web.entering (last l d) = if Nat.even (length l) then was else negb was.
Proof.
  revert was. induction l as [|i l IH]; intros was Halt Hne; [contradiction|].
  destruct l as [|j l].
  - cbn. apply Halt.
  - destruct Halt as [_ Halt]. specialize (IH (negb was) Halt ltac:(discriminate)).
    change (last (i :: j :: l) d) with (last (j :: l) d). rewrite IH.
    change (length (i :: j :: l)) with (S (length (j :: l))).
    rewrite Nat.even_succ, <- Nat.negb_even, negb_involutive.
    destruct (Nat.even (length (j :: l))); reflexivity.
Qed.

(** X16: the intersections that [removeDoubles] leaves come in pairs: their
    number is even and their entering flags alternate, the first one being
    the opposite of the last one, so that a trace that enters the new ring
    also leaves it. *)
Theorem removeDoubles_alternates (l : list Web.PIntersection) :
  let kept := Web.removeDoubles l in
  Nat.even (length kept) = true
  /\ (forall first rest, kept = first :: rest ->
        alternates (Web.entering (last rest first)) kept
        /\ Web.entering first = negb (Web.entering (last rest first))).
Proof.
  cbn zeta. unfold Web.removeDoubles.
  destruct (Web.removeDoubles_runs None l) as [|i0 runs]; [split; [reflexivity|discriminate]|].
  set (was := Web.entering (last runs i0)).
  pose proof (trim_alternates was (i0 :: runs)) as Halt.
  pose proof (trim_parity was (i0 :: runs)) as Hpar.
  rewrite trim_state_last in Hpar. fold was in Hpar. rewrite Bool.eqb_reflx in Hpar.
  split; [exact Hpar|].
  intros first rest E. rewrite E in Halt, Hpar.
  pose proof (alternates_last was (first :: rest) first Halt ltac:(discriminate)) as Hlast.
  rewrite Hpar, last_cons_default in Hlast.
  rewrite Hlast, E. split; [exact Halt|]. cbn [alternates] in Halt. apply Halt.
Qed.

Definition crossing_in : Web.PIntersection := Web.mkPIntersection (0, 5)%Q (1 # 2) (7 # 2) true.
Definition crossing_out : Web.PIntersection := Web.mkPIntersection (5, 0)%Q (7 # 2) (1 # 2) false.

Lemma removeDoubles_alternates_witness :
  Web.removeDoubles [crossing_in; crossing_out] = [crossing_in; crossing_out]
  /\ alternates (Web.entering (last [crossing_out] crossing_in)) [crossing_in; crossing_out]
  /\ Web.entering crossing_in = negb (Web.entering (last [crossing_out] crossing_in)).
Proof.
  assert (E : Web.removeDoubles [crossing_in; crossing_out] = [crossing_in; crossing_out])
    by reflexivity.
  split; [exact E|].
  pose proof (proj2 (removeDoubles_alternates [crossing_in; crossing_out])
                crossing_in [crossing_out] E) as H.
  rewrite E in H. exact H.
Defined.

(** ** Paths.cpp: the sightlines that Init stores *)

Section InitSightlines.

Context {Wt : Weight} (Length : Point -> W).

Local Abbreviation Waypoint := (@DesktopPaths.Waypoint Wt).
Local Abbreviation point := (@DesktopPaths.point Wt).
Local Abbreviation sightlines := (@DesktopPaths.sightlines Wt).

(** Every sightline is stored at both of its ends, with one length, and
    crosses no edge of the region. *)
Definition lines_paired (rings : Desktop.Polygon) (wps : list Waypoint) : Prop :=
  forall i w j d,
    nth_error wps i = Some w -> In (j, d) (sightlines w) ->
    exists w', nth_error wps j = Some w'
               /\ In (i, d) (sightlines w')
               /\ Desktop.Intersects rings (point w) (point w') = false.

(** [b] holds the waypoints of [a], each with at least its sightlines. *)
Definition lines_grow (a b : list Waypoint) : Prop :=
  forall j w, nth_error a j = Some w ->
    exists w', nth_error b j = Some w' /\ point w' = point w
               /\ incl (sightlines w) (sightlines w').

Lemma lines_paired_grow rings (a b : list Waypoint) :
  lines_grow a b ->
  (forall i w j d, nth_error b i = Some w -> In (j, d) (sightlines w) ->
     (exists w0, nth_error a i = Some w0 /\ point w0 = point w /\ In (j, d) (sightlines w0))
     \/ exists w', nth_error b j = Some w' /\ In (i, d) (sightlines w')
                   /\ Desktop.Intersects rings (point w) (point w') = false) ->
  lines_paired rings a -> lines_paired rings b.
Proof.
  intros Hgrow Hnew Ha i w j d Hw Hl.
  destruct (Hnew i w j d Hw Hl) as [(w0 & Hw0 & Hp & Hl0)|H]; [|exact H].
  destruct (Ha i w0 j d Hw0 Hl0) as (w1 & Hw1 & Hl1 & Hclear).
  destruct (Hgrow j w1 Hw1) as (w1' & Hw1' & Hp1 & Hincl).
  exists w1'. split; [exact Hw1'|]. split; [apply Hincl; exact Hl1|].
  rewrite <- Hp, Hp1. exact Hclear.
Qed.

Lemma AddWaypoint_step_paired rings vertex back forward end_ (wps : list Waypoint) i :
  (i < end_)%nat -> nth_error (map point wps) end_ = Some vertex ->
  lines_paired rings wps ->
  lines_paired rings (DesktopPaths.AddWaypoint_step Length rings vertex back forward end_ wps i).
Proof.
  intros Hi Hend Hok. unfold DesktopPaths.AddWaypoint_step.
  destruct (nth_error wps i) as [wi|] eqn:Ei; [|exact Hok].
  destruct (nth_error wps end_) as [we|] eqn:Ee; [|exact Hok].
  destruct (((Pt.Cross back (DesktopPaths.point wi -p vertex) <=? 0)
             || (Pt.Cross (DesktopPaths.point wi -p vertex) forward <=? 0))
            && negb (Desktop.Intersects rings (DesktopPaths.point wi) vertex)) eqn:Ec;
    [|exact Hok].
  apply andb_true_iff in Ec. destruct Ec as [_ Hclear]. apply negb_true_iff in Hclear.
  assert (Hli : (i < length wps)%nat) by (apply nth_error_Some; congruence).
  assert (Hle : (end_ < length wps)%nat) by (apply nth_error_Some; congruence).
  assert (Hve : point we = vertex).
  { rewrite nth_error_map, Ee in Hend. cbn in Hend. congruence. }
  set (d := Length (DesktopPaths.point wi -p vertex)) in *.
  set (wi' := DesktopPaths.push_sightline wi (end_, d)).
  set (we' := DesktopPaths.push_sightline we (i, d)).
  assert (Hnth : forall k, nth_error (array_set (array_set wps i wi') end_ we') k
                           = if (k =? end_)%nat then Some we'
                             else if (k =? i)%nat then Some wi' else nth_error wps k).
  { intros k. rewrite nth_error_array_set by (rewrite array_set_length; assumption).
    destruct (k =? end_)%nat; [reflexivity|]. apply nth_error_array_set. exact Hli. }
  apply (lines_paired_grow rings wps); [| |exact Hok].
  - intros k w Hw. rewrite Hnth.
    destruct (k =? end_)%nat eqn:Eke.
    + apply Nat.eqb_eq in Eke. subst k. rewrite Ee in Hw. injection Hw as <-.
      exists we'. split; [reflexivity|]. split; [reflexivity|].
      intros l Hl. cbn. apply in_or_app. left. exact Hl.
    + destruct (k =? i)%nat eqn:Eki.
      * apply Nat.eqb_eq in Eki. subst k. rewrite Ei in Hw. injection Hw as <-.
        exists wi'. split; [reflexivity|]. split; [reflexivity|].
        intros l Hl. cbn. apply in_or_app. left. exact Hl.
      * exists w. split; [exact Hw|]. split; [reflexivity|]. intros l Hl. exact Hl.
  - intros k w j d0 Hw Hl. rewrite Hnth in Hw.
    destruct (k =? end_)%nat eqn:Eke.
    + apply Nat.eqb_eq in Eke. subst k. injection Hw as <-.
      cbn [DesktopPaths.push_sightline DesktopPaths.sightlines we'] in Hl.
      apply in_app_or in Hl. destruct Hl as [Hl|[Hl|[]]].
      * left. exists we. split; [exact Ee|]. split; [reflexivity|exact Hl].
      * injection Hl as <- <-. right. exists wi'. rewrite Hnth.
        replace (i =? end_)%nat with false by (symmetry; apply Nat.eqb_neq; lia).
        rewrite Nat.eqb_refl. split; [reflexivity|].
        split; [cbn; apply in_or_app; right; left; reflexivity|].
        cbn [DesktopPaths.push_sightline DesktopPaths.point we' wi'].
        rewrite Hve, Desktop_Intersects_swap. exact Hclear.
    + destruct (k =? i)%nat eqn:Eki.
      * apply Nat.eqb_eq in Eki. subst k. injection Hw as <-.
        cbn [DesktopPaths.push_sightline DesktopPaths.sightlines wi'] in Hl.
        apply in_app_or in Hl. destruct Hl as [Hl|[Hl|[]]].
        -- left. exists wi. split; [exact Ei|]. split; [reflexivity|exact Hl].
        -- injection Hl as <- <-. right. exists we'. rewrite Hnth, Nat.eqb_refl.
           split; [reflexivity|].
           split; [cbn; apply in_or_app; right; left; reflexivity|].
           cbn [DesktopPaths.push_sightline DesktopPaths.point we' wi'].
           rewrite Hve. exact Hclear.
      * left. exists w. split; [exact Hw|]. split; [reflexivity|exact Hl].
Qed.

Lemma AddWaypoint_paired rings (wps : list Waypoint) vertex back forward :
  lines_paired rings wps ->
  lines_paired rings (DesktopPaths.AddWaypoint Length rings wps vertex back forward).
Proof.
  intros Hok. unfold DesktopPaths.AddWaypoint.
  set (first := wps ++ [DesktopPaths.mkWaypoint vertex [] wzero false (-1)%Z (Fin wzero)]).
  assert (Hfirst : lines_paired rings first).
  { intros k w j d Hw Hl. unfold first in *.
    destruct (Nat.lt_ge_cases k (length wps)) as [Hlt|Hge].
    - rewrite nth_error_app1 in Hw by exact Hlt.
      destruct (Hok k w j d Hw Hl) as (w' & Hw' & H1 & H2).
      exists w'. split; [|split; assumption].
      rewrite nth_error_app1; [exact Hw'|]. apply nth_error_Some. congruence.
    - rewrite nth_error_app2 in Hw by exact Hge.
      destruct (k - length wps)%nat as [|x]; [|destruct x; discriminate Hw].
      injection Hw as <-. destruct Hl. }
  assert (Hend : nth_error (map point first) (length wps) = Some vertex).
  { unfold first. rewrite map_app, nth_error_app2 by (rewrite length_map; lia).
    rewrite length_map, Nat.sub_diag. reflexivity. }
  assert (G : forall idx (l : list Waypoint),
            (forall i, In i idx -> (i < length wps)%nat) ->
            nth_error (map point l) (length wps) = Some vertex ->
            lines_paired rings l ->
            lines_paired rings
              (fold_left (DesktopPaths.AddWaypoint_step Length rings vertex back forward
                            (length wps)) idx l)).
  { induction idx as [|i idx IH]; intros l Hidx Hl Hlok; [exact Hlok|].
    cbn [fold_left]. apply IH.
    - intros j Hj. apply Hidx. right. exact Hj.
    - rewrite AddWaypoint_step_points. exact Hl.
    - apply AddWaypoint_step_paired; [apply Hidx; left; reflexivity|exact Hl|exact Hlok]. }
  apply G; [|exact Hend|exact Hfirst].
  intros i Hi. apply in_seq in Hi. lia.
Qed.

Lemma Init_ring_loop_paired rings prev here part :
  forall wps : list Waypoint,
    lines_paired rings wps ->
    lines_paired rings (DesktopPaths.Init_ring_loop Length rings prev here part wps).
Proof.
  revert prev here. induction part as [|next rest IH]; intros prev here wps Hok;
    [exact Hok|].
  cbn [DesktopPaths.Init_ring_loop]. apply IH.
  destruct (0 <=? _); [apply AddWaypoint_paired; exact Hok|exact Hok].
Qed.

Lemma Init_paired masks p (this : DesktopPaths.Paths) :
  DesktopPaths.Init Length masks p = Some this ->
  lines_paired (DesktopPaths.passable this) (DesktopPaths.waypoints this).
Proof.
  unfold DesktopPaths.Init. destruct (DesktopPaths.Init_passable masks p) as [rings|];
    [|discriminate].
  intros H. injection H as <-. cbn [DesktopPaths.waypoints DesktopPaths.passable].
  assert (G : forall parts (wps : list Waypoint),
            lines_paired rings wps ->
            lines_paired rings (fold_left (DesktopPaths.Init_ring Length rings) parts wps)).
  { induction parts as [|part parts IH]; intros wps Hok; [exact Hok|].
    cbn [fold_left]. apply IH. unfold DesktopPaths.Init_ring.
    destruct (length part <? 3)%nat; [exact Hok|apply Init_ring_loop_paired; exact Hok]. }
  apply G. intros i w j d Hw. destruct i; discriminate Hw.
Qed.

(** X17: the sightlines that [Init] stores make an undirected graph inside
    the region: every sightline of a waypoint leads to another waypoint, is
    stored at that waypoint too with the same length, which is the distance
    between the two points, and crosses no edge of the passable region. *)
Theorem Init_stores_clear_sightlines
    (Length_neg : forall a, Length (Pt.neg a) = Length a)
    (masks : list Desktop.Polygon) (p : Point) (this : DesktopPaths.Paths) :
  DesktopPaths.Init Length masks p = Some this ->
  forall i w j d,
    nth_error (DesktopPaths.waypoints this) i = Some w ->
    In (j, d) (DesktopPaths.sightlines w) ->
    j <> i
    /\ exists w', nth_error (DesktopPaths.waypoints this) j = Some w'
         /\ In (i, d) (DesktopPaths.sightlines w')
         /\ d = DesktopPaths.Distance Length (DesktopPaths.point w) (DesktopPaths.point w')
         /\ Desktop.Intersects (DesktopPaths.passable this)
              (DesktopPaths.point w) (DesktopPaths.point w') = false
         /\ Desktop.Intersects (DesktopPaths.passable this)
              (DesktopPaths.point w') (DesktopPaths.point w) = false.
Proof.
  intros Hinit i w j d Hw Hl.
  destruct (Init_lines_ok Length Length_neg masks p this Hinit i w Hw (j, d) Hl)
    as (Hne & q & Hq & Hd).
  destruct (Init_paired masks p this Hinit i w j d Hw Hl) as (w' & Hw' & Hback & Hclear).
  cbn [fst snd] in *. split; [exact Hne|]. exists w'.
  split; [exact Hw'|]. split; [exact Hback|].
  rewrite nth_error_map, Hw' in Hq. cbn in Hq. injection Hq as <-.
  split; [exact Hd|]. split; [exact Hclear|].
  rewrite Desktop_Intersects_swap. exact Hclear.
Qed.

End InitSightlines.

Definition ushape_corner : @DesktopPaths.Waypoint ZWeight :=
  DesktopPaths.mkWaypoint (mkPoint 80 40) [(1%nat, 40 : @W ZWeight)] (0 : @W ZWeight) false
    (-1) (Fin (0 : @W ZWeight)).

Lemma Init_stores_clear_sightlines_witness :
  @DesktopPaths.Init ZWeight taxicab [[ushape]] (mkPoint 5 5) = Some ushape_desktop
  /\ nth_error (DesktopPaths.waypoints ushape_desktop) 0 = Some ushape_corner
  /\ In (1%nat, 40 : @W ZWeight) (DesktopPaths.sightlines ushape_corner)
  /\ exists w', nth_error (DesktopPaths.waypoints ushape_desktop) 1 = Some w'
       /\ In (0%nat, 40 : @W ZWeight) (DesktopPaths.sightlines w')
       /\ 40 = @DesktopPaths.Distance ZWeight taxicab
                 (DesktopPaths.point ushape_corner) (DesktopPaths.point w')
       /\ Desktop.Intersects (DesktopPaths.passable ushape_desktop)
            (DesktopPaths.point ushape_corner) (DesktopPaths.point w') = false
       /\ Desktop.Intersects (DesktopPaths.passable ushape_desktop)
            (DesktopPaths.point w') (DesktopPaths.point ushape_corner) = false.
Proof.
  assert (E : @DesktopPaths.Init ZWeight taxicab [[ushape]] (mkPoint 5 5) = Some ushape_desktop)
    by (vm_compute; reflexivity).
  assert (Hw : nth_error (DesktopPaths.waypoints ushape_desktop) 0 = Some ushape_corner)
    by (vm_compute; reflexivity).
  assert (Hl : In (1%nat, 40 : @W ZWeight) (DesktopPaths.sightlines ushape_corner))
    by (left; reflexivity).
  split; [exact E|]. split; [exact Hw|]. split; [exact Hl|].
  exact (proj2 (@Init_stores_clear_sightlines ZWeight taxicab taxicab_neg [[ushape]]
                  (mkPoint 5 5) ushape_desktop E 0%nat ushape_corner 1%nat 40 Hw Hl)).
Defined.

(** ** What a search leaves behind *)

Section SearchKeepsMap.

Context {Wt : Weight} (hypot : Point -> W).

Lemma cached_lines_clear (rings : Web.Polygon) (wps : list WebPaths.Waypoint) i w line :
  cache_valid hypot rings wps ->
  nth_error wps i = Some w -> In line (WebPaths.sightlines w) ->
  WebPaths.link line <> i
  /\ exists other, nth_error wps (WebPaths.link line) = Some other
       /\ WebPaths.sdistance line
          = WebPaths.distance hypot (WebPaths.point other) (WebPaths.point w)
       /\ Web.intersects rings (WebPaths.point w) (WebPaths.point other) = false.
Proof.
  intros Hv Hw Hl. destruct (Hv i w Hw) as [E|E]; [rewrite E in Hl; destruct Hl|].
  rewrite E in Hl.
  destruct (lines_spec hypot rings wps i line Hl) as (_ & Hlt & Hne & Hd & Hc).
  split; [exact Hne|]. unfold Web_point_at in Hd, Hc. rewrite Hw in Hd, Hc.
  destruct (nth_error wps (WebPaths.link line)) as [other|] eqn:Eo.
  - exists other. auto.
  - apply nth_error_None in Eo. lia.
Qed.

(** X18: a search changes nothing that later searches depend on.  On the
    web, in every state that calls of [find] reach from [init], the region
    and the points of the waypoints are those that the call found, and
    every cached sightline leads to another waypoint, holds the distance
    between the two and crosses no edge of the region, in either direction.
    On the desktop, [Find] leaves the points and the sightlines of all
    waypoints as they were. *)
Theorem find_keeps_the_map :
  (forall this : WebPaths.Paths,
     initialized hypot this ->
     forall fuel from to,
       let after := snd (WebPaths.find hypot fuel this from to) in
       WebPaths.passable after = WebPaths.passable this
       /\ map (@WebPaths.point Wt) (WebPaths.waypoints after)
          = map (@WebPaths.point Wt) (WebPaths.waypoints this)
       /\ forall i w line,
            nth_error (WebPaths.waypoints after) i = Some w ->
            In line (WebPaths.sightlines w) ->
            WebPaths.link line <> i
            /\ exists other,
                 nth_error (WebPaths.waypoints after) (WebPaths.link line) = Some other
                 /\ WebPaths.sdistance line
                    = WebPaths.distance hypot (WebPaths.point other) (WebPaths.point w)
                 /\ Web.intersects (WebPaths.passable this)
                      (WebPaths.point w) (WebPaths.point other) = false
                 /\ Web.intersects (WebPaths.passable this)
                      (WebPaths.point other) (WebPaths.point w) = false)
  /\ (forall (this : DesktopPaths.Paths) fuel from to path wps',
        DesktopPaths.Find hypot fuel this from to = Some (path, wps') ->
        map (@DesktopPaths.point Wt) wps'
        = map (@DesktopPaths.point Wt) (DesktopPaths.waypoints this)
        /\ map (@DesktopPaths.sightlines Wt) wps'
           = map (@DesktopPaths.sightlines Wt) (DesktopPaths.waypoints this)).
Proof.
  split.
  - intros this Hinit fuel from to after.
    pose proof (initialized_valid hypot this Hinit) as Hv.
    destruct (find_state hypot fuel this from to Hv) as (Hp & Hpts & Hv').
    fold after in Hp, Hpts, Hv'.
    split; [exact Hp|]. split; [exact Hpts|].
    intros i w line Hw Hl.
    destruct (cached_lines_clear _ _ i w line Hv' Hw Hl) as (Hne & other & Ho & Hd & Hc).
    split; [exact Hne|]. exists other. split; [exact Ho|]. split; [exact Hd|].
    split; [exact Hc|]. rewrite Web_intersects_swap. exact Hc.
  - intros this fuel from to path wps' H.
    pose proof (Desktop_Find_fixed hypot fuel this from to path wps' H) as Hf.
    split.
    + apply (f_equal (map fst)) in Hf. rewrite !map_map in Hf. exact Hf.
    + apply (f_equal (map snd)) in Hf. rewrite !map_map in Hf. exact Hf.
Qed.

End SearchKeepsMap.

Lemma find_keeps_the_map_witness :
  @initialized ZWeight taxicab ushape_paths
  /\ WebPaths.passable
       (snd (@WebPaths.find ZWeight taxicab 10 ushape_paths (mkPoint 5 18) (mkPoint 25 18)))
     = WebPaths.passable ushape_paths
  /\ map (@WebPaths.point ZWeight)
       (WebPaths.waypoints
          (snd (@WebPaths.find ZWeight taxicab 10 ushape_paths (mkPoint 5 18) (mkPoint 25 18))))
     = map (@WebPaths.point ZWeight) (WebPaths.waypoints ushape_paths).
Proof.
  assert (H : @initialized ZWeight taxicab ushape_paths) by apply initialized_init.
  split; [exact H|].
  destruct (proj1 (@find_keeps_the_map ZWeight taxicab) ushape_paths H 10%nat
              (mkPoint 5 18) (mkPoint 25 18)) as (H1 & H2 & _).
  split; assumption.
Defined.

(** ** Winding numbers: the two ports side by side *)

(** The sum of [g a b] over the consecutive pairs of [start :: pts]. *)
Fixpoint chain (g : Point -> Point -> Z) (start : Point) (pts : list Point) : Z :=
  match pts with
  | [] => 0
  | p :: rest => g start p + chain g p rest
  end.

(** What the edge from [a] to [b] adds to the winding number and to the
    border count of [Ring::Winding]. *)
Definition Desktop_winds (point a b : Point) : Z * Z :=
  Desktop.Winding_step point (0, 0) (Desktop.mkEdge a b (b -p a) 0).

(** The same for [windingNumber] of polygon.js. *)
Definition Web_winds (point a b : Point) : Z * Z :=
  Web.windingNumber_step (X point) (Y point) (0, 0)
    (Web.mkEdge (X a) (Y a) (X b - X a) (Y b - Y a)).

Lemma Winding_step_sum point acc a b order :
  Desktop.Winding_step point acc (Desktop.mkEdge a b (b -p a) order)
  = (fst acc + fst (Desktop_winds point a b), snd acc + snd (Desktop_winds point a b)).
Proof.
  unfold Desktop_winds, Desktop.Winding_step. destruct acc as [w c].
  cbn [Desktop.Start Desktop.End Desktop.Vector fst snd].
  destruct (Bool.eqb _ _); cbn [fst snd]; f_equal; lia.
Qed.

Lemma windingNumber_step_sum point acc a b :
  Web.windingNumber_step (X point) (Y point) acc
    (Web.mkEdge (X a) (Y a) (X b - X a) (Y b - Y a))
  = (fst acc + fst (Web_winds point a b), snd acc + snd (Web_winds point a b)).
Proof.
  unfold Web_winds, Web.windingNumber_step. destruct acc as [w c].
  cbn [Web.x Web.y Web.dx Web.dy fst snd].
  destruct (Y b - Y a =? 0).
  - destruct (Y a =? Y point); cbn [fst snd]; f_equal; lia.
  - destruct (Bool.eqb _ _); cbn [fst snd]; f_equal; lia.
Qed.

Lemma Desktop_Winding_chain point start order pts acc :
  fold_left (Desktop.Winding_step point) (Desktop.edges_from start order pts) acc
  = (fst acc + chain (fun a b => fst (Desktop_winds point a b)) start pts,
     snd acc + chain (fun a b => snd (Desktop_winds point a b)) start pts).
Proof.
  revert start order acc. induction pts as [|p rest IH]; intros start order acc.
  - cbn. destruct acc. cbn. f_equal; lia.
  - cbn [Desktop.edges_from fold_left chain]. rewrite Winding_step_sum, IH.
    cbn [fst snd]. f_equal; lia.
Qed.

Lemma Web_windingNumber_chain point first start pts acc :
  fold_left (Web.windingNumber_step (X point) (Y point)) (Web.expand_from first start pts) acc
  = (fst acc + chain (fun a b => fst (Web_winds point a b)) start pts
     + fst (Web_winds point (last pts start) first),
     snd acc + chain (fun a b => snd (Web_winds point a b)) start pts
     + snd (Web_winds point (last pts start) first)).
Proof.
  revert start acc. induction pts as [|p rest IH]; intros start acc.
  - cbn [Web.expand_from fold_left chain last]. rewrite windingNumber_step_sum.
    f_equal; lia.
  - cbn [Web.expand_from fold_left chain]. rewrite windingNumber_step_sum, IH.
    rewrite last_cons_default. cbn [fst snd]. f_equal; lia.
Qed.

Lemma Web_winds_border_nonneg point a b : 0 <= snd (Web_winds point a b).
Proof.
  unfold Web_winds, Web.windingNumber_step. cbn [Web.x Web.y Web.dx Web.dy].
  destruct (Y b - Y a =? 0).
  - destruct (Y a =? Y point); cbn [snd]; [|lia].
    destruct (_ && _); cbn; lia.
  - destruct (Bool.eqb _ _); cbn [snd]; [lia|].
    destruct (_ =? 0); cbn; lia.
Qed.

(** Off the border, an edge adds the same to the winding number in both
    ports. *)
Lemma winds_agree point a b :
  snd (Web_winds point a b) = 0 ->
  Desktop_winds point a b = Web_winds point a b.
Proof.
  unfold Web_winds, Desktop_winds, Web.windingNumber_step, Desktop.Winding_step.
  cbn [Web.x Web.y Web.dx Web.dy Desktop.Start Desktop.End Desktop.Vector].
  replace (Y a + (Y b - Y a)) with (Y b) by lia.
  destruct (Y b - Y a =? 0) eqn:Ed.
  - apply Z.eqb_eq in Ed. replace (Y b) with (Y a) by lia.
    rewrite Bool.eqb_reflx. intros Hb. destruct (Y a =? Y point); cbn [snd] in Hb |- *.
    + f_equal. lia.
    + reflexivity.
  - destruct (Bool.eqb (Y a <=? Y point) (Y b <=? Y point)); [reflexivity|].
    cbn [snd]. intros Hb.
    set (wc := (X point - X a) * (Y b - Y a) - (Y point - Y a) * (X b - X a)) in *.
    assert (Hdc : Pt.Cross (b -p a) (point -p a) = - wc)
      by (unfold wc, Pt.Cross, Pt.sub; cbn; lia).
    rewrite Hdc.
    assert (Hne : wc <> 0).
    { intros E. rewrite E in Hb. cbn in Hb. lia. }
    replace (0 <? - wc) with (wc <=? 0)
      by (destruct (wc <=? 0) eqn:E; symmetry;
          [apply Z.leb_le in E; apply Z.ltb_lt|apply Z.leb_gt in E; apply Z.ltb_ge]; lia).
    replace (- wc <=? 0) with (0 <? wc)
      by (destruct (0 <? wc) eqn:E; symmetry;
          [apply Z.ltb_lt in E; apply Z.leb_le|apply Z.ltb_ge in E; apply Z.leb_gt]; lia).
    replace (- wc =? 0) with (wc =? 0)
      by (destruct (wc =? 0) eqn:E; symmetry;
          [apply Z.eqb_eq in E; apply Z.eqb_eq|apply Z.eqb_neq in E; apply Z.eqb_neq]; lia).
    reflexivity.
Qed.

Lemma chain_nonneg g start pts :
  (forall a b, 0 <= g a b) -> 0 <= chain g start pts.
Proof.
  intros Hg. revert start. induction pts as [|p rest IH]; intros start; cbn; [lia|].
  specialize (Hg start p). specialize (IH p). lia.
Qed.

Lemma chain_agree point start pts :
  chain (fun a b => snd (Web_winds point a b)) start pts = 0 ->
  chain (fun a b => fst (Desktop_winds point a b)) start pts
  = chain (fun a b => fst (Web_winds point a b)) start pts
  /\ chain (fun a b => snd (Desktop_winds point a b)) start pts = 0.
Proof.
  revert start. induction pts as [|p rest IH]; intros start H; [split; reflexivity|].
  cbn [chain] in *.
  pose proof (Web_winds_border_nonneg point start p) as H1.
  pose proof (chain_nonneg (fun a b => snd (Web_winds point a b)) p rest
                (Web_winds_border_nonneg point)) as H2.
  assert (E1 : snd (Web_winds point start p) = 0) by lia.
  assert (E2 : chain (fun a b => snd (Web_winds point a b)) p rest = 0) by lia.
  destruct (IH p E2) as [IH1 IH2].
  rewrite (winds_agree point start p E1), IH1, IH2, E1. split; reflexivity.
Qed.

Lemma Winding_ports_agree (pts : list Point) (point : Point) :
  snd (Web.windingNumber (Web.expand pts) (X point) (Y point)) = 0 ->
  Desktop.Winding pts point = Web.windingNumber (Web.expand pts) (X point) (Y point).
Proof.
  unfold Desktop.Winding, Web.windingNumber, Desktop.edges, Desktop.back.
  destruct pts as [|p rest]; [reflexivity|].
  cbn [Web.expand]. rewrite Web_windingNumber_chain, Desktop_Winding_chain.
  cbn [fst snd chain]. rewrite last_cons_default. intros Hb.
  pose proof (Web_winds_border_nonneg point (last rest p) p) as H1.
  pose proof (chain_nonneg (fun a b => snd (Web_winds point a b)) p rest
                (Web_winds_border_nonneg point)) as H2.
  assert (E1 : snd (Web_winds point (last rest p) p) = 0) by lia.
  assert (E2 : chain (fun a b => snd (Web_winds point a b)) p rest = 0) by lia.
  destruct (chain_agree point p rest E2) as [C1 C2].
  rewrite (winds_agree point _ _ E1), C1, C2, E1, E2. f_equal; lia.
Qed.

(** X19: away from the border the two ports agree on containment: when
    the web port counts no border crossing of a ring at a point, the
    desktop port computes the same winding number and border count for the
    ring, and the two ports give the same answer for the ring and, when this
    holds for every ring, for the polygon. *)
Theorem containment_ports_agree (point : Point) :
  (forall pts : list Point,
     snd (Web.windingNumber (Web.expand pts) (X point) (Y point)) = 0 ->
     Desktop.Winding pts point = Web.windingNumber (Web.expand pts) (X point) (Y point)
     /\ Desktop.Contains pts point = Web.contains (Web.expand pts) point)
  /\ (forall this : Desktop.Polygon,
        (forall pts, In pts this ->
           snd (Web.windingNumber (Web.expand pts) (X point) (Y point)) = 0) ->
        Desktop.Polygon_Contains this point
        = Web.Polygon_contains (map Web.expand this) point).
Proof.
  split.
  - intros pts Hb. pose proof (Winding_ports_agree pts point Hb) as E.
    split; [exact E|]. unfold Desktop.Contains, Web.contains. rewrite E, Hb.
    cbn [negb Z.eqb]. rewrite orb_false_r. reflexivity.
  - intros this Hall. unfold Desktop.Polygon_Contains, Web.Polygon_contains.
    generalize 0 as w. induction this as [|pts rest IH]; intros w; [reflexivity|].
    cbn [map Desktop.Polygon_Contains_loop Web.Polygon_contains_loop].
    rewrite (Winding_ports_agree pts point (Hall pts (or_introl eq_refl))).
    destruct (negb _); [reflexivity|]. apply IH. intros q Hq. apply Hall. right. exact Hq.
Qed.

Lemma containment_ports_agree_witness :
  snd (Web.windingNumber (Web.expand square) 5 5) = 0
  /\ Desktop.Winding square (mkPoint 5 5) = Web.windingNumber (Web.expand square) 5 5
  /\ Desktop.Contains square (mkPoint 5 5) = Web.contains (Web.expand square) (mkPoint 5 5).
Proof.
  assert (H : snd (Web.windingNumber (Web.expand square) 5 5) = 0) by reflexivity.
  split; [exact H|].
  exact (proj1 (containment_ports_agree (mkPoint 5 5)) square H).
Defined.

(** ** Containment in a polygon *)

Definition sum_Z (l : list Z) : Z := fold_right Z.add 0 l.

Lemma Polygon_Contains_loop_spec (this : Desktop.Polygon) (point : Point) (w : Z) :
  Desktop.Polygon_Contains_loop this point w = true
  <-> (exists part, In part this /\ snd (Desktop.Winding part point) <> 0)
      \/ w + sum_Z (map (fun part => fst (Desktop.Winding part point)) this) <> 0.
Proof.
  revert w. induction this as [|part rest IH]; intros w.
  - cbn. rewrite negb_true_iff, Z.eqb_neq. split.
    + intros H. right. lia.
    + intros [(p & [] & _)|H]. lia.
  - cbn [Desktop.Polygon_Contains_loop map sum_Z fold_right].
    fold (sum_Z (map (fun part => fst (Desktop.Winding part point)) rest)).
    destruct (snd (Desktop.Winding part point) =? 0) eqn:E; cbn [negb].
    + apply Z.eqb_eq in E. rewrite IH. split.
      * intros [(p & Hp & Hb)|H]; [left; exists p; split; [right; exact Hp|exact Hb]|right; lia].
      * intros [(p & [<-|Hp] & Hb)|H]; [contradiction|left; exists p; auto|right; lia].
    + apply Z.eqb_neq in E. split; [|reflexivity]. intros _. left. exists part.
      split; [left; reflexivity|exact E].
Qed.

Lemma Polygon_contains_loop_spec (rings : Web.Polygon) (point : Point) (w : Z) :
  Web.Polygon_contains_loop rings point w = true
  <-> (exists ring, In ring rings /\ snd (Web.windingNumber ring (X point) (Y point)) <> 0)
      \/ w + sum_Z (map (fun ring => fst (Web.windingNumber ring (X point) (Y point))) rings)
         <> 0.
Proof.
  revert w. induction rings as [|ring rest IH]; intros w.
  - cbn. rewrite negb_true_iff, Z.eqb_neq. split.
    + intros H. right. lia.
    + intros [(p & [] & _)|H]. lia.
  - cbn [Web.Polygon_contains_loop map sum_Z fold_right].
    fold (sum_Z (map (fun ring => fst (Web.windingNumber ring (X point) (Y point))) rest)).
    destruct (snd (Web.windingNumber ring (X point) (Y point)) =? 0) eqn:E; cbn [negb].
    + apply Z.eqb_eq in E. rewrite IH. split.
      * intros [(p & Hp & Hb)|H]; [left; exists p; split; [right; exact Hp|exact Hb]|right; lia].
      * intros [(p & [<-|Hp] & Hb)|H]; [contradiction|left; exists p; auto|right; lia].
    + apply Z.eqb_neq in E. split; [|reflexivity]. intros _. left. exists ring.
      split; [left; reflexivity|exact E].
Qed.

(** X20: a point is inside a polygon exactly when it is on the border of
    one of the rings, solid or hole, or the winding numbers of all the rings
    around it do not add up to zero: the early return at a border point
    never hides a sum that says otherwise. *)
Theorem Contains_adds_winding_numbers :
  (forall (this : Desktop.Polygon) (point : Point),
     Desktop.Polygon_Contains this point = true
     <-> (exists part, In part this /\ snd (Desktop.Winding part point) <> 0)
         \/ sum_Z (map (fun part => fst (Desktop.Winding part point)) this) <> 0)
  /\ (forall (rings : Web.Polygon) (point : Point),
        Web.Polygon_contains rings point = true
        <-> (exists ring, In ring rings
                          /\ snd (Web.windingNumber ring (X point) (Y point)) <> 0)
            \/ sum_Z (map (fun ring => fst (Web.windingNumber ring (X point) (Y point)))
                          rings) <> 0).
Proof.
  split.
  - intros this point. unfold Desktop.Polygon_Contains.
    rewrite Polygon_Contains_loop_spec. reflexivity.
  - intros rings point. unfold Web.Polygon_contains.
    rewrite Polygon_contains_loop_spec. reflexivity.
Qed.

(** ** The edges of a ring *)

Lemma edges_from_End start order pts :
  map Desktop.End (Desktop.edges_from start order pts) = pts.
Proof.
  revert start order. induction pts as [|p rest IH]; intros start order; [reflexivity|].
  cbn [Desktop.edges_from map Desktop.End]. rewrite IH. reflexivity.
Qed.

Lemma edges_from_Start start order pts :
  map Desktop.Start (Desktop.edges_from start order pts) = removelast (start :: pts).
Proof.
  revert start order. induction pts as [|p rest IH]; intros start order; [reflexivity|].
  cbn [Desktop.edges_from map Desktop.Start]. rewrite IH. reflexivity.
Qed.

Lemma edges_from_Order start order pts :
  forall e, In e (Desktop.edges_from start order pts) ->
    order <= Desktop.Order e
    /\ Desktop.Order e + Pt.Dot (Desktop.Vector e) (Desktop.Vector e)
       <= Desktop.order_after start order pts.
Proof.
  assert (Hdot : forall v, 0 <= Pt.Dot v v) by (intros v; unfold Pt.Dot; nia).
  assert (Hmono : forall l s o, o <= Desktop.order_after s o l).
  { induction l as [|p rest IH]; intros s o; cbn; [lia|].
    specialize (IH p (o + Pt.Dot (p -p s) (p -p s))).
    specialize (Hdot (p -p s)). lia. }
  revert start order. induction pts as [|p rest IH]; intros start order e He; [destruct He|].
  cbn [Desktop.edges_from Desktop.order_after] in *. destruct He as [<-|He].
  - cbn [Desktop.Order Desktop.Vector]. split; [lia|]. apply Hmono.
  - destruct (IH _ _ e He) as [H1 H2]. specialize (Hdot (p -p start)). split; lia.
Qed.

Lemma expand_from_vertices first start pts :
  map (fun e => mkPoint (Web.x e) (Web.y e)) (Web.expand_from first start pts) = start :: pts.
Proof.
  revert start. induction pts as [|p rest IH]; intros start.
  - cbn. destruct start; reflexivity.
  - cbn [Web.expand_from map Web.x Web.y]. rewrite IH. destruct start; reflexivity.
Qed.

Lemma expand_from_ends first start pts :
  map (fun e => mkPoint (Web.x e + Web.dx e) (Web.y e + Web.dy e))
      (Web.expand_from first start pts)
  = pts ++ [first].
Proof.
  revert start. induction pts as [|p rest IH]; intros start.
  - cbn. f_equal. destruct first. cbn. f_equal; lia.
  - cbn [Web.expand_from map Web.x Web.y Web.dx Web.dy app]. rewrite IH. f_equal.
    destruct p. cbn. f_equal; lia.
Qed.

Lemma expand_from_sum first start pts :
  sum_Z (map Web.dx (Web.expand_from first start pts)) = X first - X start
  /\ sum_Z (map Web.dy (Web.expand_from first start pts)) = Y first - Y start.
Proof.
  revert start. induction pts as [|p rest IH]; intros start.
  - cbn. split; lia.
  - cbn [Web.expand_from map sum_Z fold_right Web.dx Web.dy].
    destruct (IH p) as [H1 H2]. unfold sum_Z in H1, H2. rewrite H1, H2. split; lia.
Qed.

(** X21: the edges of a ring make a closed chain through its vertices.
    The desktop iterator visits one edge for every vertex, ending at the
    vertices in their order and starting at the vertex before, the first
    edge starting at the last vertex; its vector is the end minus the start,
    and its order value lies between 0 and [MaxOrder] less the squared
    length of the edge.  The web port's [expand] makes one edge for every
    vertex, from the vertex to the next one and from the last to the first,
    so that the edge vectors add up to zero. *)
Theorem ring_edges_close_up :
  (forall ring : Desktop.Ring,
     map Desktop.End (Desktop.edges ring) = ring
     /\ map Desktop.Start (Desktop.edges ring) = removelast (Desktop.back ring :: ring)
     /\ forall e, In e (Desktop.edges ring) ->
          Desktop.Vector e = Desktop.End e -p Desktop.Start e
          /\ 0 <= Desktop.Order e
          /\ Desktop.Order e + Pt.Dot (Desktop.Vector e) (Desktop.Vector e)
             <= Desktop.MaxOrder ring)
  /\ (forall (p : Point) (rest : list Point),
        map (fun e => mkPoint (Web.x e) (Web.y e)) (Web.expand (p :: rest)) = p :: rest
        /\ map (fun e => mkPoint (Web.x e + Web.dx e) (Web.y e + Web.dy e))
               (Web.expand (p :: rest))
           = rest ++ [p]
        /\ sum_Z (map Web.dx (Web.expand (p :: rest))) = 0
        /\ sum_Z (map Web.dy (Web.expand (p :: rest))) = 0).
Proof.
  split.
  - intros ring. unfold Desktop.edges, Desktop.MaxOrder.
    split; [apply edges_from_End|]. split; [apply edges_from_Start|].
    intros e He. split; [apply (edges_from_vector _ _ _ _ He)|].
    apply (edges_from_Order _ _ _ e He).
  - intros p rest. cbn [Web.expand].
    split; [apply expand_from_vertices|]. split; [apply expand_from_ends|].
    destruct (expand_from_sum p p rest) as [H1 H2]. split; lia.
Qed.

(** ** Concave points *)

Lemma Cross_from_prev (prev here next : Point) :
  Pt.Cross (here -p prev) (next -p prev) = Pt.Cross (here -p prev) (next -p here).
Proof. destruct prev, here, next. unfold Pt.Cross, Pt.sub. cbn. lia. Qed.

Lemma ConcavePoints_loop_nth (L : list Point) :
  forall k, (k + 2 <= length L)%nat ->
  Desktop.ConcavePoints_loop (nth k L origin) (nth (S k) L origin) (skipn (k + 2) L)
  = flat_map (fun j =>
      if Pt.Cross (nth j L origin -p nth (j - 1) L origin)
                  (nth (S j) L origin -p nth j L origin) <? 0
      then [nth j L origin] else [])
      (seq (S k) (length L - k - 2)).
Proof.
  intros k Hk.
  remember (length L - k - 2)%nat as m eqn:Hm.
  revert k Hk Hm. induction m as [|m IH]; intros k Hk Hm.
  - rewrite skipn_all2 by lia. reflexivity.
  - assert (Hsk : skipn (k + 2) L = nth (k + 2) L origin :: skipn (S k + 2) L).
    { apply (skipn_nth_cons L origin (k + 2)). lia. }
    rewrite Hsk. cbn [Desktop.ConcavePoints_loop seq flat_map].
    rewrite Cross_from_prev.
    replace (S k - 1)%nat with k by lia.
    replace (S (S k)) with (k + 2)%nat by lia.
    f_equal.
    replace (k + 2)%nat with (S (S k)) at 1 by lia.
    rewrite (IH (S k)) by lia.
    replace (S (S k)) with (k + 2)%nat by lia. reflexivity.
Qed.

(** The vertices in the order in which both scans visit them: the last one
    first. *)
Definition scan_order (pts : list Point) : list nat :=
  (length pts - 1)%nat :: seq 0 (length pts - 1).

Lemma ConcavePoints_turns (pts : list Point) :
  (3 <= length pts)%nat ->
  Desktop.ConcavePoints pts
  = map (fun i => nth i pts origin) (filter (fun i => turn pts i <? 0) (scan_order pts)).
Proof.
  intros Hn. unfold Desktop.ConcavePoints, scan_order.
  destruct (length pts <? 3)%nat eqn:Hlt; [apply Nat.ltb_lt in Hlt; lia|].
  unfold Desktop.back. rewrite last_nth. change (mkPoint 0 0) with origin.
  set (n := length pts) in *.
  set (L := nth (n - 2) pts origin :: nth (n - 1) pts origin :: pts).
  change (Desktop.ConcavePoints_loop (nth (n - 2) pts origin) (nth (n - 1) pts origin) pts)
    with (Desktop.ConcavePoints_loop (nth 0 L origin) (nth 1 L origin) (skipn (0 + 2) L)).
  rewrite ConcavePoints_loop_nth by (unfold L; cbn; lia).
  replace (length L - 0 - 2)%nat with (S (n - 1)) by (unfold L; cbn [length]; lia).
  rewrite <- flat_map_if. cbn [seq flat_map]. f_equal.
  - unfold turn. fold n. cbn [nth Nat.sub].
    assert (Hp : prev_index n (n - 1) = (n - 2)%nat).
    { destruct n as [|[|m]]; try lia. cbn. lia. }
    assert (Hx : next_index n (n - 1) = O).
    { unfold next_index. replace (S (n - 1)) with n by lia.
      rewrite Nat.eqb_refl. reflexivity. }
    rewrite Hp, Hx. unfold L. cbn [nth]. destruct pts; reflexivity.
  - rewrite <- seq_shift, <- seq_shift.
    rewrite !flat_map_concat_map, !map_map. f_equal.
    apply map_ext_in. intros i Hi. apply in_seq in Hi.
    unfold turn. fold n. unfold L. cbn [nth Nat.sub].
    assert (Hx : next_index n i = S i).
    { unfold next_index. destruct (S i =? n)%nat eqn:E; [|reflexivity].
      apply Nat.eqb_eq in E. lia. }
    rewrite Hx. replace (i - 0)%nat with i by lia.
    destruct i as [|i]; cbn [prev_index nth]; reflexivity.
Qed.

(** X22: the concave points of a ring are waypoints.  Of a ring of at least
    three vertices [Ring::ConcavePoints] returns, starting with the last
    vertex, exactly the vertices where the boundary turns clockwise, and
    every one of them is the point of a waypoint that [Paths::Init] makes
    for the ring (which also takes the vertices where the boundary goes
    straight on).  Of a ring of fewer vertices [ConcavePoints] returns every
    vertex, while [Init] makes no waypoint. *)
Theorem ConcavePoints_are_waypoints {Wt : Weight} (Length : Point -> W)
    (rings : Desktop.Polygon) (wps : list DesktopPaths.Waypoint) (pts : Desktop.Ring) :
  ((length pts < 3)%nat ->
     Desktop.ConcavePoints pts = pts
     /\ DesktopPaths.Init_ring Length rings wps pts = wps)
  /\ ((3 <= length pts)%nat ->
        Desktop.ConcavePoints pts
        = map (fun i => nth i pts origin)
              (filter (fun i => turn pts i <? 0) (scan_order pts))
        /\ incl (Desktop.ConcavePoints pts)
                (map DesktopPaths.point (DesktopPaths.Init_ring Length rings wps pts))).
Proof.
  split.
  - intros Hn. apply Nat.ltb_lt in Hn.
    unfold Desktop.ConcavePoints, DesktopPaths.Init_ring. rewrite Hn. split; reflexivity.
  - intros Hn. split; [apply ConcavePoints_turns; exact Hn|].
    rewrite (ConcavePoints_turns pts Hn), (Desktop_Init_ring_turns Length rings wps pts Hn).
    intros p Hp. apply in_or_app. right.
    apply in_map_iff in Hp. destruct Hp as (i & <- & Hi).
    apply in_map_iff. exists i. split; [reflexivity|].
    apply filter_In in Hi. destruct Hi as [Hi Ht]. apply filter_In.
    split; [exact Hi|]. apply Z.ltb_lt in Ht. apply Z.leb_le. lia.
Qed.

Lemma ConcavePoints_are_waypoints_witness :
  (3 <= length ushape)%nat
  /\ Desktop.ConcavePoints ushape
     = map (fun i => nth i ushape origin)
           (filter (fun i => turn ushape i <? 0) (scan_order ushape))
  /\ incl (Desktop.ConcavePoints ushape)
          (map DesktopPaths.point (@DesktopPaths.Init_ring ZWeight taxicab [ushape] [] ushape)).
Proof.
  assert (H : (3 <= length ushape)%nat) by (vm_compute; lia).
  split; [exact H|].
  exact (proj2 (@ConcavePoints_are_waypoints ZWeight taxicab [ushape] [] ushape) H).
Defined.
